(** * Figma2Code: the intermediate node model, the tree builder and the
      layout classifier of [figma_to_angular/alt_nodes.py]

    The development embeds the Python module shallowly:

    - Python floats are IEEE 754 binary64 numbers.  A finite one is held
      as the exact rational it denotes ([Q]), and every arithmetic
      operation rounds its exact result to the nearest binary64 number,
      ties to the even significand ([rnd]); comparisons, [abs], [min],
      [max] and [sorted] are exact.  [/] is true division, [round] is
      Python 3's round-half-to-even to an integer, and [sum] adds from
      left to right, as CPython 3.11 does (from 3.12 on it compensates the
      rounding errors, and the last bit of a sum of three or more floats
      can differ).  A JSON integer is held as the float of the same value:
      Python computes with integers exactly, which gives the same results
      as long as the numbers involved stay below 2 ** 53 in magnitude.
      Infinities and NaN, which finite numbers produce only by overflow,
      are not modelled.
    - Python [str] is a list of Unicode code points ([pystr]); dictionary
      keys and identifiers that the code only compares are [string].
    - A raw record is typed after the design tool's JSON schema
      (numbers where numbers are expected, any key possibly absent); the one
      ill-typed value the module itself introduces, the ["auto"] size of a
      record without bounding box, is kept ([DimAuto]) and arithmetic on it
      raises, as in Python.
    - Exceptions are a [result]; code that mutates an object and may raise
      half-way is a state-and-exception monad [M], so that the mutations
      done before the exception survive, as they do in Python.
    - The object graph built by [convert_to_angular_nodes] is a heap of
      objects addressed by allocation order; [node_map] is an
      insertion-ordered association list, as a Python [dict] is.
    - [analyze_layout] runs on trees ([AngularNode]).  Its [print]s are
      not modelled; those of the tree builder are (the [log]).
    - Of [utils.py], [extract_nodes] and [flatten_figma_tree] run on
      document trees ([FigmaTree]), and [validate_inputs] on strings; of
      the callers, [_get_class_name] of [angular_generator.py] and the cut
      of the flattened list in [enhanced_generator.py] are embedded. *)

From Stdlib Require Import QArith Qround Qabs Qpower Lqa Lia.
From Stdlib Require Import Ascii String Sorting.Sorted Sorting.Permutation.
From stdpp Require Import gmap strings list fin_maps.

Set Default Proof Using "Type".
Local Open Scope Q_scope.

(* ===================================================================== *)
(** * Python values and built-ins                                         *)
(* ===================================================================== *)

Inductive exn : Set :=
| TypeError | ValueError | ZeroDivisionError | IndexError | KeyError | OtherError.

Inductive result (A : Type) : Type :=
| Ok (a : A)
| Raise (e : exn).
Arguments Ok {A} a.
Arguments Raise {A} e.

#[global] Instance result_ret : MRet result := fun A a => Ok a.
#[global] Instance result_bind : MBind result := fun A B k r =>
  match r with
  | Ok a => k a
  | Raise e => Raise e
  end.

Definition raises {A} (r : result A) : bool :=
  match r with Ok _ => false | Raise _ => true end.

(** Comparisons of numbers, as booleans. *)
Definition Qltb (a b : Q) : bool := negb (Qle_bool b a).
Definition Qleb (a b : Q) : bool := Qle_bool a b.

(** [round(q)]: to the nearest integer, ties to the even one. *)
Definition py_round (q : Q) : Z :=
  let f := Qfloor q in
  let r := q - inject_Z f in
  if Qltb r (1 # 2) then f
  else if Qltb (1 # 2) r then (f + 1)%Z
  else if Z.even f then f else (f + 1)%Z.

(** [2 ** e] *)
Definition pow2 (e : Z) : Q := 2 ^ e.

(** The binary exponent of a positive number: the integer [e] with
    [2 ** e <= q < 2 ** (e + 1)]. *)
Definition ilog2 (q : Q) : Z :=
  let e := (Z.log2 (Qnum q) - Z.log2 (Zpos (Qden q)))%Z in
  if Qleb (pow2 e) q then e else (e - 1)%Z.

(** The exponent of the unit in the last place of the binary64 numbers
    near [q]: a significand of 53 bits, and no exponent below that of the
    subnormal numbers. *)
Definition ulp_exponent (q : Q) : Z := Z.max (ilog2 q - 52) (-1074).

(** The binary64 number nearest to [q >= 0]: the significand is rounded
    to an integer, ties to the even one. *)
Definition rnd_abs (q : Q) : Q :=
  let e := ulp_exponent q in inject_Z (py_round (q / pow2 e)) * pow2 e.

Definition rnd (q : Q) : Q := if Qltb q 0 then - rnd_abs (- q) else rnd_abs q.

(** [a + b], [a - b] and [a / b] on floats. *)
Definition fadd (a b : Q) : Q := rnd (a + b).
Definition fsub (a b : Q) : Q := rnd (a - b).
Definition fdiv (a b : Q) : Q := rnd (a / b).

(** The float that a decimal literal denotes. *)
Definition py_float (q : Q) : Q := rnd q.

(** [sum(l)]: starts from 0 and adds from the left. *)
Definition py_sum (l : list Q) : Q := fold_left fadd l 0.

(** [max(l)], [min(l)]: [ValueError] on an empty list; the first extremal
    element is kept on ties. *)
Definition py_max (l : list Q) : result Q :=
  match l with
  | [] => Raise ValueError
  | x :: l' => Ok (fold_left (fun m y => if Qltb m y then y else m) l' x)
  end.

Definition py_min (l : list Q) : result Q :=
  match l with
  | [] => Raise ValueError
  | x :: l' => Ok (fold_left (fun m y => if Qltb y m then y else m) l' x)
  end.

(** [a / n] with [n = len(...)]. *)
Definition py_truediv (a : Q) (n : nat) : result Q :=
  match n with
  | O => Raise ZeroDivisionError
  | S _ => Ok (fdiv a (inject_Z (Z.of_nat n)))
  end.

(** [len(set(l))] for a list of numbers: the number of numerically distinct
    values. *)
Fixpoint distinct_Q (l : list Q) : list Q :=
  match l with
  | [] => []
  | x :: l' =>
      if existsb (Qeq_bool x) l' then distinct_Q l' else x :: distinct_Q l'
  end.

(** [sorted(l, key=...)]: Python's sort is stable; elements with equal keys
    keep their order. *)
Section Sorted.
Context {A : Type} (key : A -> Q).

Fixpoint insert_by_key (a : A) (l : list A) : list A :=
  match l with
  | [] => [a]
  | b :: l' =>
      if Qleb (key a) (key b) then a :: b :: l' else b :: insert_by_key a l'
  end.

Definition py_sorted (l : list A) : list A := foldr insert_by_key [] l.

(** [max(l, key=...)] and [min(l, key=...)] on a non-empty list headed by
    [a]: the first extremal element. *)
Definition max_by_key (a : A) (l : list A) : A :=
  fold_left (fun m y => if Qltb (key m) (key y) then y else m) l a.

Definition min_by_key (a : A) (l : list A) : A :=
  fold_left (fun m y => if Qltb (key y) (key m) then y else m) l a.
End Sorted.

(* ===================================================================== *)
(** * Strings and [_clean_name]                                           *)
(* ===================================================================== *)

(** A Python [str]: a sequence of code points. *)
Definition pystr := list N.

Definition cp (s : string) : pystr :=
  map N_of_ascii (list_ascii_of_string s).

Definition in_range (lo hi c : N) : bool := ((lo <=? c) && (c <=? hi))%N.

Definition is_upper (c : N) : bool := in_range 65 90 c.
Definition is_lower (c : N) : bool := in_range 97 122 c.
Definition is_digit (c : N) : bool := in_range 48 57 c.
Definition is_underscore (c : N) : bool := (c =? 95)%N.
Definition is_hyphen (c : N) : bool := (c =? 45)%N.

(** [\s] of [re] on [str] patterns: the Unicode white space. *)
Definition is_space (c : N) : bool :=
  in_range 9 13 c || in_range 28 32 c || (c =? 133)%N || (c =? 160)%N
  || (c =? 5760)%N || in_range 8192 8202 c || (c =? 8232)%N || (c =? 8233)%N
  || (c =? 8239)%N || (c =? 8287)%N || (c =? 12288)%N.

(** The class [[a-zA-Z0-9_\-\s]]. *)
Definition is_kept (c : N) : bool :=
  is_lower c || is_upper c || is_digit c || is_underscore c || is_hyphen c
  || is_space c.

(** [re.sub(r'[^a-zA-Z0-9_\-\s]', '', name)] *)
Definition strip_special (s : pystr) : pystr := List.filter is_kept s.

(** [re.sub(r'\s+', '-', s)]: every maximal run of white space becomes one
    hyphen.  [in_run] tells that the previous character was white space. *)
Fixpoint sub_spaces (in_run : bool) (s : pystr) : pystr :=
  match s with
  | [] => []
  | c :: s' =>
      if is_space c
      then (if in_run then sub_spaces true s' else 45%N :: sub_spaces true s')
      else c :: sub_spaces false s'
  end.

(** [str.lower()] and [str.isalpha()].  They are only applied to strings
    that [strip_special] and [sub_spaces] have reduced to the characters
    [[a-zA-Z0-9_-]] (lemma [cleaned_chars]), where they are the ASCII
    ones. *)
Definition lower_char (c : N) : N := if is_upper c then (c + 32)%N else c.
Definition lower (s : pystr) : pystr := map lower_char s.
Definition isalpha (c : N) : bool := is_lower c || is_upper c.

Definition _clean_name (name : pystr) : pystr :=
  match name with
  | [] => cp "element"
  | _ =>
      let clean := strip_special name in
      let clean := lower (sub_spaces false clean) in
      let clean :=
        match clean with
        | c :: _ => if negb (isalpha c) then cp "el-" ++ clean else clean
        | [] => clean
        end in
      match clean with
      | [] => cp "element"
      | _ => clean
      end
  end.

(** [str.lower()] on the identifiers of the design tool ([layoutMode] is one
    of its ASCII keywords). *)
Fixpoint lower_string (s : string) : string :=
  match s with
  | EmptyString => EmptyString
  | String a s' => String (ascii_of_N (lower_char (N_of_ascii a))) (lower_string s')
  end.

(* ===================================================================== *)
(** * The raw records                                                     *)
(* ===================================================================== *)

(** Opaque JSON data that the module only passes through. *)
#[local] Unset Elimination Schemes.
Inductive pyobj : Type :=
| PNone
| PBool (b : bool)
| PNum (q : Q)
| PStr (s : string)
| PList (l : list pyobj)
| PDict (d : list (string * pyobj)).
#[local] Set Elimination Schemes.

(** [node["absoluteBoundingBox"]]: each key may be missing. *)
Record BBox : Type := mkBBox {
  bbox_x : option Q;
  bbox_y : option Q;
  bbox_width : option Q;
  bbox_height : option Q
}.

(** What [_extract_style], [_extract_content] and [_detect_component_type]
    return. *)
Record Extracted : Type := mkExtracted {
  ex_style : pyobj;
  ex_content : pyobj;
  ex_component_type : string
}.

(** A raw record (a [dict]).  [None] is a missing key.  The keys that only
    [_extract_style], [_extract_content] and [_detect_component_type] read
    (fills, strokes, effects, text style, ...) are represented by [fn_rest]:
    what these three functions make of them, their values or the exception
    they raise on a malformed record. *)
Record FigmaNode : Type := mkFigmaNode {
  fn_id : option string;
  fn_name : option pystr;
  fn_type : option string;
  fn_parent_id : option string;
  fn_absoluteBoundingBox : option BBox;
  fn_constraints : option (gmap string string);
  fn_layoutMode : option string;
  fn_itemSpacing : option Q;
  fn_paddingLeft : option Q;
  fn_paddingRight : option Q;
  fn_paddingTop : option Q;
  fn_paddingBottom : option Q;
  fn_primaryAxisAlignItems : option string;
  fn_counterAxisAlignItems : option string;
  fn_has_children : bool;
  fn_rest : result Extracted
}.

(** An element of the input list; the code checks [isinstance(node, dict)]. *)
Inductive raw : Type :=
| NotDict
| Dict (d : FigmaNode).

(* ===================================================================== *)
(** * The node model                                                      *)
(* ===================================================================== *)

(** [position["position"]] *)
Inductive pos_mode : Set := Absolute | Relative.

(** [size["width"]], [size["height"]]: the string ["auto"] or a number. *)
Inductive dim : Type := DimAuto | DimNum (q : Q).

(** [size["width_type"]], [size["height_type"]] *)
Inductive size_kind : Set := Fixed | Flexible.

(** [layout["type"]] *)
Inductive layout_type : Set := LDefault | LAutoLayout | LGrid.

Record Position : Type := mkPosition {
  pos_x : Q;
  pos_y : Q;
  pos_position : pos_mode
}.

Record Size : Type := mkSize {
  size_width : dim;
  size_height : dim;
  size_width_type : size_kind;
  size_height_type : size_kind
}.

Record Padding : Type := mkPadding {
  pad_top : Q;
  pad_right : Q;
  pad_bottom : Q;
  pad_left : Q
}.

Record Layout : Type := mkLayout {
  layout_type_of : layout_type;
  layout_direction : option string;
  layout_spacing : Q;
  layout_padding : Padding;
  layout_alignment : gmap string string;
  layout_constraints : gmap string string
}.

(** The values stored in [flex_props] and [grid_props]: a keyword, the
    f-string ["{q}px"], the f-string ["repeat({n}, {track})"]. *)
Inductive css_value : Type :=
| CssKw (s : string)
| CssPx (q : Q)
| CssRepeat (n : nat) (track : string).

(** The fields of an [AngularNode] object, its links to other objects
    ([parent], [children]) apart. *)
Record NodeData : Type := mkNodeData {
  node_id : string;
  node_name : pystr;
  node_type : string;
  position : Position;
  node_size : Size;
  style : pyobj;
  layout : Layout;
  content : pyobj;
  component_type : string;
  is_container : bool;
  flex_props : gmap string css_value;
  grid_props : gmap string css_value;
  warnings : list string
}.

(** An object of the heap that [convert_to_angular_nodes] builds. *)
Record Obj : Type := mkObj {
  obj_data : NodeData;
  obj_parent : option nat;
  obj_children : list nat
}.

(** A tree of nodes, as [analyze_layout] traverses it. *)
#[local] Unset Elimination Schemes.
Inductive AngularNode : Type :=
| Node (data : NodeData) (children : list AngularNode).
#[local] Set Elimination Schemes.

Definition data_of (t : AngularNode) : NodeData :=
  match t with Node d _ => d end.
Definition children_of (t : AngularNode) : list AngularNode :=
  match t with Node _ cs => cs end.

(* ===================================================================== *)
(** * [AngularNode.__init__] and its extractors                           *)
(* ===================================================================== *)

(** [d.get(k) == v] on a dictionary of strings. *)
Definition get_is (d : gmap string string) (k v : string) : bool :=
  bool_decide (d !! k = Some v).

(** [node.get("constraints", {})] *)
Definition constraints_of (node : FigmaNode) : gmap string string :=
  default ∅ (fn_constraints node).

Definition _extract_position (node : FigmaNode) : Position :=
  let position := mkPosition 0 0 Relative in
  let position :=
    match fn_absoluteBoundingBox node with
    | Some bbox =>
        mkPosition (default 0 (bbox_x bbox)) (default 0 (bbox_y bbox))
                   (pos_position position)
    | None => position
    end in
  if get_is (constraints_of node) "horizontal" "LEFT_RIGHT"
     || get_is (constraints_of node) "vertical" "TOP_BOTTOM"
  then mkPosition (pos_x position) (pos_y position) Absolute
  else position.

Definition _extract_size (node : FigmaNode) : Size :=
  let '(w, h) :=
    match fn_absoluteBoundingBox node with
    | Some bbox =>
        (DimNum (default 0 (bbox_width bbox)), DimNum (default 0 (bbox_height bbox)))
    | None => (DimAuto, DimAuto)
    end in
  let wt := if get_is (constraints_of node) "width" "FIXED" then Fixed else Flexible in
  let ht := if get_is (constraints_of node) "height" "FIXED" then Fixed else Flexible in
  mkSize w h wt ht.

Definition insert_if_some (k : string) (o : option string)
    (m : gmap string string) : gmap string string :=
  match o with
  | Some v => <[k := v]> m
  | None => m
  end.

Definition _extract_layout (node : FigmaNode) : Layout :=
  let alignment : gmap string string :=
    <["horizontal" := "NONE"%string]> (<["vertical" := "NONE"%string]> ∅) in
  match fn_layoutMode node with
  | None =>
      mkLayout LDefault None 0 (mkPadding 0 0 0 0) alignment (constraints_of node)
  | Some mode =>
      mkLayout LAutoLayout (Some (lower_string mode))
        (default 0 (fn_itemSpacing node))
        (mkPadding (default 0 (fn_paddingTop node)) (default 0 (fn_paddingRight node))
                   (default 0 (fn_paddingBottom node)) (default 0 (fn_paddingLeft node)))
        (insert_if_some "counter" (fn_counterAxisAlignItems node)
           (insert_if_some "primary" (fn_primaryAxisAlignItems node) alignment))
        (constraints_of node)
  end.

Definition container_types : list string :=
  ["FRAME"; "GROUP"; "COMPONENT"; "INSTANCE"]%string.

Definition _determine_if_container (node : FigmaNode) : bool :=
  match fn_type node with
  | Some t => bool_decide (t ∈ container_types)
  | None => false
  end || fn_has_children node.

(** [AngularNode(figma_node)]: the fields of the new object, or the
    exception of an extractor. *)
Definition AngularNode_init (node : FigmaNode) : result NodeData :=
  ex ← fn_rest node;
  mret {| node_id := default ""%string (fn_id node);
          node_name := _clean_name (default [] (fn_name node));
          node_type := default ""%string (fn_type node);
          position := _extract_position node;
          node_size := _extract_size node;
          style := ex_style ex;
          layout := _extract_layout node;
          content := ex_content ex;
          component_type := ex_component_type ex;
          is_container := _determine_if_container node;
          flex_props := ∅;
          grid_props := ∅;
          warnings := [] |}.

(* ===================================================================== *)
(** * State and exceptions                                                *)
(* ===================================================================== *)

(** A computation that reads and writes a state [S] and returns or raises;
    the state written before an exception is kept. *)
Definition M (S A : Type) : Type := S -> result A * S.

#[global] Instance M_ret {S} : MRet (M S) := fun A a s => (Ok a, s).
#[global] Instance M_bind {S} : MBind (M S) := fun A B k m s =>
  match m s with
  | (Ok a, s') => k a s'
  | (Raise e, s') => (Raise e, s')
  end.

Definition get {S} : M S S := fun s => (Ok s, s).
Definition modify {S} (f : S -> S) : M S unit := fun s => (Ok tt, f s).
Definition lift {S A} (r : result A) : M S A := fun s => (r, s).

(** [try: body except Exception as e: handler(e)] *)
Definition try_except {S A} (body : M S A) (handler : exn -> M S A) : M S A :=
  fun s =>
    match body s with
    | (Ok a, s') => (Ok a, s')
    | (Raise e, s') => handler e s'
    end.

(** [for a in l: body(a)] *)
Fixpoint for_each {S A} (l : list A) (body : A -> M S unit) : M S unit :=
  match l with
  | [] => mret tt
  | a :: l' => _ ← body a; for_each l' body
  end.

(* ===================================================================== *)
(** * The tree builder: [convert_to_angular_nodes]                        *)
(* ===================================================================== *)

(** What the function prints. *)
Inductive event : Type :=
| WarnNoInput
| WarnNoId
| ErrConvert (id : string) (e : exn)
| ErrFirstPass (e : exn)
| ErrRelation (id : string) (e : exn)
| ErrSecondPass (e : exn)
| WarnFallbackRoot (id : string).

(** The objects allocated so far, the local variables [node_map] and
    [root_nodes] (which hold addresses of objects), and the output. *)
Record BState : Type := mkBState {
  heap : list Obj;
  node_map : list (string * nat);
  root_nodes : list nat;
  log : list event
}.

Definition initial : BState := mkBState [] [] [] [].

(** [d[k] = v] on an insertion-ordered dictionary: an existing key keeps its
    place, a new one goes last. *)
Fixpoint dict_set (k : string) (v : nat) (d : list (string * nat))
    : list (string * nat) :=
  match d with
  | [] => [(k, v)]
  | (k', v') :: d' =>
      if decide (k = k') then (k, v) :: d' else (k', v') :: dict_set k v d'
  end.

(** [d[k]] when [k in d] *)
Fixpoint dict_get (k : string) (d : list (string * nat)) : option nat :=
  match d with
  | [] => None
  | (k', v) :: d' => if decide (k = k') then Some v else dict_get k d'
  end.

Definition print (e : event) : M BState unit :=
  modify (fun s => mkBState (heap s) (node_map s) (root_nodes s) (log s ++ [e])).

(** Allocation of the object that [AngularNode(node)] returns. *)
Definition new_object (d : NodeData) : M BState nat :=
  fun s =>
    (Ok (length (heap s)),
     mkBState (heap s ++ [mkObj d None []]) (node_map s) (root_nodes s) (log s)).

Definition set_node_map (k : string) (a : nat) : M BState unit :=
  modify (fun s => mkBState (heap s) (dict_set k a (node_map s)) (root_nodes s) (log s)).

Definition append_root (a : nat) : M BState unit :=
  modify (fun s => mkBState (heap s) (node_map s) (root_nodes s ++ [a]) (log s)).

(** [parent.add_child(child)]: [parent.children.append(child)], then
    [child.parent = parent]. *)
Definition add_child (parent child : nat) : M BState unit :=
  modify (fun s =>
    let h := alter (fun o => mkObj (obj_data o) (obj_parent o) (obj_children o ++ [child]))
                   parent (heap s) in
    let h := alter (fun o => mkObj (obj_data o) (Some parent) (obj_children o))
                   child h in
    mkBState h (node_map s) (root_nodes s) (log s)).

(** Reading an attribute of the object at an address.  A Python reference
    always denotes an object; the lookup of the model can fail, and the
    theorems on the tree builder show that it does not. *)
Definition deref (a : nat) : M BState Obj :=
  fun s =>
    match heap s !! a with
    | Some o => (Ok o, s)
    | None => (Raise OtherError, s)
    end.

(** [node["id"]] *)
Definition item_id (node : FigmaNode) : result string :=
  match fn_id node with
  | Some i => Ok i
  | None => Raise KeyError
  end.

(** The loop that fills [valid_nodes]. *)
Fixpoint select_valid (figma_nodes : list raw) : M BState (list FigmaNode) :=
  match figma_nodes with
  | [] => mret []
  | node :: rest =>
      match node with
      | Dict d =>
          match fn_id d with
          | Some _ => valid ← select_valid rest; mret (d :: valid)
          | None => _ ← print WarnNoId; select_valid rest
          end
      | NotDict => _ ← print WarnNoId; select_valid rest
      end
  end.

(** The body of the first loop, inside its [try]. *)
Definition first_pass_step (node : FigmaNode) : M BState unit :=
  d ← lift (AngularNode_init node);
  angular_node ← new_object d;
  _ ← set_node_map (node_id d) angular_node;
  match fn_parent_id node with
  | None => append_root angular_node
  | Some _ => mret tt
  end.

(** The body of the second loop, inside its [try]. *)
Definition second_pass_step (node : FigmaNode) : M BState unit :=
  s ← get;
  match fn_parent_id node with
  | Some p =>
      match dict_get p (node_map s) with
      | Some parent =>
          i ← lift (item_id node);
          match dict_get i (node_map s) with
          | Some child => add_child parent child
          | None => mret tt
          end
      | None => mret tt
      end
  | None => mret tt
  end.

(** [list(node_map.values())[0]] *)
Definition first_value (d : list (string * nat)) : result nat :=
  match d with
  | (_, v) :: _ => Ok v
  | [] => Raise IndexError
  end.

Definition unknown_id (node : FigmaNode) : string :=
  default "unknown"%string (fn_id node).

Definition convert_to_angular_nodes (figma_nodes : list raw) : M BState (list nat) :=
  match figma_nodes with
  | [] => _ ← print WarnNoInput; mret []
  | _ =>
      _ ← modify (fun s => mkBState (heap s) [] [] (log s));
      valid_nodes ← select_valid figma_nodes;
      _ ← try_except
            (for_each valid_nodes (fun node =>
               try_except (first_pass_step node)
                          (fun e => print (ErrConvert (unknown_id node) e))))
            (fun e => print (ErrFirstPass e));
      _ ← try_except
            (for_each valid_nodes (fun node =>
               try_except (second_pass_step node)
                          (fun e => print (ErrRelation (unknown_id node) e))))
            (fun e => print (ErrSecondPass e));
      s ← get;
      _ ← match root_nodes s, node_map s with
          | [], _ :: _ =>
              first_node ← lift (first_value (node_map s));
              _ ← append_root first_node;
              o ← deref first_node;
              print (WarnFallbackRoot (node_id (obj_data o)))
          | _, _ => mret tt
          end;
      s ← get;
      mret (root_nodes s)
  end.

(* ===================================================================== *)
(** * The layout classifier                                               *)
(* ===================================================================== *)

Definition x_of (c : NodeData) : Q := pos_x (position c).
Definition y_of (c : NodeData) : Q := pos_y (position c).

(** [q + d] and [d / 2] where [d] is a [size] entry: [TypeError] on
    ["auto"]. *)
Definition add_dim (q : Q) (d : dim) : result Q :=
  match d with
  | DimNum w => Ok (fadd q w)
  | DimAuto => Raise TypeError
  end.

Definition half_dim (d : dim) : result Q :=
  match d with
  | DimNum w => Ok (fdiv w 2)
  | DimAuto => Raise TypeError
  end.

(** [c.position["x"] + c.size["width"]], [c.position["y"] + c.size["height"]] *)
Definition right_edge (c : NodeData) : result Q := add_dim (x_of c) (size_width (node_size c)).
Definition bottom_edge (c : NodeData) : result Q := add_dim (y_of c) (size_height (node_size c)).

(** [[f(c) for c in l]] with an [f] that may raise. *)
Fixpoint map_result {A B} (f : A -> result B) (l : list A) : result (list B) :=
  match l with
  | [] => Ok []
  | a :: l' => b ← f a; bs ← map_result f l'; mret (b :: bs)
  end.

(** [all(abs(v - ref) <= tol for v in l)] and the same with [<]. *)
Definition all_within_le (tol ref : Q) (l : list Q) : bool :=
  forallb (fun v => Qleb (Qabs (fsub v ref)) tol) l.
Definition all_within_lt (tol ref : Q) (l : list Q) : bool :=
  forallb (fun v => Qltb (Qabs (fsub v ref)) tol) l.

(** The common body of [_children_aligned_horizontally] ([along] is [x],
    [across] is [y]) and [_children_aligned_vertically] (the converse). *)
Definition children_aligned (along across : NodeData -> Q)
    (children : list NodeData) : result bool :=
  if (length children <? 2)%nat then Ok false
  else
    let across_positions := map across children in
    avg ← py_truediv (py_sum across_positions) (length across_positions);
    let max_deviation := 5 in
    let aligned := all_within_le max_deviation avg across_positions in
    if aligned then
      let along_positions := map along children in
      hi ← py_max along_positions;
      lo ← py_min along_positions;
      mret (Qltb 20 (fsub hi lo))
    else Ok false.

Definition _children_aligned_horizontally := children_aligned x_of y_of.
Definition _children_aligned_vertically := children_aligned y_of x_of.

(** The loop [for i in range(len(sorted_children) - 1)]: for each adjacent
    pair, the start of the next child minus the far edge of the current
    one. *)
Fixpoint adjacent_spacings (start : NodeData -> Q) (far_edge : NodeData -> result Q)
    (sorted_children : list NodeData) : result (list Q) :=
  match sorted_children with
  | curr :: ((next :: _) as rest) =>
      curr_far ← far_edge curr;
      spacings ← adjacent_spacings start far_edge rest;
      mret (fsub (start next) curr_far :: spacings)
  | _ => Ok []
  end.

Definition positive (l : list Q) : list Q := List.filter (Qltb 0) l.

(** The common body of [_calculate_horizontal_spacing] and
    [_calculate_vertical_spacing]. *)
Definition calculate_spacing (start : NodeData -> Q) (far_edge : NodeData -> result Q)
    (children : list NodeData) : result Q :=
  if (length children <? 2)%nat then Ok 0
  else
    let sorted_children := py_sorted start children in
    spacings ← adjacent_spacings start far_edge sorted_children;
    let positive_spacings := positive spacings in
    match positive_spacings with
    | [] => Ok 0
    | _ => py_truediv (py_sum positive_spacings) (length positive_spacings)
    end.

Definition _calculate_horizontal_spacing := calculate_spacing x_of right_edge.
Definition _calculate_vertical_spacing := calculate_spacing y_of bottom_edge.

(** The common body of [_detect_vertical_alignment] and
    [_detect_horizontal_alignment].  [min(...)] and [max(...)], which the
    source evaluates once per element of a non-empty list, are evaluated
    once. *)
Definition detect_alignment (start : NodeData -> Q) (far_edge : NodeData -> result Q)
    (extent : NodeData -> dim) (children : list NodeData) : result (option string) :=
  match children with
  | [] => Ok None
  | _ =>
      let start_positions := map start children in
      lo ← py_min start_positions;
      if all_within_lt 5 lo start_positions then Ok (Some "flex-start"%string)
      else
        far_positions ← map_result far_edge children;
        hi ← py_max far_positions;
        if all_within_lt 5 hi far_positions then Ok (Some "flex-end"%string)
        else
          centers ← map_result (fun c => h ← half_dim (extent c); mret (fadd (start c) h))
                       children;
          center_avg ← py_truediv (py_sum centers) (length centers);
          if all_within_lt 10 center_avg centers then Ok (Some "center"%string)
          else if (1 <? length (distinct_Q start_positions))%nat
                  && (2 <? length children)%nat
               then Ok (Some "space-between"%string)
               else Ok None
  end.

Definition _detect_vertical_alignment :=
  detect_alignment y_of bottom_edge (fun c => size_height (node_size c)).
Definition _detect_horizontal_alignment :=
  detect_alignment x_of right_edge (fun c => size_width (node_size c)).

(** [round(q / 10) * 10] *)
Definition bucket (q : Q) : Z := (py_round (fdiv q 10) * 10)%Z.

(** The [set] of the rounded coordinates of the children. *)
Definition buckets (coord : NodeData -> Q) (children : list NodeData) : gset Z :=
  list_to_set (map (fun c => bucket (coord c)) children).

Definition _appears_to_be_grid (children : list NodeData) : bool :=
  if (length children <? 4)%nat then false
  else
    let x_positions := buckets x_of children in
    let y_positions := buckets y_of children in
    (1 <? size x_positions)%nat && (1 <? size y_positions)%nat.

Definition _detect_grid_dimensions (children : list NodeData) : nat * nat :=
  (size (buckets x_of children), size (buckets y_of children)).

(** [column_positions[k]] / [row_positions[k]]: the children of bucket [k],
    in the order of [children]. *)
Definition bucket_group (coord : NodeData -> Q) (children : list NodeData) (k : Z)
    : list NodeData :=
  List.filter (fun c => (bucket (coord c) =? k)%Z) children.

(** [sorted(column_positions.keys())] *)
Definition sorted_buckets (coord : NodeData -> Q) (children : list NodeData) : list Z :=
  py_sorted inject_Z (elements (buckets coord children)).

(** [max(l, key=f)] with a key that may raise. *)
Definition py_max_by (key : NodeData -> result Q) (l : list NodeData) : result NodeData :=
  match l with
  | [] => Raise ValueError
  | a :: l' =>
      ka ← key a;
      kl ← map_result (fun c => k ← key c; mret (k, c)) l';
      mret (snd (max_by_key fst (ka, a) kl))
  end.

(** [min(l, key=f)] *)
Definition py_min_by (key : NodeData -> Q) (l : list NodeData) : result NodeData :=
  match l with
  | [] => Raise ValueError
  | a :: l' => Ok (min_by_key key a l')
  end.

(** The loop [for i in range(len(sorted_cols) - 1)] of
    [_calculate_grid_gaps], and the one over rows. *)
Fixpoint bucket_gaps (coord : NodeData -> Q) (far_edge : NodeData -> result Q)
    (children : list NodeData) (keys : list Z) : result (list Q) :=
  match keys with
  | col :: ((next_col :: _) as rest) =>
      rightmost ← py_max_by far_edge (bucket_group coord children col);
      leftmost ← py_min_by coord (bucket_group coord children next_col);
      far ← far_edge rightmost;
      gaps ← bucket_gaps coord far_edge children rest;
      mret (fsub (coord leftmost) far :: gaps)
  | _ => Ok []
  end.

(** [sum(l) / len(l) if l else 0] *)
Definition average_or_zero (l : list Q) : result Q :=
  match l with
  | [] => Ok 0
  | _ => py_truediv (py_sum l) (length l)
  end.

Definition _calculate_grid_gaps (children : list NodeData) (cols rows : nat)
    : result (Q * Q) :=
  h_gaps ← bucket_gaps x_of right_edge children (sorted_buckets x_of children);
  v_gaps ← bucket_gaps y_of bottom_edge children (sorted_buckets y_of children);
  h_gap ← average_or_zero h_gaps;
  v_gap ← average_or_zero v_gaps;
  mret (h_gap, v_gap).

(** ** Assignments to the fields of a node *)

Definition with_layout (f : Layout -> Layout) (n : NodeData) : NodeData :=
  mkNodeData (node_id n) (node_name n) (node_type n) (position n) (node_size n) (style n)
    (f (layout n)) (content n) (component_type n) (is_container n)
    (flex_props n) (grid_props n) (warnings n).

Definition with_flex_props (f : gmap string css_value -> gmap string css_value)
    (n : NodeData) : NodeData :=
  mkNodeData (node_id n) (node_name n) (node_type n) (position n) (node_size n) (style n)
    (layout n) (content n) (component_type n) (is_container n)
    (f (flex_props n)) (grid_props n) (warnings n).

Definition with_grid_props (f : gmap string css_value -> gmap string css_value)
    (n : NodeData) : NodeData :=
  mkNodeData (node_id n) (node_name n) (node_type n) (position n) (node_size n) (style n)
    (layout n) (content n) (component_type n) (is_container n)
    (flex_props n) (f (grid_props n)) (warnings n).

Definition with_position_mode (m : pos_mode) (n : NodeData) : NodeData :=
  mkNodeData (node_id n) (node_name n) (node_type n)
    (mkPosition (pos_x (position n)) (pos_y (position n)) m) (node_size n) (style n)
    (layout n) (content n) (component_type n) (is_container n)
    (flex_props n) (grid_props n) (warnings n).

Definition set_type (t : layout_type) (l : Layout) : Layout :=
  mkLayout t (layout_direction l) (layout_spacing l) (layout_padding l)
    (layout_alignment l) (layout_constraints l).
Definition set_direction (d : string) (l : Layout) : Layout :=
  mkLayout (layout_type_of l) (Some d) (layout_spacing l) (layout_padding l)
    (layout_alignment l) (layout_constraints l).
Definition set_spacing (q : Q) (l : Layout) : Layout :=
  mkLayout (layout_type_of l) (layout_direction l) q (layout_padding l)
    (layout_alignment l) (layout_constraints l).

(** The dictionary literal [{"display": "flex", "flex-direction": d}] *)
Definition flex_literal (d : string) : gmap string css_value :=
  <["flex-direction" := CssKw d]> (<["display" := CssKw "flex"]> ∅).

(** The dictionary literal assigned to [grid_props]. *)
Definition grid_literal (cols rows : nat) : gmap string css_value :=
  <["grid-template-rows" := CssRepeat rows "auto"]>
    (<["grid-template-columns" := CssRepeat cols "1fr"]>
       (<["display" := CssKw "grid"]> ∅)).

(** A dictionary is true when it is not empty. *)
Definition truthy (m : gmap string css_value) : bool := negb (bool_decide (m = ∅)).

(** ** [_analyze_node_layout] *)

(** The body of the row branch and of the column branch: the three
    assignments, then the spacing, then the cross-axis alignment. *)
Definition classify_flex (direction flex_direction : string)
    (spacing_of : list NodeData -> result Q)
    (alignment_of : list NodeData -> result (option string))
    (children : list NodeData) : M NodeData unit :=
  _ ← modify (with_layout (set_type LAutoLayout));
  _ ← modify (with_layout (set_direction direction));
  _ ← modify (with_flex_props (fun _ => flex_literal flex_direction));
  spacing ← lift (spacing_of children);
  _ ← (if Qltb 0 spacing
       then _ ← modify (with_layout (set_spacing spacing));
            modify (with_flex_props (<["gap" := CssPx spacing]>))
       else mret tt);
  alignment ← lift (alignment_of children);
  match alignment with
  | Some a => modify (with_flex_props (<["align-items" := CssKw a]>))
  | None => mret tt
  end.

(** The body of the grid branch. *)
Definition classify_grid (children : list NodeData) : M NodeData unit :=
  _ ← modify (with_layout (set_type LGrid));
  let '(cols, rows) := _detect_grid_dimensions children in
  _ ← modify (with_grid_props (fun _ => grid_literal cols rows));
  gaps ← lift (_calculate_grid_gaps children cols rows);
  let '(h_gap, v_gap) := gaps in
  _ ← (if Qltb 0 h_gap
       then modify (with_grid_props (<["column-gap" := CssPx h_gap]>))
       else mret tt);
  if Qltb 0 v_gap
  then modify (with_grid_props (<["row-gap" := CssPx v_gap]>))
  else mret tt.

Definition is_absolute (c : NodeData) : bool :=
  match pos_position (position c) with
  | Absolute => true
  | Relative => false
  end.

(** The last statement of [_analyze_node_layout]. *)
Definition contain_absolute (children : list NodeData) : M NodeData unit :=
  let positioned_elements := List.filter is_absolute children in
  match positioned_elements with
  | [] => mret tt
  | _ =>
      node ← get;
      if negb (truthy (flex_props node)) && negb (truthy (grid_props node))
      then modify (with_position_mode Relative)
      else mret tt
  end.

(** The [if] / [elif] chain of [_analyze_node_layout]. *)
Definition classify (children : list NodeData) : M NodeData unit :=
  row ← @lift NodeData _ (_children_aligned_horizontally children);
  if (row : bool)
  then classify_flex "horizontal" "row" _calculate_horizontal_spacing
         _detect_vertical_alignment children
  else
    column ← @lift NodeData _ (_children_aligned_vertically children);
    if (column : bool)
    then classify_flex "vertical" "column" _calculate_vertical_spacing
           _detect_horizontal_alignment children
    else if _appears_to_be_grid children
         then classify_grid children
         else mret tt.

(** The state is the node; [children] are the fields of [node.children],
    which the function only reads. *)
Definition _analyze_node_layout (children : list NodeData) : M NodeData unit :=
  node ← @get NodeData;
  match negb (is_container node), children with
  | true, _ | _, [] => mret tt
  | false, _ :: _ =>
      _ ← classify children;
      contain_absolute children
  end.

(** ** [analyze_layout] *)

(** One iteration of the loop of [analyze_layout]: the node, then
    [analyze_layout([child])] for each child; an exception of
    [_analyze_node_layout] skips the children. *)
Fixpoint analyze_layout_node (t : AngularNode) : AngularNode :=
  match t with
  | Node d cs =>
      match _analyze_node_layout (map data_of cs) d with
      | (Ok _, d') => Node d' (map analyze_layout_node cs)
      | (Raise _, d') => Node d' cs
      end
  end.

Definition analyze_layout (nodes : list AngularNode) : list AngularNode :=
  map analyze_layout_node nodes.

(* ===================================================================== *)
(** * [AngularNode.to_dict]                                               *)
(* ===================================================================== *)

(** The dictionary that [to_dict] returns; the key ["warnings"] is there
    only for a non-empty list. *)
Record DebugDict : Type := mkDebugDict {
  dd_id : string;
  dd_name : pystr;
  dd_type : string;
  dd_component_type : string;
  dd_is_container : bool;
  dd_position : Position;
  dd_size : Size;
  dd_layout : Layout;
  dd_has_parent : bool;
  dd_children_count : nat;
  dd_warnings : option (list string)
}.

Definition to_dict (self : Obj) : DebugDict :=
  let d := obj_data self in
  mkDebugDict (node_id d) (node_name d) (node_type d) (component_type d)
    (is_container d) (position d) (node_size d) (layout d)
    (match obj_parent self with Some _ => true | None => false end)
    (length (obj_children self))
    (match warnings d with [] => None | w => Some w end).

(* ===================================================================== *)
(** * [utils.py]: [extract_nodes] and [flatten_figma_tree]                *)
(* ===================================================================== *)

(** A node of the document, before it is flattened: its keys other than
    ["children"] (of [fields], [fn_has_children] is not read) and the list
    under ["children"], when the key is present. *)
#[local] Unset Elimination Schemes.
Inductive FigmaTree : Type :=
| Tree (fields : FigmaNode) (children : option (list FigmaTree)).
#[local] Set Elimination Schemes.

Definition tree_fields (node : FigmaTree) : FigmaNode :=
  match node with Tree fields _ => fields end.

(** [node["children"]] when ["children" in node], the empty list
    otherwise. *)
Definition tree_children (node : FigmaTree) : list FigmaTree :=
  match node with Tree _ children => default [] children end.

(** The inner function [traverse_node] of [extract_nodes]; the list is what
    it appends to [nodes]. *)
Fixpoint traverse_node (node : FigmaTree) : list FigmaTree :=
  match node with
  | Tree fields children =>
      match fn_type fields with
      | None => []
      | Some _ =>
          node :: match children with
                  | Some cs => flat_map traverse_node cs
                  | None => []
                  end
      end
  end.

(** [extract_nodes(document)].  [None] is a missing or empty document: a
    dictionary without keys is false, and it has no ["type"] either. *)
Definition extract_nodes (document : option FigmaTree) : list FigmaTree :=
  match document with
  | Some node => traverse_node node
  | None => []
  end.

(** What [process_node] stores under ["parent_id"] and ["parent_type"]:
    [parent.get("id")] and [parent.get("type")], each [None] when the
    parent has no such key. *)
Record ParentRef : Type := mkParentRef {
  ref_id : option string;
  ref_type : option string
}.

Definition parent_ref (parent : FigmaNode) : ParentRef :=
  mkParentRef (fn_id parent) (fn_type parent).

(** An element of the flattened list: the copy of the node, its
    ["children"] removed, and the two references, when they were
    assigned. *)
Record FlatNode : Type := mkFlatNode {
  flat_fields : FigmaNode;
  flat_parent : option ParentRef
}.

(** [node_copy.pop("children")] *)
Definition without_children (node : FigmaNode) : FigmaNode :=
  mkFigmaNode (fn_id node) (fn_name node) (fn_type node) (fn_parent_id node)
    (fn_absoluteBoundingBox node) (fn_constraints node) (fn_layoutMode node)
    (fn_itemSpacing node) (fn_paddingLeft node) (fn_paddingRight node)
    (fn_paddingTop node) (fn_paddingBottom node) (fn_primaryAxisAlignItems node)
    (fn_counterAxisAlignItems node) false (fn_rest node).

(** The inner function [process_node] of [flatten_figma_tree]; the list is
    what it appends to [flattened].  [if parent:] tests that the argument
    is a dictionary with at least one key; every dictionary that the
    function passes on holds ["parent_id"], or is the copy of a root, which
    holds ["type"]: the test is that [parent] is given. *)
Fixpoint process_node (parent : option ParentRef) (node : FigmaTree) : list FlatNode :=
  match node with
  | Tree fields children =>
      let node_copy := mkFlatNode (without_children fields) parent in
      match children with
      | Some cs => flat_map (process_node (Some (parent_ref fields))) cs
      | None => []
      end ++ [node_copy]
  end.

Definition root_types : list string := ["CANVAS"; "FRAME"; "GROUP"; "COMPONENT"]%string.

(** [node.get("type") in ["CANVAS", "FRAME", "GROUP", "COMPONENT"]] *)
Definition is_root_type (node : FigmaTree) : bool :=
  match fn_type (tree_fields node) with
  | Some t => bool_decide (t ∈ root_types)
  | None => false
  end.

Definition flatten_figma_tree (nodes : list FigmaTree) : list FlatNode :=
  flat_map (fun node => if is_root_type node then process_node None node else []) nodes.

(* ===================================================================== *)
(** * The callers: [angular_generator.py] and [enhanced_generator.py]     *)
(* ===================================================================== *)

(** [AngularGenerator._get_class_name(node)].  [node.type.lower()] is
    [lower_string], as for [layoutMode]. *)
Definition _get_class_name (node : NodeData) : pystr :=
  let base_class := node_name node in
  let base_class :=
    match base_class with
    | [] => cp (lower_string (node_type node))
    | _ => base_class
    end in
  base_class ++ cp "-element".


(* ===================================================================== *)
(** * [utils.py]: [validate_inputs]                                       *)
(* ===================================================================== *)

(** The class [[a-zA-Z0-9_-]]. *)
Definition is_key_char (c : N) : bool :=
  is_lower c || is_upper c || is_digit c || is_underscore c || is_hyphen c.

(** [re.match(r'^[a-zA-Z0-9_-]+$', s)] finds a match: [s] is one or more
    characters of the class, then the end of the string; [$] also matches
    just before a line feed that ends the string.  [key_tail] is the part
    after the first character. *)
Fixpoint key_tail (s : pystr) : bool :=
  match s with
  | [] => true
  | c :: s' =>
      if is_key_char c then key_tail s'
      else (c =? 10)%N && match s' with [] => true | _ => false end
  end.

Definition re_match_key (s : pystr) : bool :=
  match s with
  | c :: s' => is_key_char c && key_tail s'
  | [] => false
  end.

(** The three arguments are strings; [not s] is [s == ""]. *)
Definition validate_inputs (file_key access_token openai_api_key : pystr)
    : bool * string :=
  match file_key with
  | [] => (false, "Figma file key is required"%string)
  | _ =>
      match access_token with
      | [] => (false, "Figma access token is required"%string)
      | _ =>
          match openai_api_key with
          | [] => (false, "OpenAI API key is required"%string)
          | _ =>
              if negb (re_match_key file_key)
              then (false, "Invalid Figma file key format"%string)
              else (true, ""%string)
          end
      end
  end.

(* ===================================================================== *)
(** * Notions used in the statements                                      *)
(* ===================================================================== *)

(** The characters of a sanitized name: [[a-z0-9_-]]. *)
Definition is_name_char (c : N) : bool :=
  is_lower c || is_digit c || is_underscore c || is_hyphen c.

(** A record with no key at all but those of [fn_rest]. *)
Definition bare_record (rest : result Extracted) : FigmaNode :=
  mkFigmaNode None None None None None None None None None None None None None None
    false rest.

Definition with_constraints (c : gmap string string) (node : FigmaNode) : FigmaNode :=
  mkFigmaNode (fn_id node) (fn_name node) (fn_type node) (fn_parent_id node)
    (fn_absoluteBoundingBox node) (Some c) (fn_layoutMode node) (fn_itemSpacing node)
    (fn_paddingLeft node) (fn_paddingRight node) (fn_paddingTop node)
    (fn_paddingBottom node) (fn_primaryAxisAlignItems node)
    (fn_counterAxisAlignItems node) (fn_has_children node) (fn_rest node).

(** [{"constraints": {"horizontal": "LEFT_RIGHT", "vertical": "TOP"}}] *)
Definition stretched_record : FigmaNode :=
  with_constraints
    (<["horizontal" := "LEFT_RIGHT"%string]> (<["vertical" := "TOP"%string]> ∅))
    (bare_record (Ok (mkExtracted PNone PNone "div"))).

(** ** The tree builder *)

(** The records that the first loop keeps: dictionaries with an ["id"]. *)
Definition is_valid (r : raw) : option FigmaNode :=
  match r with
  | Dict d => match fn_id d with Some _ => Some d | None => None end
  | NotDict => None
  end.

Definition valid_of (figma_nodes : list raw) : list FigmaNode := omap is_valid figma_nodes.

(** The number of elements that the first loop drops. *)
Definition skipped (figma_nodes : list raw) : nat :=
  (length figma_nodes - length (valid_of figma_nodes))%nat.

(** The fields of the node of a record, when its conversion does not
    raise. *)
Definition built (node : FigmaNode) : option NodeData :=
  match AngularNode_init node with
  | Ok d => Some d
  | Raise _ => None
  end.

Definition converted (valid_nodes : list FigmaNode) : list NodeData :=
  omap built valid_nodes.

(** The position of the last node of identifier [k] in a list. *)
Fixpoint last_index (k : string) (ds : list NodeData) : option nat :=
  match ds with
  | [] => None
  | d :: ds' =>
      match last_index k ds' with
      | Some i => Some (S i)
      | None => if decide (node_id d = k) then Some O else None
      end
  end.

(** [c] is in the [children] of the object at [a]. *)
Definition child_of (h : list Obj) (a c : nat) : Prop :=
  exists o, h !! a = Some o /\ c ∈ obj_children o.

(** [c] is reachable from [a] by one or more [children] links. *)
Definition descendant (h : list Obj) : nat -> nat -> Prop := tc (child_of h).

(** The state after one iteration of the first loop. *)
Definition first_pass_state (s : BState) (node : FigmaNode) : BState :=
  match AngularNode_init node with
  | Ok d =>
      mkBState (heap s ++ [mkObj d None []])
        (dict_set (node_id d) (length (heap s)) (node_map s))
        (match fn_parent_id node with
         | None => root_nodes s ++ [length (heap s)]
         | Some _ => root_nodes s
         end)
        (log s)
  | Raise e =>
      mkBState (heap s) (node_map s) (root_nodes s)
        (log s ++ [ErrConvert (unknown_id node) e])
  end.

(** The state after one iteration of the second loop. *)
Definition second_pass_state (s : BState) (node : FigmaNode) : BState :=
  snd (try_except (second_pass_step node)
         (fun e => print (ErrRelation (unknown_id node) e)) s).

(** The input of the counterexample to orphan isolation: a root, then two
    records of identifier ["a"], the first under the root, the second with
    a [parent_id] that no record carries. *)
Definition plain_record (id type : string) (parent : option string) : FigmaNode :=
  mkFigmaNode (Some id) None (Some type) parent None None None None None None
    None None None None false (Ok (mkExtracted PNone PNone "frame")).

Definition twin_input : list raw :=
  [Dict (plain_record "r" "FRAME" None);
   Dict (plain_record "a" "GROUP" (Some "r"%string));
   Dict (plain_record "a" "TEXT" (Some "zzz"%string))].

(** The state after the two loops, from the state [s] of the call. *)
Definition after_first_pass (figma_nodes : list raw) (s : BState) : BState :=
  fold_left first_pass_state (valid_of figma_nodes)
    (mkBState (heap s) [] [] (log s ++ replicate (skipped figma_nodes) WarnNoId)).

Definition after_passes (figma_nodes : list raw) (s : BState) : BState :=
  fold_left second_pass_state (valid_of figma_nodes) (after_first_pass figma_nodes s).

(** The end of [convert_to_angular_nodes]: the fallback root and the
    [return]. *)
Definition finish (s : BState) : result (list nat) * BState :=
  match root_nodes s, node_map s with
  | [], (_, a) :: _ =>
      match heap s !! a with
      | Some o =>
          (Ok (root_nodes s ++ [a]),
           mkBState (heap s) (node_map s) (root_nodes s ++ [a])
             (log s ++ [WarnFallbackRoot (node_id (obj_data o))]))
      | None =>
          (Raise OtherError,
           mkBState (heap s) (node_map s) (root_nodes s ++ [a]) (log s))
      end
  | _, _ => (Ok (root_nodes s), s)
  end.

(** The errors that the first loop prints. *)
Definition conversion_error (node : FigmaNode) : option event :=
  match AngularNode_init node with
  | Ok _ => None
  | Raise e => Some (ErrConvert (unknown_id node) e)
  end.

(** A node was built from the record and the record has no [parent_id]. *)
Definition root_candidate (node : FigmaNode) : bool :=
  match built node, fn_parent_id node with
  | Some _, None => true
  | _, _ => false
  end.

(** ** The layout classifier *)

(** [sum(l) / len(l)], as the program computes it. *)
Definition py_mean (l : list Q) : Q := fdiv (py_sum l) (inject_Z (Z.of_nat (length l))).

(** [m] is the greatest (the least) element of [l]. *)
Definition is_maximum (m : Q) (l : list Q) : Prop :=
  In m l /\ forall v, In v l -> v <= m.
Definition is_minimum (m : Q) (l : list Q) : Prop :=
  In m l /\ forall v, In v l -> m <= v.

(** Row detection ([along] is [x], [across] is [y]) and column detection
    (the converse), in the words of the specification and the arithmetic
    of the program: at least 2 children, each [across] position within 5 of
    their mean, and a spread of the [along] positions above 20. *)
Definition aligned_spec (along across : NodeData -> Q) (children : list NodeData) : Prop :=
  (2 <= length children)%nat
  /\ Forall (fun c => Qabs (fsub (across c) (py_mean (map across children))) <= 5)
       children
  /\ exists hi lo, is_maximum hi (map along children)
                   /\ is_minimum lo (map along children) /\ 20 < fsub hi lo.

(** [ds] lists, for each adjacent pair of [s], the start of the next child
    minus the far edge of the previous one, the extent of which is a
    number. *)
Definition adjacent_deltas (start : NodeData -> Q) (extent : NodeData -> dim)
    (s : list NodeData) (ds : list Q) : Prop :=
  length ds = pred (length s)
  /\ forall i prev next,
       s !! i = Some prev -> s !! S i = Some next ->
       exists w, extent prev = DimNum w
                 /\ ds !! i = Some (fsub (start next) (fadd (start prev) w)).

(** The node after the three assignments of a flex branch. *)
Definition flex_assigned (direction flex_direction : string) (n : NodeData) : NodeData :=
  with_flex_props (fun _ => flex_literal flex_direction)
    (with_layout (set_direction direction) (with_layout (set_type LAutoLayout) n)).

(** The node after the spacing of a flex branch has been recorded. *)
Definition spacing_recorded (q : Q) (n : NodeData) : NodeData :=
  if Qltb 0 q
  then with_flex_props (<["gap" := CssPx q]>) (with_layout (set_spacing q) n)
  else n.

Definition width_of (c : NodeData) : dim := size_width (node_size c).
Definition height_of (c : NodeData) : dim := size_height (node_size c).


(** The number that a numeric dimension holds. *)
Definition dim_value (d : dim) : Q :=
  match d with
  | DimNum q => q
  | DimAuto => 0
  end.

Definition is_numeric (d : dim) : Prop := exists q, d = DimNum q.

(** The four tests of the cross-axis alignment, in the words of the
    specification and the arithmetic of the program, on the [start]
    positions of the children, their far edges [start + extent] and their
    centers [start + extent / 2]. *)
Section AlignmentTests.
Variables (start : NodeData -> Q) (extent : NodeData -> dim).
Variable children : list NodeData.

Definition far_edges : list Q := map (fun c => fadd (start c) (dim_value (extent c))) children.
Definition centers : list Q :=
  map (fun c => fadd (start c) (fdiv (dim_value (extent c)) 2)) children.

Definition start_aligned : Prop :=
  exists lo, is_minimum lo (map start children)
             /\ Forall (fun v => Qabs (fsub v lo) < 5) (map start children).

Definition end_aligned : Prop :=
  exists hi, is_maximum hi far_edges /\ Forall (fun v => Qabs (fsub v hi) < 5) far_edges.

Definition center_aligned : Prop :=
  Forall (fun v => Qabs (fsub v (py_mean centers)) < 10) centers.

Definition spread_out : Prop :=
  (2 < length children)%nat
  /\ exists a b, In a (map start children) /\ In b (map start children) /\ ~ a == b.

(** The keyword that the first satisfied test gives. *)
Definition alignment_is (a : option string) : Prop :=
  (start_aligned -> a = Some "flex-start"%string)
  /\ (~ start_aligned -> end_aligned -> a = Some "flex-end"%string)
  /\ (~ start_aligned -> ~ end_aligned -> center_aligned -> a = Some "center"%string)
  /\ (~ start_aligned -> ~ end_aligned -> ~ center_aligned -> spread_out ->
      a = Some "space-between"%string)
  /\ (~ start_aligned -> ~ end_aligned -> ~ center_aligned -> ~ spread_out ->
      a = None).
End AlignmentTests.

(** Sample nodes for the examples. *)
Definition sample_node (id : string) (container : bool) (x y : Q) (w h : dim) : NodeData :=
  mkNodeData id (cp id) "FRAME" (mkPosition x y Relative) (mkSize w h Flexible Flexible)
    PNone (mkLayout LDefault None 0 (mkPadding 0 0 0 0) ∅ ∅) PNone "frame" container
    ∅ ∅ [].

Definition sample_container : NodeData := sample_node "f" true 0 0 DimAuto DimAuto.

(** Three children at [y] 100, 102, 99 and [x] 0, 120, 240, 100 wide. *)
Definition row_children : list NodeData :=
  [sample_node "a" false 0 100 (DimNum 100) (DimNum 50);
   sample_node "b" false 120 102 (DimNum 100) (DimNum 50);
   sample_node "c" false 240 99 (DimNum 100) (DimNum 50)].

(** Two children at [y] 0 whose [x] are the floats written -0.02 and
    19.98. *)
Definition spread_children : list NodeData :=
  [sample_node "a" false (py_float (-2 # 100)) 0 (DimNum 10) (DimNum 10);
   sample_node "b" false (py_float (1998 # 100)) 0 (DimNum 10) (DimNum 10)].

(** Two overlapping children in a row: [x] 0 and 50, 100 wide. *)
Definition overlapping_children : list NodeData :=
  [sample_node "a" false 0 0 (DimNum 100) (DimNum 50);
   sample_node "b" false 50 0 (DimNum 100) (DimNum 50)].

(** Two children in a row, 10 high, at [y] 0 and 5; and at the [y] that
    are the floats written 0.1 and 5.1. *)
Definition boundary_children : list NodeData :=
  [sample_node "a" false 0 0 (DimNum 10) (DimNum 10);
   sample_node "b" false 100 5 (DimNum 10) (DimNum 10)].

Definition rounded_boundary_children : list NodeData :=
  [sample_node "a" false 0 (py_float (1 # 10)) (DimNum 10) (DimNum 10);
   sample_node "b" false 100 (py_float (51 # 10)) (DimNum 10) (DimNum 10)].


(** Grid detection, in the words of the specification: at least 4 children
    and more than one distinct rounded [x], more than one distinct rounded
    [y]. *)
Definition several_buckets (coord : NodeData -> Q) (children : list NodeData) : Prop :=
  exists c1 c2, c1 ∈ children /\ c2 ∈ children
                /\ bucket (coord c1) <> bucket (coord c2).

Definition grid_spec (children : list NodeData) : Prop :=
  (4 <= length children)%nat
  /\ several_buckets x_of children /\ several_buckets y_of children.


(** The node after the two assignments of the grid branch. *)
Definition grid_assigned (children : list NodeData) (n : NodeData) : NodeData :=
  with_grid_props
    (fun _ => grid_literal (fst (_detect_grid_dimensions children))
                           (snd (_detect_grid_dimensions children)))
    (with_layout (set_type LGrid) n).

(** The node after the gaps of the grid branch have been recorded. *)
Definition gaps_recorded (h_gap v_gap : Q) (n : NodeData) : NodeData :=
  let n1 := if Qltb 0 h_gap
            then with_grid_props (<["column-gap" := CssPx h_gap]>) n else n in
  if Qltb 0 v_gap then with_grid_props (<["row-gap" := CssPx v_gap]>) n1 else n1.


(** A node whose classifier fields are as the constructor leaves them. *)
Definition fresh (n : NodeData) : Prop := flex_props n = ∅ /\ grid_props n = ∅.

(** The layout type agrees with the derived properties. *)
Definition agrees (n : NodeData) : Prop :=
  (grid_props n <> ∅ -> layout_type_of (layout n) = LGrid)
  /\ (flex_props n <> ∅ ->
      layout_direction (layout n) = Some "horizontal"%string
      \/ layout_direction (layout n) = Some "vertical"%string)
  /\ ~ (flex_props n <> ∅ /\ grid_props n <> ∅).

(** [P] holds of every node of the tree. *)
Fixpoint all_nodes (P : NodeData -> Prop) (t : AngularNode) : Prop :=
  match t with
  | Node d cs =>
      P d /\ (fix all cs := match cs with
                            | [] => True
                            | c :: cs' => all_nodes P c /\ all cs'
                            end) cs
  end.

(** [{"id": "f", "type": "FRAME", "layoutMode": "HORIZONTAL",
      "itemSpacing": 12}] *)
Definition auto_layout_record : FigmaNode :=
  mkFigmaNode (Some "f"%string) None (Some "FRAME"%string) None None None
    (Some "HORIZONTAL"%string) (Some 12) None None None None None None false
    (Ok (mkExtracted PNone PNone "frame")).

(** What the classifier reads of a child: its [x], [y] and size.  A function
    on nodes preserves the geometry when it leaves these as they are. *)
Definition geometry_preserving (g : NodeData -> NodeData) : Prop :=
  forall c, x_of (g c) = x_of c /\ y_of (g c) = y_of c /\ node_size (g c) = node_size c.

(** The node reduced to its geometry. *)
Definition strip (c : NodeData) : NodeData :=
  mkNodeData "" [] "" (mkPosition (x_of c) (y_of c) Relative) (node_size c) PNone
    (mkLayout LDefault None 0 (mkPadding 0 0 0 0) ∅ ∅) PNone "" false ∅ ∅ [].

(** The result of a computation, mapped. *)
Definition result_map {A B} (f : A -> B) (r : result A) : result B :=
  match r with
  | Ok a => Ok (f a)
  | Raise e => Raise e
  end.

(** Inputs for the examples of the tree builder: a single record whose
    [parent_id] resolves to nothing; a root and such a record. *)
Definition fallback_input : list raw :=
  [Dict (plain_record "a" "FRAME" (Some "zzz"%string))].

Definition orphan_input : list raw :=
  [Dict (plain_record "r" "FRAME" None);
   Dict (plain_record "a" "TEXT" (Some "zzz"%string))].

(** The gaps between adjacent buckets, in the words of the specification:
    for each pair of adjacent keys, the least coordinate of the group of the
    second minus the greatest far edge of the group of the first. *)
Definition inter_bucket_gaps (coord : NodeData -> Q) (extent : NodeData -> dim)
    (children : list NodeData) (keys : list Z) (gaps : list Q) : Prop :=
  length gaps = pred (length keys)
  /\ forall i k1 k2,
       keys !! i = Some k1 -> keys !! S i = Some k2 ->
       exists hi lo,
         is_maximum hi (far_edges coord extent (bucket_group coord children k1))
         /\ is_minimum lo (map coord (bucket_group coord children k2))
         /\ gaps !! i = Some (fsub lo hi).

(** ** More on the layout classifier *)

(** Some child other than the last of [s] has an extent ["auto"]. *)
Definition unsized_before_last (extent : NodeData -> dim) (s : list NodeData) : Prop :=
  exists i c, s !! i = Some c /\ (S i < length s)%nat /\ extent c = DimAuto.

(** The outcome [r] of a spacing computation on [children]: a number that
    is not negative, or a [TypeError], exactly when there are at least 2
    children and one of them, not the last in the order of [start], has an
    extent ["auto"]. *)
Definition spacing_outcome (start : NodeData -> Q) (extent : NodeData -> dim)
    (children : list NodeData) (r : result Q) : Prop :=
  match r with
  | Ok q =>
      0 <= q
      /\ ((length children < 2)%nat
          \/ ~ unsized_before_last extent (py_sorted start children))
  | Raise e =>
      e = TypeError /\ (2 <= length children)%nat
      /\ unsized_before_last extent (py_sorted start children)
  end.

(** The fields of a node that the layout analysis never assigns: the
    node with its layout type, direction and spacing, its flex and grid
    properties and its position mode reset. *)
Definition unanalyzed (n : NodeData) : NodeData :=
  mkNodeData (node_id n) (node_name n) (node_type n)
    (mkPosition (x_of n) (y_of n) Relative) (node_size n) (style n)
    (mkLayout LDefault None 0 (layout_padding (layout n)) (layout_alignment (layout n))
       (layout_constraints (layout n)))
    (content n) (component_type n) (is_container n) ∅ ∅ (warnings n).

Fixpoint tree_map (f : NodeData -> NodeData) (t : AngularNode) : AngularNode :=
  match t with
  | Node d cs => Node (f d) (map (tree_map f) cs)
  end.

(** The number of nodes of a tree. *)
Fixpoint tree_size (t : AngularNode) : nat :=
  match t with
  | Node _ cs => S (list_sum (map tree_size cs))
  end.

(** The analysis of every node of a tree, none skipped. *)
Fixpoint analyze_every_node (t : AngularNode) : AngularNode :=
  match t with
  | Node d cs => Node (snd (_analyze_node_layout (map data_of cs) d))
                      (map analyze_every_node cs)
  end.

(** Both sizes of the node are numbers. *)
Definition sized (c : NodeData) : Prop :=
  is_numeric (width_of c) /\ is_numeric (height_of c).

(** Two children at [y] 0: the first without bounding box (at the origin,
    of size ["auto"]), the second at [x] 100. *)
Definition unsized_children : list NodeData :=
  [sample_node "a" false 0 0 DimAuto DimAuto;
   sample_node "b" false 100 0 (DimNum 50) (DimNum 50)].

(** Three children at [x] 10, 12, 9 and [y] 0, 80, 160, 50 high. *)
Definition column_children : list NodeData :=
  [sample_node "a" false 10 0 (DimNum 100) (DimNum 50);
   sample_node "b" false 12 80 (DimNum 100) (DimNum 50);
   sample_node "c" false 9 160 (DimNum 100) (DimNum 50)].

(** [{"id": "a", "absoluteBoundingBox": {"x": 10, "y": 20}}] *)
Definition boxed_record : FigmaNode :=
  mkFigmaNode (Some "a"%string) None None None
    (Some (mkBBox (Some 10) (Some 20) None None)) None None None None None None None
    None None false (Ok (mkExtracted PNone PNone "div")).

(** ** More on the tree builder *)

(** The call [parent.add_child(child)] that the second loop makes for a
    record: the addresses that its [parent_id] and its identifier have in
    [node_map], when both are keys. *)
Definition link (nm : list (string * nat)) (node : FigmaNode) : option (nat * nat) :=
  p ← fn_parent_id node;
  parent ← dict_get p nm;
  i ← fn_id node;
  child ← dict_get i nm;
  Some (parent, child).

Definition links (nm : list (string * nat)) (valid_nodes : list FigmaNode)
    : list (nat * nat) :=
  omap (link nm) valid_nodes.

(** The children that a list of calls appends to the object at [b], and the
    parent that it leaves in the object at [c]. *)
Definition children_from (ls : list (nat * nat)) (b : nat) : list nat :=
  map snd (List.filter (fun l => fst l =? b)%nat ls).

Definition parent_from (ls : list (nat * nat)) (c : nat) : option nat :=
  last (map fst (List.filter (fun l => snd l =? c)%nat ls)).

(** The node of a record without [parent_id], when its conversion does not
    raise. *)
Definition root_data (node : FigmaNode) : option NodeData :=
  match fn_parent_id node with
  | None => built node
  | Some _ => None
  end.

(** The positions, among the nodes built, of those of the records without
    [parent_id]. *)
Fixpoint root_indices (valid_nodes : list FigmaNode) : list nat :=
  match valid_nodes with
  | [] => []
  | r :: rest =>
      match built r with
      | Some _ =>
          (if root_candidate r then [0%nat] else []) ++ map S (root_indices rest)
      | None => root_indices rest
      end
  end.

(** A record that names itself as its parent. *)
Definition self_parent_input : list raw :=
  [Dict (plain_record "a" "FRAME" (Some "a"%string))].

(** A root and the same child record twice. *)
Definition repeated_input : list raw :=
  [Dict (plain_record "r" "FRAME" None);
   Dict (plain_record "a" "TEXT" (Some "r"%string));
   Dict (plain_record "a" "TEXT" (Some "r"%string))].

(** ** Extraction and flattening *)

Definition with_parent_id (p : string) (node : FigmaNode) : FigmaNode :=
  mkFigmaNode (fn_id node) (fn_name node) (fn_type node) (Some p)
    (fn_absoluteBoundingBox node) (fn_constraints node) (fn_layoutMode node)
    (fn_itemSpacing node) (fn_paddingLeft node) (fn_paddingRight node)
    (fn_paddingTop node) (fn_paddingBottom node) (fn_primaryAxisAlignItems node)
    (fn_counterAxisAlignItems node) (fn_has_children node) (fn_rest node).

(** The dictionary of an element of the flattened list, as
    [convert_to_angular_nodes] reads it.  A ["parent_id"] that holds
    [None] (the parent has no ["id"]) is outside the typed records. *)
Definition flat_record (n : FlatNode) : option FigmaNode :=
  match flat_parent n with
  | None => Some (flat_fields n)
  | Some ref =>
      match ref_id ref with
      | Some p => Some (with_parent_id p (flat_fields n))
      | None => None
      end
  end.

(** The dictionary of an element whose parent, if any, has an
    identifier. *)
Definition typed_record (n : FlatNode) : FigmaNode :=
  default (flat_fields n) (flat_record n).

(** The number of nodes of a document tree, its nodes, and their
    identifiers. *)
Fixpoint figma_tree_size (node : FigmaTree) : nat :=
  match node with
  | Tree _ children =>
      S (match children with
         | Some cs => list_sum (map figma_tree_size cs)
         | None => 0%nat
         end)
  end.

Fixpoint figma_tree_nodes (node : FigmaTree) : list FigmaTree :=
  match node with
  | Tree _ children =>
      node :: match children with
              | Some cs => flat_map figma_tree_nodes cs
              | None => []
              end
  end.

Definition tree_ids (node : FigmaTree) : list (option string) :=
  map (fun n => fn_id (tree_fields n)) (figma_tree_nodes node).

(** An element of the flattened list that was processed as a root. *)
Definition is_parentless (n : FlatNode) : bool :=
  match flat_parent n with None => true | Some _ => false end.

(** The record of a node of the document in the flattened list, under the
    parent reference [parent]. *)
Definition flat_node (parent : option ParentRef) (node : FigmaTree) : FlatNode :=
  mkFlatNode (without_children (tree_fields node)) parent.

(** The element [n] of the flattened list [l], at position [i], refers to
    an element further in the list. *)
Definition refers_later (l : list FlatNode) (i : nat) (n : FlatNode) : Prop :=
  exists ref j m,
    flat_parent n = Some ref /\ (i < j)%nat /\ l !! j = Some m
    /\ parent_ref (flat_fields m) = ref.

(** Every element of [l] refers to [ref] or to an element further in
    [l]. *)
Definition front_ok (ref : ParentRef) (l : list FlatNode) : Prop :=
  forall i n, l !! i = Some n -> flat_parent n = Some ref \/ refers_later l i n.

(** The element [n] of the flattened list refers to a parent of
    identifier [k]. *)
Definition refers_to (k : string) (n : FlatNode) : bool :=
  bool_decide (flat_parent n ≫= ref_id = Some k).

(** The address under which [node_map] registers the identifier of a node
    of the document. *)
Definition address_of (nm : list (string * nat)) (node : FigmaTree) : option nat :=
  i ← fn_id (tree_fields node); dict_get i nm.

(** The object at address [a] of the heap [h] and the objects below it
    are the nodes of the document tree [t], child by child, in order. *)
#[local] Unset Elimination Schemes.
Inductive represents (h : list Obj) : nat -> FigmaTree -> Prop :=
| represents_node (a : nat) (o : Obj) (t : FigmaTree) :
    h !! a = Some o ->
    AngularNode_init (without_children (tree_fields t)) = Ok (obj_data o) ->
    Forall2 (represents h) (obj_children o) (tree_children t) ->
    represents h a t.
#[local] Set Elimination Schemes.

(** Every node of the tree has an identifier and converts, the
    identifiers are distinct, and the root has no ["parent_id"] of its
    own. *)
Definition convertible (t : FigmaTree) : Prop :=
  Forall (fun u => is_Some (fn_id (tree_fields u))
                   /\ raises (AngularNode_init (without_children (tree_fields u))) = false)
         (figma_tree_nodes t)
  /\ NoDup (tree_ids t)
  /\ fn_parent_id (tree_fields t) = None.

(** A frame that holds a frame. *)
Definition nested_frames : FigmaTree :=
  Tree (plain_record "f" "FRAME" None)
       (Some [Tree (plain_record "g" "FRAME" None) (Some [])]).

(** ** Grids whose children lack a size *)

(** Some child has an extent ["auto"] and a rounded coordinate below that
    of another child: it is in a column (a row) other than the last. *)
Definition unsized_before_last_bucket (coord : NodeData -> Q) (extent : NodeData -> dim)
    (children : list NodeData) : Prop :=
  exists c c', c ∈ children /\ c' ∈ children /\ extent c = DimAuto
               /\ (bucket (coord c) < bucket (coord c'))%Z.

(** Four children in 2 columns and 2 rows, the first without bounding
    box. *)
Definition unsized_grid_children : list NodeData :=
  [sample_node "a" false 0 0 DimAuto DimAuto;
   sample_node "b" false 100 0 (DimNum 50) (DimNum 50);
   sample_node "c" false 0 100 (DimNum 50) (DimNum 50);
   sample_node "d" false 100 100 (DimNum 50) (DimNum 50)].

(** ** The pipeline of [generate_enhanced_angular_code] *)


(** The number of nodes of a root type, among those that [extract_nodes]
    lists, whose subtree holds the identifier [k]. *)
Definition enclosing_roots (document : FigmaTree) (k : string) : nat :=
  length (List.filter (fun w => bool_decide (Some k ∈ tree_ids w))
            (List.filter is_root_type (extract_nodes (Some document)))).

(** Every node of the document has an identifier, no ["parent_id"] of its
    own, and converts; the identifiers are distinct. *)
Definition well_formed (document : FigmaTree) : Prop :=
  Forall (fun u => is_Some (fn_id (tree_fields u))
                   /\ fn_parent_id (tree_fields u) = None
                   /\ raises (AngularNode_init (without_children (tree_fields u))) = false)
         (figma_tree_nodes document)
  /\ NoDup (tree_ids document).


(** The element [n] of a flattened list is built from the document [t]:
    its fields are those of a node of [t]; its parent reference is that of
    a node of [t], or it has none and the node has no ["parent_id"] of its
    own. *)
Definition flat_of (t : FigmaTree) (n : FlatNode) : Prop :=
  exists u, u ∈ figma_tree_nodes t
    /\ flat_fields n = without_children (tree_fields u)
    /\ match flat_parent n with
       | None => fn_parent_id (tree_fields u) = None
       | Some ref => exists m, m ∈ figma_tree_nodes t /\ ref = parent_ref (tree_fields m)
       end.

(** Every node of the tree has an identifier and converts. *)
Definition all_convert (t : FigmaTree) : Prop :=
  Forall (fun u => is_Some (fn_id (tree_fields u))
                   /\ raises (AngularNode_init (without_children (tree_fields u))) = false)
         (figma_tree_nodes t).

(** The positions of the elements of a list that satisfy [P]. *)
Fixpoint positions {A} (P : A -> bool) (l : list A) : list nat :=
  match l with
  | [] => []
  | a :: l' => (if P a then [0%nat] else []) ++ map S (positions P l')
  end.

(** The node [w] is outside the subtree [w']: no node of [w'] has its
    identifier. *)
Definition outside (w w' : FigmaTree) : Prop :=
  fn_id (tree_fields w) ∉ tree_ids w'.

(** A frame that holds a text, and a page that holds the frame. *)
Definition sample_frame : FigmaTree :=
  Tree (plain_record "f" "FRAME" None)
    (Some [Tree (plain_record "t" "TEXT" None) None]).

Definition sample_page : FigmaTree :=
  Tree (plain_record "c" "CANVAS" None) (Some [sample_frame]).

(** A document with the one page. *)
Definition sample_document : FigmaTree :=
  Tree (plain_record "d" "DOCUMENT" None) (Some [sample_page]).

(* ===================================================================== *)
(** * Name sanitization                                                   *)
(* ===================================================================== *)

Ltac char_unfold :=
  unfold is_name_char, is_kept, isalpha, is_space, is_lower, is_upper, is_digit,
    is_underscore, is_hyphen, in_range in *.

Ltac char_props :=
  rewrite ?orb_true_iff, ?andb_true_iff, ?N.leb_le, ?N.eqb_eq in *.

Lemma name_char_kept c : is_name_char c = true -> is_kept c = true.
Proof. char_unfold. char_props. lia. Qed.

Lemma name_char_not_space c : is_name_char c = true -> is_space c = false.
Proof.
  intros H. apply not_true_iff_false. revert H.
  char_unfold. char_props. lia.
Qed.

Lemma name_char_not_upper c : is_name_char c = true -> is_upper c = false.
Proof.
  intros H. apply not_true_iff_false. revert H.
  char_unfold. char_props. lia.
Qed.

Lemma name_char_lower c : is_name_char c = true -> lower_char c = c.
Proof.
  intros H. unfold lower_char. now rewrite (name_char_not_upper c H).
Qed.

Lemma alpha_name_char c :
  is_name_char c = true -> isalpha c = true -> is_lower c = true.
Proof.
  intros H1 H2. pose proof (name_char_not_upper c H1) as Hu.
  unfold isalpha in H2. rewrite Hu, orb_false_r in H2. exact H2.
Qed.

Lemma lower_kept_name_char c :
  is_kept c = true -> is_space c = false -> is_name_char (lower_char c) = true.
Proof.
  intros H1 H2. unfold lower_char. destruct (is_upper c) eqn:Hu.
  - clear H1 H2. revert Hu. char_unfold. char_props. lia.
  - apply not_true_iff_false in H2, Hu. revert H1 H2 Hu.
    char_unfold. char_props. lia.
Qed.

Lemma hyphen_name_char : is_name_char (lower_char 45) = true.
Proof. reflexivity. Qed.

(** After stripping, collapsing and lowering, only [[a-z0-9_-]] is left:
    [lower] and [isalpha] are applied to ASCII only. *)
Lemma cleaned_chars (s : pystr) (b : bool) :
  Forall (fun c => is_name_char c = true)
         (lower (sub_spaces b (strip_special s))).
Proof.
  revert b. induction s as [| c s IH]; intros b; simpl; [constructor |].
  destruct (is_kept c) eqn:Hk; simpl; [| apply IH].
  destruct (is_space c) eqn:Hs.
  - destruct b; simpl; [apply IH |].
    constructor; [apply hyphen_name_char | apply IH].
  - simpl. constructor; [apply lower_kept_name_char; assumption | apply IH].
Qed.

Lemma strip_special_fixed (t : pystr) :
  Forall (fun c => is_name_char c = true) t -> strip_special t = t.
Proof.
  unfold strip_special.
  induction 1 as [| c t Hc _ IH]; simpl; [reflexivity |].
  rewrite (name_char_kept c Hc). now rewrite IH.
Qed.

Lemma sub_spaces_fixed (t : pystr) :
  Forall (fun c => is_name_char c = true) t -> sub_spaces false t = t.
Proof.
  induction 1 as [| c t Hc _ IH]; simpl; [reflexivity |].
  rewrite (name_char_not_space c Hc). now rewrite IH.
Qed.

Lemma lower_fixed (t : pystr) :
  Forall (fun c => is_name_char c = true) t -> lower t = t.
Proof.
  unfold lower.
  induction 1 as [| c t Hc _ IH]; simpl; [reflexivity |].
  rewrite (name_char_lower c Hc). now rewrite IH.
Qed.

(** A string of name characters that starts with a letter is returned as it
    is. *)
Lemma clean_name_fixed (c : N) (t : pystr) :
  is_lower c = true ->
  Forall (fun c => is_name_char c = true) (c :: t) ->
  _clean_name (c :: t) = c :: t.
Proof.
  intros Hc Hall. unfold _clean_name.
  rewrite (strip_special_fixed _ Hall), (sub_spaces_fixed _ Hall),
    (lower_fixed _ Hall).
  unfold isalpha. rewrite Hc. reflexivity.
Qed.

(** Every sanitized name is a non-empty string of [[a-z0-9_-]] that starts
    with a letter. *)
Lemma clean_name_shape (name : pystr) :
  exists c t, _clean_name name = c :: t /\ is_lower c = true
              /\ Forall (fun c => is_name_char c = true) (c :: t).
Proof.
  assert (Hel : forall r, Forall (fun c => is_name_char c = true) r ->
            exists c t, cp "el-" ++ r = c :: t /\ is_lower c = true
              /\ Forall (fun c => is_name_char c = true) (c :: t)).
  { intros r Hr. exists 101%N, (108 :: 45 :: r)%N.
    split; [reflexivity |]. split; [reflexivity |].
    repeat (constructor; [reflexivity |]). exact Hr. }
  assert (Helement : exists c t, cp "element" = c :: t /\ is_lower c = true
              /\ Forall (fun c => is_name_char c = true) (c :: t)).
  { exists 101%N, (cp "lement"). split; [reflexivity |]. split; [reflexivity |].
    repeat (constructor; [reflexivity |]). constructor. }
  destruct name as [| c0 name0]; [exact Helement |].
  unfold _clean_name.
  pose proof (cleaned_chars (c0 :: name0) false) as Hall.
  destruct (lower (sub_spaces false (strip_special (c0 :: name0))))
    as [| c t]; [exact Helement |].
  destruct (isalpha c) eqn:Ha; simpl negb; cbv iota.
  - exists c, t. split; [reflexivity |]. split; [| assumption].
    apply alpha_name_char; [| assumption]. now inversion Hall.
  - apply (Hel (c :: t)). assumption.
Qed.

(** C9. Name sanitization is idempotent: sanitizing the sanitized name of any
    string returns it unchanged. *)
Theorem clean_name_idempotent (name : pystr) :
  _clean_name (_clean_name name) = _clean_name name.
Proof.
  destruct (clean_name_shape name) as (c & t & E & Hc & Hall).
  rewrite E. now apply clean_name_fixed.
Qed.

(* ===================================================================== *)
(** * Position mode and size of a new node                                *)
(* ===================================================================== *)

Lemma get_is_spec (d : gmap string string) (k v : string) :
  get_is d k v = true <-> d !! k = Some v.
Proof. unfold get_is. apply bool_decide_eq_true. Qed.

(** C7, as stated, fails: a record constrained [LEFT_RIGHT] horizontally and
    [TOP] vertically (one axis only) gets position mode [absolute]. *)
Lemma position_mode_one_axis_absolute :
  constraints_of stretched_record !! "horizontal"%string = Some "LEFT_RIGHT"%string
  /\ constraints_of stretched_record !! "vertical"%string = Some "TOP"%string
  /\ pos_position (_extract_position stretched_record) = Absolute.
Proof. repeat split; vm_compute; reflexivity. Qed.

(** C7, amended. The position mode is [absolute] exactly when the horizontal
    constraint is [LEFT_RIGHT] or the vertical constraint is [TOP_BOTTOM]
    (either one suffices), and [relative] in every other case. *)
Theorem position_mode_either_axis (node : FigmaNode) :
  (pos_position (_extract_position node) = Absolute <->
     constraints_of node !! "horizontal"%string = Some "LEFT_RIGHT"%string
     \/ constraints_of node !! "vertical"%string = Some "TOP_BOTTOM"%string)
  /\ (pos_position (_extract_position node) = Relative <->
     ~ (constraints_of node !! "horizontal"%string = Some "LEFT_RIGHT"%string
        \/ constraints_of node !! "vertical"%string = Some "TOP_BOTTOM"%string)).
Proof.
  unfold _extract_position.
  rewrite <- !get_is_spec.
  destruct (get_is (constraints_of node) "horizontal" "LEFT_RIGHT");
    destruct (get_is (constraints_of node) "vertical" "TOP_BOTTOM");
    destruct (fn_absoluteBoundingBox node); simpl;
    intuition (try discriminate; try reflexivity).
Qed.

(** C8, as stated, fails: the size of a record without bounding box is
    ["auto"], not 0. *)
Lemma size_without_bbox_is_auto :
  fn_absoluteBoundingBox stretched_record = None
  /\ size_width (_extract_size stretched_record) = DimAuto
  /\ size_height (_extract_size stretched_record) = DimAuto
  /\ size_width (_extract_size stretched_record) <> DimNum 0.
Proof. repeat split; discriminate. Qed.

(** C8, amended. Without bounding box the width and the height are
    ["auto"]; with a bounding box they are its [width] and [height], 0 for a
    key that it lacks.  Independently, a dimension is marked [fixed] exactly
    when its constraint is [FIXED], and [flexible] otherwise, in particular
    when the record has no constraints. *)
Theorem size_defaults (node : FigmaNode) :
  (fn_absoluteBoundingBox node = None ->
     size_width (_extract_size node) = DimAuto
     /\ size_height (_extract_size node) = DimAuto)
  /\ (forall bbox, fn_absoluteBoundingBox node = Some bbox ->
     size_width (_extract_size node) = DimNum (default 0 (bbox_width bbox))
     /\ size_height (_extract_size node) = DimNum (default 0 (bbox_height bbox))
     /\ (bbox_width bbox = None -> size_width (_extract_size node) = DimNum 0)
     /\ (bbox_height bbox = None -> size_height (_extract_size node) = DimNum 0))
  /\ (size_width_type (_extract_size node) = Fixed <->
        constraints_of node !! "width"%string = Some "FIXED"%string)
  /\ (size_height_type (_extract_size node) = Fixed <->
        constraints_of node !! "height"%string = Some "FIXED"%string)
  /\ (size_width_type (_extract_size node) = Flexible <->
        constraints_of node !! "width"%string <> Some "FIXED"%string)
  /\ (size_height_type (_extract_size node) = Flexible <->
        constraints_of node !! "height"%string <> Some "FIXED"%string)
  /\ (fn_constraints node = None ->
        size_width_type (_extract_size node) = Flexible
        /\ size_height_type (_extract_size node) = Flexible).
Proof.
  unfold _extract_size, constraints_of.
  rewrite <- !get_is_spec.
  split; [intros ->; split; reflexivity |].
  split.
  { intros bbox ->. simpl. repeat split; intros ->; reflexivity. }
  assert (Hkind : forall k, (if get_is (default ∅ (fn_constraints node)) k "FIXED"
                              then Fixed else Flexible) = Fixed
                             <-> get_is (default ∅ (fn_constraints node)) k "FIXED" = true).
  { intros k. destruct (get_is _ k "FIXED"); split; congruence. }
  assert (Hflex : forall k, (if get_is (default ∅ (fn_constraints node)) k "FIXED"
                              then Fixed else Flexible) = Flexible
                             <-> get_is (default ∅ (fn_constraints node)) k "FIXED" <> true).
  { intros k. destruct (get_is _ k "FIXED"); split; congruence. }
  destruct (fn_absoluteBoundingBox node); simpl;
    (split; [apply Hkind |]); (split; [apply Hkind |]);
    (split; [apply Hflex |]); (split; [apply Hflex |]);
    intros ->; split; reflexivity.
Qed.

(* ===================================================================== *)
(** * The tree builder                                                    *)
(* ===================================================================== *)

Local Close Scope Q_scope.

(** ** Loops whose body catches every exception *)

Lemma try_except_print (body : M BState unit) (f : exn -> event) (s : BState) :
  fst (try_except body (fun e => print (f e)) s) = Ok tt.
Proof.
  unfold try_except. destruct (body s) as [[[] | e] s']; reflexivity.
Qed.

Lemma for_each_total {A} (body : A -> M BState unit) (l : list A) :
  (forall a s, fst (body a s) = Ok tt) ->
  forall s, for_each l body s = (Ok tt, fold_left (fun s a => snd (body a s)) l s).
Proof.
  intros Hbody. induction l as [| a l IH]; intros s; simpl; [reflexivity |].
  unfold mbind, M_bind. specialize (Hbody a s).
  destruct (body a s) as [r s']. simpl in *. subst r. apply IH.
Qed.

Lemma fold_left_ext {A B} (f g : B -> A -> B) (l : list A) (b : B) :
  (forall b a, f b a = g b a) -> fold_left f l b = fold_left g l b.
Proof.
  intros H. revert b. induction l as [| a l IH]; intros b; simpl; [reflexivity |].
  now rewrite H, IH.
Qed.

Lemma first_pass_try (node : FigmaNode) (s : BState) :
  snd (try_except (first_pass_step node)
         (fun e => print (ErrConvert (unknown_id node) e)) s)
  = first_pass_state s node.
Proof.
  unfold try_except, first_pass_step, first_pass_state, mbind, M_bind, lift.
  destruct (AngularNode_init node) as [d | e]; simpl; [| reflexivity].
  destruct (fn_parent_id node); reflexivity.
Qed.

(** ** The loop that selects the valid records *)

Lemma valid_of_length (l : list raw) : length (valid_of l) <= length l.
Proof.
  induction l as [| r l IH]; simpl; [lia |].
  unfold valid_of in *. simpl. destruct (is_valid r); simpl; lia.
Qed.

Lemma select_valid_spec (l : list raw) (s : BState) :
  select_valid l s
  = (Ok (valid_of l),
     mkBState (heap s) (node_map s) (root_nodes s)
       (log s ++ replicate (skipped l) WarnNoId)).
Proof.
  revert s. induction l as [| r l IH]; intros s; simpl.
  - unfold mret, M_ret, skipped. simpl. rewrite app_nil_r. now destruct s.
  - pose proof (valid_of_length l) as Hlen.
    assert (Hskip : forall s : BState,
              (_ ← print WarnNoId; select_valid l) s
              = (Ok (valid_of l),
                 mkBState (heap s) (node_map s) (root_nodes s)
                   (log s ++ replicate (S (skipped l)) WarnNoId))).
    { intros s0. unfold mbind, M_bind, print, modify. rewrite IH. simpl.
      now rewrite <- app_assoc. }
    unfold skipped in *. unfold valid_of in *. simpl.
    destruct r as [| d]; simpl.
    + rewrite Hskip. do 4 f_equal.
      change (list_omap raw FigmaNode is_valid l) with (omap is_valid l). lia.
    + destruct (fn_id d); simpl.
      * unfold mbind, M_bind. rewrite IH. unfold mret, M_ret. reflexivity.
      * rewrite Hskip. do 4 f_equal.
        change (list_omap raw FigmaNode is_valid l) with (omap is_valid l). lia.
Qed.

(** ** The function as the composition of its phases *)

Lemma convert_phases (r : raw) (l : list raw) (s : BState) :
  convert_to_angular_nodes (r :: l) s = finish (after_passes (r :: l) s).
Proof.
  unfold convert_to_angular_nodes, after_passes, after_first_pass.
  set (input := r :: l).
  unfold mbind at 1, M_bind at 1. unfold modify at 1.
  unfold mbind at 1, M_bind at 1. rewrite select_valid_spec. cbn [heap node_map root_nodes log].
  set (s1 := mkBState (heap s) [] [] _).
  set (valid := valid_of input).
  unfold mbind at 1, M_bind at 1.
  unfold try_except at 1.
  rewrite (for_each_total _ valid
             (fun a s => try_except_print _ (fun e => ErrConvert (unknown_id a) e) s)).
  rewrite (fold_left_ext _ first_pass_state)
    by (intros; apply first_pass_try).
  set (s2 := fold_left first_pass_state valid s1).
  unfold mbind at 1, M_bind at 1.
  unfold try_except at 1.
  rewrite (for_each_total _ valid
             (fun a s => try_except_print _ (fun e => ErrRelation (unknown_id a) e) s)).
  fold second_pass_state.
  change (fold_left _ valid s2) with (fold_left second_pass_state valid s2).
  set (s3 := fold_left second_pass_state valid s2).
  unfold mbind at 1, M_bind at 1, get at 1.
  unfold finish.
  destruct (root_nodes s3) as [| a0 rs] eqn:Hr.
  - destruct (node_map s3) as [| [k a] nm] eqn:Hm.
    + unfold mbind, M_bind, mret, M_ret, get. simpl. now rewrite Hr.
    + unfold mbind, M_bind, mret, M_ret, get, lift, first_value, append_root,
        modify, deref, print. simpl. rewrite Hr.
      destruct (heap s3 !! a); [| now rewrite Hm].
      unfold modify. simpl. now rewrite Hm.
  - unfold mbind, M_bind, mret, M_ret, get. simpl. now rewrite Hr.
Qed.

(** ** The first loop *)

Lemma dict_get_set (k k' : string) (v : nat) (d : list (string * nat)) :
  dict_get k' (dict_set k v d) = if decide (k = k') then Some v else dict_get k' d.
Proof.
  induction d as [| [k0 v0] d IH]; simpl.
  - destruct (decide (k' = k)), (decide (k = k')); congruence.
  - destruct (decide (k = k0)) as [-> | Hne]; simpl.
    + destruct (decide (k' = k0)) as [-> | Hne'].
      * now rewrite decide_True.
      * now rewrite decide_False by congruence.
    + destruct (decide (k' = k0)) as [-> | Hne'].
      * now rewrite decide_False.
      * exact IH.
Qed.

Lemma dict_set_head (k : string) (v : nat) (d : list (string * nat)) :
  exists a rest, dict_set k v d = (default k (fst <$> head d), a) :: rest.
Proof.
  destruct d as [| [k0 v0] d]; simpl; [eauto |].
  destruct (decide (k = k0)) as [-> | Hne]; eauto.
Qed.

Lemma first_pass_heap (valid : list FigmaNode) (s : BState) :
  heap (fold_left first_pass_state valid s)
  = heap s ++ map (fun d => mkObj d None []) (converted valid).
Proof.
  revert s. induction valid as [| r valid IH]; intros s; simpl.
  - now rewrite app_nil_r.
  - rewrite IH. unfold first_pass_state, converted, built. simpl.
    destruct (AngularNode_init r) as [d | e]; simpl; [| reflexivity].
    now rewrite <- app_assoc.
Qed.

Lemma first_pass_map (valid : list FigmaNode) (s : BState) (k : string) :
  dict_get k (node_map (fold_left first_pass_state valid s))
  = match last_index k (converted valid) with
    | Some i => Some (length (heap s) + i)
    | None => dict_get k (node_map s)
    end.
Proof.
  revert s. induction valid as [| r valid IH]; intros s; simpl; [reflexivity |].
  rewrite IH. unfold first_pass_state, converted, built. simpl.
  destruct (AngularNode_init r) as [d | e]; simpl; [| reflexivity].
  change (list_omap _ _ ?f valid) with (omap f valid).
  destruct (last_index k _) as [i |].
  - rewrite length_app. simpl. f_equal. lia.
  - rewrite dict_get_set. destruct (decide (node_id d = k)); [f_equal; lia | reflexivity].
Qed.

Lemma first_pass_log (valid : list FigmaNode) (s : BState) :
  log (fold_left first_pass_state valid s) = log s ++ omap conversion_error valid.
Proof.
  revert s. induction valid as [| r valid IH]; intros s; simpl.
  - now rewrite app_nil_r.
  - rewrite IH. unfold first_pass_state, conversion_error. simpl.
    destruct (AngularNode_init r) as [d | e]; simpl; [reflexivity |].
    now rewrite <- app_assoc.
Qed.

Lemma first_pass_state_roots (s : BState) (r : FigmaNode) :
  root_nodes (first_pass_state s r)
  = root_nodes s ++ (if root_candidate r then [length (heap s)] else []).
Proof.
  unfold first_pass_state, root_candidate, built.
  destruct (AngularNode_init r); simpl; [| now rewrite app_nil_r].
  destruct (fn_parent_id r); simpl; [now rewrite app_nil_r | reflexivity].
Qed.

Lemma first_pass_state_heap (s : BState) (r : FigmaNode) :
  length (heap (first_pass_state s r))
  = length (heap s) + match built r with Some _ => 1 | None => 0 end.
Proof.
  unfold first_pass_state, built.
  destruct (AngularNode_init r); simpl; rewrite ?length_app; simpl; lia.
Qed.

Lemma root_candidate_built (r : FigmaNode) :
  root_candidate r = true -> is_Some (built r).
Proof. unfold root_candidate. destruct (built r); [eauto | discriminate]. Qed.

(** The root candidates, at the addresses of their objects. *)
Lemma first_pass_roots (valid : list FigmaNode) (s : BState) :
  exists rs,
    root_nodes (fold_left first_pass_state valid s) = root_nodes s ++ rs
    /\ Forall (fun a => length (heap s) <= a
                        < length (heap (fold_left first_pass_state valid s))) rs
    /\ (rs = [] <-> forall r, r ∈ valid -> root_candidate r = false).
Proof.
  revert s. induction valid as [| r valid IH]; intros s; simpl.
  - exists []. rewrite app_nil_r. repeat split; auto. intros _ r Hr. inversion Hr.
  - destruct (IH (first_pass_state s r)) as (rs & Hrs & Hall & Hnil).
    pose proof (first_pass_state_heap s r) as Hlen.
    rewrite first_pass_state_roots in Hrs.
    assert (Hfinal : length (heap (first_pass_state s r))
                     <= length (heap (fold_left first_pass_state valid (first_pass_state s r)))).
    { rewrite first_pass_heap, length_app. lia. }
    exists ((if root_candidate r then [length (heap s)] else []) ++ rs).
    split; [now rewrite Hrs, <- app_assoc |].
    split.
    + apply Forall_app. split.
      * destruct (root_candidate r) eqn:Hc; constructor; [| constructor].
        destruct (root_candidate_built r Hc) as [d Hd]. rewrite Hd in Hlen. lia.
      * eapply Forall_impl; [exact Hall |]. simpl. intros a Ha. lia.
    + split.
      * intros H r' Hr'. apply app_eq_nil in H as [H1 H2].
        apply elem_of_cons in Hr' as [-> | Hr'].
        -- destruct (root_candidate r); [discriminate | reflexivity].
        -- now apply Hnil.
      * intros H. rewrite (H r (list_elem_of_here _ _)). simpl.
        apply Hnil. intros r' Hr'. apply H. now right.
Qed.

(** ** The second loop *)

(** What one iteration does: for a record whose [parent_id] and whose own
    identifier are keys of [node_map], one [add_child]; nothing else. *)
Lemma second_pass_state_cases (s : BState) (r : FigmaNode) :
  (exists p parent i child,
      fn_parent_id r = Some p /\ dict_get p (node_map s) = Some parent
      /\ fn_id r = Some i /\ dict_get i (node_map s) = Some child
      /\ second_pass_state s r = snd (add_child parent child s))
  \/ ((fn_parent_id r = None
       \/ (exists p, fn_parent_id r = Some p /\ dict_get p (node_map s) = None)
       \/ (exists i, fn_id r = Some i /\ dict_get i (node_map s) = None))
      /\ second_pass_state s r = s)
  \/ (fn_id r = None
      /\ second_pass_state s r
         = mkBState (heap s) (node_map s) (root_nodes s)
             (log s ++ [ErrRelation (unknown_id r) KeyError])).
Proof.
  unfold second_pass_state, try_except, second_pass_step, mbind, M_bind, get,
    lift, item_id.
  destruct (fn_parent_id r) as [p |] eqn:Hp; simpl; [| right; left; auto].
  destruct (dict_get p (node_map s)) as [parent |] eqn:Hparent; simpl;
    [| right; left; split; [right; left; eauto | reflexivity]].
  destruct (fn_id r) as [i |] eqn:Hi; simpl; [| right; right; auto].
  destruct (dict_get i (node_map s)) as [child |] eqn:Hchild; simpl.
  - left. exists p, parent, i, child. auto.
  - right; left. split; [right; right; eauto | reflexivity].
Qed.

Lemma add_child_lookup (parent child : nat) (s : BState) (b : nat) (o' : Obj) :
  heap (snd (add_child parent child s)) !! b = Some o' ->
  exists o, heap s !! b = Some o /\ obj_data o' = obj_data o
    /\ (obj_children o' = obj_children o
        \/ (b = parent /\ obj_children o' = obj_children o ++ [child])).
Proof.
  unfold add_child, modify. simpl. intros H.
  rewrite list_lookup_alter in H.
  destruct (decide (child = b)) as [-> | Hcb].
  - rewrite list_lookup_alter in H.
    destruct (decide (parent = b)) as [-> | Hpb].
    + destruct (heap s !! b) as [o |]; [| discriminate]. simpl in H.
      injection H as <-. exists o. simpl. auto.
    + destruct (heap s !! b) as [o |]; [| discriminate]. simpl in H.
      injection H as <-. exists o. simpl. auto.
  - rewrite list_lookup_alter in H.
    destruct (decide (parent = b)) as [-> | Hpb].
    + destruct (heap s !! b) as [o |]; [| discriminate]. simpl in H.
      injection H as <-. exists o. simpl. auto.
    + exists o'. auto.
Qed.

Lemma add_child_data (parent child : nat) (s : BState) :
  map obj_data (heap (snd (add_child parent child s))) = map obj_data (heap s).
Proof.
  unfold add_child, modify. simpl.
  assert (Hkeep : forall (f : Obj -> Obj) i (l : list Obj),
            (forall o, obj_data (f o) = obj_data o) ->
            map obj_data (alter f i l) = map obj_data l).
  { intros f i l Hf.
    change (map obj_data ?x) with (obj_data <$> x).
    rewrite (list_fmap_alter obj_data f id l i)
      by (apply Forall_forall; intros; apply Hf).
    now apply list_alter_id. }
  rewrite !Hkeep; reflexivity.
Qed.

(** The second loop leaves [node_map], [root_nodes] and the fields of the
    objects as they are. *)
Lemma second_pass_frame (valid : list FigmaNode) (s : BState) :
  node_map (fold_left second_pass_state valid s) = node_map s
  /\ root_nodes (fold_left second_pass_state valid s) = root_nodes s
  /\ map obj_data (heap (fold_left second_pass_state valid s)) = map obj_data (heap s).
Proof.
  revert s. induction valid as [| r valid IH]; intros s; simpl; [auto |].
  destruct (IH (second_pass_state s r)) as (Hm & Hr & Hd).
  rewrite Hm, Hr, Hd.
  destruct (second_pass_state_cases s r)
    as [(p & parent & i & child & _ & _ & _ & _ & E) | [[_ E] | [_ E]]];
    rewrite E; auto.
  split; [reflexivity |]. split; [reflexivity |]. apply add_child_data.
Qed.

(** Records that all have an identifier print nothing in the second loop. *)
Lemma second_pass_log (valid : list FigmaNode) (s : BState) :
  Forall (fun r => is_Some (fn_id r)) valid ->
  log (fold_left second_pass_state valid s) = log s.
Proof.
  intros Hvalid. revert s.
  induction Hvalid as [| r valid [i Hi] _ IH]; intros s; simpl; [reflexivity |].
  rewrite IH.
  destruct (second_pass_state_cases s r)
    as [(p & parent & i' & child & _ & _ & _ & _ & E) | [[_ E] | [Hnone _]]];
    [now rewrite E | now rewrite E | congruence].
Qed.

Lemma valid_of_has_id (l : list raw) : Forall (fun r => is_Some (fn_id r)) (valid_of l).
Proof.
  unfold valid_of. induction l as [| r l IH]; simpl; [constructor |].
  destruct r as [| d]; simpl; [exact IH |].
  destruct (fn_id d) eqn:E; simpl; [| exact IH].
  constructor; [rewrite E; eauto | exact IH].
Qed.

Lemma valid_of_elem (l : list raw) (r : FigmaNode) :
  r ∈ valid_of l <-> Dict r ∈ l /\ is_Some (fn_id r).
Proof.
  unfold valid_of. rewrite list_elem_of_omap. split.
  - intros (x & Hx & Hv). destruct x as [| d]; simpl in Hv; [discriminate |].
    destruct (fn_id d) eqn:E; [| discriminate]. injection Hv as ->.
    split; [assumption | rewrite E; eauto].
  - intros [Hin [i Hi]]. exists (Dict r). split; [assumption |]. simpl. now rewrite Hi.
Qed.

(** Every child link of the final heap was there before the second loop or
    was added for a record whose [parent_id] and identifier both resolve. *)
Lemma second_pass_children (valid : list FigmaNode) (s : BState) (b c : nat) (o : Obj) :
  heap (fold_left second_pass_state valid s) !! b = Some o ->
  c ∈ obj_children o ->
  child_of (heap s) b c
  \/ exists r p i, r ∈ valid /\ fn_parent_id r = Some p
       /\ dict_get p (node_map s) = Some b
       /\ fn_id r = Some i /\ dict_get i (node_map s) = Some c.
Proof.
  revert s. induction valid as [| r valid IH]; intros s Hb Hc; simpl in Hb.
  - left. exists o. auto.
  - destruct (second_pass_state_cases s r)
      as [(p & parent & i & child & Hp & Hparent & Hi & Hchild & E) | [[_ E] | [_ E]]].
    + destruct (IH _ Hb Hc) as [(o1 & Ho1 & Hc1) | (r' & p' & i' & Hr' & H')].
      * rewrite E in Ho1. apply add_child_lookup in Ho1
          as (o0 & Ho0 & _ & [Hsame | [-> Happ]]).
        -- left. exists o0. split; [assumption |]. now rewrite <- Hsame.
        -- rewrite Happ in Hc1. apply elem_of_app in Hc1 as [Hc1 | Hc1].
           ++ left. exists o0. auto.
           ++ apply list_elem_of_singleton in Hc1 as ->.
              right. exists r, p, i. split; [left |]; auto.
      * right. exists r', p', i'. split; [now right |].
        rewrite E in H'. exact H'.
    + destruct (IH _ Hb Hc) as [H | (r' & p' & i' & Hr' & H')];
        rewrite E in *; [left; exact H |].
      right. exists r', p', i'. split; [now right | exact H'].
    + destruct (IH _ Hb Hc) as [(o1 & Ho1 & Hc1) | (r' & p' & i' & Hr' & H')].
      * left. exists o1. rewrite E in Ho1. auto.
      * right. exists r', p', i'. split; [now right |].
        rewrite E in H'. exact H'.
Qed.

(** ** Facts on [last_index] and on the nodes that were built *)

Lemma last_index_Some (k : string) (ds : list NodeData) (j : nat) :
  last_index k ds = Some j ->
  exists d, ds !! j = Some d /\ node_id d = k
    /\ forall j' d', ds !! j' = Some d' -> node_id d' = k -> j' <= j.
Proof.
  revert j. induction ds as [| d ds IH]; intros j; simpl; [discriminate |].
  destruct (last_index k ds) as [i |] eqn:E.
  - intros [= <-]. destruct (IH i eq_refl) as (d0 & Hd0 & Hk & Hmax).
    exists d0. split; [exact Hd0 |]. split; [exact Hk |].
    intros [| j'] d' Hj' Hk'; [lia |]. simpl in Hj'.
    specialize (Hmax j' d' Hj' Hk'). lia.
  - destruct (decide (node_id d = k)) as [Hk | Hk]; [| discriminate].
    intros [= <-]. exists d. split; [reflexivity |]. split; [exact Hk |].
    intros [| j'] d' Hj' Hk'; [lia |]. simpl in Hj'. exfalso.
    clear IH. revert j' Hj'. induction ds as [| d1 ds IHds]; intros j' Hj';
      [destruct j'; discriminate |].
    simpl in E. destruct (last_index k ds); [discriminate |].
    destruct (decide (node_id d1 = k)); [discriminate |].
    destruct j' as [| j']; simpl in Hj'; [congruence |].
    now apply (IHds eq_refl j').
Qed.

Lemma last_index_None (k : string) (ds : list NodeData) :
  last_index k ds = None <-> forall d, d ∈ ds -> node_id d <> k.
Proof.
  induction ds as [| d ds IH]; simpl.
  - split; [intros _ d Hd; inversion Hd | reflexivity].
  - destruct (last_index k ds) as [i |].
    + split; [discriminate |]. intros H. exfalso.
      assert (Hnone : @None nat = None) by reflexivity.
      destruct IH as [_ IH]. discriminate IH. intros d' Hd'. apply H. now right.
    + destruct (decide (node_id d = k)) as [Hk | Hk].
      * split; [discriminate |]. intros H. exfalso. apply (H d); [left | exact Hk].
      * split; [| reflexivity]. intros _ d' Hd'.
        apply elem_of_cons in Hd' as [-> | Hd']; [exact Hk |].
        now apply IH.
Qed.

Lemma built_id (r : FigmaNode) (d : NodeData) :
  built r = Some d -> node_id d = default ""%string (fn_id r).
Proof.
  unfold built, AngularNode_init, mbind, result_bind.
  destruct (fn_rest r); [| discriminate]. intros [= <-]. reflexivity.
Qed.

Lemma converted_elem (valid : list FigmaNode) (d : NodeData) :
  d ∈ converted valid <-> exists r, r ∈ valid /\ built r = Some d.
Proof. unfold converted. apply list_elem_of_omap. Qed.

(** The first key of [node_map] is the identifier of the first node built. *)
Lemma first_pass_head (valid : list FigmaNode) (s : BState) :
  exists a rest,
    node_map (fold_left first_pass_state valid s)
    = match node_map s, converted valid with
      | [], [] => []
      | [], d0 :: _ => (node_id d0, a) :: rest
      | (k, _) :: _, _ => (k, a) :: rest
      end.
Proof.
  revert s. induction valid as [| r valid IH]; intros s; simpl.
  - destruct (node_map s) as [| [k a] rest]; [exists 0, []; reflexivity |].
    exists a, rest. reflexivity.
  - destruct (IH (first_pass_state s r)) as (a & rest & E). rewrite E.
    unfold first_pass_state, converted, built. simpl.
    destruct (AngularNode_init r) as [d | e]; simpl.
    + destruct (dict_set_head (node_id d) (length (heap s)) (node_map s))
        as (a1 & rest1 & E1). rewrite E1.
      destruct (node_map s) as [| [k0 a0] m]; simpl; eauto.
    + change (list_omap _ _ ?f valid) with (omap f valid). eauto.
Qed.

(** ** The state after the two loops *)

Section AfterPasses.
Variable figma_nodes : list raw.
Let valid := valid_of figma_nodes.
Let s3 := after_passes figma_nodes initial.

Lemma passes_data : map obj_data (heap s3) = converted valid.
Proof.
  unfold s3, after_passes.
  destruct (second_pass_frame (valid_of figma_nodes) (after_first_pass figma_nodes initial))
    as (_ & _ & ->).
  unfold after_first_pass. rewrite first_pass_heap. simpl.
  rewrite map_map. simpl. apply map_id.
Qed.

Lemma passes_map (k : string) :
  dict_get k (node_map s3) = last_index k (converted valid).
Proof.
  unfold s3, after_passes.
  destruct (second_pass_frame (valid_of figma_nodes) (after_first_pass figma_nodes initial))
    as (-> & _ & _).
  unfold after_first_pass. rewrite first_pass_map. simpl.
  now destruct (last_index k _).
Qed.

Lemma passes_log :
  log s3 = replicate (skipped figma_nodes) WarnNoId ++ omap conversion_error valid.
Proof.
  unfold s3, after_passes.
  rewrite second_pass_log by apply valid_of_has_id.
  unfold after_first_pass. now rewrite first_pass_log.
Qed.

Lemma passes_roots :
  Forall (fun a => a < length (heap s3)) (root_nodes s3)
  /\ (root_nodes s3 = [] <-> forall r, r ∈ valid -> root_candidate r = false).
Proof.
  assert (Hlen : length (heap s3) = length (heap (after_first_pass figma_nodes initial))).
  { unfold s3, after_passes.
    destruct (second_pass_frame (valid_of figma_nodes)
                (after_first_pass figma_nodes initial)) as (_ & _ & Hd).
    apply (f_equal length) in Hd. now rewrite !length_map in Hd. }
  rewrite Hlen. unfold s3, after_passes.
  destruct (second_pass_frame (valid_of figma_nodes) (after_first_pass figma_nodes initial))
    as (_ & -> & _).
  unfold after_first_pass.
  destruct (first_pass_roots (valid_of figma_nodes)
              (mkBState [] [] [] ([] ++ replicate (skipped figma_nodes) WarnNoId)))
    as (rs & Hrs & Hall & Hnil).
  simpl in *. rewrite Hrs. split; [| exact Hnil].
  eapply Forall_impl; [exact Hall |]. simpl. intros a Ha. lia.
Qed.

(** Every entry of [node_map] is the address of an object of that
    identifier. *)
Lemma passes_map_object (k : string) (a : nat) :
  dict_get k (node_map s3) = Some a ->
  exists o, heap s3 !! a = Some o /\ node_id (obj_data o) = k
            /\ converted valid !! a = Some (obj_data o).
Proof.
  rewrite passes_map. intros H.
  apply last_index_Some in H as (d & Hd & Hk & _).
  rewrite <- passes_data in Hd.
  change (map obj_data (heap s3)) with (obj_data <$> heap s3) in Hd.
  rewrite list_lookup_fmap in Hd.
  destruct (heap s3 !! a) as [o |] eqn:Ho; [| discriminate].
  simpl in Hd. injection Hd as <-. exists o.
  split; [reflexivity |]. split; [exact Hk |].
  rewrite <- passes_data.
  change (map obj_data (heap s3)) with (obj_data <$> heap s3).
  now rewrite list_lookup_fmap, Ho.
Qed.

Lemma passes_map_nil : node_map s3 = [] <-> converted valid = [].
Proof.
  unfold s3, after_passes.
  destruct (second_pass_frame (valid_of figma_nodes) (after_first_pass figma_nodes initial))
    as (-> & _ & _).
  unfold after_first_pass.
  destruct (first_pass_head (valid_of figma_nodes)
              (mkBState (heap initial) [] []
                 (log initial ++ replicate (skipped figma_nodes) WarnNoId)))
    as (a & rest & ->).
  simpl. fold valid. destruct (converted valid); split; congruence.
Qed.

Lemma passes_head (d0 : NodeData) (ds : list NodeData) :
  converted valid = d0 :: ds ->
  exists a rest, node_map s3 = (node_id d0, a) :: rest.
Proof.
  intros Hconv. unfold s3, after_passes.
  destruct (second_pass_frame (valid_of figma_nodes) (after_first_pass figma_nodes initial))
    as (-> & _ & _).
  unfold after_first_pass.
  destruct (first_pass_head (valid_of figma_nodes)
              (mkBState (heap initial) [] []
                 (log initial ++ replicate (skipped figma_nodes) WarnNoId)))
    as (a & rest & ->).
  simpl. fold valid. rewrite Hconv. eauto.
Qed.

(** Child links come from records whose [parent_id] and identifier both
    resolve. *)
Lemma passes_children (b c : nat) :
  child_of (heap s3) b c ->
  exists r p i, r ∈ valid /\ fn_parent_id r = Some p
    /\ dict_get p (node_map s3) = Some b
    /\ fn_id r = Some i /\ dict_get i (node_map s3) = Some c.
Proof.
  intros (o & Ho & Hc). unfold s3, after_passes in Ho.
  destruct (second_pass_children _ _ _ _ _ Ho Hc)
    as [(o1 & Ho1 & Hc1) | (r & p & i & Hr & Hp & Hpa & Hi & Hch)].
  - exfalso. unfold after_first_pass in Ho1. rewrite first_pass_heap in Ho1.
    simpl in Ho1. apply list_lookup_fmap_Some in Ho1 as (d & -> & _).
    simpl in Hc1. inversion Hc1.
  - exists r, p, i. unfold s3, after_passes.
    destruct (second_pass_frame (valid_of figma_nodes)
                (after_first_pass figma_nodes initial)) as (-> & _ & _).
    auto.
Qed.

End AfterPasses.

(** ** The end of the function *)

Lemma finish_spec (figma_nodes : list raw) :
  let s3 := after_passes figma_nodes initial in
  exists roots s,
    finish s3 = (Ok roots, s)
    /\ heap s = heap s3 /\ node_map s = node_map s3 /\ root_nodes s = roots
    /\ ((root_nodes s3 <> [] /\ roots = root_nodes s3 /\ log s = log s3)
        \/ (root_nodes s3 = [] /\ node_map s3 = [] /\ roots = [] /\ log s = log s3)
        \/ (root_nodes s3 = []
            /\ exists k a rest o,
                 node_map s3 = (k, a) :: rest /\ heap s3 !! a = Some o
                 /\ node_id (obj_data o) = k /\ roots = [a]
                 /\ log s = log s3 ++ [WarnFallbackRoot k])).
Proof.
  intros s3. unfold finish.
  destruct (root_nodes s3) as [| a0 rs] eqn:Hr.
  - destruct (node_map s3) as [| [k a] rest] eqn:Hm.
    + exists [], s3. rewrite Hr. do 4 (split; [congruence |]).
      right; left. auto.
    + assert (Hget : dict_get k (node_map s3) = Some a).
      { rewrite Hm. simpl. now rewrite decide_True. }
      destruct (passes_map_object figma_nodes k a Hget) as (o & Ho & Hk & _).
      fold s3 in Ho. rewrite Ho, Hk.
      eexists _, _. split; [reflexivity |]. simpl. do 3 (split; [congruence |]).
      right; right. split; [reflexivity |]. exists k, a, rest, o. auto.
  - exists (a0 :: rs), s3. rewrite Hr. do 4 (split; [congruence |]).
    left. repeat split; auto; discriminate.
Qed.

Lemma tc_last_step {A} (R : relation A) (x y : A) : tc R x y -> exists z, R z y.
Proof. induction 1 as [x y H | x y z _ _ IH]; [eauto | exact IH]. Qed.

(** C6, as stated, fails: in [twin_input] the [parent_id] of the third
    record resolves to no node, and the node built from it (the one of type
    [TEXT], at address 2) is a child of the root. *)
Lemma orphan_attached_through_twin :
  let '(res, s) := convert_to_angular_nodes twin_input initial in
  res = Ok [0]
  /\ dict_get "zzz" (node_map s) = None
  /\ (node_type ∘ obj_data <$> heap s !! 2) = Some "TEXT"%string
  /\ (obj_children <$> heap s !! 0) = Some [2]
  /\ descendant (heap s) 0 2.
Proof.
  vm_compute. repeat split.
  apply tc_once. eexists. split; [reflexivity |]. apply list_elem_of_here.
Qed.

(** C6, amended. [convert_to_angular_nodes] returns for every input list.
    The elements without identifier are skipped, with one warning each; of
    the others, exactly those whose conversion raises are dropped, with one
    error message each, and the objects built are the nodes of the rest, in
    order.  The node of a record whose [parent_id] is the identifier of no
    node built, and whose own identifier no other record carries, is built
    and is the child of no object: it is a descendant of no root. *)
Theorem convert_tolerant (figma_nodes : list raw) :
  exists roots s,
    convert_to_angular_nodes figma_nodes initial = (Ok roots, s)
    /\ (figma_nodes <> [] ->
        exists tail,
          log s = replicate (skipped figma_nodes) WarnNoId
                  ++ omap conversion_error (valid_of figma_nodes) ++ tail)
    /\ map obj_data (heap s) = converted (valid_of figma_nodes)
    /\ forall r i p,
         Dict r ∈ figma_nodes -> fn_id r = Some i -> fn_parent_id r = Some p ->
         (forall d, d ∈ converted (valid_of figma_nodes) -> node_id d <> p) ->
         (forall r', Dict r' ∈ figma_nodes -> fn_id r' = Some i -> r' = r) ->
         forall d, built r = Some d ->
         exists a o,
           dict_get i (node_map s) = Some a /\ heap s !! a = Some o /\ obj_data o = d
           /\ (forall b, ~ child_of (heap s) b a)
           /\ (forall root, root ∈ roots -> ~ descendant (heap s) root a).
Proof.
  destruct figma_nodes as [| r0 l].
  { eexists _, _. split; [reflexivity |]. split; [congruence |].
    split; [reflexivity |]. intros r i p Hin. inversion Hin. }
  set (input := r0 :: l).
  destruct (finish_spec input) as (roots & s & Hfin & Hheap & Hmap & _ & Hcases).
  exists roots, s. split; [unfold input; now rewrite convert_phases |].
  split.
  { intros _.
    destruct Hcases as [(_ & _ & ->) | [(_ & _ & _ & ->) | (_ & k & a & m & o & _ & _ & _ & _ & ->)]];
      rewrite passes_log.
    - exists []. now rewrite app_nil_r.
    - exists []. now rewrite app_nil_r.
    - exists [WarnFallbackRoot k]. now rewrite <- app_assoc. }
  rewrite Hheap, Hmap. split; [apply passes_data |].
  intros r i p Hin Hi Hp Horphan Huniq d Hd.
  assert (Hvalid : r ∈ valid_of input).
  { apply valid_of_elem. split; [assumption | rewrite Hi; eauto]. }
  assert (Hdi : node_id d = i).
  { rewrite (built_id r d Hd), Hi. reflexivity. }
  destruct (last_index i (converted (valid_of input))) as [a |] eqn:Hlast.
  2:{ exfalso. apply (proj1 (last_index_None _ _) Hlast d); [| exact Hdi].
      apply converted_elem. eauto. }
  rewrite <- (passes_map input) in Hlast.
  destruct (passes_map_object input i a Hlast) as (o & Ho & Hoi & Hconv).
  assert (Hsame : forall i', dict_get i' (node_map (after_passes input initial)) = Some a ->
            i' = i).
  { intros i' Hi'.
    destruct (passes_map_object input i' a Hi') as (o1 & Ho1 & Hoi1 & _).
    congruence. }
  assert (Hod : obj_data o = d).
  { assert (Hmem : obj_data o ∈ converted (valid_of input)).
    { apply list_elem_of_lookup. eauto. }
    apply converted_elem in Hmem as (r' & Hr' & Hb').
    apply valid_of_elem in Hr' as [Hin' [i' Hi']].
    assert (i' = i).
    { rewrite (built_id r' _ Hb'), Hi' in Hoi. exact Hoi. }
    subst i'. rewrite (Huniq r' Hin' Hi') in Hb'. congruence. }
  assert (Hnochild : forall b, ~ child_of (heap (after_passes input initial)) b a).
  { intros b Hchild.
    apply passes_children in Hchild as (r' & p' & i' & Hr' & Hp' & Hparent & Hi' & Hchild).
    apply valid_of_elem in Hr' as [Hin' _].
    assert (i' = i) by (eapply Hsame; eauto). subst i'.
    rewrite (Huniq r' Hin' Hi') in Hp'. assert (p' = p) by congruence. subst p'.
    rewrite passes_map in Hparent.
    apply last_index_Some in Hparent as (d' & Hd' & Hk' & _).
    apply (Horphan d'); [| exact Hk'].
    apply list_elem_of_lookup. eauto. }
  exists a, o. repeat split; auto.
  intros root _ Hdesc. apply tc_last_step in Hdesc as [b Hb].
  exact (Hnochild b Hb).
Qed.

(** C5, as stated, fails: a list whose only element is a record without
    ["id"] is not empty, and the list of roots returned for it is. *)
Lemma roots_empty_for_record_without_id :
  [Dict (bare_record (Ok (mkExtracted PNone PNone "div")))] <> []
  /\ fst (convert_to_angular_nodes
            [Dict (bare_record (Ok (mkExtracted PNone PNone "div")))] initial)
     = Ok [].
Proof. split; [discriminate | reflexivity]. Qed.

(** C5, amended. The list of roots is non-empty exactly when at least one
    node is built (some record has an identifier and its conversion does not
    raise).  When nodes are built and none of their records lacks a
    [parent_id], the single root is the node registered under the first
    identifier inserted in [node_map], that of the first node built (this
    very node when no later node has its identifier), and the last message
    printed is the fallback warning. *)
Theorem convert_roots (figma_nodes : list raw) :
  exists roots s,
    convert_to_angular_nodes figma_nodes initial = (Ok roots, s)
    /\ (roots <> [] <-> converted (valid_of figma_nodes) <> [])
    /\ ((forall r, r ∈ valid_of figma_nodes -> root_candidate r = false) ->
        forall d0 ds, converted (valid_of figma_nodes) = d0 :: ds ->
        exists a o rest,
          roots = [a]
          /\ node_map s = (node_id d0, a) :: rest
          /\ heap s !! a = Some o /\ node_id (obj_data o) = node_id d0
          /\ last (log s) = Some (WarnFallbackRoot (node_id d0))
          /\ ((forall d, d ∈ ds -> node_id d <> node_id d0) ->
              a = 0 /\ obj_data o = d0)).
Proof.
  destruct figma_nodes as [| r0 l].
  { eexists _, _. split; [reflexivity |]. split.
    - split; intros H; exfalso; now apply H.
    - intros _ d0 ds H. discriminate H. }
  set (input := r0 :: l).
  destruct (finish_spec input) as (roots & s & Hfin & Hheap & Hmap & _ & Hcases).
  destruct (passes_roots input) as [_ Hnil].
  pose proof (passes_map_nil input) as Hmnil.
  exists roots, s. split; [unfold input; now rewrite convert_phases |].
  rewrite Hheap, Hmap. split.
  - destruct Hcases as [(Hne & -> & _) | [(_ & Hm & -> & _) | (_ & k & a & m & o & Hm & _ & _ & -> & _)]].
    + split; [| intros _; exact Hne]. intros _ Hconv. apply Hne, Hnil.
      intros r Hr. unfold root_candidate.
      destruct (built r) as [d |] eqn:Hb; [| reflexivity].
      assert (Hd : d ∈ converted (valid_of input)) by (apply converted_elem; eauto).
      rewrite Hconv in Hd. inversion Hd.
    + split; [congruence |]. intros H. exfalso. apply H, Hmnil, Hm.
    + split; [| discriminate]. intros _ Hconv. apply Hmnil in Hconv. congruence.
  - intros Hnone d0 ds Hconv.
    apply Hnil in Hnone.
    destruct (passes_head input d0 ds Hconv) as (a' & rest' & Hhead).
    destruct Hcases as [(Hne & _) | [(_ & Hm & _) | (_ & k & a & m & o & Hm & Ho & Hk & -> & Hlog)]];
      [contradiction | congruence |].
    rewrite Hhead in Hm. injection Hm as <- <- <-.
    exists a', o, rest'. repeat split; auto.
    + rewrite Hlog. apply last_snoc.
    + assert (Hget : dict_get (node_id d0) (node_map (after_passes input initial)) = Some a').
      { rewrite Hhead. simpl. now rewrite decide_True. }
      rewrite passes_map, Hconv in Hget. simpl in Hget.
      apply last_index_None in H. rewrite H in Hget.
      rewrite decide_True in Hget by reflexivity. congruence.
    + assert (Hget : dict_get (node_id d0) (node_map (after_passes input initial)) = Some a').
      { rewrite Hhead. simpl. now rewrite decide_True. }
      destruct (passes_map_object input _ _ Hget) as (o' & Ho' & _ & Hc).
      rewrite passes_map, Hconv in Hget. simpl in Hget.
      apply last_index_None in H. rewrite H in Hget.
      rewrite decide_True in Hget by reflexivity. injection Hget as <-.
      rewrite Hconv in Hc. simpl in Hc. congruence.
Qed.

(* ===================================================================== *)
(** * Numbers                                                             *)
(* ===================================================================== *)

Local Open Scope Q_scope.

Lemma Qleb_spec (a b : Q) : Qleb a b = true <-> a <= b.
Proof. apply Qle_bool_iff. Qed.

Lemma Qltb_spec (a b : Q) : Qltb a b = true <-> a < b.
Proof.
  unfold Qltb. rewrite negb_true_iff. split.
  - intros H. apply Qnot_le_lt. intros Hle.
    apply Qle_bool_iff in Hle. congruence.
  - intros H. apply not_true_iff_false. intros Hle.
    apply Qle_bool_iff in Hle. apply Qlt_not_le in H. contradiction.
Qed.

Lemma Qltb_false (a b : Q) : Qltb a b = false <-> b <= a.
Proof.
  rewrite <- not_true_iff_false, Qltb_spec. split.
  - apply Qnot_lt_le.
  - intros H1 H2. apply Qlt_not_le in H2. contradiction.
Qed.

#[global] Instance Qltb_proper : Proper (Qeq ==> Qeq ==> eq) Qltb.
Proof.
  intros a a' Ha b b' Hb. unfold Qltb. f_equal. now apply Qleb_comp.
Qed.

#[global] Instance Qleb_proper : Proper (Qeq ==> Qeq ==> eq) Qleb.
Proof. intros a a' Ha b b' Hb. now apply Qleb_comp. Qed.

(** ** Powers of 2 *)

Lemma pow2_pos (e : Z) : 0 < pow2 e.
Proof. apply Qpower_0_lt. reflexivity. Qed.

Lemma pow2_plus (a b : Z) : pow2 (a + b) == pow2 a * pow2 b.
Proof. apply Qpower_plus. discriminate. Qed.

Lemma pow2_le (a b : Z) : (a <= b)%Z -> pow2 a <= pow2 b.
Proof. intros H. apply Qpower_le_compat_l; [exact H | discriminate]. Qed.

Lemma pow2_lt_inv (a b : Z) : pow2 a < pow2 b -> (a < b)%Z.
Proof. intros H. apply (Qpower_lt_compat_l_inv 2); [exact H | reflexivity]. Qed.

Lemma pow2_inject (n : Z) : (0 <= n)%Z -> pow2 n == inject_Z (2 ^ n).
Proof. intros H. unfold pow2. now rewrite Zpower_Qpower. Qed.

Lemma pow2_div (a b : Z) : pow2 a / pow2 b == pow2 (a - b).
Proof.
  replace a with ((a - b) + b)%Z at 1 by ring. rewrite pow2_plus.
  field. pose proof (pow2_pos b). lra.
Qed.

(** ** The binary exponent *)

Lemma Zlog2_bounds (n : Z) :
  (0 < n)%Z -> (2 ^ Z.log2 n <= n < 2 ^ (Z.log2 n + 1))%Z.
Proof. intros H. pose proof (Z.log2_spec n H). rewrite <- Z.add_1_r in H0. exact H0. Qed.

Lemma ilog2_spec (q : Q) : 0 < q -> pow2 (ilog2 q) <= q /\ q < pow2 (ilog2 q + 1).
Proof.
  intros Hq. unfold ilog2.
  destruct q as [n d]. simpl Qnum. simpl Qden.
  assert (Hn : (0 < n)%Z).
  { unfold Qlt in Hq. simpl in Hq. lia. }
  pose proof (Zlog2_bounds n Hn) as [Hn1 Hn2].
  pose proof (Zlog2_bounds (Zpos d) (Pos2Z.is_pos d)) as [Hd1 Hd2].
  pose proof (Z.log2_nonneg n) as Hln. pose proof (Z.log2_nonneg (Zpos d)) as Hld.
  set (ln := Z.log2 n) in *. set (ld := Z.log2 (Zpos d)) in *.
  assert (En : n # d == inject_Z n / inject_Z (Zpos d)).
  { rewrite (Qmake_Qdiv n d). reflexivity. }
  assert (Hdpos : 0 < inject_Z (Zpos d)) by (unfold Qlt; simpl; lia).
  rewrite Zle_Qle in Hn1, Hd1. rewrite Zlt_Qlt in Hn2, Hd2.
  rewrite <- pow2_inject in Hn1, Hn2, Hd1, Hd2 by lia.
  assert (Hupper : n # d < pow2 (ln - ld + 1)).
  { rewrite En. apply Qlt_shift_div_r; [exact Hdpos |].
    replace (ln - ld + 1)%Z with ((ln + 1) + (- ld))%Z by ring.
    rewrite pow2_plus.
    assert (E : pow2 (- ld) * pow2 ld == 1).
    { rewrite <- pow2_plus. replace (- ld + ld)%Z with 0%Z by ring. reflexivity. }
    pose proof (pow2_pos (ln + 1)) as HA. pose proof (pow2_pos (- ld)) as HB.
    set (A := pow2 (ln + 1)) in *. set (B := pow2 (- ld)) in *.
    set (C := pow2 ld) in *. set (D := inject_Z (Z.pos d)) in *.
    assert (H1 : 1 <= B * D).
    { rewrite <- E. apply Qmult_le_l; [exact HB | exact Hd1]. }
    assert (H2 : A * 1 <= A * (B * D)).
    { apply Qmult_le_l; [exact HA | exact H1]. }
    rewrite <- Qmult_assoc. lra. }
  assert (Hlower : pow2 (ln - ld - 1) <= n # d).
  { rewrite En. apply Qle_shift_div_l; [exact Hdpos |].
    replace (ln - ld - 1)%Z with (ln + (- (ld + 1)))%Z by ring.
    rewrite pow2_plus.
    assert (E : pow2 (- (ld + 1)) * pow2 (ld + 1) == 1).
    { rewrite <- pow2_plus. replace (- (ld + 1) + (ld + 1))%Z with 0%Z by ring.
      reflexivity. }
    pose proof (pow2_pos ln) as HA. pose proof (pow2_pos (- (ld + 1))) as HB.
    set (A := pow2 ln) in *. set (B := pow2 (- (ld + 1))) in *.
    set (C := pow2 (ld + 1)) in *. set (D := inject_Z (Z.pos d)) in *.
    assert (H1 : B * D <= 1).
    { rewrite <- E. apply Qmult_le_l; [exact HB | lra]. }
    assert (H2 : A * (B * D) <= A * 1).
    { apply Qmult_le_l; [exact HA | exact H1]. }
    rewrite <- Qmult_assoc. lra. }
  destruct (Qleb (pow2 (ln - ld)) (n # d)) eqn:E.
  - apply Qleb_spec in E. split; [exact E | exact Hupper].
  - assert (E' : n # d < pow2 (ln - ld)).
    { apply Qnot_le_lt. intros H. apply Qleb_spec in H. congruence. }
    split; [exact Hlower |].
    replace (ln - ld - 1 + 1)%Z with (ln - ld)%Z by ring. exact E'.
Qed.

Lemma ilog2_mono (a b : Q) : 0 < a -> a <= b -> (ilog2 a <= ilog2 b)%Z.
Proof.
  intros Ha Hab.
  destruct (ilog2_spec a Ha) as [Ha1 _].
  destruct (ilog2_spec b) as [_ Hb2]; [lra |].
  assert (H : pow2 (ilog2 a) < pow2 (ilog2 b + 1)) by lra.
  apply pow2_lt_inv in H. lia.
Qed.

Lemma ulp_exponent_mono (a b : Q) :
  0 < a -> a <= b -> (ulp_exponent a <= ulp_exponent b)%Z.
Proof.
  intros Ha Hab. pose proof (ilog2_mono a b Ha Hab). unfold ulp_exponent. lia.
Qed.

(** ** [round] *)

Lemma py_round_bounds (q : Q) :
  (Qfloor q <= py_round q <= Qfloor q + 1)%Z.
Proof.
  unfold py_round.
  destruct (Qltb _ _); [lia |]. destruct (Qltb _ _); [lia |].
  destruct (Z.even _); lia.
Qed.

Lemma py_round_mono (a b : Q) : a <= b -> (py_round a <= py_round b)%Z.
Proof.
  intros Hab. pose proof (Qfloor_resp_le a b Hab) as Hf.
  pose proof (py_round_bounds a) as Ha. pose proof (py_round_bounds b) as Hb.
  destruct (Z.eq_dec (Qfloor a) (Qfloor b)) as [E | E]; [| lia].
  unfold py_round in *. rewrite <- E in *.
  destruct (Qltb (a - inject_Z (Qfloor a)) (1 # 2)) eqn:A1; [lia |].
  apply Qltb_false in A1.
  destruct (Qltb (b - inject_Z (Qfloor a)) (1 # 2)) eqn:B1.
  { apply Qltb_spec in B1. lra. }
  destruct (Qltb (1 # 2) (a - inject_Z (Qfloor a))) eqn:A2.
  { apply Qltb_spec in A2.
    assert (B2 : Qltb (1 # 2) (b - inject_Z (Qfloor a)) = true) by (apply Qltb_spec; lra).
    rewrite B2. lia. }
  destruct (Qltb (1 # 2) (b - inject_Z (Qfloor a))); [destruct (Z.even _); lia |].
  lia.
Qed.

Lemma py_round_Z (z : Z) : py_round (inject_Z z) = z.
Proof.
  unfold py_round. rewrite Qfloor_Z.
  assert (E : Qltb (inject_Z z - inject_Z z) (1 # 2) = true).
  { apply Qltb_spec. lra. }
  now rewrite E.
Qed.


(** ** Rounding to binary64 *)

Lemma rnd_abs_nonneg (q : Q) : 0 <= q -> 0 <= rnd_abs q.
Proof.
  intros Hq. unfold rnd_abs. pose proof (pow2_pos (ulp_exponent q)) as Hp.
  assert (H0 : 0 <= q / pow2 (ulp_exponent q)).
  { apply Qle_shift_div_l; [exact Hp | lra]. }
  apply py_round_mono in H0. change (py_round 0) with 0%Z in H0.
  rewrite Zle_Qle in H0. change (inject_Z 0) with 0 in H0. nra.
Qed.

(** A number below [2 ** t] rounds to at most [2 ** t], when [2 ** t] is a
    multiple of the unit in the last place. *)
Lemma rnd_abs_upper (q : Q) (t : Z) :
  (ulp_exponent q <= t)%Z -> q <= pow2 t -> rnd_abs q <= pow2 t.
Proof.
  intros Ht Hq. unfold rnd_abs. set (k := ulp_exponent q) in *.
  pose proof (pow2_pos k) as Hk.
  assert (H : q / pow2 k <= inject_Z (2 ^ (t - k))).
  { rewrite <- pow2_inject by lia. rewrite <- pow2_div.
    apply Qle_shift_div_l; [exact Hk |].
    assert (E : q / pow2 k * pow2 k == q) by (field; lra).
    lra. }
  apply py_round_mono in H. rewrite py_round_Z in H. rewrite Zle_Qle in H.
  rewrite <- pow2_inject in H by lia.
  assert (E : pow2 (t - k) * pow2 k == pow2 t).
  { rewrite <- pow2_plus. replace (t - k + k)%Z with t by ring. reflexivity. }
  nra.
Qed.

Lemma rnd_abs_lower (q : Q) (t : Z) :
  (ulp_exponent q <= t)%Z -> pow2 t <= q -> pow2 t <= rnd_abs q.
Proof.
  intros Ht Hq. unfold rnd_abs. set (k := ulp_exponent q) in *.
  pose proof (pow2_pos k) as Hk.
  assert (H : inject_Z (2 ^ (t - k)) <= q / pow2 k).
  { rewrite <- pow2_inject by lia. rewrite <- pow2_div.
    apply Qle_shift_div_l; [exact Hk |].
    assert (E : pow2 t / pow2 k * pow2 k == pow2 t) by (field; lra).
    lra. }
  apply py_round_mono in H. rewrite py_round_Z in H. rewrite Zle_Qle in H.
  rewrite <- pow2_inject in H by lia.
  assert (E : pow2 (t - k) * pow2 k == pow2 t).
  { rewrite <- pow2_plus. replace (t - k + k)%Z with t by ring. reflexivity. }
  nra.
Qed.

Lemma rnd_abs_mono (a b : Q) : 0 <= a -> a <= b -> rnd_abs a <= rnd_abs b.
Proof.
  intros Ha Hab.
  destruct (Qlt_le_dec 0 a) as [Hpos | Hzero].
  2:{ assert (E : rnd_abs a == 0).
      { unfold rnd_abs. pose proof (pow2_pos (ulp_exponent a)) as Hp.
        set (p := pow2 (ulp_exponent a)) in *. clearbody p.
        assert (Ha0 : a == 0) by lra.
        assert (H0 : a / p == 0) by (rewrite Ha0; field; lra).
        assert (H : py_round (a / p) = 0%Z).
        { apply Z.le_antisymm.
          - change 0%Z with (py_round 0). apply py_round_mono. rewrite H0. apply Qle_refl.
          - change 0%Z with (py_round 0). apply py_round_mono. rewrite H0.
            apply Qle_refl. }
        rewrite H. ring. }
      rewrite E. apply rnd_abs_nonneg. lra. }
  pose proof (ulp_exponent_mono a b Hpos Hab) as Hk.
  pose proof (ilog2_mono a b Hpos Hab) as He.
  destruct (ilog2_spec a Hpos) as [Ha1 Ha2].
  destruct (ilog2_spec b) as [Hb1 Hb2]; [lra |].
  destruct (Z.eq_dec (ulp_exponent a) (ulp_exponent b)) as [E | E].
  - unfold rnd_abs. rewrite E. set (k := ulp_exponent b).
    pose proof (pow2_pos k) as Hp.
    assert (H : a / pow2 k <= b / pow2 k).
    { apply Qle_shift_div_l; [exact Hp |].
      assert (E' : a / pow2 k * pow2 k == a) by (field; lra). lra. }
    apply py_round_mono in H. rewrite Zle_Qle in H. nra.
  - assert (Hkb : ulp_exponent b = (ilog2 b - 52)%Z) by (unfold ulp_exponent in *; lia).
    assert (Hlt : (ilog2 a + 1 <= ilog2 b)%Z) by (unfold ulp_exponent in *; lia).
    apply Qle_trans with (pow2 (ilog2 b)).
    + apply Qle_trans with (pow2 (Z.max (ilog2 a + 1) (ulp_exponent a))).
      * apply rnd_abs_upper; [lia |].
        apply Qle_trans with (pow2 (ilog2 a + 1)); [lra | apply pow2_le; lia].
      * apply pow2_le. lia.
    + apply rnd_abs_lower; [lia | exact Hb1].
Qed.

Lemma rnd_mono (a b : Q) : a <= b -> rnd a <= rnd b.
Proof.
  intros Hab. unfold rnd.
  destruct (Qltb a 0) eqn:Ea, (Qltb b 0) eqn:Eb.
  - apply Qltb_spec in Ea, Eb.
    assert (H : rnd_abs (- b) <= rnd_abs (- a)) by (apply rnd_abs_mono; lra). lra.
  - apply Qltb_spec in Ea. apply Qltb_false in Eb.
    pose proof (rnd_abs_nonneg (- a)). pose proof (rnd_abs_nonneg b). lra.
  - apply Qltb_false in Ea. apply Qltb_spec in Eb. lra.
  - apply Qltb_false in Ea, Eb. apply rnd_abs_mono; lra.
Qed.

#[global] Instance rnd_proper : Proper (Qeq ==> Qeq) rnd.
Proof.
  intros a b E. apply Qle_antisym; apply rnd_mono; rewrite E; apply Qle_refl.
Qed.

Lemma rnd_0 : rnd 0 == 0.
Proof. vm_compute. reflexivity. Qed.

Lemma rnd_nonneg (q : Q) : 0 <= q -> 0 <= rnd q.
Proof. intros H. apply (rnd_mono 0 q) in H. pose proof rnd_0. lra. Qed.




#[global] Instance fadd_proper : Proper (Qeq ==> Qeq ==> Qeq) fadd.
Proof. intros a a' Ha b b' Hb. unfold fadd. now rewrite Ha, Hb. Qed.

#[global] Instance fsub_proper : Proper (Qeq ==> Qeq ==> Qeq) fsub.
Proof. intros a a' Ha b b' Hb. unfold fsub. now rewrite Ha, Hb. Qed.

#[global] Instance fdiv_proper : Proper (Qeq ==> Qeq ==> Qeq) fdiv.
Proof. intros a a' Ha b b' Hb. unfold fdiv. now rewrite Ha, Hb. Qed.

(** A number whose rounding is within [tol] of 0 is within the next
    binary64 number above [tol]. *)
Lemma rnd_within (q tol tol' : Q) :
  rnd tol' == tol' -> rnd (- tol') == - tol' -> tol < tol' ->
  Qabs (rnd q) <= tol -> Qabs q < tol'.
Proof.
  intros Hp Hn Hlt H. apply Qabs_Qle_condition in H. apply Qabs_Qlt_condition.
  split.
  - apply Qnot_le_lt. intros Hq. apply rnd_mono in Hq. lra.
  - apply Qnot_le_lt. intros Hq. apply rnd_mono in Hq. lra.
Qed.

(** ** Sums and means *)

Lemma py_truediv_mean (l : list Q) :
  l <> [] -> py_truediv (py_sum l) (length l) = Ok (py_mean l).
Proof. destruct l; [congruence | reflexivity]. Qed.

Lemma fold_fadd_nonneg (l : list Q) (a : Q) :
  0 <= a -> Forall (fun v => 0 <= v) l -> 0 <= fold_left fadd l a.
Proof.
  revert a. induction l as [| v l IH]; intros a Ha Hall; simpl; [exact Ha |].
  inversion Hall; subst. apply IH; [| assumption].
  unfold fadd. apply rnd_nonneg. lra.
Qed.

Lemma py_sum_nonneg (l : list Q) : Forall (fun v => 0 <= v) l -> 0 <= py_sum l.
Proof. apply fold_fadd_nonneg. lra. Qed.

Lemma py_mean_nonneg (l : list Q) : Forall (fun v => 0 <= v) l -> 0 <= py_mean l.
Proof.
  intros Hall. unfold py_mean, fdiv. apply rnd_nonneg.
  apply Qmult_le_0_compat; [now apply py_sum_nonneg |].
  apply Qinv_le_0_compat. change 0 with (inject_Z 0). rewrite <- Zle_Qle. lia.
Qed.

Lemma positive_spec (l : list Q) : Forall (fun v => 0 < v) (positive l).
Proof.
  unfold positive. apply Forall_forall. intros v Hv.
  apply list_elem_of_In, filter_In in Hv as [_ Hv]. now apply Qltb_spec.
Qed.

Lemma positive_nil (l : list Q) : positive l = [] <-> Forall (fun v => v <= 0) l.
Proof.
  unfold positive. induction l as [| v l IH]; simpl.
  - split; [constructor | reflexivity].
  - destruct (Qltb 0 v) eqn:E.
    + split; [discriminate |]. intros H. inversion H; subst.
      apply Qltb_spec in E. lra.
    + rewrite IH. apply Qltb_false in E. split.
      * intros H. now constructor.
      * intros H. now inversion H.
Qed.

Lemma fold_max_spec (l : list Q) (x : Q) :
  let m := fold_left (fun m y => if Qltb m y then y else m) l x in
  In m (x :: l) /\ forall v, In v (x :: l) -> v <= m.
Proof.
  revert x. induction l as [| y l IH]; intros x; simpl.
  - split; [auto |]. intros v [<- | []]. lra.
  - specialize (IH (if Qltb x y then y else x)). simpl in IH.
    destruct IH as [Hin Hmax]. split.
    + destruct Hin as [Hin | Hin]; [| auto].
      rewrite <- Hin. destruct (Qltb x y); auto.
    + intros v Hv.
      assert (Hstep : x <= (if Qltb x y then y else x)
                      /\ y <= (if Qltb x y then y else x)).
      { destruct (Qltb x y) eqn:E.
        - apply Qltb_spec in E. lra.
        - apply Qltb_false in E. lra. }
      pose proof (Hmax _ (or_introl eq_refl)) as H0.
      destruct Hv as [<- | [<- | Hv]]; [lra | lra | auto].
Qed.

Lemma fold_min_spec (l : list Q) (x : Q) :
  let m := fold_left (fun m y => if Qltb y m then y else m) l x in
  In m (x :: l) /\ forall v, In v (x :: l) -> m <= v.
Proof.
  revert x. induction l as [| y l IH]; intros x; simpl.
  - split; [auto |]. intros v [<- | []]. lra.
  - specialize (IH (if Qltb y x then y else x)). simpl in IH.
    destruct IH as [Hin Hmin]. split.
    + destruct Hin as [Hin | Hin]; [| auto].
      rewrite <- Hin. destruct (Qltb y x); auto.
    + intros v Hv.
      assert (Hstep : (if Qltb y x then y else x) <= x
                      /\ (if Qltb y x then y else x) <= y).
      { destruct (Qltb y x) eqn:E.
        - apply Qltb_spec in E. lra.
        - apply Qltb_false in E. lra. }
      pose proof (Hmin _ (or_introl eq_refl)) as H0.
      destruct Hv as [<- | [<- | Hv]]; [lra | lra | auto].
Qed.

Lemma py_max_spec (l : list Q) :
  l <> [] -> exists m, py_max l = Ok m /\ is_maximum m l.
Proof.
  destruct l as [| x l]; [congruence |]. intros _.
  eexists. split; [reflexivity |]. apply fold_max_spec.
Qed.

Lemma py_min_spec (l : list Q) :
  l <> [] -> exists m, py_min l = Ok m /\ is_minimum m l.
Proof.
  destruct l as [| x l]; [congruence |]. intros _.
  eexists. split; [reflexivity |]. apply fold_min_spec.
Qed.

Lemma maximum_unique (l : list Q) (m m' : Q) :
  is_maximum m l -> is_maximum m' l -> m == m'.
Proof.
  intros [Hin Hmax] [Hin' Hmax']. apply Qle_antisym; auto.
Qed.

Lemma minimum_unique (l : list Q) (m m' : Q) :
  is_minimum m l -> is_minimum m' l -> m == m'.
Proof.
  intros [Hin Hmin] [Hin' Hmin']. apply Qle_antisym; auto.
Qed.

Lemma all_within_le_spec (tol ref : Q) (l : list Q) :
  all_within_le tol ref l = true <-> Forall (fun v => Qabs (fsub v ref) <= tol) l.
Proof.
  unfold all_within_le. rewrite forallb_forall, Forall_forall.
  split; intros H v Hv.
  - apply Qleb_spec, H, list_elem_of_In, Hv.
  - apply Qleb_spec, H, list_elem_of_In, Hv.
Qed.

Lemma all_within_lt_spec (tol ref : Q) (l : list Q) :
  all_within_lt tol ref l = true <-> Forall (fun v => Qabs (fsub v ref) < tol) l.
Proof.
  unfold all_within_lt. rewrite forallb_forall, Forall_forall.
  split; intros H v Hv.
  - apply Qltb_spec, H, list_elem_of_In, Hv.
  - apply Qltb_spec, H, list_elem_of_In, Hv.
Qed.

Lemma within_lt_ref (tol ref ref' : Q) (l : list Q) :
  ref == ref' ->
  Forall (fun v => Qabs (fsub v ref) < tol) l ->
  Forall (fun v => Qabs (fsub v ref') < tol) l.
Proof.
  intros E H. eapply Forall_impl; [exact H |].
  intros v Hv. cbv beta in *. now rewrite <- E.
Qed.

(** ** Row and column detection *)

Lemma rbind_ok {A B} (a : A) (k : A -> result B) : (Ok a ≫= k) = k a.
Proof. reflexivity. Qed.

Lemma map_nonempty {A B} (f : A -> B) (l : list A) : l <> [] -> map f l <> [].
Proof. destruct l; [congruence | discriminate]. Qed.

Lemma Forall_map_iff {A B} (P : B -> Prop) (f : A -> B) (l : list A) :
  Forall P (map f l) <-> Forall (fun a => P (f a)) l.
Proof.
  induction l as [| a l IH]; simpl.
  - split; constructor.
  - split; intros H; inversion H; subst; constructor; auto; now apply IH.
Qed.

Lemma children_aligned_spec (along across : NodeData -> Q) (children : list NodeData) :
  exists b, children_aligned along across children = Ok b
            /\ (b = true <-> aligned_spec along across children).
Proof.
  unfold children_aligned, aligned_spec.
  destruct (length children <? 2)%nat eqn:Hlen.
  { exists false. split; [reflexivity |]. apply Nat.ltb_lt in Hlen.
    split; [discriminate | intros [H _]; lia]. }
  apply Nat.ltb_ge in Hlen.
  assert (Hne : forall f : NodeData -> Q, map f children <> []).
  { intros f. apply map_nonempty. intros ->. simpl in Hlen. lia. }
  rewrite (py_truediv_mean (map across children) (Hne across)), rbind_ok.
  set (avg := py_mean (map across children)).
  destruct (all_within_le 5 avg (map across children)) eqn:Hal.
  - destruct (py_max_spec (map along children) (Hne along)) as (hi & -> & Hhi).
    destruct (py_min_spec (map along children) (Hne along)) as (lo & -> & Hlo).
    rewrite !rbind_ok. eexists. split; [reflexivity |].
    apply all_within_le_spec in Hal.
    apply (proj1 (Forall_map_iff (fun v => Qabs (fsub v avg) <= 5) across children))
      in Hal.
    rewrite Qltb_spec. split.
    + intros H. split; [exact Hlen |]. split; [exact Hal |]. eauto.
    + intros (_ & _ & hi' & lo' & Hhi' & Hlo' & H).
      rewrite (maximum_unique _ _ _ Hhi Hhi'), (minimum_unique _ _ _ Hlo Hlo'). exact H.
  - exists false. split; [reflexivity |]. split; [discriminate |].
    intros (_ & H & _). apply not_true_iff_false in Hal. exfalso. apply Hal.
    apply all_within_le_spec.
    apply (proj2 (Forall_map_iff (fun v => Qabs (fsub v avg) <= 5) across children)).
    exact H.
Qed.

(** ** [sorted] *)

Lemma insert_by_key_perm {A} (key : A -> Q) (a : A) (l : list A) :
  Permutation (insert_by_key key a l) (a :: l).
Proof.
  induction l as [| b l IH]; simpl; [reflexivity |].
  destruct (Qleb (key a) (key b)); [reflexivity |].
  rewrite IH. apply perm_swap.
Qed.

Lemma py_sorted_perm {A} (key : A -> Q) (l : list A) : Permutation (py_sorted key l) l.
Proof.
  induction l as [| a l IH]; simpl; [reflexivity |].
  rewrite insert_by_key_perm. now constructor.
Qed.

Lemma insert_by_key_sorted {A} (key : A -> Q) (a : A) (l : list A) :
  Sorted (fun u v => key u <= key v) l ->
  Sorted (fun u v => key u <= key v) (insert_by_key key a l).
Proof.
  induction 1 as [| b l Hs IH Hb]; simpl; [repeat constructor |].
  destruct (Qleb (key a) (key b)) eqn:E.
  - apply Qleb_spec in E. constructor; [now constructor |]. now constructor.
  - assert (Hba : key b <= key a).
    { apply not_true_iff_false in E. rewrite Qleb_spec in E.
      apply Qlt_le_weak, Qnot_le_lt, E. }
    constructor; [exact IH |].
    destruct l as [| c l]; simpl; [now constructor |].
    destruct (Qleb (key a) (key c)); constructor; [exact Hba |].
    now inversion Hb.
Qed.

Lemma py_sorted_sorted {A} (key : A -> Q) (l : list A) :
  Sorted (fun u v => key u <= key v) (py_sorted key l).
Proof.
  induction l as [| a l IH]; simpl; [constructor |].
  now apply insert_by_key_sorted.
Qed.

Lemma py_sorted_Forall {A} (key : A -> Q) (P : A -> Prop) (l : list A) :
  Forall P l -> Forall P (py_sorted key l).
Proof.
  intros H. eapply Permutation_Forall; [| exact H].
  symmetry. apply py_sorted_perm.
Qed.

Lemma py_sorted_length {A} (key : A -> Q) (l : list A) :
  length (py_sorted key l) = length l.
Proof. apply Permutation_length, py_sorted_perm. Qed.

(** ** Spacing *)

Lemma adjacent_spacings_spec (start : NodeData -> Q) (extent : NodeData -> dim)
    (s : list NodeData) (ds : list Q) :
  adjacent_deltas start extent s ds ->
  adjacent_spacings start (fun c => add_dim (start c) (extent c)) s = Ok ds.
Proof.
  revert ds. induction s as [| p s IH]; intros ds [Hlen Hrel].
  - destruct ds; [reflexivity | discriminate].
  - destruct s as [| n t].
    + destruct ds; [reflexivity | discriminate].
    + destruct (Hrel O p n eq_refl eq_refl) as (w & Hw & Hd).
      destruct ds as [| d ds]; [discriminate |]. simpl in Hd. injection Hd as ->.
      assert (Hrest : adjacent_deltas start extent (n :: t) ds).
      { split; [simpl in *; lia |].
        intros i prev next Hp Hn. apply (Hrel (S i) prev next Hp Hn). }
      change (adjacent_spacings start (fun c => add_dim (start c) (extent c)) (p :: n :: t))
        with (curr_far ← add_dim (start p) (extent p);
              spacings ← adjacent_spacings start
                           (fun c => add_dim (start c) (extent c)) (n :: t);
              mret (fsub (start n) curr_far :: spacings)).
      rewrite Hw, (IH ds Hrest). reflexivity.
Qed.

(** The loop over the adjacent pairs computes the deltas, or raises
    [TypeError] on the first child, other than the last, of extent
    ["auto"]. *)
Lemma adjacent_spacings_cases (start : NodeData -> Q) (extent : NodeData -> dim)
    (s : list NodeData) :
  (exists ds, adjacent_deltas start extent s ds)
  \/ (unsized_before_last extent s
      /\ adjacent_spacings start (fun c => add_dim (start c) (extent c)) s
         = Raise TypeError).
Proof.
  induction s as [| p s IH]; [left; exists []; split; [reflexivity |] |].
  { intros i prev next H. destruct i; discriminate. }
  destruct s as [| n t].
  { left. exists []. split; [reflexivity |]. intros [| i] prev next Hp Hn; discriminate. }
  change (adjacent_spacings start (fun c => add_dim (start c) (extent c)) (p :: n :: t))
    with (curr_far ← add_dim (start p) (extent p);
          spacings ← adjacent_spacings start
                       (fun c => add_dim (start c) (extent c)) (n :: t);
          mret (fsub (start n) curr_far :: spacings)).
  destruct (extent p) as [| w] eqn:Hp.
  { right. split; [| reflexivity]. exists O, p. simpl. split; [reflexivity |].
    split; [lia | exact Hp]. }
  destruct IH as [(ds & Hlen & Hrel) | ((i & c & Hi & Hlt & Hc) & E)].
  - left. exists (fsub (start n) (fadd (start p) w) :: ds). split; [simpl in *; lia |].
    intros [| i] prev next Hprev Hnext.
    + injection Hprev as <-. injection Hnext as <-. exists w. auto.
    + apply (Hrel i prev next Hprev Hnext).
  - right. split.
    + exists (S i), c. simpl in *. split; [exact Hi |]. split; [lia | exact Hc].
    + simpl add_dim. rewrite rbind_ok, E. reflexivity.
Qed.

Lemma adjacent_deltas_sized (start : NodeData -> Q) (extent : NodeData -> dim)
    (s : list NodeData) (ds : list Q) :
  adjacent_deltas start extent s ds -> ~ unsized_before_last extent s.
Proof.
  intros [_ Hrel] (i & c & Hi & Hlt & Hc).
  destruct (lookup_lt_is_Some_2 s (S i) Hlt) as [n Hn].
  destruct (Hrel i c n Hi Hn) as (w & Hw & _). congruence.
Qed.

Lemma calculate_spacing_spec (start : NodeData -> Q) (extent : NodeData -> dim)
    (children : list NodeData) (ds : list Q) :
  (2 <= length children)%nat ->
  adjacent_deltas start extent (py_sorted start children) ds ->
  exists q,
    calculate_spacing start (fun c => add_dim (start c) (extent c)) children = Ok q
    /\ (positive ds <> [] -> q = py_mean (positive ds))
    /\ (positive ds = [] -> q = 0).
Proof.
  intros Hlen Hds. unfold calculate_spacing.
  apply Nat.ltb_ge in Hlen. rewrite Hlen.
  rewrite (adjacent_spacings_spec _ _ _ _ Hds), rbind_ok.
  destruct (positive ds) as [| v l] eqn:Hpos.
  - exists 0. split; [reflexivity |]. split; [congruence | reflexivity].
  - rewrite py_truediv_mean by discriminate.
    eexists. split; [reflexivity |]. split; [reflexivity | discriminate].
Qed.

(** The spacing of at least 2 children: the mean of the positive deltas,
    0 when there is none, or [TypeError]. *)
Lemma calculate_spacing_cases (start : NodeData -> Q) (extent : NodeData -> dim)
    (children : list NodeData) :
  (2 <= length children)%nat ->
  match calculate_spacing start (fun c => add_dim (start c) (extent c)) children with
  | Ok q =>
      exists deltas,
        adjacent_deltas start extent (py_sorted start children) deltas
        /\ (positive deltas <> [] -> q = py_mean (positive deltas))
        /\ (Forall (fun d => d <= 0) deltas -> q = 0)
  | Raise e => e = TypeError /\ unsized_before_last extent (py_sorted start children)
  end.
Proof.
  intros Hlen.
  destruct (adjacent_spacings_cases start extent (py_sorted start children))
    as [(ds & Hds) | (Hun & E)].
  - destruct (calculate_spacing_spec start extent children ds Hlen Hds)
      as (q & -> & Hpos & Hnil).
    exists ds. split; [exact Hds |]. split; [exact Hpos |].
    intros Hall. apply Hnil, positive_nil, Hall.
  - unfold calculate_spacing. apply Nat.ltb_ge in Hlen. rewrite Hlen, E. simpl. auto.
Qed.

(** ** The states of [_analyze_node_layout] *)

Lemma classify_flex_run (direction flex_direction : string)
    (spacing_of : list NodeData -> result Q)
    (alignment_of : list NodeData -> result (option string))
    (children : list NodeData) (n : NodeData) :
  classify_flex direction flex_direction spacing_of alignment_of children n
  = match spacing_of children with
    | Raise e => (Raise e, flex_assigned direction flex_direction n)
    | Ok q =>
        let n2 := spacing_recorded q (flex_assigned direction flex_direction n) in
        match alignment_of children with
        | Raise e => (Raise e, n2)
        | Ok (Some a) => (Ok tt, with_flex_props (<["align-items" := CssKw a]>) n2)
        | Ok None => (Ok tt, n2)
        end
    end.
Proof.
  unfold classify_flex, spacing_recorded, flex_assigned, mbind, M_bind, modify, lift,
    mret, M_ret.
  destruct (spacing_of children) as [q | e]; [| reflexivity].
  destruct (Qltb 0 q); (destruct (alignment_of children) as [[a |] | e]; reflexivity).
Qed.

Lemma analyze_run (children : list NodeData) (n : NodeData) :
  is_container n = true -> children <> [] ->
  _analyze_node_layout children n
  = match classify children n with
    | (Ok _, n') => contain_absolute children n'
    | (Raise e, n') => (Raise e, n')
    end.
Proof.
  intros Hc Hne. unfold _analyze_node_layout, mbind, M_bind, get. rewrite Hc. simpl.
  destruct children; [congruence | reflexivity].
Qed.

Lemma analyze_skip (children : list NodeData) (n : NodeData) :
  is_container n = false \/ children = [] ->
  _analyze_node_layout children n = (Ok tt, n).
Proof.
  intros H. unfold _analyze_node_layout, mbind, M_bind, get.
  destruct (is_container n); simpl.
  - destruct H as [H | ->]; [discriminate | reflexivity].
  - reflexivity.
Qed.

(** The last statement only assigns the position mode. *)
Lemma contain_absolute_run (children : list NodeData) (n : NodeData) :
  contain_absolute children n
  = (Ok tt,
     if existsb is_absolute children
        && negb (truthy (flex_props n)) && negb (truthy (grid_props n))
     then with_position_mode Relative n else n).
Proof.
  unfold contain_absolute.
  assert (E : existsb is_absolute children
              = match List.filter is_absolute children with [] => false | _ => true end).
  { induction children as [| c cs IH]; simpl; [reflexivity |].
    destruct (is_absolute c); simpl; [reflexivity | exact IH]. }
  rewrite E. destruct (List.filter is_absolute children); [reflexivity |].
  unfold mbind, M_bind, get, modify, mret, M_ret. simpl.
  destruct (negb (truthy (flex_props n)) && negb (truthy (grid_props n))); reflexivity.
Qed.

Lemma contain_absolute_frame (children : list NodeData) (n : NodeData) :
  let n' := snd (contain_absolute children n) in
  layout n' = layout n /\ flex_props n' = flex_props n /\ grid_props n' = grid_props n.
Proof.
  rewrite contain_absolute_run. simpl.
  destruct (_ && _); auto.
Qed.

(** After [_analyze_node_layout] on a container with children, the layout
    and the properties are those that [classify] left. *)
Lemma analyze_classified (children : list NodeData) (n : NodeData) :
  is_container n = true -> children <> [] ->
  let n' := snd (_analyze_node_layout children n) in
  let nc := snd (classify children n) in
  layout n' = layout nc /\ flex_props n' = flex_props nc
  /\ grid_props n' = grid_props nc.
Proof.
  intros Hc Hne. rewrite (analyze_run children n Hc Hne).
  destruct (classify children n) as [[[] | e] nc]; simpl; [| auto].
  apply contain_absolute_frame.
Qed.

(** [classify] as one expression of the children and the node. *)
Lemma classify_unfold (cs : list NodeData) (n : NodeData) :
  classify cs n
  = match _children_aligned_horizontally cs with
    | Raise e => (Raise e, n)
    | Ok true =>
        classify_flex "horizontal" "row" _calculate_horizontal_spacing
          _detect_vertical_alignment cs n
    | Ok false =>
        match _children_aligned_vertically cs with
        | Raise e => (Raise e, n)
        | Ok true =>
            classify_flex "vertical" "column" _calculate_vertical_spacing
              _detect_horizontal_alignment cs n
        | Ok false =>
            if _appears_to_be_grid cs then classify_grid cs n else (Ok tt, n)
        end
    end.
Proof.
  unfold classify, mbind, M_bind, lift.
  destruct (_children_aligned_horizontally cs) as [[] | e]; try reflexivity.
  destruct (_children_aligned_vertically cs) as [[] | e]; try reflexivity.
  destruct (_appears_to_be_grid cs); reflexivity.
Qed.

(** The branch that [classify] takes, by the results of the tests. *)
Lemma classify_when_row (children : list NodeData) (n : NodeData) :
  _children_aligned_horizontally children = Ok true ->
  classify children n
  = classify_flex "horizontal" "row" _calculate_horizontal_spacing
      _detect_vertical_alignment children n.
Proof. intros H. now rewrite classify_unfold, H. Qed.

Lemma classify_when_column (children : list NodeData) (n : NodeData) :
  _children_aligned_horizontally children = Ok false ->
  _children_aligned_vertically children = Ok true ->
  classify children n
  = classify_flex "vertical" "column" _calculate_vertical_spacing
      _detect_horizontal_alignment children n.
Proof. intros H1 H2. now rewrite classify_unfold, H1, H2. Qed.

Lemma classify_when_neither (children : list NodeData) (n : NodeData) :
  _children_aligned_horizontally children = Ok false ->
  _children_aligned_vertically children = Ok false ->
  classify children n
  = if _appears_to_be_grid children then classify_grid children n else (Ok tt, n).
Proof. intros H1 H2. now rewrite classify_unfold, H1, H2. Qed.

(** The two tests return, and hold exactly when the children are aligned. *)
Lemma aligned_horizontally_spec (children : list NodeData) :
  (_children_aligned_horizontally children = Ok true
   <-> aligned_spec x_of y_of children)
  /\ (_children_aligned_horizontally children = Ok false
      <-> ~ aligned_spec x_of y_of children).
Proof.
  unfold _children_aligned_horizontally.
  destruct (children_aligned_spec x_of y_of children) as (b & -> & Hb).
  destruct b.
  - split; [split; [intros _; apply Hb; reflexivity | reflexivity] |].
    split; [discriminate | intros H; exfalso; apply H, Hb; reflexivity].
  - split; [split; [discriminate | intros H; apply Hb in H; discriminate] |].
    split; [intros _ H; apply Hb in H; discriminate | reflexivity].
Qed.

Lemma aligned_vertically_spec (children : list NodeData) :
  (_children_aligned_vertically children = Ok true
   <-> aligned_spec y_of x_of children)
  /\ (_children_aligned_vertically children = Ok false
      <-> ~ aligned_spec y_of x_of children).
Proof.
  unfold _children_aligned_vertically.
  destruct (children_aligned_spec y_of x_of children) as (b & -> & Hb).
  destruct b.
  - split; [split; [intros _; apply Hb; reflexivity | reflexivity] |].
    split; [discriminate | intros H; exfalso; apply H, Hb; reflexivity].
  - split; [split; [discriminate | intros H; apply Hb in H; discriminate] |].
    split; [intros _ H; apply Hb in H; discriminate | reflexivity].
Qed.

(** ** The flex branches *)

Lemma flex_assigned_facts (direction flex_direction : string) (n : NodeData) :
  let n' := flex_assigned direction flex_direction n in
  layout_type_of (layout n') = LAutoLayout
  /\ layout_direction (layout n') = Some direction
  /\ layout_spacing (layout n') = layout_spacing (layout n)
  /\ flex_props n' = flex_literal flex_direction
  /\ grid_props n' = grid_props n
  /\ position n' = position n.
Proof. repeat split. Qed.

Lemma classify_flex_basic (direction flex_direction : string)
    (spacing_of : list NodeData -> result Q)
    (alignment_of : list NodeData -> result (option string))
    (children : list NodeData) (n : NodeData) :
  let nc := snd (classify_flex direction flex_direction spacing_of alignment_of
                   children n) in
  layout_type_of (layout nc) = LAutoLayout
  /\ layout_direction (layout nc) = Some direction
  /\ flex_props nc !! "display"%string = Some (CssKw "flex")
  /\ flex_props nc !! "flex-direction"%string = Some (CssKw flex_direction)
  /\ grid_props nc = grid_props n.
Proof.
  rewrite classify_flex_run. unfold spacing_recorded, flex_assigned, flex_literal.
  destruct (spacing_of children) as [q | e]; simpl; [| by simplify_map_eq].
  destruct (Qltb 0 q);
    (destruct (alignment_of children) as [[a |] | e]; simpl; by simplify_map_eq).
Qed.

Lemma classify_flex_gap (direction flex_direction : string)
    (spacing_of : list NodeData -> result Q)
    (alignment_of : list NodeData -> result (option string))
    (children : list NodeData) (n : NodeData) (q : Q) :
  spacing_of children = Ok q ->
  let nc := snd (classify_flex direction flex_direction spacing_of alignment_of
                   children n) in
  (0 < q -> layout_spacing (layout nc) = q
            /\ flex_props nc !! "gap"%string = Some (CssPx q))
  /\ (q <= 0 -> layout_spacing (layout nc) = layout_spacing (layout n)
                /\ flex_props nc !! "gap"%string = None).
Proof.
  intros Hq. rewrite classify_flex_run, Hq.
  unfold spacing_recorded, flex_assigned, flex_literal.
  destruct (Qltb 0 q) eqn:E.
  - apply Qltb_spec in E. split; [intros _ | intros H; lra].
    destruct (alignment_of children) as [[a |] | e]; simpl; by simplify_map_eq.
  - apply Qltb_false in E. split; [intros H; lra | intros _].
    destruct (alignment_of children) as [[a |] | e]; simpl; by simplify_map_eq.
Qed.

(** The row branch: the three assignments, then the spacing, recorded
    when it is above 0; an exception of the spacing computation ends the
    analysis of the node. *)
Lemma row_branch (node : NodeData) (children : list NodeData) :
  is_container node = true ->
  _children_aligned_horizontally children = Ok true ->
  let node' := snd (_analyze_node_layout children node) in
  layout_type_of (layout node') = LAutoLayout
  /\ layout_direction (layout node') = Some "horizontal"%string
  /\ flex_props node' !! "display"%string = Some (CssKw "flex")
  /\ flex_props node' !! "flex-direction"%string = Some (CssKw "row")
  /\ match _calculate_horizontal_spacing children with
     | Ok q =>
         (exists deltas,
            adjacent_deltas x_of width_of (py_sorted x_of children) deltas
            /\ (positive deltas <> [] -> q = py_mean (positive deltas))
            /\ (Forall (fun d => d <= 0) deltas -> q = 0))
         /\ (0 < q ->
             layout_spacing (layout node') = q
             /\ flex_props node' !! "gap"%string = Some (CssPx q))
         /\ (q <= 0 ->
             layout_spacing (layout node') = layout_spacing (layout node)
             /\ flex_props node' !! "gap"%string = None)
     | Raise e =>
         e = TypeError
         /\ unsized_before_last width_of (py_sorted x_of children)
         /\ fst (_analyze_node_layout children node) = Raise TypeError
         /\ layout_spacing (layout node') = layout_spacing (layout node)
         /\ flex_props node' !! "gap"%string = None
         /\ flex_props node' !! "align-items"%string = None
     end.
Proof.
  intros Hc Hrow node'.
  assert (Hlen : (2 <= length children)%nat).
  { apply aligned_horizontally_spec in Hrow. apply Hrow. }
  assert (Hne : children <> []) by (intros ->; simpl in Hlen; lia).
  destruct (analyze_classified children node Hc Hne) as (Hl & Hf & _).
  fold node' in Hl, Hf. rewrite Hl, Hf. rewrite (classify_when_row children node Hrow).
  destruct (classify_flex_basic "horizontal" "row" _calculate_horizontal_spacing
              _detect_vertical_alignment children node) as (H1 & H2 & H3 & H4 & _).
  do 4 (split; [assumption |]).
  pose proof (calculate_spacing_cases x_of width_of children Hlen) as Hcases.
  change (calculate_spacing x_of (fun c => add_dim (x_of c) (width_of c)) children)
    with (_calculate_horizontal_spacing children) in Hcases.
  destruct (_calculate_horizontal_spacing children) as [q | e] eqn:Hq.
  - split; [exact Hcases |].
    exact (classify_flex_gap "horizontal" "row" _calculate_horizontal_spacing
             _detect_vertical_alignment children node q Hq).
  - destruct Hcases as [-> Hun]. split; [reflexivity |]. split; [exact Hun |].
    unfold node'. rewrite (analyze_run children node Hc Hne),
      (classify_when_row children node Hrow), classify_flex_run, Hq.
    split; [reflexivity |]. cbn [snd].
    destruct (flex_assigned_facts "horizontal" "row" node) as (_ & _ & F3 & F4 & _).
    rewrite F3, F4. split; [reflexivity |]. split; reflexivity.
Qed.

(** C1, as stated, fails on two counts.  The row test is computed in
    floating point: of two children at [y] 0 whose [x], the floats written
    -0.02 and 19.98, differ by more than 20, the program computes the
    spread 20.0, which does not exceed 20; the container is no row and
    stays as it was.  And when every adjacent delta is [<= 0] the spacing
    is not assigned at all: a container built from a record with a
    [layoutMode] and an [itemSpacing] of 12 keeps the spacing 12. *)
Lemma row_spread_rounded_and_spacing_kept :
  (let node' := snd (_analyze_node_layout spread_children sample_container) in
   Forall (fun c => y_of c == 0) spread_children
   /\ is_maximum (py_float (1998 # 100)) (map x_of spread_children)
   /\ is_minimum (py_float (-2 # 100)) (map x_of spread_children)
   /\ 20 < py_float (1998 # 100) - py_float (-2 # 100)
   /\ fsub (py_float (1998 # 100)) (py_float (-2 # 100)) == 20
   /\ _children_aligned_horizontally spread_children = Ok false
   /\ layout_type_of (layout node') = LDefault
   /\ flex_props node' = ∅)
  /\ (exists d,
        AngularNode_init auto_layout_record = Ok d
        /\ is_container d = true
        /\ let d' := snd (_analyze_node_layout overlapping_children d) in
           _children_aligned_horizontally overlapping_children = Ok true
           /\ adjacent_deltas x_of width_of (py_sorted x_of overlapping_children)
                [fsub 50 (fadd 0 100)]
           /\ fsub 50 (fadd 0 100) == -50
           /\ _calculate_horizontal_spacing overlapping_children = Ok 0
           /\ flex_props d' !! "gap"%string = None
           /\ layout_spacing (layout d') = 12
           /\ ~ layout_spacing (layout d') == 0).
Proof.
  split.
  - cbv zeta. split; [repeat constructor |].
    split.
    { split; [simpl; auto |]. intros v [<- | [<- | []]]; vm_compute; discriminate. }
    split.
    { split; [simpl; auto |]. intros v [<- | [<- | []]]; vm_compute; discriminate. }
    split; [vm_compute; reflexivity |]. split; [vm_compute; reflexivity |].
    split; [vm_compute; reflexivity |]. split; vm_compute; reflexivity.
  - eexists. split; [reflexivity |]. split; [reflexivity |]. cbv zeta.
    split; [vm_compute; reflexivity |].
    split.
    { split; [reflexivity |].
      intros [| i] prev next Hp Hn; vm_compute in Hp, Hn; [| destruct i; discriminate].
      injection Hp as <-. injection Hn as <-. exists 100. split; reflexivity. }
    split; [vm_compute; reflexivity |].
    split; [vm_compute; reflexivity |]. split; [vm_compute; reflexivity |].
    split; [vm_compute; reflexivity |]. vm_compute. discriminate.
Qed.

(** C1, amended.  The row test of the program holds exactly for at least 2
    children whose [y] are each within 5 of their mean and whose [x] spread
    exceeds 20, with the mean, the deviations and the spread computed in
    floating point.  A container whose children pass it gets type
    [auto-layout], direction [horizontal] and the flex properties
    [display: flex] and [flex-direction: row].  The children sorted by [x]
    are a sorted permutation of the children.  When the spacing is
    computed, the sizes read are numbers: with [deltas] the differences
    [next.x - (prev.x + prev.width)] of the adjacent pairs, in floating
    point, the spacing is the mean of the positive ones, and 0 when every
    delta is [<= 0]; a spacing above 0 is recorded as [layout.spacing] and
    as the [gap] property, in pixels; otherwise [layout.spacing] is left as
    it was and no [gap] is set.  When a child other than the last in the
    order of [x] has the width ["auto"], the computation raises
    [TypeError]: the analysis of the node ends there, [layout.spacing] is
    left as it was and neither [gap] nor [align-items] is set. *)
Theorem row_classification (node : NodeData) (children : list NodeData) :
  (_children_aligned_horizontally children = Ok true
   <-> aligned_spec x_of y_of children)
  /\ (is_container node = true ->
      _children_aligned_horizontally children = Ok true ->
      let node' := snd (_analyze_node_layout children node) in
      layout_type_of (layout node') = LAutoLayout
      /\ layout_direction (layout node') = Some "horizontal"%string
      /\ flex_props node' !! "display"%string = Some (CssKw "flex")
      /\ flex_props node' !! "flex-direction"%string = Some (CssKw "row")
      /\ Permutation (py_sorted x_of children) children
      /\ Sorted (fun u v => x_of u <= x_of v) (py_sorted x_of children)
      /\ match _calculate_horizontal_spacing children with
         | Ok q =>
             (exists deltas,
                adjacent_deltas x_of width_of (py_sorted x_of children) deltas
                /\ (positive deltas <> [] -> q = py_mean (positive deltas))
                /\ (Forall (fun d => d <= 0) deltas -> q = 0))
             /\ (0 < q ->
                 layout_spacing (layout node') = q
                 /\ flex_props node' !! "gap"%string = Some (CssPx q))
             /\ (q <= 0 ->
                 layout_spacing (layout node') = layout_spacing (layout node)
                 /\ flex_props node' !! "gap"%string = None)
         | Raise e =>
             e = TypeError
             /\ unsized_before_last width_of (py_sorted x_of children)
             /\ fst (_analyze_node_layout children node) = Raise TypeError
             /\ layout_spacing (layout node') = layout_spacing (layout node)
             /\ flex_props node' !! "gap"%string = None
             /\ flex_props node' !! "align-items"%string = None
         end).
Proof.
  split; [apply aligned_horizontally_spec |].
  intros Hc Hrow node'.
  destruct (row_branch node children Hc Hrow) as (H1 & H2 & H3 & H4 & H5).
  do 4 (split; [assumption |]).
  split; [apply py_sorted_perm |]. split; [apply py_sorted_sorted |]. exact H5.
Qed.

Lemma row_classification_witness :
  let node' := snd (_analyze_node_layout row_children sample_container) in
  _children_aligned_horizontally row_children = Ok true
  /\ layout_type_of (layout node') = LAutoLayout
  /\ layout_direction (layout node') = Some "horizontal"%string
  /\ exists g, flex_props node' !! "gap"%string = Some (CssPx g) /\ g == 20.
Proof.
  assert (Hrow : _children_aligned_horizontally row_children = Ok true)
    by (vm_compute; reflexivity).
  destruct (row_classification sample_container row_children) as [_ H].
  destruct (H eq_refl Hrow) as (Ht & Hd & _ & _ & _ & _ & Hsp).
  split; [exact Hrow |]. split; [exact Ht |]. split; [exact Hd |].
  set (q := match _calculate_horizontal_spacing row_children with
            | Ok q => q
            | Raise _ => 0
            end).
  assert (E : _calculate_horizontal_spacing row_children = Ok q)
    by (vm_compute; reflexivity).
  assert (Hq : q == 20) by (vm_compute; reflexivity).
  rewrite E in Hsp. destruct Hsp as (_ & Hpos & _).
  exists q. split; [apply Hpos; rewrite Hq; reflexivity | exact Hq].
Defined.

(** ** Numeric sizes *)

Lemma map_result_numeric {B} (f : NodeData -> Q -> B) (extent : NodeData -> dim)
    (g : NodeData -> result B) (l : list NodeData) :
  (forall c q, extent c = DimNum q -> g c = Ok (f c q)) ->
  Forall (fun c => is_numeric (extent c)) l ->
  map_result g l = Ok (map (fun c => f c (dim_value (extent c))) l).
Proof.
  intros Hg. induction 1 as [| c l [q Hq] _ IH]; simpl; [reflexivity |].
  rewrite (Hg c q Hq), rbind_ok, IH, rbind_ok, Hq. reflexivity.
Qed.

Lemma far_edges_numeric (start : NodeData -> Q) (extent : NodeData -> dim)
    (l : list NodeData) :
  Forall (fun c => is_numeric (extent c)) l ->
  map_result (fun c => add_dim (start c) (extent c)) l = Ok (far_edges start extent l).
Proof.
  apply (map_result_numeric (fun c q => fadd (start c) q)).
  intros c q ->. reflexivity.
Qed.

Lemma centers_numeric (start : NodeData -> Q) (extent : NodeData -> dim)
    (l : list NodeData) :
  Forall (fun c => is_numeric (extent c)) l ->
  map_result (fun c => h ← half_dim (extent c); mret (fadd (start c) h)) l
  = Ok (centers start extent l).
Proof.
  apply (map_result_numeric (fun c q => fadd (start c) (fdiv q 2))).
  intros c q ->. reflexivity.
Qed.

Lemma adjacent_spacings_total (start : NodeData -> Q) (extent : NodeData -> dim)
    (s : list NodeData) :
  Forall (fun c => is_numeric (extent c)) s ->
  exists ds, adjacent_deltas start extent s ds.
Proof.
  induction 1 as [| p s [w Hw] Hs IH]; [exists []; split; [reflexivity |] |].
  { intros i prev next H. destruct i; discriminate. }
  destruct IH as (ds & Hlen & Hrel).
  destruct s as [| n t].
  - exists []. split; [reflexivity |]. intros [| i] prev next Hp Hn; discriminate.
  - exists (fsub (start n) (fadd (start p) w) :: ds). split; [simpl in *; lia |].
    intros [| i] prev next Hp Hn.
    + injection Hp as <-. injection Hn as <-. exists w. auto.
    + apply (Hrel i prev next Hp Hn).
Qed.

Lemma calculate_spacing_total (start : NodeData -> Q) (extent : NodeData -> dim)
    (children : list NodeData) :
  Forall (fun c => is_numeric (extent c)) children ->
  exists q, calculate_spacing start (fun c => add_dim (start c) (extent c)) children = Ok q.
Proof.
  intros Hnum. unfold calculate_spacing.
  destruct (length children <? 2)%nat; [eauto |].
  destruct (adjacent_spacings_total start extent (py_sorted start children))
    as (ds & Hds); [now apply py_sorted_Forall |].
  rewrite (adjacent_spacings_spec _ _ _ _ Hds), rbind_ok.
  destruct (positive ds) as [| v l]; [eauto |].
  rewrite py_truediv_mean by discriminate. eauto.
Qed.

(** ** Distinct values *)

Lemma existsb_Qeq (x : Q) (l : list Q) :
  existsb (Qeq_bool x) l = true <-> exists v, In v l /\ x == v.
Proof.
  rewrite existsb_exists. split; intros (v & Hv & E); exists v; split; auto.
  - now apply Qeq_bool_iff.
  - now apply Qeq_bool_iff.
Qed.

Lemma distinct_Q_In (l : list Q) (v : Q) : In v (distinct_Q l) -> In v l.
Proof.
  induction l as [| x l IH]; simpl; [auto |].
  destruct (existsb (Qeq_bool x) l); simpl; intuition.
Qed.

Lemma distinct_Q_cover (l : list Q) (v : Q) :
  In v l -> exists u, In u (distinct_Q l) /\ v == u.
Proof.
  revert v. induction l as [| x l IH]; intros v; simpl; [intros [] |].
  intros [<- | Hv].
  - destruct (existsb (Qeq_bool x) l) eqn:E.
    + apply existsb_Qeq in E as (w & Hw & Hxw).
      destruct (IH w Hw) as (u & Hu & Hwu). exists u. split; [exact Hu |].
      now rewrite Hxw.
    + exists x. split; [now left | reflexivity].
  - destruct (IH v Hv) as (u & Hu & Hvu).
    exists u. split; [| exact Hvu].
    destruct (existsb (Qeq_bool x) l); [exact Hu | now right].
Qed.

Lemma distinct_Q_head (l : list Q) (a : Q) (t : list Q) :
  distinct_Q l = a :: t -> forall b, In b t -> ~ a == b.
Proof.
  revert a t. induction l as [| x l IH]; intros a t; simpl; [discriminate |].
  destruct (existsb (Qeq_bool x) l) eqn:E.
  - apply IH.
  - intros [= <- <-] b Hb Hab.
    apply not_true_iff_false in E. apply E, existsb_Qeq.
    exists b. split; [now apply distinct_Q_In | exact Hab].
Qed.

Lemma distinct_Q_many (l : list Q) :
  (1 < length (distinct_Q l))%nat <-> exists a b, In a l /\ In b l /\ ~ a == b.
Proof.
  split.
  - destruct (distinct_Q l) as [| a [| b t]] eqn:E; simpl; [lia | lia |].
    intros _. exists a, b.
    split; [apply distinct_Q_In; rewrite E; now left |].
    split; [apply distinct_Q_In; rewrite E; right; now left |].
    apply (distinct_Q_head l a (b :: t) E). now left.
  - intros (a & b & Ha & Hb & Hab).
    destruct (distinct_Q_cover l a Ha) as (a' & Ha' & Haa).
    destruct (distinct_Q_cover l b Hb) as (b' & Hb' & Hbb).
    destruct (distinct_Q l) as [| u [| v t]]; simpl in *; [contradiction | | lia].
    destruct Ha' as [<- | []]. destruct Hb' as [<- | []].
    exfalso. apply Hab. now rewrite Haa, Hbb.
Qed.

(** ** Cross-axis alignment *)

Lemma detect_alignment_spec (start : NodeData -> Q) (extent : NodeData -> dim)
    (children : list NodeData) :
  children <> [] ->
  Forall (fun c => is_numeric (extent c)) children ->
  exists a,
    detect_alignment start (fun c => add_dim (start c) (extent c)) extent children = Ok a
    /\ alignment_is start extent children a.
Proof.
  intros Hne Hnum. unfold detect_alignment, alignment_is.
  destruct children as [| c0 cs] eqn:Hch; [congruence |]. rewrite <- Hch in *.
  destruct (py_min_spec (map start children)) as (lo & -> & Hlo);
    [now apply map_nonempty |].
  rewrite rbind_ok.
  destruct (all_within_lt 5 lo (map start children)) eqn:Hstart.
  { apply all_within_lt_spec in Hstart.
    assert (Hs : start_aligned start children) by (exists lo; auto).
    eexists. split; [reflexivity |]. repeat split; intros; try contradiction; auto. }
  assert (Hns : ~ start_aligned start children).
  { intros (lo' & Hlo' & H). apply not_true_iff_false in Hstart. apply Hstart.
    apply all_within_lt_spec. eapply within_lt_ref; [| exact H].
    apply (minimum_unique _ _ _ Hlo' Hlo). }
  rewrite (far_edges_numeric start extent children Hnum), rbind_ok.
  destruct (py_max_spec (far_edges start extent children)) as (hi & -> & Hhi);
    [now apply map_nonempty |].
  rewrite rbind_ok.
  destruct (all_within_lt 5 hi (far_edges start extent children)) eqn:Hend.
  { apply all_within_lt_spec in Hend.
    assert (He : end_aligned start extent children) by (exists hi; auto).
    eexists. split; [reflexivity |]. repeat split; intros; try contradiction; auto. }
  assert (Hne' : ~ end_aligned start extent children).
  { intros (hi' & Hhi' & H). apply not_true_iff_false in Hend. apply Hend.
    apply all_within_lt_spec. eapply within_lt_ref; [| exact H].
    apply (maximum_unique _ _ _ Hhi' Hhi). }
  rewrite (centers_numeric start extent children Hnum), rbind_ok.
  rewrite py_truediv_mean by (now apply map_nonempty).
  rewrite rbind_ok.
  destruct (all_within_lt 10 (py_mean (centers start extent children))
              (centers start extent children)) eqn:Hcenter.
  { apply all_within_lt_spec in Hcenter.
    assert (Hc : center_aligned start extent children) by exact Hcenter.
    eexists. split; [reflexivity |]. repeat split; intros; try contradiction; auto. }
  assert (Hnc : ~ center_aligned start extent children).
  { intros H. apply not_true_iff_false in Hcenter. apply Hcenter.
    apply all_within_lt_spec. exact H. }
  destruct ((1 <? length (distinct_Q (map start children)))%nat
            && (2 <? length children)%nat) eqn:Hspread.
  - apply andb_prop in Hspread as [H1 H2].
    apply Nat.ltb_lt in H1, H2. apply distinct_Q_many in H1.
    assert (Hsp : spread_out start children) by (split; assumption).
    eexists. split; [reflexivity |]. repeat split; intros; try contradiction; auto.
  - assert (Hnsp : ~ spread_out start children).
    { intros [H2 H1]. apply distinct_Q_many in H1.
      apply Nat.ltb_lt in H1, H2. rewrite H1, H2 in Hspread. discriminate. }
    eexists. split; [reflexivity |]. repeat split; intros; try contradiction; auto.
Qed.

Lemma map_result_unsized (start : NodeData -> Q) (extent : NodeData -> dim)
    (l : list NodeData) :
  Exists (fun c => extent c = DimAuto) l ->
  map_result (fun c => add_dim (start c) (extent c)) l = Raise TypeError.
Proof.
  induction l as [| c l IH]; intros H; [inversion H |]. simpl.
  destruct (extent c) as [| w] eqn:Hc; [reflexivity |].
  simpl. rewrite IH; [reflexivity |].
  inversion H; subst; [congruence | assumption].
Qed.

Lemma detect_alignment_start (start : NodeData -> Q) (far : NodeData -> result Q)
    (extent : NodeData -> dim) (children : list NodeData) :
  start_aligned start children ->
  detect_alignment start far extent children = Ok (Some "flex-start"%string).
Proof.
  intros (lo & Hlo & Hall). unfold detect_alignment.
  destruct children as [| c0 cs] eqn:Hch; [destruct Hlo as [[] _] |]. rewrite <- Hch in *.
  destruct (py_min_spec (map start children)) as (lo' & -> & Hlo');
    [apply map_nonempty; congruence |].
  rewrite rbind_ok.
  assert (Hw : all_within_lt 5 lo' (map start children) = true).
  { apply all_within_lt_spec. eapply within_lt_ref; [| exact Hall].
    apply (minimum_unique _ _ _ Hlo Hlo'). }
  now rewrite Hw.
Qed.

Lemma detect_alignment_unsized (start : NodeData -> Q) (extent : NodeData -> dim)
    (children : list NodeData) :
  children <> [] ->
  ~ start_aligned start children ->
  Exists (fun c => extent c = DimAuto) children ->
  detect_alignment start (fun c => add_dim (start c) (extent c)) extent children
  = Raise TypeError.
Proof.
  intros Hne Hns Hun. unfold detect_alignment.
  destruct children as [| c0 cs] eqn:Hch; [congruence |]. rewrite <- Hch in *.
  destruct (py_min_spec (map start children)) as (lo & -> & Hlo);
    [now apply map_nonempty |].
  rewrite rbind_ok.
  destruct (all_within_lt 5 lo (map start children)) eqn:Hstart.
  { exfalso. apply Hns. exists lo. split; [exact Hlo |].
    now apply all_within_lt_spec. }
  now rewrite (map_result_unsized start extent children Hun).
Qed.

Lemma numeric_or_auto (extent : NodeData -> dim) (l : list NodeData) :
  Forall (fun c => is_numeric (extent c)) l \/ Exists (fun c => extent c = DimAuto) l.
Proof.
  induction l as [| c l [IH | IH]].
  - left. constructor.
  - destruct (extent c) as [| w] eqn:Hc.
    + right. now constructor.
    + left. constructor; [now exists w | exact IH].
  - right. now constructor 2.
Qed.

Lemma start_aligned_dec (start : NodeData -> Q) (children : list NodeData) :
  start_aligned start children \/ ~ start_aligned start children.
Proof.
  destruct children as [| c0 cs] eqn:Hch.
  { right. intros (lo & [[] _] & _). }
  rewrite <- Hch. assert (Hne : children <> []) by (rewrite Hch; discriminate).
  destruct (py_min_spec (map start children)) as (lo & _ & Hlo);
    [now apply map_nonempty |].
  destruct (all_within_lt 5 lo (map start children)) eqn:Hstart.
  - left. exists lo. split; [exact Hlo |]. now apply all_within_lt_spec.
  - right. intros (lo' & Hlo' & H). apply not_true_iff_false in Hstart. apply Hstart.
    apply all_within_lt_spec. eapply within_lt_ref; [| exact H].
    apply (minimum_unique _ _ _ Hlo' Hlo).
Qed.

(** The alignment detection on children: the keyword of the first
    satisfied test, the sizes being numbers unless the first test holds; or
    [TypeError], when the first test fails and some child has the extent
    ["auto"]. *)
Lemma detect_alignment_outcome (start : NodeData -> Q) (extent : NodeData -> dim)
    (children : list NodeData) :
  children <> [] ->
  match detect_alignment start (fun c => add_dim (start c) (extent c)) extent children with
  | Ok a =>
      alignment_is start extent children a
      /\ (~ start_aligned start children ->
          Forall (fun c => is_numeric (extent c)) children)
  | Raise e =>
      e = TypeError
      /\ ~ start_aligned start children
      /\ Exists (fun c => extent c = DimAuto) children
  end.
Proof.
  intros Hne.
  destruct (numeric_or_auto extent children) as [Hnum | Hauto].
  - destruct (detect_alignment_spec start extent children Hne Hnum) as (a & -> & Ha).
    split; [exact Ha | intros _; exact Hnum].
  - destruct (start_aligned_dec start children) as [Hs | Hns].
    + rewrite (detect_alignment_start _ _ _ _ Hs).
      split; [| intros H; contradiction].
      unfold alignment_is. repeat split; intros; try contradiction; auto.
    + rewrite (detect_alignment_unsized _ _ _ Hne Hns Hauto). auto.
Qed.

(** The [align-items] property after a flex branch: the keyword that the
    alignment detection returns, when the spacing computation and the
    detection return. *)
Lemma classify_flex_align_items (direction flex_direction : string)
    (spacing_of : list NodeData -> result Q)
    (alignment_of : list NodeData -> result (option string))
    (children : list NodeData) (n : NodeData) :
  flex_props (snd (classify_flex direction flex_direction spacing_of alignment_of
                     children n)) !! "align-items"%string
  = match spacing_of children, alignment_of children with
    | Ok _, Ok a => CssKw <$> a
    | _, _ => None
    end.
Proof.
  rewrite classify_flex_run.
  unfold spacing_recorded, flex_assigned, flex_literal.
  destruct (spacing_of children) as [q | e]; [| simpl; by simplify_map_eq].
  destruct (Qltb 0 q);
    (destruct (alignment_of children) as [[a |] | e]; simpl; by simplify_map_eq).
Qed.

(** C4, as stated, fails.  The tests are strict: of two children of a row
    at [y] 0 and 5, each [y] is within 5 of the minimum, yet the distance 5
    is not below 5 and the program goes on to the later tests, which give
    [center].  And the distances are computed in floating point: of two
    children at the [y] that are the floats written 0.1 and 5.1, which
    differ by less than 5, the program computes the distance 5.0 and
    records [center] as well. *)
Lemma alignment_at_the_boundary :
  (let node' := snd (_analyze_node_layout boundary_children sample_container) in
   _children_aligned_horizontally boundary_children = Ok true
   /\ is_minimum 0 (map y_of boundary_children)
   /\ Forall (fun c => Qabs (y_of c - 0) <= 5) boundary_children
   /\ flex_props node' !! "align-items"%string = Some (CssKw "center"))
  /\ (let node' := snd (_analyze_node_layout rounded_boundary_children
                          sample_container) in
      _children_aligned_horizontally rounded_boundary_children = Ok true
      /\ is_minimum (py_float (1 # 10)) (map y_of rounded_boundary_children)
      /\ Forall (fun c => Qabs (y_of c - py_float (1 # 10)) < 5)
           rounded_boundary_children
      /\ fsub (py_float (51 # 10)) (py_float (1 # 10)) == 5
      /\ flex_props node' !! "align-items"%string = Some (CssKw "center")).
Proof.
  split; cbv zeta.
  - split; [vm_compute; reflexivity |]. split.
    { split; [simpl; auto |]. intros v [<- | [<- | []]]; vm_compute; discriminate. }
    split; [repeat constructor; vm_compute; discriminate |].
    vm_compute. reflexivity.
  - split; [vm_compute; reflexivity |]. split.
    { split; [simpl; auto |]. intros v [<- | [<- | []]]; vm_compute; discriminate. }
    split; [repeat constructor; vm_compute; reflexivity |].
    split; vm_compute; reflexivity.
Qed.

(** C4, amended.  In a container classified as a row, no [align-items]
    property is recorded when the spacing computation raises.  When it
    returns, the vertical alignment is detected: the property is the
    keyword of the first satisfied of the four tests, in this order, each
    distance being computed in floating point and compared strictly: every
    [y] less than 5 from the minimum [y] ([flex-start]); every bottom edge
    [y + height] less than 5 from the maximum bottom edge ([flex-end]);
    every vertical center less than 10 from the mean of the centers
    ([center]); more than 2 children and more than one distinct [y]
    ([space-between]).  When none holds the property is not recorded.  The
    first test reads no size; when it fails, the heights are numbers, or
    some child has the height ["auto"] and the detection raises
    [TypeError], and no property is recorded. *)
Theorem row_cross_axis_alignment (node : NodeData) (children : list NodeData) :
  is_container node = true ->
  _children_aligned_horizontally children = Ok true ->
  let node' := snd (_analyze_node_layout children node) in
  match _calculate_horizontal_spacing children with
  | Raise _ => flex_props node' !! "align-items"%string = None
  | Ok _ =>
      match _detect_vertical_alignment children with
      | Ok a =>
          flex_props node' !! "align-items"%string = CssKw <$> a
          /\ alignment_is y_of height_of children a
          /\ (~ start_aligned y_of children ->
              Forall (fun c => is_numeric (height_of c)) children)
      | Raise e =>
          e = TypeError
          /\ ~ start_aligned y_of children
          /\ Exists (fun c => height_of c = DimAuto) children
          /\ flex_props node' !! "align-items"%string = None
      end
  end.
Proof.
  intros Hc Hrow node'.
  assert (Hne : children <> []).
  { apply aligned_horizontally_spec in Hrow. destruct Hrow as [Hlen _].
    intros ->. simpl in Hlen. lia. }
  destruct (analyze_classified children node Hc Hne) as (_ & Hf & _).
  fold node' in Hf. rewrite Hf, (classify_when_row children node Hrow).
  rewrite classify_flex_align_items.
  pose proof (detect_alignment_outcome y_of height_of children Hne) as Hout.
  change (detect_alignment y_of (fun c => add_dim (y_of c) (height_of c)) height_of
            children)
    with (_detect_vertical_alignment children) in Hout.
  destruct (_calculate_horizontal_spacing children) as [q | e]; [| reflexivity].
  destruct (_detect_vertical_alignment children) as [a | e].
  - destruct Hout as [Ha Hnum]. auto.
  - destruct Hout as (-> & Hns & Hex). auto.
Qed.

Lemma row_cross_axis_alignment_witness :
  let node' := snd (_analyze_node_layout row_children sample_container) in
  _children_aligned_horizontally row_children = Ok true
  /\ start_aligned y_of row_children
  /\ flex_props node' !! "align-items"%string = Some (CssKw "flex-start").
Proof.
  assert (Hrow : _children_aligned_horizontally row_children = Ok true)
    by (vm_compute; reflexivity).
  assert (Hstart : start_aligned y_of row_children).
  { exists 99. split.
    - split; [simpl; auto |].
      intros v [<- | [<- | [<- | []]]]; vm_compute; discriminate.
    - repeat constructor; vm_compute; reflexivity. }
  pose proof (row_cross_axis_alignment sample_container row_children eq_refl Hrow)
    as H.
  cbv zeta in H.
  set (q := match _calculate_horizontal_spacing row_children with
            | Ok q => q
            | Raise _ => 0
            end).
  assert (E : _calculate_horizontal_spacing row_children = Ok q)
    by (vm_compute; reflexivity).
  rewrite E, (detect_alignment_start _ _ _ _ Hstart : _detect_vertical_alignment _ = _)
    in H.
  destruct H as (Hf & _). split; [exact Hrow |]. split; [exact Hstart | exact Hf].
Defined.

(** ** Rounding and buckets *)




Lemma elem_of_buckets (coord : NodeData -> Q) (children : list NodeData) (k : Z) :
  k ∈ buckets coord children <-> exists c, c ∈ children /\ bucket (coord c) = k.
Proof.
  unfold buckets. rewrite elem_of_list_to_set, list_elem_of_In, in_map_iff.
  split; intros (c & H1 & H2); exists c.
  - split; [now apply list_elem_of_In | exact H1].
  - split; [exact H2 | now apply list_elem_of_In].
Qed.

Lemma size_several (X : gset Z) :
  (1 < size X)%nat <-> exists a b, a ∈ X /\ b ∈ X /\ a <> b.
Proof.
  split.
  - intros H. pose proof (NoDup_elements X) as Hnd.
    unfold size, set_size in H. simpl in H.
    destruct (elements X) as [| a [| b l]] eqn:E; simpl in H; [lia | lia |].
    exists a, b. split; [| split].
    + apply elem_of_elements. rewrite E. left.
    + apply elem_of_elements. rewrite E. right. left.
    + apply NoDup_cons in Hnd as [Hna _]. intros ->. apply Hna. left.
  - intros (a & b & Ha & Hb & Hab).
    assert (Hsub : ({[a]} ∪ {[b]} : gset Z) ⊆ X).
    { intros k Hk. apply elem_of_union in Hk as [Hk | Hk];
        apply elem_of_singleton in Hk; now subst. }
    apply subseteq_size in Hsub.
    rewrite size_union in Hsub.
    + rewrite !size_singleton in Hsub. lia.
    + apply disjoint_singleton_l. intros Hb'.
      apply elem_of_singleton in Hb'. congruence.
Qed.

Lemma several_buckets_size (coord : NodeData -> Q) (children : list NodeData) :
  (1 < size (buckets coord children))%nat <-> several_buckets coord children.
Proof.
  rewrite size_several. unfold several_buckets. split.
  - intros (a & b & Ha & Hb & Hab).
    apply elem_of_buckets in Ha as (c1 & H1 & <-).
    apply elem_of_buckets in Hb as (c2 & H2 & <-). eauto.
  - intros (c1 & c2 & H1 & H2 & Hne).
    exists (bucket (coord c1)), (bucket (coord c2)).
    split; [apply elem_of_buckets; eauto |].
    split; [apply elem_of_buckets; eauto | exact Hne].
Qed.


Lemma appears_to_be_grid_spec (children : list NodeData) :
  _appears_to_be_grid children = true <-> grid_spec children.
Proof.
  unfold _appears_to_be_grid, grid_spec.
  destruct (length children <? 4)%nat eqn:Hlen.
  - apply Nat.ltb_lt in Hlen. split; [discriminate | intros [H _]; lia].
  - apply Nat.ltb_ge in Hlen.
    rewrite andb_true_iff, !Nat.ltb_lt, !several_buckets_size. tauto.
Qed.

(** ** The gaps of a grid *)

Lemma max_by_key_spec {A} (key : A -> Q) (l : list A) (a : A) :
  In (max_by_key key a l) (a :: l)
  /\ forall v, In v (a :: l) -> key v <= key (max_by_key key a l).
Proof.
  unfold max_by_key. revert a. induction l as [| y l IH]; intros a; simpl.
  - split; [auto |]. intros v [<- | []]. lra.
  - specialize (IH (if Qltb (key a) (key y) then y else a)).
    destruct IH as [Hin Hmax]. split.
    + destruct Hin as [Hin | Hin]; [| auto].
      rewrite <- Hin. destruct (Qltb (key a) (key y)); auto.
    + intros v Hv.
      pose proof (Hmax _ (or_introl eq_refl)) as H0.
      assert (Hstep : key a <= key (if Qltb (key a) (key y) then y else a)
                      /\ key y <= key (if Qltb (key a) (key y) then y else a)).
      { destruct (Qltb (key a) (key y)) eqn:E.
        - apply Qltb_spec in E. lra.
        - apply Qltb_false in E. lra. }
      destruct Hv as [<- | [<- | Hv]]; [lra | lra |]. apply Hmax. now right.
Qed.

Lemma min_by_key_spec {A} (key : A -> Q) (l : list A) (a : A) :
  In (min_by_key key a l) (a :: l)
  /\ forall v, In v (a :: l) -> key (min_by_key key a l) <= key v.
Proof.
  unfold min_by_key. revert a. induction l as [| y l IH]; intros a; simpl.
  - split; [auto |]. intros v [<- | []]. lra.
  - specialize (IH (if Qltb (key y) (key a) then y else a)).
    destruct IH as [Hin Hmin]. split.
    + destruct Hin as [Hin | Hin]; [| auto].
      rewrite <- Hin. destruct (Qltb (key y) (key a)); auto.
    + intros v Hv.
      pose proof (Hmin _ (or_introl eq_refl)) as H0.
      assert (Hstep : key (if Qltb (key y) (key a) then y else a) <= key a
                      /\ key (if Qltb (key y) (key a) then y else a) <= key y).
      { destruct (Qltb (key y) (key a)) eqn:E.
        - apply Qltb_spec in E. lra.
        - apply Qltb_false in E. lra. }
      destruct Hv as [<- | [<- | Hv]]; [lra | lra |]. apply Hmin. now right.
Qed.

Lemma py_min_by_spec (coord : NodeData -> Q) (l : list NodeData) :
  l <> [] ->
  exists c, py_min_by coord l = Ok c /\ is_minimum (coord c) (map coord l).
Proof.
  destruct l as [| a l]; [congruence |]. intros _.
  destruct (min_by_key_spec coord l a) as [Hin Hmin].
  eexists. split; [reflexivity |]. split.
  - now apply in_map.
  - intros v Hv. apply in_map_iff in Hv as (c & <- & Hc). now apply Hmin.
Qed.

Lemma py_max_by_spec (start : NodeData -> Q) (extent : NodeData -> dim)
    (l : list NodeData) :
  l <> [] ->
  Forall (fun c => is_numeric (extent c)) l ->
  exists c,
    py_max_by (fun c => add_dim (start c) (extent c)) l = Ok c
    /\ add_dim (start c) (extent c) = Ok (fadd (start c) (dim_value (extent c)))
    /\ is_maximum (fadd (start c) (dim_value (extent c))) (far_edges start extent l).
Proof.
  destruct l as [| a l]; [congruence |]. intros _ Hnum.
  assert (Hedge : forall c, is_numeric (extent c) ->
            add_dim (start c) (extent c) = Ok (fadd (start c) (dim_value (extent c)))).
  { intros c [q ->]. reflexivity. }
  apply Forall_cons in Hnum as [Ha Hl].
  unfold py_max_by. rewrite (Hedge a Ha), rbind_ok.
  rewrite (map_result_numeric (fun c q => (fadd (start c) q, c)) extent _ l);
    [| intros c q ->; reflexivity | exact Hl].
  rewrite rbind_ok. set (ka := fadd (start a) (dim_value (extent a))).
  set (kl := map (fun c => (fadd (start c) (dim_value (extent c)), c)) l).
  destruct (max_by_key_spec fst kl (ka, a)) as [Hin Hmax].
  assert (Hshape : forall p : Q * NodeData, In p ((ka, a) :: kl) ->
            fst p = fadd (start (snd p)) (dim_value (extent (snd p)))
            /\ In (snd p) (a :: l)).
  { intros p [<- | Hp]; [split; [reflexivity | now left] |].
    apply in_map_iff in Hp as (c & <- & Hc). split; [reflexivity | now right]. }
  destruct (Hshape _ Hin) as [Hfst Hsnd].
  eexists. split; [reflexivity |]. split.
  - apply Hedge. rewrite Forall_forall in Hl.
    destruct Hsnd as [<- | Hsnd]; [exact Ha |]. apply Hl, list_elem_of_In, Hsnd.
  - rewrite <- Hfst. split.
    + unfold far_edges. apply in_map_iff. exists (snd (max_by_key fst (ka, a) kl)).
      split; [now rewrite Hfst | exact Hsnd].
    + intros v Hv. unfold far_edges in Hv. apply in_map_iff in Hv as (c & <- & Hc).
      apply (Hmax (fadd (start c) (dim_value (extent c)), c)).
      destruct Hc as [<- | Hc]; [now left | right].
      apply in_map_iff. eauto.
Qed.

Lemma bucket_group_spec (coord : NodeData -> Q) (children : list NodeData) (k : Z)
    (c : NodeData) :
  In c (bucket_group coord children k) <-> In c children /\ bucket (coord c) = k.
Proof. unfold bucket_group. rewrite filter_In, Z.eqb_eq. reflexivity. Qed.

Lemma bucket_group_nonempty (coord : NodeData -> Q) (children : list NodeData) (k : Z) :
  k ∈ buckets coord children -> bucket_group coord children k <> [].
Proof.
  intros Hk. apply elem_of_buckets in Hk as (c & Hc & Hb).
  assert (Hin : In c (bucket_group coord children k)).
  { apply bucket_group_spec. split; [now apply list_elem_of_In | exact Hb]. }
  intros E. rewrite E in Hin. inversion Hin.
Qed.

Lemma bucket_group_numeric (coord : NodeData -> Q) (extent : NodeData -> dim)
    (children : list NodeData) (k : Z) :
  Forall (fun c => is_numeric (extent c)) children ->
  Forall (fun c => is_numeric (extent c)) (bucket_group coord children k).
Proof.
  rewrite !Forall_forall. intros H c Hc. apply H.
  apply list_elem_of_In. apply list_elem_of_In, bucket_group_spec in Hc. tauto.
Qed.

Lemma bucket_gaps_spec (coord : NodeData -> Q) (extent : NodeData -> dim)
    (children : list NodeData) (keys : list Z) :
  Forall (fun c => is_numeric (extent c)) children ->
  Forall (fun k => k ∈ buckets coord children) keys ->
  exists gaps,
    bucket_gaps coord (fun c => add_dim (coord c) (extent c)) children keys = Ok gaps
    /\ inter_bucket_gaps coord extent children keys gaps.
Proof.
  intros Hnum. induction 1 as [| k keys Hk Hkeys IH].
  { exists []. split; [reflexivity |]. split; [reflexivity |].
    intros i k1 k2 H. destruct i; discriminate. }
  destruct IH as (gaps & Hgaps & Hlen & Hrel).
  destruct keys as [| k' rest].
  { exists []. split; [reflexivity |]. split; [reflexivity |].
    intros [| i] k1 k2 H1 H2; discriminate. }
  apply Forall_cons in Hkeys as [Hk' _].
  destruct (py_max_by_spec coord extent (bucket_group coord children k))
    as (r & Hr & Hfar & Hmax);
    [now apply bucket_group_nonempty | now apply bucket_group_numeric |].
  destruct (py_min_by_spec coord (bucket_group coord children k'))
    as (m & Hm & Hmin); [now apply bucket_group_nonempty |].
  exists (fsub (coord m) (fadd (coord r) (dim_value (extent r))) :: gaps). split.
  - change (bucket_gaps coord (fun c => add_dim (coord c) (extent c)) children
              (k :: k' :: rest))
      with (rightmost ← py_max_by (fun c => add_dim (coord c) (extent c))
                          (bucket_group coord children k);
            leftmost ← py_min_by coord (bucket_group coord children k');
            far ← add_dim (coord rightmost) (extent rightmost);
            gaps ← bucket_gaps coord (fun c => add_dim (coord c) (extent c))
                     children (k' :: rest);
            mret (fsub (coord leftmost) far :: gaps)).
    rewrite Hr, rbind_ok, Hm, rbind_ok, Hfar, rbind_ok, Hgaps. reflexivity.
  - split; [simpl in *; lia |].
    intros [| i] k1 k2 H1 H2.
    + injection H1 as <-. injection H2 as <-. eauto.
    + apply (Hrel i k1 k2 H1 H2).
Qed.

Lemma Sorted_weaken {A} (R R' : A -> A -> Prop) (l : list A) :
  (forall a b, R a b -> R' a b) -> Sorted R l -> Sorted R' l.
Proof.
  intros H. induction 1 as [| a l _ IH Hhd]; constructor; [exact IH |].
  destruct Hhd; constructor. auto.
Qed.

(** The keys are the distinct buckets, in ascending order. *)
Lemma sorted_buckets_spec (coord : NodeData -> Q) (children : list NodeData) :
  NoDup (sorted_buckets coord children)
  /\ Sorted Z.le (sorted_buckets coord children)
  /\ forall k, k ∈ sorted_buckets coord children
                <-> exists c, c ∈ children /\ bucket (coord c) = k.
Proof.
  unfold sorted_buckets.
  pose proof (py_sorted_perm inject_Z (elements (buckets coord children))) as Hperm.
  split; [| split].
  - rewrite Hperm. apply NoDup_elements.
  - eapply Sorted_weaken; [| apply py_sorted_sorted].
    intros a b H. rewrite Zle_Qle. exact H.
  - intros k. rewrite Hperm, elem_of_elements. apply elem_of_buckets.
Qed.

Lemma average_or_zero_mean (l : list Q) :
  exists q, average_or_zero l = Ok q /\ (l <> [] -> q = py_mean l) /\ (l = [] -> q = 0).
Proof.
  destruct l as [| v l].
  - exists 0. split; [reflexivity |]. split; [congruence | reflexivity].
  - eexists. split; [reflexivity |]. split; [reflexivity | discriminate].
Qed.

(** With numeric sizes the gaps of a grid are computed: they are the means
    of the gaps between adjacent columns and between adjacent rows. *)
Lemma grid_gaps_spec (children : list NodeData) (cols rows : nat) :
  Forall (fun c => is_numeric (width_of c) /\ is_numeric (height_of c)) children ->
  exists hs vs h v,
    inter_bucket_gaps x_of width_of children (sorted_buckets x_of children) hs
    /\ inter_bucket_gaps y_of height_of children (sorted_buckets y_of children) vs
    /\ _calculate_grid_gaps children cols rows = Ok (h, v)
    /\ (hs <> [] -> h = py_mean hs) /\ (hs = [] -> h = 0)
    /\ (vs <> [] -> v = py_mean vs) /\ (vs = [] -> v = 0).
Proof.
  intros Hnum.
  assert (Hw : Forall (fun c => is_numeric (width_of c)) children).
  { eapply Forall_impl; [exact Hnum |]. now intros c [H _]. }
  assert (Hh : Forall (fun c => is_numeric (height_of c)) children).
  { eapply Forall_impl; [exact Hnum |]. now intros c [_ H]. }
  assert (Hkeys : forall coord, Forall (fun k => k ∈ buckets coord children)
                                  (sorted_buckets coord children)).
  { intros coord. apply Forall_forall. intros k Hk.
    apply elem_of_buckets. now apply sorted_buckets_spec. }
  destruct (bucket_gaps_spec x_of width_of children _ Hw (Hkeys x_of))
    as (hs & Hhs & Hhspec).
  destruct (bucket_gaps_spec y_of height_of children _ Hh (Hkeys y_of))
    as (vs & Hvs & Hvspec).
  destruct (average_or_zero_mean hs) as (h & Hh1 & Hh2 & Hh3).
  destruct (average_or_zero_mean vs) as (v & Hv1 & Hv2 & Hv3).
  exists hs, vs, h, v. split; [exact Hhspec |]. split; [exact Hvspec |].
  split; [| auto].
  unfold _calculate_grid_gaps.
  change right_edge with (fun c => add_dim (x_of c) (width_of c)).
  change bottom_edge with (fun c => add_dim (y_of c) (height_of c)).
  rewrite Hhs, rbind_ok, Hvs, rbind_ok, Hh1, rbind_ok, Hv1. reflexivity.
Qed.

(** ** The grid branch *)

Lemma classify_grid_run (children : list NodeData) (n : NodeData) :
  classify_grid children n
  = match _calculate_grid_gaps children (fst (_detect_grid_dimensions children))
            (snd (_detect_grid_dimensions children)) with
    | Raise e => (Raise e, grid_assigned children n)
    | Ok (h_gap, v_gap) => (Ok tt, gaps_recorded h_gap v_gap (grid_assigned children n))
    end.
Proof.
  unfold classify_grid, gaps_recorded, grid_assigned, mbind, M_bind, modify, lift,
    mret, M_ret.
  destruct (_detect_grid_dimensions children) as [cols rows]. simpl.
  destruct (_calculate_grid_gaps children cols rows) as [[h v] | e]; [| reflexivity].
  destruct (Qltb 0 h), (Qltb 0 v); reflexivity.
Qed.

Lemma grid_assigned_props (children : list NodeData) (n : NodeData) :
  let n1 := grid_assigned children n in
  layout_type_of (layout n1) = LGrid
  /\ grid_props n1 !! "display"%string = Some (CssKw "grid")
  /\ grid_props n1 !! "grid-template-columns"%string
     = Some (CssRepeat (size (buckets x_of children)) "1fr")
  /\ grid_props n1 !! "grid-template-rows"%string
     = Some (CssRepeat (size (buckets y_of children)) "auto")
  /\ grid_props n1 !! "column-gap"%string = None
  /\ grid_props n1 !! "row-gap"%string = None
  /\ flex_props n1 = flex_props n.
Proof. unfold grid_assigned, grid_literal. simpl. by simplify_map_eq. Qed.

Lemma gaps_recorded_props (h v : Q) (n : NodeData) :
  let n2 := gaps_recorded h v n in
  layout n2 = layout n /\ flex_props n2 = flex_props n
  /\ (forall k, k <> "column-gap"%string -> k <> "row-gap"%string ->
        grid_props n2 !! k = grid_props n !! k)
  /\ grid_props n2 !! "column-gap"%string
     = (if Qltb 0 h then Some (CssPx h) else grid_props n !! "column-gap"%string)
  /\ grid_props n2 !! "row-gap"%string
     = (if Qltb 0 v then Some (CssPx v) else grid_props n !! "row-gap"%string).
Proof.
  unfold gaps_recorded.
  destruct (Qltb 0 h), (Qltb 0 v); simpl; repeat split; intros;
    by simplify_map_eq.
Qed.

(** The grid branch: the type, the three grid properties, and a gap
    property exactly for a computed gap above 0. *)
Lemma classify_grid_props (children : list NodeData) (n : NodeData) :
  let nc := snd (classify_grid children n) in
  let gaps := _calculate_grid_gaps children (size (buckets x_of children))
                (size (buckets y_of children)) in
  layout_type_of (layout nc) = LGrid
  /\ grid_props nc !! "display"%string = Some (CssKw "grid")
  /\ grid_props nc !! "grid-template-columns"%string
     = Some (CssRepeat (size (buckets x_of children)) "1fr")
  /\ grid_props nc !! "grid-template-rows"%string
     = Some (CssRepeat (size (buckets y_of children)) "auto")
  /\ flex_props nc = flex_props n
  /\ grid_props nc !! "column-gap"%string
     = match gaps with
       | Ok (h, _) => if Qltb 0 h then Some (CssPx h) else None
       | Raise _ => None
       end
  /\ grid_props nc !! "row-gap"%string
     = match gaps with
       | Ok (_, v) => if Qltb 0 v then Some (CssPx v) else None
       | Raise _ => None
       end.
Proof.
  rewrite classify_grid_run.
  destruct (grid_assigned_props children n) as (H1 & H2 & H3 & H4 & H5 & H6 & H7).
  change (fst (_detect_grid_dimensions children)) with (size (buckets x_of children)).
  change (snd (_detect_grid_dimensions children)) with (size (buckets y_of children)).
  destruct (_calculate_grid_gaps children _ _) as [[h v] | e]; simpl.
  - destruct (gaps_recorded_props h v (grid_assigned children n))
      as (G1 & G2 & G3 & G4 & G5).
    rewrite G1, G2, G4, G5, !G3, H5, H6 by discriminate. auto 10.
  - auto 10.
Qed.





(** ** Agreement of the layout type and the properties *)

Lemma AngularNode_induction (P : AngularNode -> Prop) :
  (forall d cs, Forall P cs -> P (Node d cs)) -> forall t, P t.
Proof.
  intros H. fix IH 1. intros [d cs]. apply H.
  induction cs as [| c cs IHcs]; constructor; [apply IH | exact IHcs].
Qed.

Lemma all_nodes_children (P : NodeData -> Prop) (d : NodeData) (cs : list AngularNode) :
  all_nodes P (Node d cs) <-> P d /\ Forall (all_nodes P) cs.
Proof.
  simpl. apply and_iff_compat_l.
  induction cs as [| c cs IH]; [split; constructor |].
  rewrite IH. split.
  - intros [H1 H2]. now constructor.
  - intros H. now inversion H.
Qed.

Lemma fresh_agrees (n : NodeData) : fresh n -> agrees n.
Proof.
  intros [Hf Hg]. unfold agrees. rewrite Hf, Hg.
  repeat split; intros; try congruence. tauto.
Qed.

(** Neither row nor column with fewer than 2 children, no grid with fewer
    than 4. *)
Lemma few_children (children : list NodeData) :
  ((length children < 2)%nat ->
     _children_aligned_horizontally children = Ok false
     /\ _children_aligned_vertically children = Ok false)
  /\ ((length children < 4)%nat -> _appears_to_be_grid children = false).
Proof.
  split.
  - intros H. apply Nat.ltb_lt in H.
    unfold _children_aligned_horizontally, _children_aligned_vertically,
      children_aligned.
    rewrite H. auto.
  - intros H. apply Nat.ltb_lt in H. unfold _appears_to_be_grid. now rewrite H.
Qed.

(** The four cases of the [if] / [elif] chain, in their order. *)
Lemma classify_cases (children : list NodeData) (n : NodeData) :
  let nc := snd (classify children n) in
  (_children_aligned_horizontally children = Ok true ->
     layout_type_of (layout nc) = LAutoLayout
     /\ layout_direction (layout nc) = Some "horizontal"%string
     /\ flex_props nc !! "display"%string = Some (CssKw "flex")
     /\ flex_props nc !! "flex-direction"%string = Some (CssKw "row")
     /\ grid_props nc = grid_props n)
  /\ (_children_aligned_horizontally children = Ok false ->
      _children_aligned_vertically children = Ok true ->
      layout_type_of (layout nc) = LAutoLayout
      /\ layout_direction (layout nc) = Some "vertical"%string
      /\ flex_props nc !! "display"%string = Some (CssKw "flex")
      /\ flex_props nc !! "flex-direction"%string = Some (CssKw "column")
      /\ grid_props nc = grid_props n)
  /\ (_children_aligned_horizontally children = Ok false ->
      _children_aligned_vertically children = Ok false ->
      _appears_to_be_grid children = true ->
      layout_type_of (layout nc) = LGrid
      /\ grid_props nc !! "display"%string = Some (CssKw "grid")
      /\ flex_props nc = flex_props n)
  /\ (_children_aligned_horizontally children = Ok false ->
      _children_aligned_vertically children = Ok false ->
      _appears_to_be_grid children = false ->
      layout nc = layout n /\ flex_props nc = flex_props n
      /\ grid_props nc = grid_props n).
Proof.
  split; [| split; [| split]].
  - intros Hrow. rewrite (classify_when_row children n Hrow).
    apply classify_flex_basic.
  - intros Hnrow Hcol. rewrite (classify_when_column children n Hnrow Hcol).
    apply classify_flex_basic.
  - intros Hnrow Hncol Hgrid.
    rewrite (classify_when_neither children n Hnrow Hncol), Hgrid.
    destruct (classify_grid_props children n) as (H1 & H2 & _ & _ & H5 & _).
    auto.
  - intros Hnrow Hncol Hngrid.
    rewrite (classify_when_neither children n Hnrow Hncol), Hngrid. auto.
Qed.

Lemma classify_agrees (children : list NodeData) (n : NodeData) :
  fresh n -> agrees (snd (classify children n)).
Proof.
  intros [Hf Hg].
  destruct (classify_cases children n) as (Hrow & Hcol & Hgrid & Hnone).
  destruct (children_aligned_spec x_of y_of children) as (row & Er & _).
  destruct (children_aligned_spec y_of x_of children) as (col & Ec & _).
  change (children_aligned x_of y_of children)
    with (_children_aligned_horizontally children) in Er.
  change (children_aligned y_of x_of children)
    with (_children_aligned_vertically children) in Ec.
  destruct row.
  { destruct (Hrow Er) as (_ & Hd & _ & _ & Hgp).
    unfold agrees. rewrite Hgp, Hg, Hd. repeat split; intros; try congruence; tauto. }
  destruct col.
  { destruct (Hcol Er Ec) as (_ & Hd & _ & _ & Hgp).
    unfold agrees. rewrite Hgp, Hg, Hd. repeat split; intros; try congruence; tauto. }
  destruct (_appears_to_be_grid children) eqn:E.
  - destruct (Hgrid Er Ec eq_refl) as (Ht & _ & Hfp).
    unfold agrees. rewrite Hfp, Hf, Ht. repeat split; intros; try congruence; tauto.
  - destruct (Hnone Er Ec eq_refl) as (_ & Hfp & Hgp).
    unfold agrees. rewrite Hfp, Hgp, Hf, Hg.
    repeat split; intros; try congruence; tauto.
Qed.

Lemma analyze_agrees (children : list NodeData) (n : NodeData) :
  fresh n -> agrees (snd (_analyze_node_layout children n)).
Proof.
  intros Hfresh.
  destruct (is_container n) eqn:Hc; [destruct children as [| c cs] eqn:Hch |].
  - rewrite analyze_skip by auto. now apply fresh_agrees.
  - rewrite <- Hch.
    assert (Hne : children <> []) by (rewrite Hch; discriminate).
    destruct (analyze_classified children n Hc Hne) as (Hl & Hf & Hg).
    pose proof (classify_agrees children n Hfresh) as Ha.
    unfold agrees in *. rewrite Hl, Hf, Hg. exact Ha.
  - rewrite analyze_skip by auto. now apply fresh_agrees.
Qed.

Lemma analyze_tree_agrees (t : AngularNode) :
  all_nodes fresh t -> all_nodes agrees (analyze_layout_node t).
Proof.
  induction t as [d cs IH] using AngularNode_induction.
  rewrite all_nodes_children. intros [Hd Hcs]. simpl.
  pose proof (analyze_agrees (map data_of cs) d Hd) as Ha.
  destruct (_analyze_node_layout (map data_of cs) d) as [[[] | e] d']; simpl in Ha;
    apply all_nodes_children; (split; [exact Ha |]).
  - apply Forall_map_iff. rewrite Forall_forall in *.
    intros c Hc. apply (IH c Hc), Hcs, Hc.
  - eapply Forall_impl; [exact Hcs |]. simpl.
    clear. intros c. induction c as [d cs IH] using AngularNode_induction.
    rewrite !all_nodes_children. intros [Hd Hcs]. split; [now apply fresh_agrees |].
    rewrite Forall_forall in *. intros c Hc. apply (IH c Hc), Hcs, Hc.
Qed.

Lemma init_fresh (r : FigmaNode) (d : NodeData) :
  AngularNode_init r = Ok d ->
  fresh d
  /\ (fn_layoutMode r = None ->
      layout_type_of (layout d) = LDefault /\ layout_direction (layout d) = None
      /\ layout_spacing (layout d) = 0)
  /\ (fn_layoutMode r <> None -> layout_type_of (layout d) = LAutoLayout).
Proof.
  unfold AngularNode_init. destruct (fn_rest r) as [ex | e]; [| discriminate].
  rewrite rbind_ok. intros [= <-]. unfold fresh, _extract_layout. simpl.
  destruct (fn_layoutMode r); repeat split; intros; congruence.
Qed.

(** C2, as stated, fails: the node built from a frame with a [layoutMode]
    has type [auto-layout] from its construction on; with exactly 1 child
    no branch matches and the type is still [auto-layout], not [default]. *)
Lemma single_child_auto_layout_frame :
  exists d,
    AngularNode_init auto_layout_record = Ok d
    /\ is_container d = true
    /\ let d' := snd (_analyze_node_layout
                        [sample_node "a" false 0 0 (DimNum 100) (DimNum 50)] d) in
       layout_type_of (layout d') = LAutoLayout
       /\ layout_type_of (layout d') <> LDefault.
Proof.
  eexists. split; [reflexivity |]. split; [reflexivity |].
  split; [reflexivity | discriminate].
Qed.

(** C2, amended. The branches are tried in the order row, column, grid,
    default, and the first whose test returns true decides; the row and the
    column test always return.  After classification the
    layout type of a node built by the constructor agrees with its derived
    properties: grid properties only with type [grid], flex properties only
    with direction [horizontal] or [vertical], never both; this holds of
    every node of an analyzed tree.  Fewer than 2 children match neither row
    nor column, fewer than 4 do not match grid: a container with exactly 1
    child keeps the layout it was built with, of type [default] unless its
    record has a [layoutMode] (then [auto-layout]), and its empty flex and
    grid properties. *)
Theorem classification_priority_and_agreement :
  (forall node children,
     is_container node = true -> children <> [] ->
     let node' := snd (_analyze_node_layout children node) in
     (_children_aligned_horizontally children = Ok true ->
        layout_type_of (layout node') = LAutoLayout
        /\ layout_direction (layout node') = Some "horizontal"%string
        /\ flex_props node' !! "display"%string = Some (CssKw "flex")
        /\ flex_props node' !! "flex-direction"%string = Some (CssKw "row")
        /\ grid_props node' = grid_props node)
     /\ (_children_aligned_horizontally children = Ok false ->
         _children_aligned_vertically children = Ok true ->
         layout_type_of (layout node') = LAutoLayout
         /\ layout_direction (layout node') = Some "vertical"%string
         /\ flex_props node' !! "display"%string = Some (CssKw "flex")
         /\ flex_props node' !! "flex-direction"%string = Some (CssKw "column")
         /\ grid_props node' = grid_props node)
     /\ (_children_aligned_horizontally children = Ok false ->
         _children_aligned_vertically children = Ok false ->
         _appears_to_be_grid children = true ->
         layout_type_of (layout node') = LGrid
         /\ grid_props node' !! "display"%string = Some (CssKw "grid")
         /\ flex_props node' = flex_props node)
     /\ (_children_aligned_horizontally children = Ok false ->
         _children_aligned_vertically children = Ok false ->
         _appears_to_be_grid children = false ->
         layout node' = layout node /\ flex_props node' = flex_props node
         /\ grid_props node' = grid_props node))
  /\ (forall children,
        exists row column,
          _children_aligned_horizontally children = Ok row
          /\ _children_aligned_vertically children = Ok column)
  /\ (forall node children,
        fresh node -> agrees (snd (_analyze_node_layout children node)))
  /\ (forall t, all_nodes fresh t -> all_nodes agrees (analyze_layout_node t))
  /\ (forall children,
        ((length children < 2)%nat ->
           _children_aligned_horizontally children = Ok false
           /\ _children_aligned_vertically children = Ok false)
        /\ ((length children < 4)%nat -> _appears_to_be_grid children = false))
  /\ (forall r node child,
        AngularNode_init r = Ok node ->
        let node' := snd (_analyze_node_layout [child] node) in
        layout node' = layout node
        /\ flex_props node' = ∅ /\ grid_props node' = ∅
        /\ (fn_layoutMode r = None -> layout_type_of (layout node') = LDefault)
        /\ (fn_layoutMode r <> None -> layout_type_of (layout node') = LAutoLayout)).
Proof.
  split; [| split; [| split; [intros node children; apply analyze_agrees |
            split; [exact analyze_tree_agrees | split; [exact few_children |]]]]].
  - intros node children Hc Hne node'.
    destruct (analyze_classified children node Hc Hne) as (Hl & Hf & Hg).
    fold node' in Hl, Hf, Hg. rewrite Hl, Hf, Hg.
    apply classify_cases.
  - intros children.
    destruct (children_aligned_spec x_of y_of children) as (row & Er & _).
    destruct (children_aligned_spec y_of x_of children) as (col & Ec & _).
    exists row, col. split; [exact Er | exact Ec].
  - intros r node child Hinit node'.
    destruct (init_fresh r node Hinit) as ([Hf Hg] & Hdefault & Hauto).
    assert (Hsame : layout node' = layout node /\ flex_props node' = flex_props node
                    /\ grid_props node' = grid_props node).
    { destruct (is_container node) eqn:Hc.
      - destruct (analyze_classified [child] node Hc) as (Hl' & Hf' & Hg');
          [discriminate |].
        fold node' in Hl', Hf', Hg'. rewrite Hl', Hf', Hg'.
        destruct (few_children [child]) as [H2 H4].
        destruct H2 as [Hnrow Hncol]; [simpl; lia |].
        apply classify_cases; auto; apply H4; simpl; lia.
      - unfold node'. rewrite analyze_skip by auto. auto. }
    destruct Hsame as (Hl' & Hf' & Hg'). rewrite Hl', Hf', Hg'.
    split; [reflexivity |]. split; [exact Hf |]. split; [exact Hg |].
    split; [intros H; now apply Hdefault | exact Hauto].
Qed.

(* ===================================================================== *)
(** * The classifier reads only the geometry of the children             *)
(* ===================================================================== *)

Section Geometry.
Variable g : NodeData -> NodeData.
Hypothesis Hg : geometry_preserving g.

Lemma g_x (c : NodeData) : x_of (g c) = x_of c.
Proof using Hg. apply Hg. Qed.

Lemma g_y (c : NodeData) : y_of (g c) = y_of c.
Proof using Hg. apply Hg. Qed.

Lemma g_size (c : NodeData) : node_size (g c) = node_size c.
Proof using Hg. apply Hg. Qed.

Lemma g_right_edge (c : NodeData) : right_edge (g c) = right_edge c.
Proof using Hg. unfold right_edge. now rewrite g_x, g_size. Qed.

Lemma g_bottom_edge (c : NodeData) : bottom_edge (g c) = bottom_edge c.
Proof using Hg. unfold bottom_edge. now rewrite g_y, g_size. Qed.

Lemma map_map_same {B} (f : NodeData -> B) (l : list NodeData) :
  (forall c, f (g c) = f c) -> map f (map g l) = map f l.
Proof. intros H. rewrite map_map. apply map_ext, H. Qed.

Lemma map_result_same {B} (f : NodeData -> result B) (l : list NodeData) :
  (forall c, f (g c) = f c) -> map_result f (map g l) = map_result f l.
Proof.
  intros H. induction l as [| c l IH]; simpl; [reflexivity |]. now rewrite H, IH.
Qed.

Lemma insert_by_key_map (key : NodeData -> Q) (a : NodeData) (l : list NodeData) :
  (forall c, key (g c) = key c) ->
  insert_by_key key (g a) (map g l) = map g (insert_by_key key a l).
Proof.
  intros H. induction l as [| b l IH]; simpl; [reflexivity |].
  rewrite !H. destruct (Qleb (key a) (key b)); simpl; [reflexivity |].
  now rewrite IH.
Qed.

Lemma py_sorted_map (key : NodeData -> Q) (l : list NodeData) :
  (forall c, key (g c) = key c) ->
  py_sorted key (map g l) = map g (py_sorted key l).
Proof.
  intros H. induction l as [| a l IH]; [reflexivity |].
  change (py_sorted key (map g (a :: l)))
    with (insert_by_key key (g a) (py_sorted key (map g l))).
  rewrite IH. now apply insert_by_key_map.
Qed.

Lemma adjacent_spacings_map (start : NodeData -> Q) (far : NodeData -> result Q)
    (l : list NodeData) :
  (forall c, start (g c) = start c) -> (forall c, far (g c) = far c) ->
  adjacent_spacings start far (map g l) = adjacent_spacings start far l.
Proof.
  intros Hs Hf. induction l as [| p l IH]; [reflexivity |].
  destruct l as [| n t]; [reflexivity |].
  change (adjacent_spacings start far (map g (p :: n :: t)))
    with (curr_far ← far (g p);
          spacings ← adjacent_spacings start far (map g (n :: t));
          mret (fsub (start (g n)) curr_far :: spacings)).
  rewrite Hf, Hs, IH. reflexivity.
Qed.

Lemma children_aligned_map (along across : NodeData -> Q) (l : list NodeData) :
  (forall c, along (g c) = along c) -> (forall c, across (g c) = across c) ->
  children_aligned along across (map g l) = children_aligned along across l.
Proof.
  intros Ha Hc. unfold children_aligned.
  now rewrite !length_map, (map_map_same across l Hc), (map_map_same along l Ha).
Qed.

Lemma calculate_spacing_map (start : NodeData -> Q) (far : NodeData -> result Q)
    (l : list NodeData) :
  (forall c, start (g c) = start c) -> (forall c, far (g c) = far c) ->
  calculate_spacing start far (map g l) = calculate_spacing start far l.
Proof.
  intros Hs Hf. unfold calculate_spacing.
  now rewrite length_map, (py_sorted_map start l Hs), adjacent_spacings_map.
Qed.

Lemma detect_alignment_map (start : NodeData -> Q) (far : NodeData -> result Q)
    (extent : NodeData -> dim) (l : list NodeData) :
  (forall c, start (g c) = start c) -> (forall c, far (g c) = far c) ->
  (forall c, extent (g c) = extent c) ->
  detect_alignment start far extent (map g l) = detect_alignment start far extent l.
Proof.
  intros Hs Hf He. unfold detect_alignment.
  destruct l as [| c l]; [reflexivity |].
  change (map g (c :: l)) with (g c :: map g l) at 1.
  cbv iota.
  rewrite (map_map_same start (c :: l) Hs), (map_result_same far (c :: l) Hf).
  rewrite (map_result_same
             (fun c0 => h ← half_dim (extent c0); mret (fadd (start c0) h))
             (c :: l)) by (intros c0; now rewrite He, Hs).
  now rewrite length_map.
Qed.

Lemma buckets_map (coord : NodeData -> Q) (l : list NodeData) :
  (forall c, coord (g c) = coord c) -> buckets coord (map g l) = buckets coord l.
Proof.
  intros H. unfold buckets.
  now rewrite (map_map_same (fun c => bucket (coord c)) l) by (intros c; now rewrite H).
Qed.

Lemma bucket_group_map (coord : NodeData -> Q) (l : list NodeData) (k : Z) :
  (forall c, coord (g c) = coord c) ->
  bucket_group coord (map g l) k = map g (bucket_group coord l k).
Proof.
  intros H. unfold bucket_group. induction l as [| c l IH]; simpl; [reflexivity |].
  rewrite H. destruct (bucket (coord c) =? k)%Z; simpl; now rewrite IH.
Qed.

Lemma fold_key_map {A} (key : A -> Q) (h : A -> A) (pick : Q -> Q -> bool)
    (l : list A) (a : A) :
  (forall c, key (h c) = key c) ->
  fold_left (fun m y => if pick (key m) (key y) then y else m) (map h l) (h a)
  = h (fold_left (fun m y => if pick (key m) (key y) then y else m) l a).
Proof.
  intros H. revert a. induction l as [| b l IH]; intros a; simpl; [reflexivity |].
  rewrite !H. destruct (pick (key a) (key b)); apply IH.
Qed.

Lemma max_by_key_map {A} (key : A -> Q) (h : A -> A) (l : list A) (a : A) :
  (forall c, key (h c) = key c) ->
  max_by_key key (h a) (map h l) = h (max_by_key key a l).
Proof. apply (fold_key_map key h Qltb). Qed.

Lemma min_by_key_map {A} (key : A -> Q) (h : A -> A) (l : list A) (a : A) :
  (forall c, key (h c) = key c) ->
  min_by_key key (h a) (map h l) = h (min_by_key key a l).
Proof. apply (fold_key_map key h (fun m y => Qltb y m)). Qed.

Lemma keyed_map (far : NodeData -> result Q) (l : list NodeData) :
  (forall c, far (g c) = far c) ->
  map_result (fun c => k ← far c; mret (k, c)) (map g l)
  = result_map (map (fun kc : Q * NodeData => (fst kc, g (snd kc))))
      (map_result (fun c => k ← far c; mret (k, c)) l).
Proof.
  intros H. induction l as [| c l IH]; simpl; [reflexivity |].
  rewrite H, IH. destruct (far c) as [k | e]; [| reflexivity].
  rewrite !rbind_ok.
  destruct (map_result (fun c0 => k0 ← far c0; mret (k0, c0)) l); reflexivity.
Qed.

Lemma py_max_by_map (far : NodeData -> result Q) (l : list NodeData) :
  (forall c, far (g c) = far c) ->
  py_max_by far (map g l) = result_map g (py_max_by far l).
Proof.
  intros H. unfold py_max_by. destruct l as [| a l]; [reflexivity |].
  change (map g (a :: l)) with (g a :: map g l). cbv iota.
  rewrite H, (keyed_map far l H).
  destruct (far a) as [ka | e]; [| reflexivity]. rewrite !rbind_ok.
  destruct (map_result (fun c => k ← far c; mret (k, c)) l) as [kl | e];
    [| reflexivity].
  simpl result_map. rewrite !rbind_ok. unfold mret, result_ret. simpl result_map.
  f_equal.
  pose proof (max_by_key_map fst (fun kc : Q * NodeData => (fst kc, g (snd kc)))
                kl (ka, a) (fun _ => eq_refl)) as E.
  cbn beta in E. cbn [fst snd] in E. rewrite E. reflexivity.
Qed.

Lemma py_min_by_map (coord : NodeData -> Q) (l : list NodeData) :
  (forall c, coord (g c) = coord c) ->
  py_min_by coord (map g l) = result_map g (py_min_by coord l).
Proof.
  intros H. unfold py_min_by. destruct l as [| a l]; [reflexivity |].
  simpl. now rewrite (min_by_key_map coord g l a H).
Qed.

Lemma bucket_gaps_map (coord : NodeData -> Q) (far : NodeData -> result Q)
    (l : list NodeData) (keys : list Z) :
  (forall c, coord (g c) = coord c) -> (forall c, far (g c) = far c) ->
  bucket_gaps coord far (map g l) keys = bucket_gaps coord far l keys.
Proof.
  intros Hc Hf. induction keys as [| k keys IH]; [reflexivity |].
  destruct keys as [| k' rest]; [reflexivity |].
  change (bucket_gaps coord far (map g l) (k :: k' :: rest))
    with (rightmost ← py_max_by far (bucket_group coord (map g l) k);
          leftmost ← py_min_by coord (bucket_group coord (map g l) k');
          far_r ← far rightmost;
          gaps ← bucket_gaps coord far (map g l) (k' :: rest);
          mret (fsub (coord leftmost) far_r :: gaps)).
  change (bucket_gaps coord far l (k :: k' :: rest))
    with (rightmost ← py_max_by far (bucket_group coord l k);
          leftmost ← py_min_by coord (bucket_group coord l k');
          far_r ← far rightmost;
          gaps ← bucket_gaps coord far l (k' :: rest);
          mret (fsub (coord leftmost) far_r :: gaps)).
  rewrite IH, !(bucket_group_map coord l _ Hc), (py_max_by_map far _ Hf),
    (py_min_by_map coord _ Hc).
  destruct (py_max_by far (bucket_group coord l k)) as [r | e]; [| reflexivity].
  simpl result_map. rewrite !rbind_ok.
  destruct (py_min_by coord (bucket_group coord l k')) as [m | e]; [| reflexivity].
  simpl result_map. rewrite !rbind_ok. now rewrite Hf, Hc.
Qed.

Lemma grid_gaps_map (l : list NodeData) (cols rows : nat) :
  _calculate_grid_gaps (map g l) cols rows = _calculate_grid_gaps l cols rows.
Proof using Hg.
  unfold _calculate_grid_gaps, sorted_buckets.
  rewrite !(buckets_map x_of l g_x), !(buckets_map y_of l g_y).
  now rewrite (bucket_gaps_map x_of right_edge l _ g_x g_right_edge),
    (bucket_gaps_map y_of bottom_edge l _ g_y g_bottom_edge).
Qed.

Lemma classify_flex_map (direction flex_direction : string)
    (spacing_of : list NodeData -> result Q)
    (alignment_of : list NodeData -> result (option string))
    (l : list NodeData) (n : NodeData) :
  spacing_of (map g l) = spacing_of l ->
  alignment_of (map g l) = alignment_of l ->
  classify_flex direction flex_direction spacing_of alignment_of (map g l) n
  = classify_flex direction flex_direction spacing_of alignment_of l n.
Proof. intros Hs Ha. now rewrite !classify_flex_run, Hs, Ha. Qed.

Lemma grid_dimensions_map (l : list NodeData) :
  _detect_grid_dimensions (map g l) = _detect_grid_dimensions l.
Proof using Hg.
  unfold _detect_grid_dimensions.
  now rewrite (buckets_map x_of l g_x), (buckets_map y_of l g_y).
Qed.

Lemma classify_grid_map (l : list NodeData) (n : NodeData) :
  classify_grid (map g l) n = classify_grid l n.
Proof using Hg.
  rewrite !classify_grid_run. unfold grid_assigned.
  now rewrite grid_dimensions_map, grid_gaps_map.
Qed.

Lemma appears_to_be_grid_map (l : list NodeData) :
  _appears_to_be_grid (map g l) = _appears_to_be_grid l.
Proof using Hg.
  unfold _appears_to_be_grid.
  now rewrite length_map, (buckets_map x_of l g_x), (buckets_map y_of l g_y).
Qed.

(** The [if] / [elif] chain gives the same outcome on children of the same
    geometry. *)
Lemma classify_map (l : list NodeData) (n : NodeData) :
  classify (map g l) n = classify l n.
Proof using Hg.
  unfold classify, _children_aligned_horizontally, _children_aligned_vertically.
  rewrite (children_aligned_map x_of y_of l g_x g_y),
    (children_aligned_map y_of x_of l g_y g_x), appears_to_be_grid_map.
  unfold mbind at 1 3, M_bind at 1 3, lift at 1 3.
  destruct (children_aligned x_of y_of l) as [[] | e]; [| | reflexivity].
  - apply classify_flex_map.
    + apply (calculate_spacing_map x_of right_edge l g_x g_right_edge).
    + apply (detect_alignment_map y_of bottom_edge _ l g_y g_bottom_edge).
      intros c. now rewrite g_size.
  - unfold mbind, M_bind, lift.
    destruct (children_aligned y_of x_of l) as [[] | e]; [| | reflexivity].
    + apply classify_flex_map.
      * apply (calculate_spacing_map y_of bottom_edge l g_y g_bottom_edge).
      * apply (detect_alignment_map x_of right_edge _ l g_x g_right_edge).
        intros c. now rewrite g_size.
    + destruct (_appears_to_be_grid l); [apply classify_grid_map | reflexivity].
Qed.

End Geometry.

Lemma strip_preserving : geometry_preserving strip.
Proof. intros c. repeat split. Qed.

Lemma classify_same_geometry (cs cs' : list NodeData) (n : NodeData) :
  map strip cs' = map strip cs -> classify cs' n = classify cs n.
Proof.
  intros H.
  rewrite <- (classify_map strip strip_preserving cs'),
    <- (classify_map strip strip_preserving cs).
  now rewrite H.
Qed.

(* ===================================================================== *)
(** * A second run of the analysis changes nothing                        *)
(* ===================================================================== *)

Ltac classify_cases_tac cs :=
  rewrite ?classify_unfold, ?classify_flex_run, ?classify_grid_run;
  unfold grid_assigned, gaps_recorded, spacing_recorded, flex_assigned;
  destruct (_children_aligned_horizontally cs) as [[] | ?];
  [ destruct (_calculate_horizontal_spacing cs) as [? | ?];
    [ destruct (_detect_vertical_alignment cs) as [[? |] | ?] |]
  | destruct (_children_aligned_vertically cs) as [[] | ?];
    [ destruct (_calculate_vertical_spacing cs) as [? | ?];
      [ destruct (_detect_horizontal_alignment cs) as [[? |] | ?] |]
    | destruct (_appears_to_be_grid cs);
      [ destruct (_calculate_grid_gaps cs _ _) as [[? ?] | ?] |]
    |]
  |];
  repeat match goal with
    | |- context [Qltb 0 ?q] => destruct (Qltb 0 q)
    end.

(** The outcome of [classify] does not depend on the node. *)
Lemma classify_status (cs : list NodeData) (n n' : NodeData) :
  fst (classify cs n) = fst (classify cs n').
Proof. classify_cases_tac cs; reflexivity. Qed.

(** [classify] assigns values that depend on the children only: applied to
    its own result it changes nothing. *)
Lemma classify_idempotent (cs : list NodeData) (n : NodeData) :
  snd (classify cs (snd (classify cs n))) = snd (classify cs n).
Proof.
  destruct n as [? ? ? ? ? ? [? ? ? ? ? ?] ? ? ? ? ? ?].
  classify_cases_tac cs; reflexivity.
Qed.

Lemma classify_position_mode (cs : list NodeData) (m : pos_mode) (n : NodeData) :
  snd (classify cs (with_position_mode m n))
  = with_position_mode m (snd (classify cs n)).
Proof.
  destruct n as [? ? ? [? ? ?] ? ? [? ? ? ? ? ?] ? ? ? ? ? ?].
  classify_cases_tac cs; reflexivity.
Qed.

(** [classify] assigns the layout and the properties only. *)
Lemma classify_frame (cs : list NodeData) (n : NodeData) :
  position (snd (classify cs n)) = position n
  /\ node_size (snd (classify cs n)) = node_size n
  /\ is_container (snd (classify cs n)) = is_container n.
Proof.
  destruct n as [? ? ? [? ? ?] ? ? [? ? ? ? ? ?] ? ? ? ? ? ?].
  classify_cases_tac cs; repeat split; reflexivity.
Qed.

(** What [_analyze_node_layout] leaves as it is, and the one change of the
    position mode that it can make. *)
Lemma analyze_frame (cs : list NodeData) (n : NodeData) :
  let n' := snd (_analyze_node_layout cs n) in
  x_of n' = x_of n /\ y_of n' = y_of n /\ node_size n' = node_size n
  /\ is_container n' = is_container n
  /\ (pos_position (position n') = pos_position (position n)
      \/ pos_position (position n') = Relative).
Proof.
  destruct (is_container n) eqn:Hc; [destruct cs as [| c cs'] eqn:Hcs |].
  - rewrite analyze_skip by auto. simpl. auto 10.
  - rewrite <- Hcs. assert (Hne : cs <> []) by (rewrite Hcs; discriminate).
    rewrite (analyze_run cs n Hc Hne).
    destruct (classify_frame cs n) as (Hp & Hs & Hi).
    destruct (classify cs n) as [[[] | e] nc]; simpl in *.
    + rewrite contain_absolute_run. simpl.
      unfold x_of, y_of.
      destruct (_ && _); simpl; rewrite ?Hp, ?Hs, ?Hi; auto 10.
    + unfold x_of, y_of. rewrite Hp, Hs, Hi. auto 10.
  - rewrite analyze_skip by auto. simpl. auto 10.
Qed.

(** A second run on children of the same geometry, none of which became
    absolute, returns the same outcome and leaves the node as it is. *)
Lemma analyze_twice (cs cs' : list NodeData) (n : NodeData) :
  map strip cs' = map strip cs ->
  (existsb is_absolute cs' = true -> existsb is_absolute cs = true) ->
  _analyze_node_layout cs' (snd (_analyze_node_layout cs n))
  = _analyze_node_layout cs n.
Proof.
  intros Hgeo Habs.
  assert (Hlen : length cs' = length cs).
  { apply (f_equal length) in Hgeo. now rewrite !length_map in Hgeo. }
  assert (Hnil : cs' = [] <-> cs = []).
  { split; intros H; rewrite H in Hlen; simpl in Hlen.
    - destruct cs; [reflexivity | discriminate].
    - destruct cs'; [reflexivity | discriminate]. }
  destruct (is_container n) eqn:Hc; [destruct cs as [| c0 cs0] eqn:Hcs |].
  - rewrite (proj2 Hnil eq_refl). rewrite !analyze_skip by auto. reflexivity.
  - rewrite <- Hcs in *. assert (Hne : cs <> []) by (rewrite Hcs; discriminate).
    assert (Hne' : cs' <> []) by (intros H; apply Hne, Hnil, H).
    rewrite (analyze_run cs n Hc Hne).
    destruct (classify_frame cs n) as (_ & _ & Hi).
    pose proof (classify_idempotent cs n) as Hidem.
    destruct (classify cs n) as [r nc] eqn:Hcl. simpl in Hi, Hidem.
    assert (Hstatus : forall n', fst (classify cs n') = r).
    { intros n'. rewrite (classify_status cs n' n), Hcl. reflexivity. }
    destruct r as [[] | e]; simpl.
    + rewrite contain_absolute_run. simpl.
      set (n1 := if existsb is_absolute cs && negb (truthy (flex_props nc))
                    && negb (truthy (grid_props nc))
                 then with_position_mode Relative nc else nc).
      assert (Hc1 : is_container n1 = true).
      { unfold n1. destruct (_ && _); simpl; congruence. }
      assert (Hn1 : snd (classify cs n1) = n1).
      { unfold n1. destruct (_ && _); [| exact Hidem].
        now rewrite classify_position_mode, Hidem. }
      rewrite (analyze_run cs' n1 Hc1 Hne'), (classify_same_geometry cs cs' n1 Hgeo).
      specialize (Hstatus n1).
      destruct (classify cs n1) as [r1 n1c]. simpl in Hstatus, Hn1. subst r1 n1c.
      rewrite contain_absolute_run. f_equal.
      destruct (existsb is_absolute cs') eqn:Ha'; [| reflexivity].
      unfold n1. rewrite (Habs eq_refl). simpl.
      destruct (negb (truthy (flex_props nc)) && negb (truthy (grid_props nc)))
        eqn:Hcond; simpl; rewrite Hcond; reflexivity.
    + assert (Hc1 : is_container nc = true) by congruence.
      rewrite (analyze_run cs' nc Hc1 Hne'), (classify_same_geometry cs cs' nc Hgeo).
      specialize (Hstatus nc).
      destruct (classify cs nc) as [r1 n1c]. simpl in Hstatus, Hidem. now subst.
  - assert (Hskip : _analyze_node_layout cs n = (Ok tt, n)) by (apply analyze_skip; auto).
    rewrite Hskip. simpl. apply analyze_skip. auto.
Qed.

Lemma analyze_root (t : AngularNode) :
  strip (data_of (analyze_layout_node t)) = strip (data_of t)
  /\ (is_absolute (data_of (analyze_layout_node t)) = true ->
      is_absolute (data_of t) = true).
Proof.
  destruct t as [d cs]. simpl.
  destruct (analyze_frame (map data_of cs) d) as (Hx & Hy & Hs & _ & Hp).
  destruct (_analyze_node_layout (map data_of cs) d) as [[[] | e] d']; simpl in *;
    (split; [unfold strip; now rewrite Hx, Hy, Hs |]);
    unfold is_absolute; destruct Hp as [-> | ->]; auto; discriminate.
Qed.

(** C10. The layout analysis is idempotent: a second run leaves every node
    of an analyzed tree, with its layout, its flex and grid properties and
    its position, as the first run left it. *)
Theorem analyze_layout_idempotent :
  (forall t, analyze_layout_node (analyze_layout_node t) = analyze_layout_node t)
  /\ (forall nodes, analyze_layout (analyze_layout nodes) = analyze_layout nodes).
Proof.
  assert (Hnode : forall t,
            analyze_layout_node (analyze_layout_node t) = analyze_layout_node t).
  { induction t as [d cs IH] using AngularNode_induction.
    simpl.
    destruct (_analyze_node_layout (map data_of cs) d) as [r d'] eqn:E.
    assert (Hd' : d' = snd (_analyze_node_layout (map data_of cs) d)) by now rewrite E.
    destruct r as [[] | e]; simpl.
    - assert (Hagain : _analyze_node_layout
                         (map data_of (map analyze_layout_node cs)) d' = (Ok tt, d')).
      { rewrite Hd', analyze_twice; [now rewrite E | |].
        - rewrite !map_map. apply map_ext. intros c. apply analyze_root.
        - rewrite !existsb_exists. intros (x & Hx & Habs).
          apply in_map_iff in Hx as (t' & <- & Ht').
          apply in_map_iff in Ht' as (t & <- & Ht).
          exists (data_of t). split; [now apply in_map |].
          now apply analyze_root. }
      rewrite Hagain. f_equal.
      rewrite map_map. apply map_ext_in. intros c Hc.
      rewrite Forall_forall in IH. apply IH, list_elem_of_In, Hc.
    - assert (Hagain : _analyze_node_layout (map data_of cs) d' = (Raise e, d')).
      { rewrite Hd', analyze_twice; [now rewrite E | reflexivity | auto]. }
      now rewrite Hagain. }
  split; [exact Hnode |].
  intros nodes. unfold analyze_layout. rewrite map_map. apply map_ext, Hnode.
Qed.

(* ===================================================================== *)
(** * Examples                                                            *)
(* ===================================================================== *)

Lemma convert_roots_witness :
  exists roots s,
    convert_to_angular_nodes fallback_input initial = (Ok roots, s)
    /\ roots = [0%nat]
    /\ last (log s) = Some (WarnFallbackRoot "a").
Proof.
  destruct (convert_roots fallback_input) as (roots & s & E & _ & Hfallback).
  exists roots, s. split; [exact E |].
  edestruct Hfallback as (a & o & rest & Hroots & _ & _ & _ & Hlast & Hfirst).
  - intros r Hr. apply list_elem_of_singleton in Hr as ->. reflexivity.
  - reflexivity.
  - destruct Hfirst as [-> _]; [intros d Hd; inversion Hd |].
    split; [exact Hroots | exact Hlast].
Defined.

Lemma convert_tolerant_witness :
  exists roots s a,
    convert_to_angular_nodes orphan_input initial = (Ok roots, s)
    /\ dict_get "a" (node_map s) = Some a
    /\ (forall root, root ∈ roots -> ~ descendant (heap s) root a).
Proof.
  destruct (convert_tolerant orphan_input) as (roots & s & E & _ & _ & Horphan).
  edestruct (Horphan (plain_record "a" "TEXT" (Some "zzz"%string)) "a"%string
               "zzz"%string)
    as (a & o & Hget & _ & _ & _ & Hdesc).
  - unfold orphan_input. right. left.
  - reflexivity.
  - reflexivity.
  - intros d Hd. apply converted_elem in Hd as (r & Hr & Hb).
    apply valid_of_elem in Hr as [Hr _]. unfold orphan_input in Hr.
    apply elem_of_cons in Hr as [[= ->] | Hr].
    + injection Hb as <-. discriminate.
    + apply list_elem_of_singleton in Hr as [= ->].
      injection Hb as <-. discriminate.
  - intros r' Hr' Hid. unfold orphan_input in Hr'.
    apply elem_of_cons in Hr' as [[= ->] | Hr'].
    + discriminate.
    + apply list_elem_of_singleton in Hr' as [= ->]. reflexivity.
  - reflexivity.
  - exists roots, s, a. auto.
Defined.

Lemma classification_priority_and_agreement_witness :
  exists d,
    AngularNode_init (plain_record "f" "FRAME" None) = Ok d
    /\ let d' := snd (_analyze_node_layout
                        [sample_node "a" false 0 0 (DimNum 100) (DimNum 50)] d) in
       layout_type_of (layout d') = LDefault
       /\ flex_props d' = ∅ /\ grid_props d' = ∅.
Proof.
  eexists. split; [reflexivity |].
  destruct classification_priority_and_agreement as (_ & _ & _ & _ & _ & Hone).
  edestruct (Hone (plain_record "f" "FRAME" None)) as (_ & Hf & Hg & Hdefault & _);
    [reflexivity |].
  split; [apply Hdefault; reflexivity |]. split; [exact Hf | exact Hg].
Defined.


(* ===================================================================== *)
(** * More on the layout classifier                                       *)
(* ===================================================================== *)

(** ** Row and column detection exclude each other *)

Lemma mean_within_spread (f : NodeData -> Q) (children : list NodeData) (hi lo : Q) :
  Forall (fun c => Qabs (fsub (f c) (py_mean (map f children))) <= 5) children ->
  In hi (map f children) -> In lo (map f children) -> hi - lo < 12.
Proof.
  intros Hall Hhi Hlo. rewrite Forall_forall in Hall.
  apply in_map_iff in Hhi as (a & <- & Ha). apply in_map_iff in Hlo as (b & <- & Hb).
  apply list_elem_of_In in Ha, Hb.
  assert (H6 : rnd 6 == 6) by (vm_compute; reflexivity).
  assert (H6' : rnd (- (6)) == - (6)) by (vm_compute; reflexivity).
  assert (H56 : 5 < 6) by reflexivity.
  pose proof (rnd_within _ 5 6 H6 H6' H56 (Hall a Ha)) as H1.
  pose proof (rnd_within _ 5 6 H6 H6' H56 (Hall b Hb)) as H2.
  apply Qabs_Qlt_condition in H1, H2. lra.
Qed.

Lemma aligned_spec_exclusive (along across : NodeData -> Q) (children : list NodeData) :
  aligned_spec along across children -> ~ aligned_spec across along children.
Proof.
  intros (_ & _ & hi & lo & [Hhi _] & [Hlo _] & Hspread) (_ & Hall & _).
  pose proof (mean_within_spread along children hi lo Hall Hhi Hlo) as H.
  assert (H12 : rnd 12 == 12) by (vm_compute; reflexivity).
  assert (Hle : rnd (hi - lo) <= rnd 12) by (apply rnd_mono; lra).
  unfold fsub in Hspread. lra.
Qed.

Lemma column_not_row (children : list NodeData) :
  _children_aligned_vertically children = Ok true ->
  _children_aligned_horizontally children = Ok false.
Proof.
  intros Hcol. apply aligned_vertically_spec in Hcol.
  apply aligned_horizontally_spec. intros Hrow.
  exact (aligned_spec_exclusive _ _ _ Hrow Hcol).
Qed.


(** ** The column branch *)

(** The column branch, as the row branch. *)
Lemma column_branch (node : NodeData) (children : list NodeData) :
  is_container node = true ->
  _children_aligned_vertically children = Ok true ->
  let node' := snd (_analyze_node_layout children node) in
  layout_type_of (layout node') = LAutoLayout
  /\ layout_direction (layout node') = Some "vertical"%string
  /\ flex_props node' !! "display"%string = Some (CssKw "flex")
  /\ flex_props node' !! "flex-direction"%string = Some (CssKw "column")
  /\ grid_props node' = grid_props node
  /\ match _calculate_vertical_spacing children with
     | Ok q =>
         (exists deltas,
            adjacent_deltas y_of height_of (py_sorted y_of children) deltas
            /\ (positive deltas <> [] -> q = py_mean (positive deltas))
            /\ (Forall (fun d => d <= 0) deltas -> q = 0))
         /\ (0 < q ->
             layout_spacing (layout node') = q
             /\ flex_props node' !! "gap"%string = Some (CssPx q))
         /\ (q <= 0 ->
             layout_spacing (layout node') = layout_spacing (layout node)
             /\ flex_props node' !! "gap"%string = None)
     | Raise e =>
         e = TypeError
         /\ unsized_before_last height_of (py_sorted y_of children)
         /\ fst (_analyze_node_layout children node) = Raise TypeError
         /\ layout_spacing (layout node') = layout_spacing (layout node)
         /\ flex_props node' !! "gap"%string = None
         /\ flex_props node' !! "align-items"%string = None
     end.
Proof.
  intros Hc Hcol node'.
  pose proof (column_not_row children Hcol) as Hnrow.
  assert (Hlen : (2 <= length children)%nat).
  { apply aligned_vertically_spec in Hcol. apply Hcol. }
  assert (Hne : children <> []) by (intros ->; simpl in Hlen; lia).
  destruct (analyze_classified children node Hc Hne) as (Hl & Hf & Hg).
  fold node' in Hl, Hf, Hg. rewrite Hl, Hf, Hg.
  rewrite (classify_when_column children node Hnrow Hcol).
  destruct (classify_flex_basic "vertical" "column" _calculate_vertical_spacing
              _detect_horizontal_alignment children node) as (H1 & H2 & H3 & H4 & H5).
  do 5 (split; [assumption |]).
  pose proof (calculate_spacing_cases y_of height_of children Hlen) as Hcases.
  change (calculate_spacing y_of (fun c => add_dim (y_of c) (height_of c)) children)
    with (_calculate_vertical_spacing children) in Hcases.
  destruct (_calculate_vertical_spacing children) as [q | e] eqn:Hq.
  - split; [exact Hcases |].
    exact (classify_flex_gap "vertical" "column" _calculate_vertical_spacing
             _detect_horizontal_alignment children node q Hq).
  - destruct Hcases as [-> Hun]. split; [reflexivity |]. split; [exact Hun |].
    unfold node'. rewrite (analyze_run children node Hc Hne),
      (classify_when_column children node Hnrow Hcol), classify_flex_run, Hq.
    split; [reflexivity |]. cbn [snd].
    destruct (flex_assigned_facts "vertical" "column" node) as (_ & _ & F3 & F4 & _).
    rewrite F3, F4. split; [reflexivity |]. split; reflexivity.
Qed.

(** X2. The column test of the program holds exactly for at least 2
    children whose [x] are each within 5 of their mean and whose [y] spread
    exceeds 20, all computed in floating point.  A container whose children
    pass it is not a row; it gets type [auto-layout], direction [vertical]
    and the flex properties [display: flex] and [flex-direction: column],
    and its grid properties are left as they were.  When the spacing is
    computed, it is the mean of the positive differences
    [next.y - (prev.y + prev.height)] of the adjacent pairs of the children
    sorted by [y], and 0 when none is positive; a spacing above 0 is
    recorded as [layout.spacing] and as the [gap] property; otherwise
    [layout.spacing] is left as it was and no [gap] is set.  When a child
    other than the last in the order of [y] has the height ["auto"], the
    computation raises [TypeError]: the analysis of the node ends there,
    and neither [gap] nor [align-items] is set. *)
Theorem column_classification (node : NodeData) (children : list NodeData) :
  (_children_aligned_vertically children = Ok true
   <-> aligned_spec y_of x_of children)
  /\ (is_container node = true ->
      _children_aligned_vertically children = Ok true ->
      let node' := snd (_analyze_node_layout children node) in
      _children_aligned_horizontally children = Ok false
      /\ layout_type_of (layout node') = LAutoLayout
      /\ layout_direction (layout node') = Some "vertical"%string
      /\ flex_props node' !! "display"%string = Some (CssKw "flex")
      /\ flex_props node' !! "flex-direction"%string = Some (CssKw "column")
      /\ grid_props node' = grid_props node
      /\ match _calculate_vertical_spacing children with
         | Ok q =>
             (exists deltas,
                adjacent_deltas y_of height_of (py_sorted y_of children) deltas
                /\ (positive deltas <> [] -> q = py_mean (positive deltas))
                /\ (Forall (fun d => d <= 0) deltas -> q = 0))
             /\ (0 < q ->
                 layout_spacing (layout node') = q
                 /\ flex_props node' !! "gap"%string = Some (CssPx q))
             /\ (q <= 0 ->
                 layout_spacing (layout node') = layout_spacing (layout node)
                 /\ flex_props node' !! "gap"%string = None)
         | Raise e =>
             e = TypeError
             /\ unsized_before_last height_of (py_sorted y_of children)
             /\ fst (_analyze_node_layout children node) = Raise TypeError
             /\ layout_spacing (layout node') = layout_spacing (layout node)
             /\ flex_props node' !! "gap"%string = None
             /\ flex_props node' !! "align-items"%string = None
         end).
Proof.
  split; [apply aligned_vertically_spec |].
  intros Hc Hcol node'. split; [now apply column_not_row |].
  apply (column_branch node children Hc Hcol).
Qed.

Lemma column_classification_witness :
  let node' := snd (_analyze_node_layout column_children sample_container) in
  _children_aligned_vertically column_children = Ok true
  /\ layout_direction (layout node') = Some "vertical"%string
  /\ exists g, flex_props node' !! "gap"%string = Some (CssPx g) /\ g == 30.
Proof.
  assert (Hcol : _children_aligned_vertically column_children = Ok true)
    by (vm_compute; reflexivity).
  destruct (column_classification sample_container column_children) as [_ H].
  destruct (H eq_refl Hcol) as (_ & _ & Hd & _ & _ & _ & Hsp).
  split; [exact Hcol |]. split; [exact Hd |].
  set (q := match _calculate_vertical_spacing column_children with
            | Ok q => q
            | Raise _ => 0
            end).
  assert (E : _calculate_vertical_spacing column_children = Ok q)
    by (vm_compute; reflexivity).
  assert (Hq : q == 30) by (vm_compute; reflexivity).
  rewrite E in Hsp. destruct Hsp as (_ & Hpos & _).
  exists q. split; [apply Hpos; rewrite Hq; reflexivity | exact Hq].
Defined.

(** X3. In a container classified as a column, no [align-items] property
    is recorded when the spacing computation raises.  When it returns, the
    property is the keyword of the first satisfied of the four tests on the
    horizontal axis, each distance computed in floating point and compared
    strictly: every [x] less than 5 from the minimum; every right edge less
    than 5 from the maximum; every horizontal center less than 10 from the
    mean; more than 2 children and more than one distinct [x].  When none
    holds the property is not recorded.  When the first test fails, the
    widths are numbers, or some child has the width ["auto"] and the
    detection raises [TypeError], and no property is recorded. *)
Theorem column_cross_axis_alignment (node : NodeData) (children : list NodeData) :
  is_container node = true ->
  _children_aligned_vertically children = Ok true ->
  let node' := snd (_analyze_node_layout children node) in
  match _calculate_vertical_spacing children with
  | Raise _ => flex_props node' !! "align-items"%string = None
  | Ok _ =>
      match _detect_horizontal_alignment children with
      | Ok a =>
          flex_props node' !! "align-items"%string = CssKw <$> a
          /\ alignment_is x_of width_of children a
          /\ (~ start_aligned x_of children ->
              Forall (fun c => is_numeric (width_of c)) children)
      | Raise e =>
          e = TypeError
          /\ ~ start_aligned x_of children
          /\ Exists (fun c => width_of c = DimAuto) children
          /\ flex_props node' !! "align-items"%string = None
      end
  end.
Proof.
  intros Hc Hcol node'.
  pose proof (column_not_row children Hcol) as Hnrow.
  assert (Hne : children <> []).
  { apply aligned_vertically_spec in Hcol. destruct Hcol as [Hlen _].
    intros ->. simpl in Hlen. lia. }
  destruct (analyze_classified children node Hc Hne) as (_ & Hf & _).
  fold node' in Hf. rewrite Hf, (classify_when_column children node Hnrow Hcol).
  rewrite classify_flex_align_items.
  pose proof (detect_alignment_outcome x_of width_of children Hne) as Hout.
  change (detect_alignment x_of (fun c => add_dim (x_of c) (width_of c)) width_of
            children)
    with (_detect_horizontal_alignment children) in Hout.
  destruct (_calculate_vertical_spacing children) as [q | e]; [| reflexivity].
  destruct (_detect_horizontal_alignment children) as [a | e].
  - destruct Hout as [Ha Hnum]. auto.
  - destruct Hout as (-> & Hns & Hex). auto.
Qed.

Lemma column_cross_axis_alignment_witness :
  let node' := snd (_analyze_node_layout column_children sample_container) in
  _children_aligned_vertically column_children = Ok true
  /\ start_aligned x_of column_children
  /\ flex_props node' !! "align-items"%string = Some (CssKw "flex-start").
Proof.
  assert (Hcol : _children_aligned_vertically column_children = Ok true)
    by (vm_compute; reflexivity).
  assert (Hstart : start_aligned x_of column_children).
  { exists 9. split.
    - split; [simpl; auto |].
      intros v [<- | [<- | [<- | []]]]; vm_compute; discriminate.
    - repeat constructor; vm_compute; reflexivity. }
  pose proof (column_cross_axis_alignment sample_container column_children eq_refl
                Hcol) as H.
  cbv zeta in H.
  set (q := match _calculate_vertical_spacing column_children with
            | Ok q => q
            | Raise _ => 0
            end).
  assert (E : _calculate_vertical_spacing column_children = Ok q)
    by (vm_compute; reflexivity).
  rewrite E, (detect_alignment_start _ _ _ _ Hstart : _detect_horizontal_alignment _ = _)
    in H.
  destruct H as (Hf & _). split; [exact Hcol |]. split; [exact Hstart | exact Hf].
Defined.


(** ** The outcome of the spacing computations *)

Lemma calculate_spacing_outcome (start : NodeData -> Q) (extent : NodeData -> dim)
    (children : list NodeData) :
  spacing_outcome start extent children
    (calculate_spacing start (fun c => add_dim (start c) (extent c)) children).
Proof.
  unfold calculate_spacing.
  destruct (length children <? 2)%nat eqn:Hlen.
  { apply Nat.ltb_lt in Hlen. simpl. split; [lra | now left]. }
  apply Nat.ltb_ge in Hlen.
  destruct (adjacent_spacings_cases start extent (py_sorted start children))
    as [(ds & Hds) | (Hun & E)].
  - rewrite (adjacent_spacings_spec _ _ _ _ Hds), rbind_ok.
    pose proof (adjacent_deltas_sized _ _ _ _ Hds) as Hsized.
    destruct (positive ds) as [| v l] eqn:Hpos.
    + simpl. split; [lra | now right].
    + rewrite py_truediv_mean by discriminate. simpl. split; [| now right].
      apply py_mean_nonneg. rewrite <- Hpos.
      eapply Forall_impl; [apply positive_spec |]. intros q Hq. simpl in Hq. lra.
  - rewrite E. simpl. auto.
Qed.


(** ** Cross-axis alignment and sizes *)

(** X5. The two alignment detections return [None] for no children, and
    [flex-start] whenever the start positions are less than 5 from their
    minimum, the distances being computed in floating point, without
    reading a size; when they are not and some child has the size
    ["auto"], they raise [TypeError]. *)
Theorem alignment_without_sizes (children : list NodeData) :
  (children = [] ->
     _detect_vertical_alignment children = Ok None
     /\ _detect_horizontal_alignment children = Ok None)
  /\ (start_aligned y_of children ->
      _detect_vertical_alignment children = Ok (Some "flex-start"%string))
  /\ (start_aligned x_of children ->
      _detect_horizontal_alignment children = Ok (Some "flex-start"%string))
  /\ (children <> [] -> ~ start_aligned y_of children ->
      Exists (fun c => height_of c = DimAuto) children ->
      _detect_vertical_alignment children = Raise TypeError)
  /\ (children <> [] -> ~ start_aligned x_of children ->
      Exists (fun c => width_of c = DimAuto) children ->
      _detect_horizontal_alignment children = Raise TypeError).
Proof.
  split; [intros ->; split; reflexivity |].
  split; [apply detect_alignment_start |].
  split; [apply detect_alignment_start |].
  split; [apply (detect_alignment_unsized y_of height_of) |].
  apply (detect_alignment_unsized x_of width_of).
Qed.

Lemma alignment_without_sizes_witness :
  start_aligned y_of unsized_children
  /\ height_of (sample_node "a" false 0 0 DimAuto DimAuto) = DimAuto
  /\ _detect_vertical_alignment unsized_children = Ok (Some "flex-start"%string)
  /\ _detect_horizontal_alignment unsized_children = Raise TypeError.
Proof.
  assert (Hy : start_aligned y_of unsized_children).
  { exists 0. split.
    - split; [simpl; auto |]. intros v [<- | [<- | []]]; vm_compute; discriminate.
    - repeat constructor; vm_compute; reflexivity. }
  assert (Hx : ~ start_aligned x_of unsized_children).
  { intros (lo & [_ Hlo] & Hall).
    assert (H0 : lo <= 0) by (apply Hlo; simpl; auto).
    assert (H100 : Qabs (fsub 100 lo) < 5).
    { rewrite Forall_forall in Hall. apply Hall.
      apply list_elem_of_further, list_elem_of_here. }
    assert (Hr : rnd 100 == 100) by (vm_compute; reflexivity).
    assert (Hle : rnd 100 <= rnd (100 - lo)) by (apply rnd_mono; lra).
    apply Qabs_Qlt_condition in H100. unfold fsub in H100. lra. }
  destruct (alignment_without_sizes unsized_children) as (_ & Hv & _ & _ & Hh).
  split; [exact Hy |]. split; [reflexivity |]. split; [exact (Hv Hy) |].
  apply Hh; [discriminate | exact Hx |]. constructor. reflexivity.
Defined.

(** ** An exception of the classifier *)

Lemma Sorted_lookup_le {A} (key : A -> Q) (s : list A) (j i : nat) (a b : A) :
  Sorted (fun u v => key u <= key v) s ->
  s !! j = Some a -> s !! i = Some b -> (j <= i)%nat -> key a <= key b.
Proof.
  intros Hs. apply Sorted_StronglySorted in Hs; [| intros x y z; apply Qle_trans].
  revert j i. induction Hs as [| h s Hs IH Hall]; intros j i Hj Hi Hle;
    [destruct j; discriminate |].
  destruct j as [| j]; simpl in Hj.
  - injection Hj as ->. destruct i as [| i]; simpl in Hi.
    + injection Hi as ->. apply Qle_refl.
    + rewrite Forall_forall in Hall. apply Hall. eapply list_elem_of_lookup_2, Hi.
  - destruct i as [| i]; [lia |]. simpl in Hi. apply (IH j i Hj Hi). lia.
Qed.

Lemma sorted_before_last {A} (key : A -> Q) (l : list A) (c c' : A) :
  c ∈ l -> c' ∈ l -> key c < key c' ->
  exists i, py_sorted key l !! i = Some c /\ (S i < length (py_sorted key l))%nat.
Proof.
  intros Hc Hc' Hlt.
  pose proof (py_sorted_perm key l) as Hperm.
  rewrite <- Hperm in Hc, Hc'.
  apply list_elem_of_lookup in Hc as [i Hi]. apply list_elem_of_lookup in Hc' as [j Hj].
  exists i. split; [exact Hi |].
  pose proof (lookup_lt_Some _ _ _ Hi) as Hilt. pose proof (lookup_lt_Some _ _ _ Hj) as Hjlt.
  destruct (decide (j <= i)%nat) as [Hle | Hgt]; [| lia].
  pose proof (Sorted_lookup_le key _ j i c' c (py_sorted_sorted key l) Hj Hi Hle). lra.
Qed.

(** X6. When the row test returns true on the children of a container and
    one of them has the width ["auto"] and stands left of another, the
    analysis of the container raises [TypeError] after the three
    assignments of the row branch: the node has type [auto-layout],
    direction [horizontal] and exactly the two flex properties [display]
    and [flex-direction]; its spacing, its grid properties and its position
    are as before, and [analyze_layout] leaves its children, and all below
    them, as they are. *)
Theorem row_with_unsized_child (node : NodeData) (cs : list AngularNode)
    (c c' : NodeData) :
  is_container node = true ->
  _children_aligned_horizontally (map data_of cs) = Ok true ->
  c ∈ map data_of cs -> width_of c = DimAuto ->
  c' ∈ map data_of cs -> x_of c < x_of c' ->
  let node' := snd (_analyze_node_layout (map data_of cs) node) in
  fst (_analyze_node_layout (map data_of cs) node) = Raise TypeError
  /\ analyze_layout_node (Node node cs) = Node node' cs
  /\ layout_type_of (layout node') = LAutoLayout
  /\ layout_direction (layout node') = Some "horizontal"%string
  /\ layout_spacing (layout node') = layout_spacing (layout node)
  /\ flex_props node' = flex_literal "row"
  /\ flex_props node' !! "gap"%string = None
  /\ flex_props node' !! "align-items"%string = None
  /\ grid_props node' = grid_props node
  /\ position node' = position node.
Proof.
  intros Hc Hrow Hin Hw Hin' Hlt.
  set (children := map data_of cs) in *.
  assert (Hlen : (2 <= length children)%nat).
  { apply aligned_horizontally_spec in Hrow. apply Hrow. }
  assert (Hne : children <> []) by (intros E; rewrite E in Hlen; simpl in Hlen; lia).
  assert (Hspacing : _calculate_horizontal_spacing children = Raise TypeError).
  { pose proof (calculate_spacing_outcome x_of width_of children) as Hout.
    change (calculate_spacing x_of (fun c => add_dim (x_of c) (width_of c)) children)
      with (_calculate_horizontal_spacing children) in Hout.
    destruct (_calculate_horizontal_spacing children) as [q | e]; simpl in Hout.
    - exfalso. destruct Hout as [_ [Hshort | Hsized]]; [lia |]. apply Hsized.
      destruct (sorted_before_last x_of children c c' Hin Hin' Hlt) as (i & Hi & Hi').
      exists i, c. auto.
    - destruct Hout as [-> _]. reflexivity. }
  assert (Hrun : _analyze_node_layout children node
                 = (Raise TypeError, flex_assigned "horizontal" "row" node)).
  { rewrite (analyze_run children node Hc Hne), (classify_when_row children node Hrow),
      classify_flex_run, Hspacing. reflexivity. }
  intros node'. unfold node'. simpl analyze_layout_node. fold children.
  rewrite Hrun. simpl.
  split; [reflexivity |]. split; [reflexivity |].
  destruct (flex_assigned_facts "horizontal" "row" node) as (H1 & H2 & H3 & H4 & H5 & H6).
  repeat split; try assumption; rewrite H4; reflexivity.
Qed.

Lemma row_with_unsized_child_witness :
  let cs := map (fun d => Node d []) unsized_children in
  _children_aligned_horizontally (map data_of cs) = Ok true
  /\ analyze_layout_node (Node sample_container cs)
     = Node (flex_assigned "horizontal" "row" sample_container) cs.
Proof.
  intros cs.
  assert (Hrow : _children_aligned_horizontally (map data_of cs) = Ok true)
    by (vm_compute; reflexivity).
  split; [exact Hrow |].
  destruct (row_with_unsized_child sample_container cs
              (sample_node "a" false 0 0 DimAuto DimAuto)
              (sample_node "b" false 100 0 (DimNum 50) (DimNum 50))
              eq_refl Hrow) as (Hraise & Htree & _).
  - simpl. apply list_elem_of_here.
  - reflexivity.
  - simpl. apply list_elem_of_further, list_elem_of_here.
  - reflexivity.
  - rewrite Htree. vm_compute. reflexivity.
Defined.

(** ** The position of an analyzed node *)

Lemma classify_nonempty (children : list NodeData) (n : NodeData) :
  _children_aligned_horizontally children = Ok true
  \/ _children_aligned_vertically children = Ok true
  \/ _appears_to_be_grid children = true ->
  let nc := snd (classify children n) in
  flex_props nc <> ∅ \/ grid_props nc <> ∅.
Proof.
  intros Hpattern nc.
  assert (Hflex : forall d f s a,
            flex_props (snd (classify_flex d f s a children n)) <> ∅).
  { intros d f s a.
    destruct (classify_flex_basic d f s a children n) as (_ & _ & H & _).
    intros E. rewrite E in H. discriminate. }
  assert (Hgrid : grid_props (snd (classify_grid children n)) <> ∅).
  { destruct (classify_grid_props children n) as (_ & H & _).
    intros E. rewrite E in H. discriminate. }
  unfold nc. rewrite classify_unfold.
  destruct (children_aligned_spec x_of y_of children) as (row & Er & _).
  destruct (children_aligned_spec y_of x_of children) as (col & Ec & _).
  unfold _children_aligned_horizontally, _children_aligned_vertically in *.
  rewrite Er. destruct row; [left; apply Hflex |].
  rewrite Ec. destruct col; [left; apply Hflex |].
  destruct Hpattern as [H | [H | H]]; [congruence | congruence |].
  rewrite H. right. exact Hgrid.
Qed.

(** X8. The analysis never changes [x], [y] or the size of a node.  When
    it returns on a container, the position mode is [relative] if some
    child is absolute and the node has neither flex nor grid properties
    afterwards, and is unchanged otherwise.  A node on whose children the
    row test, the column test or the grid test returns true keeps its
    position mode, as does a node that is no container or whose analysis
    raises. *)
Theorem position_after_analysis (node : NodeData) (children : list NodeData) :
  let node' := snd (_analyze_node_layout children node) in
  x_of node' = x_of node /\ y_of node' = y_of node /\ node_size node' = node_size node
  /\ (is_container node = true ->
      fst (_analyze_node_layout children node) = Ok tt ->
      pos_position (position node')
      = if existsb is_absolute children
           && negb (truthy (flex_props node')) && negb (truthy (grid_props node'))
        then Relative else pos_position (position node))
  /\ (_children_aligned_horizontally children = Ok true
      \/ _children_aligned_vertically children = Ok true
      \/ _appears_to_be_grid children = true -> position node' = position node)
  /\ (is_container node = false \/ raises (fst (_analyze_node_layout children node)) = true ->
      position node' = position node).
Proof.
  cbv zeta.
  destruct (analyze_frame children node) as (Hx & Hy & Hs & _ & _).
  do 3 (split; [assumption |]). clear Hx Hy Hs.
  destruct (is_container node) eqn:Hc.
  2:{ rewrite analyze_skip by auto. simpl.
      split; [discriminate |]. auto. }
  destruct children as [| c0 cs0] eqn:Hch.
  { rewrite analyze_skip by auto. simpl. split; [reflexivity |].
    split; [reflexivity |]. intros [H | H]; discriminate. }
  rewrite <- Hch in *. assert (Hne : children <> []) by (rewrite Hch; discriminate).
  rewrite (analyze_run children node Hc Hne).
  destruct (classify_frame children node) as (Hp & _ & _).
  pose proof (classify_nonempty children node) as Hpat.
  destruct (classify children node) as [[[] | e] nc]; simpl in *.
  - rewrite contain_absolute_run. cbn [fst snd].
    destruct (existsb is_absolute children && negb (truthy (flex_props nc))
              && negb (truthy (grid_props nc))) eqn:E.
    + change (flex_props (with_position_mode Relative nc)) with (flex_props nc).
      change (grid_props (with_position_mode Relative nc)) with (grid_props nc).
      rewrite E. split; [reflexivity |]. split; [| intros [H | H]; discriminate].
      intros H. exfalso.
      apply andb_prop in E as [E Hg]. apply andb_prop in E as [_ Hf].
      unfold truthy in Hf, Hg. rewrite negb_involutive in Hf, Hg.
      apply bool_decide_eq_true in Hf, Hg. destruct (Hpat H); contradiction.
    + rewrite E, Hp. split; [reflexivity |]. auto.
  - rewrite Hp. split; [discriminate |]. auto.
Qed.

Lemma position_after_analysis_witness :
  _children_aligned_horizontally row_children = Ok true
  /\ position (snd (_analyze_node_layout row_children
                      (with_position_mode Absolute sample_container)))
     = mkPosition 0 0 Absolute.
Proof.
  assert (Hrow : _children_aligned_horizontally row_children = Ok true)
    by (vm_compute; reflexivity).
  split; [exact Hrow |].
  destruct (position_after_analysis (with_position_mode Absolute sample_container)
              row_children) as (_ & _ & _ & _ & Hkeep & _).
  rewrite Hkeep; [reflexivity | now left].
Defined.

(** ** What the analysis leaves as it is *)

Lemma classify_unanalyzed (cs : list NodeData) (n : NodeData) :
  unanalyzed (snd (classify cs n)) = unanalyzed n.
Proof.
  destruct n as [? ? ? [? ? ?] ? ? [? ? ? ? ? ?] ? ? ? ? ? ?].
  classify_cases_tac cs; reflexivity.
Qed.

Lemma analyze_unanalyzed (cs : list NodeData) (n : NodeData) :
  unanalyzed (snd (_analyze_node_layout cs n)) = unanalyzed n.
Proof.
  destruct (is_container n) eqn:Hc; [destruct cs as [| c cs'] eqn:Hcs |].
  - now rewrite analyze_skip by auto.
  - rewrite <- Hcs. assert (Hne : cs <> []) by (rewrite Hcs; discriminate).
    rewrite (analyze_run cs n Hc Hne).
    pose proof (classify_unanalyzed cs n) as Hcl.
    destruct (classify cs n) as [[[] | e] nc]; simpl in *; [| exact Hcl].
    rewrite contain_absolute_run. simpl. rewrite <- Hcl.
    destruct (_ && _); reflexivity.
  - now rewrite analyze_skip by auto.
Qed.

(** X9. [analyze_layout] assigns nothing but the layout type, direction
    and spacing, the flex and grid properties and the position mode: once
    these are reset, the analyzed tree is the tree it was given, node by
    node, and it has as many nodes. *)
Theorem analyze_layout_keeps_structure :
  (forall t, tree_map unanalyzed (analyze_layout_node t) = tree_map unanalyzed t)
  /\ (forall nodes,
        map (tree_map unanalyzed) (analyze_layout nodes) = map (tree_map unanalyzed) nodes)
  /\ (forall t, tree_size (analyze_layout_node t) = tree_size t).
Proof.
  assert (Hnode : forall t,
            tree_map unanalyzed (analyze_layout_node t) = tree_map unanalyzed t).
  { induction t as [d cs IH] using AngularNode_induction. simpl.
    pose proof (analyze_unanalyzed (map data_of cs) d) as Hd.
    destruct (_analyze_node_layout (map data_of cs) d) as [[[] | e] d']; simpl in *;
      rewrite Hd; [| reflexivity].
    f_equal. rewrite map_map. apply map_ext_in. intros c Hc'.
    rewrite Forall_forall in IH. apply IH, list_elem_of_In, Hc'. }
  assert (Hsize : forall f t, tree_size (tree_map f t) = tree_size t).
  { intros f. induction t as [d cs IH] using AngularNode_induction. simpl.
    f_equal. f_equal. rewrite map_map. apply map_ext_in. intros c Hc'.
    rewrite Forall_forall in IH. apply IH, list_elem_of_In, Hc'. }
  split; [exact Hnode |]. split.
  - intros nodes. unfold analyze_layout. rewrite map_map. apply map_ext, Hnode.
  - intros t. rewrite <- (Hsize unanalyzed (analyze_layout_node t)), Hnode. apply Hsize.
Qed.

(** ** Children with sizes *)

Lemma classify_returns (children : list NodeData) (n : NodeData) :
  Forall sized children -> fst (classify children n) = Ok tt.
Proof.
  intros Hnum.
  assert (Hw : Forall (fun c => is_numeric (width_of c)) children).
  { eapply Forall_impl; [exact Hnum |]. now intros c [H _]. }
  assert (Hh : Forall (fun c => is_numeric (height_of c)) children).
  { eapply Forall_impl; [exact Hnum |]. now intros c [_ H]. }
  rewrite classify_unfold.
  destruct (children_aligned_spec x_of y_of children) as (row & Er & _).
  destruct (children_aligned_spec y_of x_of children) as (col & Ec & _).
  unfold _children_aligned_horizontally, _children_aligned_vertically.
  rewrite Er. destruct row.
  { rewrite classify_flex_run.
    destruct (calculate_spacing_total x_of width_of children Hw) as (q & Hq).
    change (calculate_spacing x_of _ children) with (_calculate_horizontal_spacing children)
      in Hq. rewrite Hq.
    destruct children as [| c0 cs0] eqn:Hch; [reflexivity |]. rewrite <- Hch in *.
    destruct (detect_alignment_spec y_of height_of children) as (a & Ha & _);
      [rewrite Hch; discriminate | exact Hh |].
    change (detect_alignment y_of _ height_of children)
      with (_detect_vertical_alignment children) in Ha.
    rewrite Ha. now destruct a. }
  rewrite Ec. destruct col.
  { rewrite classify_flex_run.
    destruct (calculate_spacing_total y_of height_of children Hh) as (q & Hq).
    change (calculate_spacing y_of _ children) with (_calculate_vertical_spacing children)
      in Hq. rewrite Hq.
    destruct children as [| c0 cs0] eqn:Hch; [reflexivity |]. rewrite <- Hch in *.
    destruct (detect_alignment_spec x_of width_of children) as (a & Ha & _);
      [rewrite Hch; discriminate | exact Hw |].
    change (detect_alignment x_of _ width_of children)
      with (_detect_horizontal_alignment children) in Ha.
    rewrite Ha. now destruct a. }
  destruct (_appears_to_be_grid children); [| reflexivity].
  rewrite classify_grid_run.
  destruct (grid_gaps_spec children (fst (_detect_grid_dimensions children))
              (snd (_detect_grid_dimensions children)) Hnum)
    as (hs & vs & h & v & _ & _ & E & _).
  now rewrite E.
Qed.

Lemma analyze_returns (children : list NodeData) (n : NodeData) :
  Forall sized children -> fst (_analyze_node_layout children n) = Ok tt.
Proof.
  intros Hnum.
  destruct (is_container n) eqn:Hc; [destruct children as [| c cs'] eqn:Hcs |].
  - now rewrite analyze_skip by auto.
  - rewrite <- Hcs in *. assert (Hne : children <> []) by (rewrite Hcs; discriminate).
    rewrite (analyze_run children n Hc Hne).
    pose proof (classify_returns children n Hnum) as Hcl.
    destruct (classify children n) as [r nc]. simpl in Hcl. subst r.
    now rewrite contain_absolute_run.
  - now rewrite analyze_skip by auto.
Qed.

(** X7. A node built from a record with a bounding box has numeric sizes;
    one built from a record without has both sizes ["auto"] and sits at the
    origin.  The analysis of a node whose children all have numeric sizes
    does not raise, and on a tree whose nodes all have numeric sizes
    [analyze_layout] analyzes every node, skipping none. *)
Theorem analysis_returns_with_sizes :
  (forall r d, AngularNode_init r = Ok d ->
     (fn_absoluteBoundingBox r <> None -> sized d)
     /\ (fn_absoluteBoundingBox r = None ->
         width_of d = DimAuto /\ height_of d = DimAuto /\ x_of d = 0 /\ y_of d = 0))
  /\ (forall node children,
        Forall sized children -> fst (_analyze_node_layout children node) = Ok tt)
  /\ (forall t, all_nodes sized t -> analyze_layout_node t = analyze_every_node t).
Proof.
  split; [| split; [exact (fun n c => analyze_returns c n) |]].
  - intros r d Hinit. unfold AngularNode_init, mbind, result_bind in Hinit.
    destruct (fn_rest r); [| discriminate]. injection Hinit as <-.
    unfold sized, width_of, height_of, x_of, y_of, _extract_size, _extract_position.
    simpl. destruct (fn_absoluteBoundingBox r) as [bbox |]; simpl.
    + split; [| discriminate]. intros _. split; eexists; reflexivity.
    + split; [congruence |]. intros _.
      destruct (_ || _); simpl; auto.
  - induction t as [d cs IH] using AngularNode_induction.
    intros Hall. apply all_nodes_children in Hall as [_ Hcs]. simpl.
    assert (Hnum : Forall sized (map data_of cs)).
    { apply Forall_map_iff. eapply Forall_impl; [exact Hcs |].
      intros [d' cs'] H. apply all_nodes_children in H. apply H. }
    pose proof (analyze_returns (map data_of cs) d Hnum) as Hok.
    destruct (_analyze_node_layout (map data_of cs) d) as [r d']. simpl in *. subst r.
    f_equal. apply map_ext_in. intros c Hc.
    rewrite Forall_forall in IH, Hcs. apply list_elem_of_In in Hc. auto.
Qed.

Lemma analysis_returns_with_sizes_witness :
  exists d, AngularNode_init boxed_record = Ok d
            /\ width_of d = DimNum 0 /\ x_of d = 10
            /\ fst (_analyze_node_layout [d; d] sample_container) = Ok tt.
Proof.
  destruct analysis_returns_with_sizes as (Hinit & Hnode & _).
  eexists. split; [reflexivity |]. split; [reflexivity |]. split; [reflexivity |].
  apply Hnode. destruct (Hinit boxed_record _ eq_refl) as [Hs _].
  repeat constructor; apply Hs; discriminate.
Defined.

(** ** The dimensions of a grid *)

Lemma size_buckets_le (coord : NodeData -> Q) (children : list NodeData) :
  (size (buckets coord children) <= length children)%nat.
Proof.
  unfold buckets, size, set_size. simpl.
  rewrite <- (length_map (fun c => bucket (coord c)) children).
  apply NoDup_incl_length; [apply NoDup_ListNoDup, NoDup_elements |].
  intros k Hk. apply list_elem_of_In in Hk. apply elem_of_elements in Hk.
  apply elem_of_list_to_set in Hk. now apply list_elem_of_In.
Qed.

Lemma size_buckets_pos (coord : NodeData -> Q) (children : list NodeData) :
  children <> [] -> (1 <= size (buckets coord children))%nat.
Proof.
  intros Hne. destruct children as [| c cs]; [congruence |].
  assert (Hin : bucket (coord c) ∈ buckets coord (c :: cs)).
  { apply elem_of_buckets. exists c. split; [apply list_elem_of_here | reflexivity]. }
  destruct (size (buckets coord (c :: cs))) eqn:E; [| lia].
  apply size_empty_inv in E. rewrite E in Hin. inversion Hin.
Qed.

(** X10. The numbers of columns and rows that [_detect_grid_dimensions]
    returns are at most the number of children, and at least 1 when there
    are children.  The grid test holds exactly for at least 4 children
    with at least 2 columns and 2 rows; in the grid branch, taken when the
    row and the column test return false and the grid test true, the two
    templates repeat between 2 and as many tracks as there are
    children. *)
Theorem grid_dimensions_bounds (children : list NodeData) :
  let cols := fst (_detect_grid_dimensions children) in
  let rows := snd (_detect_grid_dimensions children) in
  (cols <= length children)%nat /\ (rows <= length children)%nat
  /\ (children <> [] -> (1 <= cols)%nat /\ (1 <= rows)%nat)
  /\ (_appears_to_be_grid children = true
      <-> (4 <= length children)%nat /\ (2 <= cols)%nat /\ (2 <= rows)%nat)
  /\ forall node,
       is_container node = true ->
       _children_aligned_horizontally children = Ok false ->
       _children_aligned_vertically children = Ok false ->
       _appears_to_be_grid children = true ->
       let node' := snd (_analyze_node_layout children node) in
       grid_props node' !! "grid-template-columns"%string = Some (CssRepeat cols "1fr")
       /\ grid_props node' !! "grid-template-rows"%string = Some (CssRepeat rows "auto")
       /\ (2 <= cols <= length children)%nat /\ (2 <= rows <= length children)%nat.
Proof.
  cbv zeta. unfold _detect_grid_dimensions. simpl fst. simpl snd.
  pose proof (size_buckets_le x_of children) as Hx.
  pose proof (size_buckets_le y_of children) as Hy.
  assert (Hgrid : _appears_to_be_grid children = true
                  <-> (4 <= length children)%nat
                      /\ (2 <= size (buckets x_of children))%nat
                      /\ (2 <= size (buckets y_of children))%nat).
  { unfold _appears_to_be_grid.
    destruct (length children <? 4)%nat eqn:Hlen.
    - apply Nat.ltb_lt in Hlen. split; [discriminate | lia].
    - apply Nat.ltb_ge in Hlen. rewrite andb_true_iff, !Nat.ltb_lt. lia. }
  split; [exact Hx |]. split; [exact Hy |].
  split; [intros Hne; split; now apply size_buckets_pos |].
  split; [exact Hgrid |].
  intros node Hc Hnrow Hncol Hg.
  assert (Hne : children <> []).
  { apply Hgrid in Hg. intros ->. simpl in Hg. lia. }
  destruct (analyze_classified children node Hc Hne) as (_ & _ & Hgp).
  rewrite Hgp, (classify_when_neither children node Hnrow Hncol), Hg.
  destruct (classify_grid_props children node) as (_ & _ & H3 & H4 & _).
  apply Hgrid in Hg. split; [exact H3 |]. split; [exact H4 |]. lia.
Qed.

(** ** An exception of the grid branch *)

Lemma py_max_by_unsized (start : NodeData -> Q) (extent : NodeData -> dim)
    (l : list NodeData) :
  Exists (fun c => extent c = DimAuto) l ->
  py_max_by (fun c => add_dim (start c) (extent c)) l = Raise TypeError.
Proof.
  destruct l as [| a l]; intros H; [inversion H |].
  unfold py_max_by. destruct (extent a) as [| w] eqn:Ha; [reflexivity |].
  simpl add_dim. rewrite rbind_ok.
  assert (Hl : Exists (fun c => extent c = DimAuto) l).
  { inversion H; subst; [congruence | assumption]. }
  clear H Ha. induction Hl as [c l Hc | c l _ IH].
  - simpl. rewrite Hc. reflexivity.
  - simpl. destruct (extent c) as [| w']; [reflexivity |]. simpl add_dim.
    rewrite rbind_ok.
    destruct (map_result _ l) as [kl | e] eqn:E; [discriminate |].
    simpl in IH |- *. exact IH.
Qed.

(** The loop over the adjacent keys raises [TypeError] exactly when the
    group of a key other than the last holds an extent ["auto"]. *)
Lemma bucket_gaps_outcome (coord : NodeData -> Q) (extent : NodeData -> dim)
    (children : list NodeData) (keys : list Z) :
  Forall (fun k => k ∈ buckets coord children) keys ->
  let unsized :=
    exists i k c, keys !! i = Some k /\ (S i < length keys)%nat
                  /\ In c (bucket_group coord children k) /\ extent c = DimAuto in
  match bucket_gaps coord (fun c => add_dim (coord c) (extent c)) children keys with
  | Ok _ => ~ unsized
  | Raise e => e = TypeError /\ unsized
  end.
Proof.
  induction 1 as [| k keys Hk Hkeys IH]; cbv zeta.
  { simpl. intros (i & k & c & H & _). destruct i; discriminate. }
  destruct keys as [| k' rest].
  { simpl. intros (i & k0 & c & _ & H & _). simpl in H. lia. }
  change (bucket_gaps coord (fun c => add_dim (coord c) (extent c)) children
            (k :: k' :: rest))
    with (rightmost ← py_max_by (fun c => add_dim (coord c) (extent c))
                        (bucket_group coord children k);
          leftmost ← py_min_by coord (bucket_group coord children k');
          far ← add_dim (coord rightmost) (extent rightmost);
          gaps ← bucket_gaps coord (fun c => add_dim (coord c) (extent c))
                   children (k' :: rest);
          mret (fsub (coord leftmost) far :: gaps)).
  destruct (numeric_or_auto extent (bucket_group coord children k)) as [Hnum | Hauto].
  - destruct (py_max_by_spec coord extent (bucket_group coord children k))
      as (r & Hr & Hfar & _); [now apply bucket_group_nonempty | exact Hnum |].
    apply Forall_cons in Hkeys as [Hk' Hrest].
    destruct (py_min_by_spec coord (bucket_group coord children k'))
      as (m & Hm & _); [now apply bucket_group_nonempty |].
    rewrite Hr, rbind_ok, Hm, rbind_ok, Hfar, rbind_ok.
    cbv zeta in IH.
    destruct (bucket_gaps coord _ children (k' :: rest)) as [gaps | e].
    + simpl. intros (i & k0 & c & Hi & Hlt & Hc & Hauto).
      destruct i as [| i].
      * injection Hi as <-. rewrite Forall_forall in Hnum.
        apply list_elem_of_In, Hnum in Hc as [q Hq]. congruence.
      * apply IH. exists i, k0, c. simpl in *. repeat split; auto. lia.
    + simpl. destruct IH as [-> (i & k0 & c & Hi & Hlt & Hc & Hauto)].
      split; [reflexivity |]. exists (S i), k0, c. simpl in *. repeat split; auto. lia.
  - rewrite (py_max_by_unsized coord extent _ Hauto). simpl.
    split; [reflexivity |].
    apply Exists_exists in Hauto as (c & Hc & Hauto).
    exists O, k, c. simpl. repeat split; auto; [lia | now apply list_elem_of_In].
Qed.

Lemma sorted_buckets_before_last (coord : NodeData -> Q) (extent : NodeData -> dim)
    (children : list NodeData) :
  (exists i k c, sorted_buckets coord children !! i = Some k
                 /\ (S i < length (sorted_buckets coord children))%nat
                 /\ In c (bucket_group coord children k) /\ extent c = DimAuto)
  <-> unsized_before_last_bucket coord extent children.
Proof.
  destruct (sorted_buckets_spec coord children) as (Hnd & _ & Hmem).
  assert (Hs : Sorted (fun u v => inject_Z u <= inject_Z v)
                 (sorted_buckets coord children)).
  { apply py_sorted_sorted. }
  split.
  - intros (i & k & c & Hi & Hlt & Hc & Hauto).
    apply bucket_group_spec in Hc as [Hc Hb].
    destruct (lookup_lt_is_Some_2 _ _ Hlt) as [k' Hk'].
    assert (Hin' : k' ∈ sorted_buckets coord children)
      by (eapply list_elem_of_lookup_2, Hk').
    apply Hmem in Hin' as (c' & Hc' & Hb').
    exists c, c'. split; [now apply list_elem_of_In |]. split; [exact Hc' |].
    split; [exact Hauto |]. rewrite Hb, Hb'.
    pose proof (Sorted_lookup_le inject_Z _ i (S i) k k' Hs Hi Hk') as Hle.
    rewrite <- Zle_Qle in Hle. specialize (Hle ltac:(lia)).
    assert (k <> k'); [| lia].
    intros ->. pose proof (NoDup_lookup _ _ _ _ Hnd Hi Hk'). lia.
  - intros (c & c' & Hc & Hc' & Hauto & Hlt).
    assert (Hk : bucket (coord c) ∈ sorted_buckets coord children)
      by (apply Hmem; eauto).
    assert (Hk' : bucket (coord c') ∈ sorted_buckets coord children)
      by (apply Hmem; eauto).
    apply list_elem_of_lookup in Hk as [i Hi]. apply list_elem_of_lookup in Hk' as [j Hj].
    exists i, (bucket (coord c)), c. split; [exact Hi |].
    split; [| split; [| exact Hauto]].
    + pose proof (lookup_lt_Some _ _ _ Hj) as Hjlt.
      destruct (decide (j <= i)%nat) as [Hle | Hgt]; [| lia].
      pose proof (Sorted_lookup_le inject_Z _ j i _ _ Hs Hj Hi Hle) as H.
      rewrite <- Zle_Qle in H. lia.
    + apply bucket_group_spec. split; [now apply list_elem_of_In | reflexivity].
Qed.

Lemma sorted_buckets_keys (coord : NodeData -> Q) (children : list NodeData) :
  Forall (fun k => k ∈ buckets coord children) (sorted_buckets coord children).
Proof.
  apply Forall_forall. intros k Hk.
  apply elem_of_buckets. now apply sorted_buckets_spec.
Qed.

Lemma grid_gaps_cases (children : list NodeData) (cols rows : nat) :
  match _calculate_grid_gaps children cols rows with
  | Ok _ =>
      ~ unsized_before_last_bucket x_of width_of children
      /\ ~ unsized_before_last_bucket y_of height_of children
  | Raise e =>
      e = TypeError
      /\ (unsized_before_last_bucket x_of width_of children
          \/ unsized_before_last_bucket y_of height_of children)
  end.
Proof.
  unfold _calculate_grid_gaps.
  change right_edge with (fun c => add_dim (x_of c) (width_of c)).
  change bottom_edge with (fun c => add_dim (y_of c) (height_of c)).
  pose proof (bucket_gaps_outcome x_of width_of children _ (sorted_buckets_keys _ _))
    as Hx.
  pose proof (bucket_gaps_outcome y_of height_of children _ (sorted_buckets_keys _ _))
    as Hy.
  cbv zeta in Hx, Hy.
  pose proof (sorted_buckets_before_last x_of width_of children) as Ex.
  pose proof (sorted_buckets_before_last y_of height_of children) as Ey.
  destruct (bucket_gaps x_of _ children _) as [hs | e]; [| simpl; tauto].
  rewrite rbind_ok.
  destruct (bucket_gaps y_of _ children _) as [vs | e]; [| simpl; tauto].
  rewrite rbind_ok.
  destruct (average_or_zero_mean hs) as (h & -> & _).
  destruct (average_or_zero_mean vs) as (v & -> & _).
  simpl. tauto.
Qed.

(** X20. Whatever [cols] and [rows], [_calculate_grid_gaps] returns or
    raises [TypeError]; it raises exactly when some child of width
    ["auto"] has a rounded [x] below that of another child, or some child
    of height ["auto"] has a rounded [y] below that of another child.  A
    child without size in the last column and the last row is never
    read. *)
Theorem grid_gaps_outcome (children : list NodeData) (cols rows : nat) :
  match _calculate_grid_gaps children cols rows with
  | Ok _ =>
      ~ unsized_before_last_bucket x_of width_of children
      /\ ~ unsized_before_last_bucket y_of height_of children
  | Raise e =>
      e = TypeError
      /\ (unsized_before_last_bucket x_of width_of children
          \/ unsized_before_last_bucket y_of height_of children)
  end.
Proof. apply grid_gaps_cases. Qed.

(** X21. When the row test and the column test return false on the
    children of a container and the grid test returns true, and one of the
    children has a width ["auto"] outside the last column or a height
    ["auto"] outside the last row, the analysis of the container raises
    [TypeError] after the two assignments of the grid branch: the node has
    type [grid] and exactly the three grid properties [display],
    [grid-template-columns] and [grid-template-rows], without gap; its
    direction, spacing, flex properties and position are as before, and
    [analyze_layout] leaves its children as they are. *)
Theorem grid_with_unsized_child (node : NodeData) (cs : list AngularNode) :
  let children := map data_of cs in
  is_container node = true ->
  _children_aligned_horizontally children = Ok false ->
  _children_aligned_vertically children = Ok false ->
  _appears_to_be_grid children = true ->
  unsized_before_last_bucket x_of width_of children
  \/ unsized_before_last_bucket y_of height_of children ->
  let node' := snd (_analyze_node_layout children node) in
  fst (_analyze_node_layout children node) = Raise TypeError
  /\ analyze_layout_node (Node node cs) = Node node' cs
  /\ layout_type_of (layout node') = LGrid
  /\ grid_props node'
     = grid_literal (size (buckets x_of children)) (size (buckets y_of children))
  /\ grid_props node' !! "column-gap"%string = None
  /\ grid_props node' !! "row-gap"%string = None
  /\ layout_direction (layout node') = layout_direction (layout node)
  /\ layout_spacing (layout node') = layout_spacing (layout node)
  /\ flex_props node' = flex_props node
  /\ position node' = position node.
Proof.
  intros children Hc Hrow Hcol Hgrid Hun.
  assert (Hne : children <> []).
  { intros E. apply appears_to_be_grid_spec in Hgrid. destruct Hgrid as [Hlen _].
    rewrite E in Hlen. simpl in Hlen. lia. }
  assert (Hgaps : _calculate_grid_gaps children
                    (fst (_detect_grid_dimensions children))
                    (snd (_detect_grid_dimensions children)) = Raise TypeError).
  { pose proof (grid_gaps_cases children (fst (_detect_grid_dimensions children))
                  (snd (_detect_grid_dimensions children))) as Hout.
    destruct (_calculate_grid_gaps children _ _) as [g | e].
    - tauto.
    - destruct Hout as [-> _]. reflexivity. }
  assert (Hrun : _analyze_node_layout children node
                 = (Raise TypeError, grid_assigned children node)).
  { rewrite (analyze_run children node Hc Hne).
    rewrite (classify_when_neither children node Hrow Hcol), Hgrid.
    rewrite classify_grid_run, Hgaps. reflexivity. }
  intros node'. unfold node'. simpl analyze_layout_node. fold children.
  rewrite Hrun. simpl.
  split; [reflexivity |]. split; [reflexivity |].
  split; [reflexivity |]. split; [reflexivity |].
  unfold grid_literal. repeat split; by simplify_map_eq.
Qed.

Lemma grid_with_unsized_child_witness :
  let cs := map (fun d => Node d []) unsized_grid_children in
  fst (_analyze_node_layout (map data_of cs) sample_container) = Raise TypeError
  /\ analyze_layout_node (Node sample_container cs)
     = Node (snd (_analyze_node_layout (map data_of cs) sample_container)) cs.
Proof.
  intros cs.
  assert (Hrow : _children_aligned_horizontally (map data_of cs) = Ok false)
    by (vm_compute; reflexivity).
  assert (Hcol : _children_aligned_vertically (map data_of cs) = Ok false)
    by (vm_compute; reflexivity).
  assert (Hgrid : _appears_to_be_grid (map data_of cs) = true)
    by (vm_compute; reflexivity).
  destruct (grid_with_unsized_child sample_container cs eq_refl Hrow Hcol Hgrid)
    as (Hraise & Htree & _).
  - left. exists (sample_node "a" false 0 0 DimAuto DimAuto),
                 (sample_node "b" false 100 0 (DimNum 50) (DimNum 50)).
    split; [simpl; apply list_elem_of_here |].
    split; [simpl; apply list_elem_of_further, list_elem_of_here |].
    split; [reflexivity |]. vm_compute. reflexivity.
  - split; [exact Hraise | exact Htree].
Defined.

(* ===================================================================== *)
(** * The image of name sanitization                                      *)
(* ===================================================================== *)

Local Close Scope Q_scope.

(** X11. The sanitized names are exactly the non-empty strings of
    [[a-z0-9_-]] that start with a letter: [_clean_name] returns only
    such strings, and returns each of them for some name (itself). *)
Theorem clean_name_image (s : pystr) :
  (exists name, _clean_name name = s)
  <-> exists c t, s = c :: t /\ is_lower c = true
                  /\ Forall (fun c => is_name_char c = true) (c :: t).
Proof.
  split.
  - intros (name & <-). apply clean_name_shape.
  - intros (c & t & -> & Hc & Hall). exists (c :: t). now apply clean_name_fixed.
Qed.

(* ===================================================================== *)
(** * More on the tree builder                                            *)
(* ===================================================================== *)

(** ** The links that the second loop makes *)

Lemma add_child_lookup_exact (parent child : nat) (s : BState) (b : nat) :
  heap (snd (add_child parent child s)) !! b
  = (fun o => mkObj (obj_data o)
                (if decide (child = b) then Some parent else obj_parent o)
                (obj_children o ++ if decide (parent = b) then [child] else []))
    <$> heap s !! b.
Proof.
  unfold add_child, modify. simpl.
  rewrite list_lookup_alter.
  destruct (decide (child = b)) as [-> | Hcb].
  - rewrite list_lookup_alter.
    destruct (decide (parent = b)) as [-> | Hpb];
      destruct (heap s !! b) as [o |]; simpl; try reflexivity.
    now rewrite app_nil_r; destruct o.
  - rewrite list_lookup_alter.
    destruct (decide (parent = b)) as [-> | Hpb];
      destruct (heap s !! b) as [o |]; simpl; try reflexivity.
    now rewrite app_nil_r; destruct o.
Qed.

Lemma second_pass_state_link (s : BState) (r : FigmaNode) (b : nat) :
  node_map (second_pass_state s r) = node_map s
  /\ heap (second_pass_state s r) !! b
     = match link (node_map s) r with
       | Some (parent, child) =>
           (fun o => mkObj (obj_data o)
                       (if decide (child = b) then Some parent else obj_parent o)
                       (obj_children o ++ if decide (parent = b) then [child] else []))
           <$> heap s !! b
       | None => heap s !! b
       end.
Proof.
  destruct (second_pass_frame [r] s) as (Hm & _ & _). simpl in Hm.
  split; [exact Hm |]. unfold link.
  destruct (second_pass_state_cases s r)
    as [(p & parent & i & child & Hp & Hparent & Hi & Hchild & E)
       | [[[Hp | [(p & Hp & Hn) | (i & Hi & Hn)]] E] | [Hi E]]];
    rewrite E.
  - rewrite Hp. simpl. rewrite Hparent. simpl. rewrite Hi. simpl. rewrite Hchild.
    simpl. apply add_child_lookup_exact.
  - now rewrite Hp.
  - rewrite Hp. simpl. now rewrite Hn.
  - destruct (fn_parent_id r) as [p |]; simpl; [| reflexivity].
    destruct (dict_get p (node_map s)); simpl; [| reflexivity].
    rewrite Hi. simpl. now rewrite Hn.
  - destruct (fn_parent_id r) as [p |]; simpl; [| reflexivity].
    destruct (dict_get p (node_map s)); simpl; [| reflexivity].
    now rewrite Hi.
Qed.

Lemma children_from_cons (l : nat * nat) (ls : list (nat * nat)) (b : nat) :
  children_from (l :: ls) b
  = (if decide (fst l = b) then [snd l] else []) ++ children_from ls b.
Proof.
  unfold children_from. simpl.
  destruct (decide (fst l = b)) as [-> | Hne].
  - now rewrite Nat.eqb_refl.
  - apply Nat.eqb_neq in Hne. now rewrite Hne.
Qed.

Lemma parent_from_cons (l : nat * nat) (ls : list (nat * nat)) (c : nat) :
  parent_from (l :: ls) c
  = match parent_from ls c with
    | Some p => Some p
    | None => if decide (snd l = c) then Some (fst l) else None
    end.
Proof.
  unfold parent_from. simpl.
  destruct (decide (snd l = c)) as [-> | Hne].
  - rewrite Nat.eqb_refl. simpl. rewrite last_cons. now destruct (last _).
  - apply Nat.eqb_neq in Hne. rewrite Hne. now destruct (last _).
Qed.

(** The objects after the second loop: the children appended and the
    parent assigned by the calls of the loop, in the order of the records. *)
Lemma second_pass_objects (valid : list FigmaNode) (s : BState) (b : nat) :
  heap (fold_left second_pass_state valid s) !! b
  = (fun o => mkObj (obj_data o)
                (match parent_from (links (node_map s) valid) b with
                 | Some p => Some p
                 | None => obj_parent o
                 end)
                (obj_children o ++ children_from (links (node_map s) valid) b))
    <$> heap s !! b.
Proof.
  revert s. induction valid as [| r valid IH]; intros s; simpl.
  { destruct (heap s !! b) as [o |]; simpl; [| reflexivity].
    rewrite app_nil_r. now destruct o. }
  rewrite IH. destruct (second_pass_state_link s r b) as [Hm Hh]. rewrite Hm, Hh.
  unfold links. simpl. fold (links (node_map s) valid).
  destruct (link (node_map s) r) as [[parent child] |]; [| reflexivity].
  rewrite children_from_cons, parent_from_cons.
  destruct (heap s !! b) as [o |]; simpl; [| reflexivity].
  f_equal. f_equal.
  - destruct (parent_from (links (node_map s) valid) b); [reflexivity |].
    destruct (decide (child = b)); reflexivity.
  - now rewrite <- app_assoc.
Qed.

(** ** The final state of [convert_to_angular_nodes] *)

Lemma convert_state (figma_nodes : list raw) :
  exists roots s,
    convert_to_angular_nodes figma_nodes initial = (Ok roots, s)
    /\ heap s = heap (after_passes figma_nodes initial)
    /\ node_map s = node_map (after_passes figma_nodes initial)
    /\ (root_nodes (after_passes figma_nodes initial) <> [] ->
        roots = root_nodes (after_passes figma_nodes initial)
        /\ log s = log (after_passes figma_nodes initial)).
Proof.
  destruct figma_nodes as [| r0 l].
  { eexists _, _. split; [reflexivity |]. split; [reflexivity |].
    split; [reflexivity |]. intros H. now contradiction H. }
  destruct (finish_spec (r0 :: l)) as (roots & s & Hfin & Hheap & Hmap & _ & Hcases).
  exists roots, s. split; [now rewrite convert_phases |].
  split; [exact Hheap |]. split; [exact Hmap |].
  intros Hne.
  destruct Hcases as [(_ & -> & ->) | [(H & _) | (H & _)]]; [auto | |]; contradiction.
Qed.

Lemma passes_objects (figma_nodes : list raw) (a : nat) (o : Obj) :
  let s3 := after_passes figma_nodes initial in
  heap s3 !! a = Some o ->
  obj_children o = children_from (links (node_map s3) (valid_of figma_nodes)) a
  /\ obj_parent o = parent_from (links (node_map s3) (valid_of figma_nodes)) a
  /\ converted (valid_of figma_nodes) !! a = Some (obj_data o).
Proof.
  intros s3 Ho.
  assert (Hdata : converted (valid_of figma_nodes) !! a = Some (obj_data o)).
  { rewrite <- passes_data. fold s3.
    change (map obj_data (heap s3)) with (obj_data <$> heap s3).
    now rewrite list_lookup_fmap, Ho. }
  unfold s3, after_passes in Ho. rewrite second_pass_objects in Ho.
  assert (Hm : node_map s3 = node_map (after_first_pass figma_nodes initial)).
  { unfold s3, after_passes.
    now destruct (second_pass_frame (valid_of figma_nodes)
                    (after_first_pass figma_nodes initial)) as (-> & _ & _). }
  rewrite Hm.
  unfold after_first_pass in Ho at 3. rewrite first_pass_heap in Ho. simpl in Ho.
  change (map ?f ?l) with (f <$> l) in Ho. rewrite list_lookup_fmap in Ho.
  destruct (converted (valid_of figma_nodes) !! a) as [d |]; [| discriminate].
  simpl in Ho. injection Ho as <-. simpl.
  split; [reflexivity |]. split; [| exact Hdata].
  now destruct (parent_from _ a).
Qed.

Lemma elem_of_children_from (ls : list (nat * nat)) (b c : nat) :
  c ∈ children_from ls b <-> (b, c) ∈ ls.
Proof.
  unfold children_from. rewrite list_elem_of_In, in_map_iff. split.
  - intros ([b' c'] & <- & H). apply filter_In in H as [H E]. simpl in E.
    apply Nat.eqb_eq in E. subst b'. now apply list_elem_of_In.
  - intros H. exists (b, c). split; [reflexivity |]. apply filter_In.
    split; [now apply list_elem_of_In | apply Nat.eqb_refl].
Qed.

Lemma parent_from_Some (ls : list (nat * nat)) (c p : nat) :
  parent_from ls c = Some p -> (p, c) ∈ ls.
Proof.
  unfold parent_from. intros H. apply last_Some_elem_of in H.
  apply list_elem_of_In, in_map_iff in H as ([p' c'] & <- & H).
  apply filter_In in H as [H E]. simpl in E. apply Nat.eqb_eq in E. subst c'.
  now apply list_elem_of_In.
Qed.

Lemma parent_from_None (ls : list (nat * nat)) (c : nat) :
  parent_from ls c = None -> forall p, (p, c) ∉ ls.
Proof.
  unfold parent_from. intros H p Hin. apply last_None in H.
  apply list_elem_of_In in Hin.
  assert (Hf : In (p, c) (List.filter (fun l => (snd l =? c)%nat) ls)).
  { apply filter_In. split; [exact Hin | apply Nat.eqb_refl]. }
  apply (in_map fst) in Hf. rewrite H in Hf. inversion Hf.
Qed.

Lemma elem_of_links (nm : list (string * nat)) (valid : list FigmaNode) (b c : nat) :
  (b, c) ∈ links nm valid
  <-> exists r p i, r ∈ valid /\ fn_parent_id r = Some p /\ dict_get p nm = Some b
        /\ fn_id r = Some i /\ dict_get i nm = Some c.
Proof.
  unfold links. rewrite list_elem_of_omap. unfold link. split.
  - intros (r & Hr & H). destruct (fn_parent_id r) as [p |] eqn:Hp; [| discriminate].
    simpl in H. destruct (dict_get p nm) as [b' |] eqn:Hb; [| discriminate].
    simpl in H. destruct (fn_id r) as [i |] eqn:Hi; [| discriminate].
    simpl in H. destruct (dict_get i nm) as [c' |] eqn:Hc; [| discriminate].
    simpl in H. injection H as <- <-. exists r, p, i. auto.
  - intros (r & p & i & Hr & Hp & Hb & Hi & Hc). exists r. split; [exact Hr |].
    rewrite Hp. simpl. rewrite Hb. simpl. rewrite Hi. simpl. now rewrite Hc.
Qed.

Lemma passes_child_of (figma_nodes : list raw) (b c : nat) :
  let s3 := after_passes figma_nodes initial in
  child_of (heap s3) b c <-> (b, c) ∈ links (node_map s3) (valid_of figma_nodes).
Proof.
  intros s3. split.
  - intros (o & Ho & Hc).
    destruct (passes_objects figma_nodes b o Ho) as (H1 & _).
    rewrite H1 in Hc. now apply elem_of_children_from.
  - intros Hin.
    assert (Hb : exists o, heap s3 !! b = Some o).
    { apply elem_of_links in Hin as (r & p & i & _ & _ & Hb & _).
      destruct (passes_map_object figma_nodes p b Hb) as (o & Ho & _). eauto. }
    destruct Hb as (o & Ho). exists o. split; [exact Ho |].
    destruct (passes_objects figma_nodes b o Ho) as (H1 & _).
    rewrite H1. now apply elem_of_children_from.
Qed.

(** X12. After the conversion, the children of every object are the
    nodes attached by the records, one entry per record whose [parent_id]
    and whose identifier are both keys of [node_map], in the order of the
    records, a record listed twice giving two entries; the parent of an
    object is the one that the last such record gave it.  An object is in
    the children of another exactly when some record attaches it there. *)
Theorem convert_links (figma_nodes : list raw) :
  exists roots s,
    convert_to_angular_nodes figma_nodes initial = (Ok roots, s)
    /\ let calls := links (node_map s) (valid_of figma_nodes) in
       (forall a o, heap s !! a = Some o ->
          obj_children o = children_from calls a
          /\ obj_parent o = parent_from calls a)
       /\ (forall b c, child_of (heap s) b c <-> (b, c) ∈ calls)
       /\ (forall b c, (b, c) ∈ calls <->
             exists r p i, r ∈ valid_of figma_nodes
               /\ fn_parent_id r = Some p /\ dict_get p (node_map s) = Some b
               /\ fn_id r = Some i /\ dict_get i (node_map s) = Some c).
Proof.
  destruct (convert_state figma_nodes) as (roots & s & E & Hheap & Hmap & _).
  exists roots, s. split; [exact E |]. rewrite Hheap, Hmap. cbv zeta.
  split; [| split].
  - intros a o Ho. destruct (passes_objects figma_nodes a o Ho) as (H1 & H2 & _). auto.
  - apply passes_child_of.
  - intros b c. apply elem_of_links.
Qed.

Lemma convert_links_witness :
  exists s,
    snd (convert_to_angular_nodes repeated_input initial) = s
    /\ (obj_children <$> heap s !! 0) = Some [2; 2]
    /\ (obj_children <$> heap s !! 1) = Some []
    /\ (obj_parent <$> heap s !! 1) = Some None
    /\ (obj_parent <$> heap s !! 2) = Some (Some 0).
Proof.
  destruct (convert_links repeated_input) as (roots & s & E & Hobj & _).
  exists s. split; [now rewrite E |].
  assert (Hs : s = snd (convert_to_angular_nodes repeated_input initial)) by now rewrite E.
  assert (H0 : is_Some (heap s !! 0)) by (rewrite Hs; vm_compute; eauto).
  assert (H1 : is_Some (heap s !! 1)) by (rewrite Hs; vm_compute; eauto).
  assert (H2 : is_Some (heap s !! 2)) by (rewrite Hs; vm_compute; eauto).
  destruct H0 as [o0 H0], H1 as [o1 H1], H2 as [o2 H2].
  destruct (Hobj 0 o0 H0) as [Hc0 _]. destruct (Hobj 1 o1 H1) as [Hc1 Hp1].
  destruct (Hobj 2 o2 H2) as [_ Hp2].
  rewrite H0, H1, H2. simpl. rewrite Hc0, Hc1, Hp1, Hp2, Hs.
  repeat split; vm_compute; reflexivity.
Defined.

(** ** The roots *)

Lemma first_pass_roots_exact (valid : list FigmaNode) (s : BState) :
  root_nodes (fold_left first_pass_state valid s)
  = root_nodes s ++ map (fun i => length (heap s) + i) (root_indices valid).
Proof.
  revert s. induction valid as [| r valid IH]; intros s; simpl.
  { now rewrite app_nil_r. }
  rewrite IH, first_pass_state_roots, first_pass_state_heap.
  pose proof (root_candidate_built r) as Hb.
  destruct (built r) as [d |] eqn:Hd.
  - rewrite map_app, map_map, <- app_assoc. f_equal. f_equal.
    + destruct (root_candidate r); simpl; [f_equal; lia | reflexivity].
    + apply map_ext. intros i. lia.
  - destruct (root_candidate r); [destruct (Hb eq_refl); discriminate |].
    rewrite app_nil_r. f_equal. apply map_ext. intros i. lia.
Qed.

Lemma root_indices_spec (valid : list FigmaNode) :
  Forall2 (fun i d => converted valid !! i = Some d)
          (root_indices valid) (omap root_data valid)
  /\ StronglySorted lt (root_indices valid).
Proof.
  induction valid as [| r valid [IH1 IH2]]; [split; constructor |].
  assert (Hshift : forall d0,
            Forall2 (fun i d => (d0 :: converted valid) !! i = Some d)
              (map S (root_indices valid)) (omap root_data valid)).
  { intros d0. apply Forall2_fmap_l. eapply Forall2_impl; [exact IH1 |]. auto. }
  assert (Hsorted : StronglySorted lt (map S (root_indices valid))).
  { clear -IH2. induction IH2 as [| i l _ IH Hall]; simpl; constructor; [exact IH |].
    apply Forall_forall. intros j Hj.
    apply list_elem_of_In, in_map_iff in Hj as (k & <- & Hk).
    rewrite Forall_forall in Hall. apply list_elem_of_In, Hall in Hk. lia. }
  assert (Hconv : converted (r :: valid)
                  = match built r with
                    | Some d => d :: converted valid
                    | None => converted valid
                    end).
  { unfold converted. simpl. now destruct (built r). }
  assert (Hdata : omap root_data (r :: valid)
                  = match root_data r with
                    | Some d => d :: omap root_data valid
                    | None => omap root_data valid
                    end).
  { simpl. now destruct (root_data r). }
  rewrite Hconv, Hdata. simpl root_indices.
  unfold root_data at 1 2, root_candidate.
  destruct (built r) as [d |] eqn:Hd.
  - destruct (fn_parent_id r); simpl.
    + split; [apply Hshift | exact Hsorted].
    + split; [constructor; [reflexivity | apply Hshift] |].
      constructor; [exact Hsorted |].
      apply Forall_forall. intros j Hj.
      apply list_elem_of_In, in_map_iff in Hj as (k & <- & _). lia.
  - destruct (fn_parent_id r); now split.
Qed.

Lemma passes_roots_exact (figma_nodes : list raw) :
  root_nodes (after_passes figma_nodes initial) = root_indices (valid_of figma_nodes).
Proof.
  unfold after_passes.
  destruct (second_pass_frame (valid_of figma_nodes)
              (after_first_pass figma_nodes initial)) as (_ & -> & _).
  unfold after_first_pass. rewrite first_pass_roots_exact. simpl.
  rewrite <- (map_id (root_indices _)) at 2. apply map_ext. auto.
Qed.

(** X13. When some record without [parent_id] is converted, the roots
    returned are the objects built for the records without [parent_id],
    in the order of the records, each once; no fallback warning is
    printed. *)
Theorem convert_roots_in_order (figma_nodes : list raw) :
  omap root_data (valid_of figma_nodes) <> [] ->
  exists roots s,
    convert_to_angular_nodes figma_nodes initial = (Ok roots, s)
    /\ Forall2 (fun a d => exists o, heap s !! a = Some o /\ obj_data o = d)
         roots (omap root_data (valid_of figma_nodes))
    /\ StronglySorted lt roots
    /\ forall k, WarnFallbackRoot k ∉ log s.
Proof.
  intros Hsome.
  destruct (convert_state figma_nodes) as (roots & s & E & Hheap & _ & Hroots).
  destruct (root_indices_spec (valid_of figma_nodes)) as [Hdata Hsorted].
  pose proof (passes_roots_exact figma_nodes) as Hr3.
  destruct Hroots as [-> Hlog].
  { rewrite Hr3. intros Hnil. rewrite Hnil in Hdata.
    apply Forall2_nil_inv_l in Hdata. contradiction. }
  exists (root_nodes (after_passes figma_nodes initial)), s.
  split; [exact E |]. rewrite Hr3. split; [| split; [exact Hsorted |]].
  - eapply Forall2_impl; [exact Hdata |]. intros a d Ha. rewrite Hheap.
    rewrite <- passes_data in Ha.
    change (map obj_data ?l) with (obj_data <$> l) in Ha.
    rewrite list_lookup_fmap in Ha.
    destruct (heap (after_passes figma_nodes initial) !! a) as [o |]; [| discriminate].
    injection Ha as <-. eauto.
  - intros k Hk. rewrite Hlog, passes_log in Hk.
    apply elem_of_app in Hk as [Hk | Hk].
    + apply elem_of_replicate in Hk as [Hk _]. discriminate.
    + apply list_elem_of_omap in Hk as (r & _ & Hr). unfold conversion_error in Hr.
      destruct (AngularNode_init r); discriminate.
Qed.

Lemma convert_roots_in_order_witness :
  exists s, convert_to_angular_nodes twin_input initial = (Ok [0], s).
Proof.
  destruct (convert_roots_in_order twin_input) as (roots & s & E & Hdata & _).
  - vm_compute. discriminate.
  - assert (H : fst (convert_to_angular_nodes twin_input initial) = Ok [0])
      by (vm_compute; reflexivity).
    rewrite E in H. simpl in H. injection H as ->. exists s. exact E.
Defined.

(** ** [node_map] *)

Lemma last_index_complete (k : string) (ds : list NodeData) (a : nat) (d : NodeData) :
  ds !! a = Some d -> node_id d = k ->
  (forall a' d', ds !! a' = Some d' -> node_id d' = k -> a' <= a) ->
  last_index k ds = Some a.
Proof.
  intros Hd Hk Hmax.
  destruct (last_index k ds) as [j |] eqn:E.
  - apply last_index_Some in E as (dj & Hj & Hkj & Hmaxj).
    f_equal. specialize (Hmax j dj Hj Hkj). specialize (Hmaxj a d Hd Hk). lia.
  - exfalso. apply (proj1 (last_index_None k ds) E d); [| exact Hk].
    eapply list_elem_of_lookup_2, Hd.
Qed.

(** X14. [node_map] registers, under an identifier, the last object built
    with this identifier: a later record of the same identifier replaces
    an earlier one. *)
Theorem convert_node_map (figma_nodes : list raw) :
  exists roots s,
    convert_to_angular_nodes figma_nodes initial = (Ok roots, s)
    /\ forall k a,
         dict_get k (node_map s) = Some a
         <-> exists o,
               heap s !! a = Some o /\ node_id (obj_data o) = k
               /\ forall a' o', heap s !! a' = Some o' ->
                    node_id (obj_data o') = k -> a' <= a.
Proof.
  destruct (convert_state figma_nodes) as (roots & s & E & Hheap & Hmap & _).
  exists roots, s. split; [exact E |]. rewrite Hheap, Hmap.
  intros k a. rewrite passes_map.
  assert (Hlook : forall b,
            converted (valid_of figma_nodes) !! b
            = obj_data <$> heap (after_passes figma_nodes initial) !! b).
  { intros b. rewrite <- passes_data.
    change (map obj_data ?l) with (obj_data <$> l). apply list_lookup_fmap. }
  split.
  - intros H. apply last_index_Some in H as (d & Hd & Hk & Hmax).
    rewrite Hlook in Hd.
    destruct (heap (after_passes figma_nodes initial) !! a) as [o |] eqn:Ho;
      [| discriminate].
    injection Hd as <-. exists o. split; [reflexivity |]. split; [exact Hk |].
    intros a' o' Ho' Hk'. apply (Hmax a' (obj_data o')); [| exact Hk'].
    now rewrite Hlook, Ho'.
  - intros (o & Ho & Hk & Hmax).
    apply (last_index_complete k _ a (obj_data o)); [now rewrite Hlook, Ho | exact Hk |].
    intros a' d' Hd' Hk'. rewrite Hlook in Hd'.
    destruct (heap (after_passes figma_nodes initial) !! a') as [o' |] eqn:Ho';
      [| discriminate].
    injection Hd' as <-. now apply (Hmax a' o').
Qed.

(** ** [to_dict] *)

Lemma built_warnings (r : FigmaNode) (d : NodeData) :
  built r = Some d -> warnings d = [] /\ flex_props d = ∅ /\ grid_props d = ∅.
Proof.
  unfold built, AngularNode_init, mbind, result_bind.
  destruct (fn_rest r); [| discriminate]. intros [= <-]. auto.
Qed.

(** X15. For every object built by the conversion, [to_dict] reports
    [has_parent] exactly when the object is a child of some object, and
    the parent of the object then lists it among its children;
    [children_count] is the number of records that attach a child to it;
    the key ["warnings"] is absent. *)
Theorem to_dict_after_convert (figma_nodes : list raw) :
  exists roots s,
    convert_to_angular_nodes figma_nodes initial = (Ok roots, s)
    /\ forall a o, heap s !! a = Some o ->
         (dd_has_parent (to_dict o) = true <-> exists b, child_of (heap s) b a)
         /\ (forall p, obj_parent o = Some p -> child_of (heap s) p a)
         /\ dd_children_count (to_dict o)
            = length (List.filter (fun l => fst l =? a)
                        (links (node_map s) (valid_of figma_nodes)))
         /\ dd_warnings (to_dict o) = None.
Proof.
  destruct (convert_state figma_nodes) as (roots & s & E & Hheap & Hmap & _).
  exists roots, s. split; [exact E |]. rewrite Hheap, Hmap. intros a o Ho.
  destruct (passes_objects figma_nodes a o Ho) as (Hc & Hp & Hd).
  pose proof (passes_child_of figma_nodes) as Hchild. cbv zeta in Hchild.
  assert (Hparent : forall p, obj_parent o = Some p ->
            child_of (heap (after_passes figma_nodes initial)) p a).
  { intros p Hpar. rewrite Hp in Hpar. apply Hchild. now apply parent_from_Some. }
  split; [| split; [exact Hparent | split]].
  - unfold to_dict. simpl. destruct (obj_parent o) as [p |] eqn:Hpar.
    + split; [intros _; exists p; now apply Hparent | reflexivity].
    + split; [discriminate |]. intros (b & Hb). exfalso.
      symmetry in Hp. apply Hchild in Hb.
      exact (parent_from_None _ _ Hp b Hb).
  - unfold to_dict. simpl. rewrite Hc. unfold children_from. apply length_map.
  - unfold to_dict. simpl.
    apply list_elem_of_lookup_2, converted_elem in Hd as (r & _ & Hb).
    destruct (built_warnings r _ Hb) as [-> _]. reflexivity.
Qed.

(** X16. A record that converts and whose [parent_id] is its own
    identifier makes the node registered under that identifier a child,
    and a descendant, of itself: the conversion does not check for
    cycles. *)
Theorem convert_self_parent (figma_nodes : list raw) (r : FigmaNode) (i : string) :
  Dict r ∈ figma_nodes ->
  fn_id r = Some i -> fn_parent_id r = Some i -> is_Some (built r) ->
  exists roots s a,
    convert_to_angular_nodes figma_nodes initial = (Ok roots, s)
    /\ dict_get i (node_map s) = Some a
    /\ child_of (heap s) a a
    /\ descendant (heap s) a a.
Proof.
  intros Hin Hi Hp [d Hd].
  destruct (convert_state figma_nodes) as (roots & s & E & Hheap & Hmap & _).
  assert (Hvalid : r ∈ valid_of figma_nodes).
  { apply valid_of_elem. split; [exact Hin | rewrite Hi; eauto]. }
  destruct (last_index i (converted (valid_of figma_nodes))) as [a |] eqn:Hlast.
  2:{ exfalso. apply (proj1 (last_index_None _ _) Hlast d).
      - apply converted_elem. eauto.
      - rewrite (built_id r d Hd), Hi. reflexivity. }
  rewrite <- passes_map in Hlast.
  exists roots, s, a. split; [exact E |]. rewrite Hheap, Hmap.
  split; [exact Hlast |].
  assert (Hchild : child_of (heap (after_passes figma_nodes initial)) a a).
  { apply passes_child_of, elem_of_links. exists r, i, i. auto. }
  split; [exact Hchild | now apply tc_once].
Qed.

Lemma convert_self_parent_witness :
  exists s, snd (convert_to_angular_nodes self_parent_input initial) = s
            /\ child_of (heap s) 0 0.
Proof.
  destruct (convert_self_parent self_parent_input
              (plain_record "a" "FRAME" (Some "a"%string)) "a")
    as (roots & s & a & E & Ha & Hchild & _).
  - apply list_elem_of_here.
  - reflexivity.
  - reflexivity.
  - eexists. reflexivity.
  - exists s. split; [now rewrite E |].
    assert (Hs : s = snd (convert_to_angular_nodes self_parent_input initial))
      by now rewrite E.
    rewrite Hs in Ha. vm_compute in Ha. injection Ha as <-. exact Hchild.
Defined.

(* ===================================================================== *)
(** * Extraction and flattening of the document                           *)
(* ===================================================================== *)

(** ** Induction on document trees *)

Lemma FigmaTree_induction (P : FigmaTree -> Prop) :
  (forall fields children,
     Forall P (default [] children) -> P (Tree fields children)) ->
  forall t, P t.
Proof.
  intros H. fix IH 1. intros [fields [cs |]]; apply H; simpl; [| constructor].
  induction cs as [| c cs IHcs]; constructor; [apply IH | exact IHcs].
Qed.

Lemma flat_map_size {A B} (f : A -> list B) (l : list A) :
  length (flat_map f l) = list_sum (map (fun a => length (f a)) l).
Proof.
  induction l as [| a l IH]; simpl; [reflexivity |].
  now rewrite length_app, IH.
Qed.

Lemma process_node_length (parent : option ParentRef) (t : FigmaTree) :
  length (process_node parent t) = figma_tree_size t.
Proof.
  revert parent. induction t as [fields children IH] using FigmaTree_induction.
  intros parent. simpl. rewrite length_app. simpl.
  destruct children as [cs |]; simpl in *; [| reflexivity].
  rewrite flat_map_size, Nat.add_1_r. f_equal. f_equal.
  apply map_ext_in. intros c Hc. rewrite Forall_forall in IH.
  apply IH, list_elem_of_In, Hc.
Qed.

Lemma process_node_last (parent : option ParentRef) (t : FigmaTree) :
  last (process_node parent t)
  = Some (mkFlatNode (without_children (tree_fields t)) parent).
Proof. destruct t as [fields children]. simpl. apply last_snoc. Qed.


Lemma process_node_unfold (parent : option ParentRef) (t : FigmaTree) :
  process_node parent t
  = flat_map (process_node (Some (parent_ref (tree_fields t)))) (tree_children t)
    ++ [flat_node parent t].
Proof. destruct t as [fields [cs |]]; reflexivity. Qed.

Lemma figma_tree_nodes_unfold (t : FigmaTree) :
  figma_tree_nodes t = t :: flat_map figma_tree_nodes (tree_children t).
Proof. destruct t as [fields [cs |]]; reflexivity. Qed.

Lemma process_node_popped (parent : option ParentRef) (t : FigmaTree) :
  Forall (fun n => fn_has_children (flat_fields n) = false) (process_node parent t).
Proof.
  revert parent. induction t as [fields children IH] using FigmaTree_induction.
  intros parent. rewrite process_node_unfold. apply Forall_app. split.
  - simpl tree_children. apply Forall_flat_map.
    eapply Forall_impl; [exact IH |]. intros c Hc. apply Hc.
  - repeat constructor.
Qed.

(** ** Children come before their parent *)

Lemma refers_later_app_l (l l' : list FlatNode) (i : nat) (n : FlatNode) :
  refers_later l i n -> refers_later (l ++ l') i n.
Proof.
  intros (ref & j & m & H1 & H2 & H3 & H4). exists ref, j, m.
  split; [exact H1 |]. split; [exact H2 |]. split; [| exact H4].
  now apply lookup_app_l_Some.
Qed.

Lemma refers_later_app_r (l l' : list FlatNode) (i : nat) (n : FlatNode) :
  refers_later l' i n -> refers_later (l ++ l') (length l + i) n.
Proof.
  intros (ref & j & m & H1 & H2 & H3 & H4). exists ref, (length l + j), m.
  split; [exact H1 |]. split; [lia |]. split; [| exact H4].
  rewrite lookup_app_r by lia. now replace (length l + j - length l) with j by lia.
Qed.

Lemma front_ok_app (ref : ParentRef) (l l' : list FlatNode) :
  front_ok ref l -> front_ok ref l' -> front_ok ref (l ++ l').
Proof.
  intros H H' i n Hi. apply lookup_app_Some in Hi as [Hi | [Hge Hi]].
  - destruct (H i n Hi) as [Hp | Hl]; [now left | right].
    now apply refers_later_app_l.
  - destruct (H' _ n Hi) as [Hp | Hl]; [now left | right].
    replace i with (length l + (i - length l)) by lia.
    now apply refers_later_app_r.
Qed.

(** In the list of a processed node the last element is the node, with
    the reference given; every other element refers to an element further
    in the list. *)
Lemma process_node_order (parent : option ParentRef) (t : FigmaTree) :
  forall i n, process_node parent t !! i = Some n ->
    (S i = length (process_node parent t) /\ n = flat_node parent t)
    \/ refers_later (process_node parent t) i n.
Proof.
  revert parent. induction t as [fields children IH] using FigmaTree_induction.
  intros parent. rewrite process_node_unfold. simpl tree_children. simpl tree_fields.
  set (ref := parent_ref fields).
  assert (Hfront : front_ok ref (flat_map (process_node (Some ref)) (default [] children))).
  { induction IH as [| c cs Hc _ IHcs]; simpl; [intros i n Hi; destruct i; discriminate |].
    apply front_ok_app; [| exact IHcs].
    intros i n Hi. destruct (Hc (Some ref) i n Hi) as [[_ ->] | Hl]; [now left | now right]. }
  intros i n Hi. rewrite length_app. simpl.
  apply lookup_app_Some in Hi as [Hi | [Hge Hi]].
  - right. destruct (Hfront i n Hi) as [Hp | Hl]; [| now apply refers_later_app_l].
    exists ref, (length (flat_map (process_node (Some ref)) (default [] children))),
      (flat_node parent (Tree fields children)).
    split; [exact Hp |]. split; [apply (lookup_lt_Some _ _ _ Hi) |].
    split; [| reflexivity].
    rewrite lookup_app_r by lia. now rewrite Nat.sub_diag.
  - left. destruct (i - length _)%nat eqn:Hd; [| destruct n0; discriminate].
    injection Hi as <-. split; [lia | reflexivity].
Qed.

Lemma filter_over_flat_map {A B} (P : B -> bool) (g : A -> list B) (l : list A) :
  List.filter P (flat_map g l) = flat_map (fun a => List.filter P (g a)) l.
Proof.
  induction l as [| a l IH]; simpl; [reflexivity |].
  now rewrite List.filter_app, IH.
Qed.

Lemma flat_map_all_nil {A B} (g : A -> list B) (l : list A) :
  Forall (fun a => g a = []) l -> flat_map g l = [].
Proof. induction 1 as [| a l Ha _ IH]; simpl; [reflexivity |]. now rewrite Ha, IH. Qed.

Lemma process_node_parentless (parent : option ParentRef) (t : FigmaTree) :
  List.filter is_parentless (process_node parent t)
  = match parent with None => [flat_node None t] | Some _ => [] end.
Proof.
  revert parent. induction t as [fields children IH] using FigmaTree_induction.
  intros parent. rewrite process_node_unfold, List.filter_app, filter_over_flat_map.
  simpl tree_children. rewrite flat_map_all_nil.
  - simpl. unfold is_parentless. simpl. now destruct parent.
  - eapply Forall_impl; [exact IH |]. intros c Hc. apply Hc.
Qed.

(** X17. No element of the flattened list holds ["children"], so that
    [_determine_if_container] decides on the type alone.  The list has one
    element per node of the roots of type [CANVAS], [FRAME], [GROUP] or
    [COMPONENT] (other roots are dropped with all below them); the elements
    without parent reference are these roots, in order, and every other
    element refers to an element that comes further in the list: children
    come before their parent. *)
Theorem flatten_lists_children_first (nodes : list FigmaTree) :
  let flattened := flatten_figma_tree nodes in
  Forall (fun n => fn_has_children (flat_fields n) = false
                   /\ forall r, flat_record n = Some r ->
                        _determine_if_container r
                        = match fn_type r with
                          | Some t => bool_decide (t ∈ container_types)
                          | None => false
                          end) flattened
  /\ length flattened
     = list_sum (map figma_tree_size (List.filter is_root_type nodes))
  /\ List.filter is_parentless flattened
     = map (flat_node None) (List.filter is_root_type nodes)
  /\ forall i n, flattened !! i = Some n ->
       is_parentless n = true \/ refers_later flattened i n.
Proof.
  cbv zeta. unfold flatten_figma_tree.
  induction nodes as [| t nodes (IH1 & IH2 & IH3 & IH4)]; simpl.
  { repeat split; [constructor |]. intros i n Hi. destruct i; discriminate. }
  destruct (is_root_type t) eqn:Ht; simpl; [| auto].
  split; [| split; [| split]].
  - apply Forall_app. split; [| exact IH1].
    eapply Forall_impl; [apply process_node_popped |]. intros n Hn. split; [exact Hn |].
    intros r Hr. unfold flat_record in Hr. unfold _determine_if_container.
    destruct (flat_parent n) as [ref |].
    + destruct (ref_id ref); [| discriminate]. injection Hr as <-. simpl.
      rewrite Hn. apply orb_false_r.
    + injection Hr as <-. rewrite Hn. apply orb_false_r.
  - rewrite length_app, process_node_length, IH2. reflexivity.
  - rewrite List.filter_app, process_node_parentless, IH3. reflexivity.
  - intros i n Hi. apply lookup_app_Some in Hi as [Hi | [Hge Hi]].
    + destruct (process_node_order None t i n Hi) as [[_ ->] | Hl]; [now left | right].
      now apply refers_later_app_l.
    + destruct (IH4 _ n Hi) as [Hp | Hl]; [now left | right].
      replace i with (length (process_node None t) + (i - length (process_node None t)))
        by lia.
      now apply refers_later_app_r.
Qed.

(** ** [extract_nodes], then [flatten_figma_tree] *)

Lemma traverse_node_unfold (t : FigmaTree) :
  traverse_node t
  = match fn_type (tree_fields t) with
    | None => []
    | Some _ => t :: flat_map traverse_node (tree_children t)
    end.
Proof. destruct t as [fields [cs |]]; reflexivity. Qed.

Lemma traverse_node_typed (t : FigmaTree) :
  Forall (fun n => is_Some (fn_type (tree_fields n))) (traverse_node t).
Proof.
  induction t as [fields children IH] using FigmaTree_induction.
  rewrite traverse_node_unfold. simpl tree_fields. simpl tree_children.
  destruct (fn_type fields) as [ty |] eqn:Hty; [| constructor].
  constructor; [simpl; rewrite Hty; eauto |].
  apply Forall_flat_map. exact IH.
Qed.

Lemma traverse_node_self (t : FigmaTree) :
  is_Some (fn_type (tree_fields t)) -> t ∈ traverse_node t.
Proof.
  intros [ty Hty]. rewrite traverse_node_unfold, Hty. apply list_elem_of_here.
Qed.

Lemma traverse_node_children (t m c : FigmaTree) :
  m ∈ traverse_node t -> c ∈ tree_children m ->
  is_Some (fn_type (tree_fields c)) -> c ∈ traverse_node t.
Proof.
  intros Hm Hc Hty. revert Hm.
  induction t as [fields children IH] using FigmaTree_induction.
  rewrite traverse_node_unfold. simpl tree_fields. simpl tree_children.
  destruct (fn_type fields) as [ty |]; [| intros H; inversion H].
  intros Hm. apply elem_of_cons in Hm as [-> | Hm].
  - apply list_elem_of_further, list_elem_of_In, in_flat_map.
    exists c. split; [now apply list_elem_of_In |].
    apply list_elem_of_In, traverse_node_self, Hty.
  - apply list_elem_of_further.
    apply list_elem_of_In, in_flat_map in Hm as (t' & Ht' & Hm).
    apply list_elem_of_In, in_flat_map. exists t'. split; [exact Ht' |].
    rewrite Forall_forall in IH. apply list_elem_of_In, IH.
    + now apply list_elem_of_In.
    + now apply list_elem_of_In.
Qed.

Lemma process_node_self (parent : option ParentRef) (t : FigmaTree) :
  flat_node parent t ∈ process_node parent t.
Proof. rewrite process_node_unfold. apply elem_of_app. right. apply list_elem_of_here. Qed.

Lemma process_node_child (parent : option ParentRef) (t c : FigmaTree) :
  c ∈ tree_children t ->
  flat_node (Some (parent_ref (tree_fields t))) c ∈ process_node parent t.
Proof.
  intros Hc. rewrite process_node_unfold. apply elem_of_app. left.
  apply list_elem_of_In, in_flat_map. exists c. split; [now apply list_elem_of_In |].
  apply list_elem_of_In, process_node_self.
Qed.

Lemma flatten_root (nodes : list FigmaTree) (m : FigmaTree) (n : FlatNode) :
  m ∈ nodes -> is_root_type m = true -> n ∈ process_node None m ->
  n ∈ flatten_figma_tree nodes.
Proof.
  intros Hm Hty Hn. unfold flatten_figma_tree.
  apply list_elem_of_In, in_flat_map. exists m. split; [now apply list_elem_of_In |].
  rewrite Hty. now apply list_elem_of_In.
Qed.

Lemma root_type_typed (t : FigmaTree) :
  is_root_type t = true -> is_Some (fn_type (tree_fields t)).
Proof. unfold is_root_type. destruct (fn_type _); [eauto | discriminate]. Qed.

(** X18. [extract_nodes] lists nodes that have a ["type"], the document
    first, and with a node its children that have one; nothing when the
    document has none.  Flattening the list it returns processes every
    node of a root type as a root: a node of a root type that is the child
    of such a node is listed twice, once under the reference to its parent
    and once without reference, and the flattened list has as many
    elements without reference as the extracted list has nodes of a root
    type. *)
Theorem extract_then_flatten (document : FigmaTree) :
  let nodes := extract_nodes (Some document) in
  let flattened := flatten_figma_tree nodes in
  Forall (fun n => is_Some (fn_type (tree_fields n))) nodes
  /\ (fn_type (tree_fields document) = None -> nodes = [])
  /\ (is_Some (fn_type (tree_fields document)) -> head nodes = Some document)
  /\ (forall m c, m ∈ nodes -> c ∈ tree_children m ->
        is_Some (fn_type (tree_fields c)) -> c ∈ nodes)
  /\ (forall m c, m ∈ nodes -> is_root_type m = true ->
        c ∈ tree_children m -> is_root_type c = true ->
        flat_node (Some (parent_ref (tree_fields m))) c ∈ flattened
        /\ flat_node None c ∈ flattened)
  /\ length (List.filter is_parentless flattened)
     = length (List.filter is_root_type nodes).
Proof.
  cbv zeta. simpl extract_nodes.
  split; [apply traverse_node_typed |].
  split; [intros H; now rewrite traverse_node_unfold, H |].
  split; [intros [ty H]; now rewrite traverse_node_unfold, H |].
  split; [intros m c; apply traverse_node_children |].
  split.
  - intros m c Hm Hmty Hc Hcty. split.
    + apply (flatten_root _ m); [exact Hm | exact Hmty |]. now apply process_node_child.
    + apply (flatten_root _ c); [| exact Hcty | apply process_node_self].
      apply (traverse_node_children document m c Hm Hc). now apply root_type_typed.
  - generalize (traverse_node document). intros nodes. unfold flatten_figma_tree.
    induction nodes as [| t nodes IH]; simpl; [reflexivity |].
    destruct (is_root_type t); simpl; [| exact IH].
    now rewrite List.filter_app, length_app, process_node_parentless, IH.
Qed.

(** ** The records that refer to a node *)

Lemma map_over_flat_map {A B C} (f : B -> C) (g : A -> list B) (l : list A) :
  map f (flat_map g l) = flat_map (fun a => map f (g a)) l.
Proof.
  induction l as [| a l IH]; simpl; [reflexivity |]. now rewrite map_app, IH.
Qed.

Lemma tree_ids_unfold (t : FigmaTree) :
  tree_ids t = fn_id (tree_fields t) :: flat_map tree_ids (tree_children t).
Proof.
  unfold tree_ids. rewrite figma_tree_nodes_unfold. simpl. f_equal.
  apply map_over_flat_map.
Qed.

Lemma tree_ids_child (t c : FigmaTree) (i : option string) :
  c ∈ tree_children t -> i ∈ tree_ids c -> i ∈ flat_map tree_ids (tree_children t).
Proof.
  intros Hc Hi. apply list_elem_of_In, in_flat_map. exists c.
  split; now apply list_elem_of_In.
Qed.

Lemma refers_to_flat_node (k : string) (parent : option ParentRef) (t : FigmaTree) :
  refers_to k (flat_node parent t) = bool_decide (parent ≫= ref_id = Some k).
Proof. reflexivity. Qed.

(** No record of a subtree refers to an identifier that the subtree does
    not hold, its root apart. *)
Lemma process_node_refers_outside (k : string) (parent : option ParentRef)
    (w : FigmaTree) :
  Some k ∉ tree_ids w ->
  List.filter (refers_to k) (process_node parent w)
  = if bool_decide (parent ≫= ref_id = Some k) then [flat_node parent w] else [].
Proof.
  revert parent. induction w as [fields children IH] using FigmaTree_induction.
  intros parent Hk. rewrite tree_ids_unfold in Hk. simpl tree_fields in Hk.
  simpl tree_children in Hk. apply not_elem_of_cons in Hk as [Hroot Hrest].
  rewrite process_node_unfold, List.filter_app, filter_over_flat_map.
  simpl tree_children. simpl tree_fields. rewrite flat_map_all_nil.
  - simpl. rewrite refers_to_flat_node. now destruct (bool_decide _).
  - apply Forall_forall. intros c Hc. rewrite Forall_forall in IH.
    rewrite (IH c Hc).
    + rewrite bool_decide_eq_false_2; [reflexivity |]. simpl. congruence.
    + intros Hin. apply Hrest. now apply (tree_ids_child (Tree fields children) c).
Qed.

Lemma node_id_in_tree_ids (w u : FigmaTree) :
  u ∈ figma_tree_nodes w -> fn_id (tree_fields u) ∈ tree_ids w.
Proof.
  intros Hu. unfold tree_ids. apply list_elem_of_In, in_map_iff.
  exists u. split; [reflexivity | now apply list_elem_of_In].
Qed.

Lemma children_refer (k : string) (ref : ParentRef) (u : FigmaTree)
    (cs : list FigmaTree) :
  Forall (fun w => forall parent,
            NoDup (tree_ids w) -> u ∈ figma_tree_nodes w ->
            List.filter (refers_to k) (process_node parent w)
            = map (flat_node (Some (parent_ref (tree_fields u)))) (tree_children u)
              ++ if bool_decide (parent ≫= ref_id = Some k)
                 then [flat_node parent w] else []) cs ->
  NoDup (flat_map tree_ids cs) ->
  u ∈ flat_map figma_tree_nodes cs ->
  fn_id (tree_fields u) = Some k ->
  ref_id ref <> Some k ->
  flat_map (fun c => List.filter (refers_to k) (process_node (Some ref) c)) cs
  = map (flat_node (Some (parent_ref (tree_fields u)))) (tree_children u).
Proof.
  intros IH. induction IH as [| c cs Hc _ IHcs]; intros Hnd Hu Hk Href;
    [inversion Hu |].
  simpl in Hnd, Hu |- *. apply NoDup_app in Hnd as (Hndc & Hdisj & Hndcs).
  assert (Hfalse : bool_decide (Some ref ≫= ref_id = Some k) = false)
    by now apply bool_decide_eq_false_2.
  assert (Hnone : forall l, Some k ∉ flat_map tree_ids l ->
            flat_map (fun c => List.filter (refers_to k) (process_node (Some ref) c)) l
            = []).
  { intros l Hl. apply flat_map_all_nil, Forall_forall. intros c' Hc'.
    rewrite process_node_refers_outside, Hfalse; [reflexivity |].
    intros Hin. apply Hl, list_elem_of_In, in_flat_map. exists c'.
    split; now apply list_elem_of_In. }
  apply elem_of_app in Hu as [Hu | Hu].
  - rewrite (Hc (Some ref) Hndc Hu), Hfalse, app_nil_r, Hnone; [apply app_nil_r |].
    apply Hdisj. rewrite <- Hk. now apply node_id_in_tree_ids.
  - assert (Hin : Some k ∈ flat_map tree_ids cs).
    { apply list_elem_of_In, in_flat_map in Hu as (c' & Hc' & Hu).
      apply list_elem_of_In, in_flat_map. exists c'. split; [exact Hc' |].
      rewrite <- Hk. apply list_elem_of_In, node_id_in_tree_ids, list_elem_of_In, Hu. }
    rewrite process_node_refers_outside, Hfalse; [| intros H; exact (Hdisj _ H Hin)].
    simpl. now apply IHcs.
Qed.

(** The records that refer to the identifier of a node of the tree are
    those of its children, in order (and the root, when it was given this
    reference). *)
Lemma process_node_refers (k : string) (w u : FigmaTree) :
  fn_id (tree_fields u) = Some k ->
  forall parent,
    NoDup (tree_ids w) -> u ∈ figma_tree_nodes w ->
    List.filter (refers_to k) (process_node parent w)
    = map (flat_node (Some (parent_ref (tree_fields u)))) (tree_children u)
      ++ if bool_decide (parent ≫= ref_id = Some k) then [flat_node parent w] else [].
Proof.
  intros Hk. induction w as [fields children IH] using FigmaTree_induction.
  intros parent Hnd Hu.
  rewrite tree_ids_unfold in Hnd. simpl tree_fields in Hnd. simpl tree_children in Hnd.
  apply NoDup_cons in Hnd as [Hroot Hnd].
  rewrite figma_tree_nodes_unfold in Hu. simpl tree_children in Hu.
  rewrite process_node_unfold, List.filter_app, filter_over_flat_map.
  simpl tree_children. simpl tree_fields.
  assert (Hlast : List.filter (refers_to k) [flat_node parent (Tree fields children)]
                  = if bool_decide (parent ≫= ref_id = Some k)
                    then [flat_node parent (Tree fields children)] else []).
  { simpl. rewrite refers_to_flat_node. now destruct (bool_decide _). }
  rewrite Hlast. f_equal.
  apply elem_of_cons in Hu as [-> | Hu].
  - simpl tree_fields in Hk. simpl tree_children.
    induction (default [] children) as [| c cs IHcs]; [reflexivity |].
    simpl in Hroot, Hnd |- *.
    rewrite process_node_refers_outside.
    + rewrite bool_decide_eq_true_2 by exact Hk. simpl. f_equal.
      apply NoDup_app in Hnd as (_ & _ & Hnd).
      apply IHcs; [| | exact Hnd].
      * now apply Forall_cons in IH as [_ IH].
      * intros Hin. apply Hroot. apply elem_of_app. now right.
    + rewrite <- Hk. intros Hin. apply Hroot. apply elem_of_app. now left.
  - apply (children_refer k (parent_ref fields) u); try assumption.
    simpl. intros E. apply Hroot. rewrite E, <- Hk.
    apply list_elem_of_In, in_flat_map in Hu as (c' & Hc' & Hu).
    apply list_elem_of_In, in_flat_map. exists c'. split; [exact Hc' |].
    apply list_elem_of_In, node_id_in_tree_ids, list_elem_of_In, Hu.
Qed.

(** Every record of a processed subtree is that of one of its nodes, under
    the reference given or under that of one of its nodes. *)
Lemma process_node_elem (parent : option ParentRef) (w : FigmaTree) (n : FlatNode) :
  n ∈ process_node parent w ->
  exists u, u ∈ figma_tree_nodes w
    /\ flat_fields n = without_children (tree_fields u)
    /\ (flat_parent n = parent
        \/ exists m, m ∈ figma_tree_nodes w
             /\ flat_parent n = Some (parent_ref (tree_fields m))).
Proof.
  revert parent. induction w as [fields children IH] using FigmaTree_induction.
  intros parent Hn. rewrite process_node_unfold in Hn.
  rewrite figma_tree_nodes_unfold. simpl tree_children in *. simpl tree_fields in *.
  apply elem_of_app in Hn as [Hn | Hn].
  - apply list_elem_of_In, in_flat_map in Hn as (c & Hc & Hn).
    rewrite Forall_forall in IH.
    destruct (IH c (proj2 (list_elem_of_In _ _) Hc) _ (proj2 (list_elem_of_In _ _) Hn))
      as (u & Hu & Hf & Hp).
    assert (Hsub : forall x, x ∈ figma_tree_nodes c ->
              x ∈ Tree fields children :: flat_map figma_tree_nodes (default [] children)).
    { intros x Hx. apply list_elem_of_further, list_elem_of_In, in_flat_map.
      exists c. split; [exact Hc | now apply list_elem_of_In]. }
    exists u. split; [now apply Hsub |]. split; [exact Hf |]. right.
    destruct Hp as [Hp | (m & Hm & Hp)].
    + exists (Tree fields children). split; [apply list_elem_of_here | exact Hp].
    + exists m. split; [now apply Hsub | exact Hp].
  - apply list_elem_of_singleton in Hn as ->.
    exists (Tree fields children). split; [apply list_elem_of_here |].
    split; [reflexivity | now left].
Qed.

Lemma flat_map_perm {A B} (f g : A -> list B) (l : list A) :
  Forall (fun a => Permutation (f a) (g a)) l ->
  Permutation (flat_map f l) (flat_map g l).
Proof.
  induction 1 as [| a l Ha _ IH]; simpl; [reflexivity |]. now rewrite Ha, IH.
Qed.

Lemma process_node_ids (parent : option ParentRef) (w : FigmaTree) :
  Permutation (map (fun n => fn_id (flat_fields n)) (process_node parent w))
              (tree_ids w).
Proof.
  revert parent. induction w as [fields children IH] using FigmaTree_induction.
  intros parent. rewrite process_node_unfold, tree_ids_unfold, map_app, map_over_flat_map.
  simpl tree_children. simpl tree_fields.
  rewrite Permutation_app_comm. simpl. constructor.
  apply flat_map_perm. eapply Forall_impl; [exact IH |]. intros c Hc. apply Hc.
Qed.

(** ** The records of the flattened list, typed *)

Lemma init_with_parent_id (p : string) (node : FigmaNode) :
  AngularNode_init (with_parent_id p node) = AngularNode_init node.
Proof. reflexivity. Qed.

Lemma flattened_parentless (t : FigmaTree) (n : FlatNode) :
  n ∈ process_node None t -> flat_parent n = None -> n = flat_node None t.
Proof.
  intros Hn Hp.
  assert (Hin : In n (List.filter is_parentless (process_node None t))).
  { apply filter_In. split; [now apply list_elem_of_In |].
    unfold is_parentless. now rewrite Hp. }
  rewrite process_node_parentless in Hin. destruct Hin as [<- | []]. reflexivity.
Qed.

Lemma flattened_typed (t : FigmaTree) (n : FlatNode) :
  Forall (fun u => is_Some (fn_id (tree_fields u))) (figma_tree_nodes t) ->
  fn_parent_id (tree_fields t) = None ->
  n ∈ process_node None t ->
  flat_record n = Some (typed_record n)
  /\ fn_id (typed_record n) = fn_id (flat_fields n)
  /\ fn_parent_id (typed_record n) = flat_parent n ≫= ref_id
  /\ AngularNode_init (typed_record n) = AngularNode_init (flat_fields n).
Proof.
  intros Hids Hroot Hn. unfold typed_record, flat_record.
  destruct (flat_parent n) as [ref |] eqn:Hp.
  - destruct (process_node_elem None t n Hn) as (u & _ & _ & [Hnone | (m & Hm & Hpm)]);
      [congruence |].
    rewrite Hp in Hpm. injection Hpm as ->.
    rewrite Forall_forall in Hids. destruct (Hids m Hm) as [p Hpid].
    simpl. rewrite Hpid. simpl. auto.
  - rewrite (flattened_parentless t n Hn Hp). simpl. auto.
Qed.

(** ** Lists of records that all are valid and converted *)

Lemma valid_of_dicts (recs : list FigmaNode) :
  Forall (fun r => is_Some (fn_id r)) recs -> valid_of (map Dict recs) = recs.
Proof.
  unfold valid_of. induction 1 as [| r recs [i Hi] _ IH]; simpl; [reflexivity |].
  rewrite Hi. simpl. f_equal. exact IH.
Qed.

Lemma converted_lookup (recs : list FigmaNode) (j : nat) :
  Forall (fun r => is_Some (built r)) recs ->
  converted recs !! j = recs !! j ≫= built.
Proof.
  unfold converted. intros H. revert j.
  induction H as [| r recs [d Hd] _ IH]; intros j; simpl; [now destruct j |].
  rewrite Hd. simpl. destruct j as [| j]; simpl; [now rewrite Hd | apply IH].
Qed.

Lemma converted_unique (recs : list FigmaNode) (i j : nat) (d d' : NodeData) :
  Forall (fun r => is_Some (fn_id r)) recs ->
  Forall (fun r => is_Some (built r)) recs ->
  NoDup (map fn_id recs) ->
  converted recs !! i = Some d -> converted recs !! j = Some d' ->
  node_id d = node_id d' -> i = j.
Proof.
  intros Hids Hbuilt Hnd Hi Hj Heq.
  rewrite converted_lookup in Hi, Hj by assumption.
  destruct (recs !! i) as [r |] eqn:Hri; [| discriminate].
  destruct (recs !! j) as [r' |] eqn:Hrj; [| discriminate].
  simpl in Hi, Hj. rewrite (built_id r d Hi), (built_id r' d' Hj) in Heq.
  rewrite Forall_forall in Hids.
  destruct (Hids r (list_elem_of_lookup_2 _ _ _ Hri)) as [k Hk].
  destruct (Hids r' (list_elem_of_lookup_2 _ _ _ Hrj)) as [k' Hk'].
  rewrite Hk, Hk' in Heq. simpl in Heq. subst k'.
  apply (NoDup_lookup (map fn_id recs) i j (Some k) Hnd).
  - change (map fn_id recs) with (fn_id <$> recs).
    rewrite list_lookup_fmap, Hri. simpl. now rewrite Hk.
  - change (map fn_id recs) with (fn_id <$> recs).
    rewrite list_lookup_fmap, Hrj. simpl. now rewrite Hk'.
Qed.

(** ** The children of an object, by the parent references *)

Lemma omap_cons_app {A B} (f : A -> option B) (a : A) (l : list A) :
  omap f (a :: l) = match f a with Some b => [b] | None => [] end ++ omap f l.
Proof. simpl. now destruct (f a). Qed.

Lemma children_by_reference (figma_nodes : list raw) (k : string) (b : nat) :
  let s3 := after_passes figma_nodes initial in
  dict_get k (node_map s3) = Some b ->
  forall l,
    children_from (links (node_map s3) l) b
    = omap (fun r => if bool_decide (fn_parent_id r = Some k)
                     then fn_id r ≫= (fun i => dict_get i (node_map s3))
                     else None) l.
Proof.
  intros s3 Hb l.
  assert (Hinj : forall p, dict_get p (node_map s3) = Some b -> p = k).
  { intros p Hp.
    destruct (passes_map_object figma_nodes p b Hp) as (o & Ho & Hk & _).
    destruct (passes_map_object figma_nodes k b Hb) as (o' & Ho' & Hk' & _).
    unfold s3 in *. congruence. }
  set (f := fun r => if bool_decide (fn_parent_id r = Some k)
                     then fn_id r ≫= (fun i => dict_get i (node_map s3))
                     else None).
  assert (Hone : forall r,
            match link (node_map s3) r with
            | Some l => if decide (fst l = b) then [snd l] else []
            | None => []
            end
            = match f r with Some c => [c] | None => [] end).
  { intros r. unfold link, f.
    destruct (fn_parent_id r) as [p |];
      [| rewrite bool_decide_eq_false_2 by discriminate; reflexivity].
    destruct (decide (p = k)) as [-> | Hpk].
    - rewrite bool_decide_eq_true_2 by reflexivity. cbn [mbind option_bind].
      rewrite Hb. cbn [mbind option_bind].
      destruct (fn_id r) as [i |]; cbn [mbind option_bind]; [| reflexivity].
      destruct (dict_get i (node_map s3)) as [c |]; cbn [mbind option_bind fst snd];
        [| reflexivity].
      now rewrite decide_True.
    - rewrite bool_decide_eq_false_2 by congruence. cbn [mbind option_bind].
      destruct (dict_get p (node_map s3)) as [b' |] eqn:Hp; cbn [mbind option_bind];
        [| reflexivity].
      destruct (fn_id r) as [i |]; cbn [mbind option_bind]; [| reflexivity].
      destruct (dict_get i (node_map s3)) as [c |]; cbn [mbind option_bind fst snd];
        [| reflexivity].
      rewrite decide_False; [reflexivity |]. intros ->. apply Hpk, Hinj, Hp. }
  induction l as [| r l IH]; [reflexivity |].
  rewrite omap_cons_app, <- Hone, <- IH. unfold links. rewrite omap_cons_app.
  destruct (link (node_map s3) r) as [pc |]; [| reflexivity].
  simpl app. now rewrite children_from_cons.
Qed.

(** ** The tree that the conversion builds from a flattened tree *)

Lemma nodes_children_closed (t u c : FigmaTree) :
  u ∈ figma_tree_nodes t -> c ∈ tree_children u -> c ∈ figma_tree_nodes t.
Proof.
  intros Hu Hc. revert Hu.
  induction t as [fields children IH] using FigmaTree_induction.
  rewrite figma_tree_nodes_unfold. simpl tree_children.
  intros Hu. apply list_elem_of_further, list_elem_of_In, in_flat_map.
  apply elem_of_cons in Hu as [-> | Hu].
  - exists c. split; [now apply list_elem_of_In |].
    rewrite figma_tree_nodes_unfold. now left.
  - apply list_elem_of_In, in_flat_map in Hu as (c' & Hc' & Hu).
    exists c'. split; [exact Hc' |]. rewrite Forall_forall in IH.
    apply list_elem_of_In, IH; now apply list_elem_of_In.
Qed.

Lemma process_node_covers (parent : option ParentRef) (w u : FigmaTree) :
  u ∈ figma_tree_nodes w -> exists p, flat_node p u ∈ process_node parent w.
Proof.
  revert parent. induction w as [fields children IH] using FigmaTree_induction.
  intros parent. rewrite figma_tree_nodes_unfold, process_node_unfold.
  simpl tree_children. simpl tree_fields. intros Hu.
  apply elem_of_cons in Hu as [-> | Hu].
  - exists parent. apply elem_of_app. right. apply list_elem_of_here.
  - apply list_elem_of_In, in_flat_map in Hu as (c & Hc & Hu).
    rewrite Forall_forall in IH.
    destruct (IH c (proj2 (list_elem_of_In _ _) Hc) (Some (parent_ref fields))
                (proj2 (list_elem_of_In _ _) Hu)) as (p & Hp).
    exists p. apply elem_of_app. left. apply list_elem_of_In, in_flat_map.
    exists c. split; [exact Hc | now apply list_elem_of_In].
Qed.

Lemma NoDup_map_elem {A B} (f : A -> B) (l : list A) (a b : A) :
  NoDup (map f l) -> a ∈ l -> b ∈ l -> f a = f b -> a = b.
Proof.
  intros Hnd Ha Hb Hab.
  apply list_elem_of_lookup in Ha as [i Hi]. apply list_elem_of_lookup in Hb as [j Hj].
  assert (i = j).
  { apply (NoDup_lookup (map f l) i j (f a) Hnd);
      change (map f l) with (f <$> l); rewrite list_lookup_fmap.
    - now rewrite Hi.
    - rewrite Hj. simpl. now rewrite Hab. }
  subst j. congruence.
Qed.

Lemma omap_filter {A B} (P : A -> bool) (f : A -> option B) (l : list A) :
  omap (fun a => if P a then f a else None) l = omap f (List.filter P l).
Proof.
  induction l as [| a l IH]; [reflexivity |].
  rewrite omap_cons_app, IH. simpl. destruct (P a); [| reflexivity].
  now rewrite omap_cons_app.
Qed.

Lemma omap_map {A B C} (f : B -> option C) (g : A -> B) (l : list A) :
  omap f (map g l) = omap (fun a => f (g a)) l.
Proof.
  induction l as [| a l IH]; [reflexivity |].
  simpl map. now rewrite !omap_cons_app, IH.
Qed.

Lemma omap_ext_in {A B} (f g : A -> option B) (l : list A) :
  (forall a, a ∈ l -> f a = g a) -> omap f l = omap g l.
Proof.
  induction l as [| a l IH]; intros H; [reflexivity |].
  rewrite !omap_cons_app, (H a (list_elem_of_here _ _)), IH; [reflexivity |].
  intros a' Ha'. apply H. now right.
Qed.

Section RoundTrip.
Variable t : FigmaTree.
Let recs := map typed_record (process_node None t).
Let s3 := after_passes (map Dict recs) initial.

Lemma convertible_ids :
  convertible t -> Forall (fun u => is_Some (fn_id (tree_fields u))) (figma_tree_nodes t).
Proof. intros (H & _). eapply Forall_impl; [exact H |]. now intros u [Hu _]. Qed.

Lemma flattened_node (n : FlatNode) :
  convertible t -> n ∈ process_node None t ->
  exists u d,
    u ∈ figma_tree_nodes t
    /\ flat_fields n = without_children (tree_fields u)
    /\ flat_record n = Some (typed_record n)
    /\ fn_id (typed_record n) = fn_id (tree_fields u)
    /\ fn_parent_id (typed_record n) = flat_parent n ≫= ref_id
    /\ AngularNode_init (without_children (tree_fields u)) = Ok d
    /\ built (typed_record n) = Some d.
Proof using Type.
  intros Hconv Hn. pose proof (convertible_ids Hconv) as Hids.
  destruct Hconv as (Hall & _ & Hroot).
  destruct (process_node_elem None t n Hn) as (u & Hu & Hf & _).
  destruct (flattened_typed t n Hids Hroot Hn) as (H1 & H2 & H3 & H4).
  rewrite Forall_forall in Hall. destruct (Hall u Hu) as [_ Hok].
  destruct (AngularNode_init (without_children (tree_fields u))) as [d |] eqn:Hd;
    [| discriminate].
  exists u, d. split; [exact Hu |]. split; [exact Hf |]. split; [exact H1 |].
  split; [now rewrite H2, Hf |]. split; [exact H3 |]. split; [exact Hd |].
  unfold built. now rewrite H4, Hf, Hd.
Qed.

Lemma recs_elem (r : FigmaNode) :
  r ∈ recs <-> exists n, n ∈ process_node None t /\ r = typed_record n.
Proof using Type.
  unfold recs. rewrite list_elem_of_In, in_map_iff. split.
  - intros (n & <- & Hn). exists n. split; [now apply list_elem_of_In | reflexivity].
  - intros (n & Hn & ->). exists n. split; [reflexivity | now apply list_elem_of_In].
Qed.

Lemma recs_ids : convertible t -> Forall (fun r => is_Some (fn_id r)) recs.
Proof using Type.
  intros Hconv. apply Forall_forall. intros r Hr.
  apply recs_elem in Hr as (n & Hn & ->).
  destruct (flattened_node n Hconv Hn) as (u & d & Hu & _ & _ & -> & _).
  pose proof (convertible_ids Hconv) as Hids. rewrite Forall_forall in Hids.
  now apply Hids.
Qed.

Lemma recs_built : convertible t -> Forall (fun r => is_Some (built r)) recs.
Proof using Type.
  intros Hconv. apply Forall_forall. intros r Hr.
  apply recs_elem in Hr as (n & Hn & ->).
  destruct (flattened_node n Hconv Hn) as (u & d & _ & _ & _ & _ & _ & _ & ->). eauto.
Qed.

Lemma recs_nodup : convertible t -> NoDup (map fn_id recs).
Proof using Type.
  intros Hconv. unfold recs. rewrite map_map.
  rewrite (map_ext_in _ (fun n => fn_id (flat_fields n))).
  - rewrite process_node_ids. apply Hconv.
  - intros n Hn. apply list_elem_of_In in Hn.
    destruct (flattened_node n Hconv Hn) as (u & d & _ & -> & _ & -> & _). reflexivity.
Qed.

Lemma recs_valid : convertible t -> valid_of (map Dict recs) = recs.
Proof using Type. intros Hconv. apply valid_of_dicts, recs_ids, Hconv. Qed.

(** The object registered under the identifier of a node of the tree. *)
Lemma node_object (u : FigmaTree) :
  convertible t -> u ∈ figma_tree_nodes t ->
  exists a o,
    address_of (node_map s3) u = Some a
    /\ heap s3 !! a = Some o
    /\ AngularNode_init (without_children (tree_fields u)) = Ok (obj_data o)
    /\ obj_children o = omap (address_of (node_map s3)) (tree_children u).
Proof using Type.
  intros Hconv Hu. pose proof (convertible_ids Hconv) as Hids.
  rewrite Forall_forall in Hids. destruct (Hids u Hu) as [k Hk].
  destruct (process_node_covers None t u Hu) as (p & Hp).
  destruct (flattened_node _ Hconv Hp) as (u0 & d0 & _ & Hf0 & _ & Hid0 & _ & _ & Hb0).
  assert (Hk0 : fn_id (typed_record (flat_node p u)) = Some k).
  { rewrite Hid0. simpl in Hf0.
    assert (E : fn_id (without_children (tree_fields u))
                = fn_id (without_children (tree_fields u0))) by now rewrite Hf0.
    simpl in E. now rewrite <- E. }
  (* the identifier is a key of node_map *)
  destruct (last_index k (converted recs)) as [a |] eqn:Hlast.
  2:{ exfalso. apply (proj1 (last_index_None _ _) Hlast d0).
      - apply converted_elem. exists (typed_record (flat_node p u)).
        split; [| exact Hb0]. apply recs_elem. eauto.
      - rewrite (built_id _ _ Hb0), Hk0. reflexivity. }
  assert (Hget : dict_get k (node_map s3) = Some a).
  { unfold s3. rewrite passes_map, (recs_valid Hconv). exact Hlast. }
  destruct (passes_map_object (map Dict recs) k a Hget) as (o & Ho & Hok & Hdata).
  fold s3 in Ho. rewrite (recs_valid Hconv) in Hdata.
  exists a, o. split; [unfold address_of; now rewrite Hk |]. split; [exact Ho |].
  split.
  - (* the data *)
    apply list_elem_of_lookup_2, converted_elem in Hdata as (r & Hr & Hb).
    apply recs_elem in Hr as (n & Hn & ->).
    destruct (flattened_node n Hconv Hn) as (u' & d' & Hu' & _ & _ & Hid' & _ & Hd' & Hb').
    assert (u' = u).
    { apply (NoDup_map_elem (fun n => fn_id (tree_fields n)) (figma_tree_nodes t));
        [apply Hconv | exact Hu' | exact Hu |].
      rewrite Hk, <- Hid'. rewrite (built_id _ _ Hb), Hid' in Hok.
      destruct (Hids u' Hu') as [k' Hk']. rewrite Hid', Hk'. rewrite Hk' in Hok.
      simpl in Hok. now subst. }
    subst u'. congruence.
  - (* the children *)
    destruct (passes_objects (map Dict recs) a o Ho) as (Hc & _ & _).
    rewrite Hc, (recs_valid Hconv).
    rewrite (children_by_reference (map Dict recs) k a Hget recs).
    fold s3. unfold recs. rewrite omap_map.
    rewrite (omap_ext_in _ (fun n => if refers_to k n
                                     then fn_id (flat_fields n)
                                          ≫= (fun i => dict_get i (node_map s3))
                                     else None)).
    2:{ intros n Hn.
        destruct (flattened_node n Hconv Hn) as (u' & d' & _ & Hf' & _ & Hid' & Hpar & _).
        rewrite Hpar, Hid', Hf'. reflexivity. }
    rewrite omap_filter, (process_node_refers k t u Hk None); [| apply Hconv | exact Hu].
    rewrite bool_decide_eq_false_2 by discriminate. rewrite app_nil_r, omap_map.
    reflexivity.
Qed.

Lemma node_represented (u : FigmaTree) :
  convertible t -> u ∈ figma_tree_nodes t ->
  exists a, address_of (node_map s3) u = Some a /\ represents (heap s3) a u.
Proof using Type.
  intros Hconv. induction u as [fields children IH] using FigmaTree_induction.
  intros Hu. destruct (node_object _ Hconv Hu) as (a & o & Ha & Ho & Hd & Hc).
  exists a. split; [exact Ha |]. apply (represents_node _ a o); [exact Ho | exact Hd |].
  rewrite Hc. simpl tree_children in *.
  assert (Hin : forall c, c ∈ default [] children -> c ∈ figma_tree_nodes t).
  { intros c Hcin. apply (nodes_children_closed t _ c Hu). exact Hcin. }
  clear Hc Hu Hd. induction IH as [| c cs Hc _ IHcs]; [constructor |].
  destruct Hc as (ac & Hac & Hrep); [apply Hin, list_elem_of_here |].
  rewrite omap_cons_app, Hac. simpl. constructor; [exact Hrep |].
  apply IHcs. intros c' Hc'. apply Hin. now right.
Qed.

Lemma recs_roots :
  convertible t ->
  exists d, built (typed_record (flat_node None t)) = Some d
            /\ omap root_data recs = [d].
Proof using Type.
  intros Hconv.
  destruct (flattened_node _ Hconv (process_node_self None t))
    as (u & d & _ & _ & _ & _ & _ & _ & Hb).
  exists d. split; [exact Hb |].
  unfold recs. rewrite omap_map.
  rewrite (omap_ext_in _ (fun n => if is_parentless n
                                   then built (typed_record n) else None)).
  - now rewrite omap_filter, process_node_parentless, omap_cons_app, Hb.
  - intros n Hn.
    destruct (flattened_node n Hconv Hn) as (u' & d' & _ & _ & Hrec & _ & Hpar & _).
    unfold root_data, is_parentless. rewrite Hpar.
    destruct (flat_parent n) as [ref |] eqn:Hp; [| reflexivity].
    unfold flat_record in Hrec. rewrite Hp in Hrec. simpl.
    destruct (ref_id ref); [reflexivity | discriminate].
Qed.

Lemma recs_log : convertible t -> log s3 = [].
Proof using Type.
  intros Hconv. unfold s3. rewrite passes_log, (recs_valid Hconv).
  unfold skipped. rewrite (recs_valid Hconv), length_map, Nat.sub_diag. simpl.
  pose proof (recs_built Hconv) as Hb.
  induction Hb as [| r l [d Hd] _ IH]; [reflexivity |].
  rewrite omap_cons_app, IH. unfold conversion_error, built in *.
  now destruct (AngularNode_init r).
Qed.

Lemma recs_heap_length : convertible t -> length (heap s3) = figma_tree_size t.
Proof using Type.
  intros Hconv.
  rewrite <- (length_map obj_data). unfold s3.
  rewrite passes_data, (recs_valid Hconv).
  rewrite <- (process_node_length None t).
  transitivity (length recs); [| unfold recs; apply length_map].
  pose proof (recs_built Hconv) as Hb. unfold converted.
  induction Hb as [| r l [d Hd] _ IH]; [reflexivity |].
  rewrite omap_cons_app, Hd. simpl. now rewrite IH.
Qed.

End RoundTrip.

(** X19. Flattening a document tree and converting the list rebuilds the
    tree.  When the root has a root type and no ["parent_id"], every node
    has an identifier and converts, and the identifiers are distinct: every
    element of the flattened list is a typed record; the conversion of
    these records returns one root; the object of the root holds the node
    of the root of the document, and its children are the objects of the
    children of the root, in order, and so on below; there is one object
    per node, and nothing is printed. *)
Theorem flatten_convert_round_trip (t : FigmaTree) :
  is_root_type t = true ->
  Forall (fun u => is_Some (fn_id (tree_fields u))
                   /\ raises (AngularNode_init (without_children (tree_fields u))) = false)
         (figma_tree_nodes t) ->
  NoDup (tree_ids t) ->
  fn_parent_id (tree_fields t) = None ->
  exists recs a s,
    map flat_record (flatten_figma_tree [t]) = map Some recs
    /\ convert_to_angular_nodes (map Dict recs) initial = (Ok [a], s)
    /\ represents (heap s) a t
    /\ length (heap s) = figma_tree_size t
    /\ log s = [].
Proof.
  intros Hty Hall Hnd Hroot.
  assert (Hconv : convertible t) by (split; [exact Hall | split; assumption]).
  set (recs := map typed_record (process_node None t)).
  destruct (convert_state (map Dict recs)) as (roots & s & E & Hheap & Hmap & Hroots).
  destruct (recs_roots t Hconv) as (d & Hd & Hdata).
  destruct (root_indices_spec recs) as [Hspec _].
  fold recs in Hdata. rewrite Hdata in Hspec.
  apply Forall2_cons_inv_r in Hspec as (i & rest & Hi & Hrest & Hidx).
  apply Forall2_nil_inv_r in Hrest as ->.
  assert (Hr3 : root_nodes (after_passes (map Dict recs) initial) = [i]).
  { rewrite passes_roots_exact. unfold recs. rewrite (recs_valid t Hconv). exact Hidx. }
  destruct Hroots as [-> Hlog]; [rewrite Hr3; discriminate |].
  destruct (node_represented t t Hconv) as (a & Ha & Hrep);
    [rewrite figma_tree_nodes_unfold; apply list_elem_of_here |].
  fold recs in Ha, Hrep.
  assert (Hia : i = a).
  { inversion Hrep as [a' o t' Ho Hinit _]; subst.
    destruct (passes_objects (map Dict recs) a o Ho) as (_ & _ & Hconvd).
    unfold recs in Hconvd. rewrite (recs_valid t Hconv) in Hconvd. fold recs in Hconvd.
    apply (converted_unique recs i a d (obj_data o));
      [apply (recs_ids t Hconv) | apply (recs_built t Hconv) | apply (recs_nodup t Hconv)
      | exact Hi | exact Hconvd |].
    change (typed_record (flat_node None t)) with (without_children (tree_fields t)) in Hd.
    unfold built in Hd. rewrite Hinit in Hd. now injection Hd as <-. }
  subst i.
  exists recs, a, s.
  split.
  { unfold flatten_figma_tree. simpl. rewrite Hty, app_nil_r.
    unfold recs. rewrite map_map. apply map_ext_in. intros n Hn.
    apply list_elem_of_In in Hn.
    now destruct (flattened_node t n Hconv Hn) as (_ & _ & _ & _ & -> & _). }
  split; [now rewrite E, Hr3 |]. rewrite Hheap, Hlog.
  split; [exact Hrep |].
  split; [apply (recs_heap_length t Hconv) | apply (recs_log t Hconv)].
Qed.

Lemma nested_frames_convertible :
  is_root_type nested_frames = true
  /\ Forall (fun u => is_Some (fn_id (tree_fields u))
                      /\ raises (AngularNode_init (without_children (tree_fields u)))
                         = false)
            (figma_tree_nodes nested_frames)
  /\ NoDup (tree_ids nested_frames)
  /\ fn_parent_id (tree_fields nested_frames) = None.
Proof.
  split; [reflexivity |]. split; [| split; [| reflexivity]].
  - repeat constructor; simpl; eauto.
  - apply (bool_decide_unpack _). vm_compute. exact I.
Qed.

Lemma flatten_convert_round_trip_witness :
  exists recs a s,
    map flat_record (flatten_figma_tree [nested_frames]) = map Some recs
    /\ convert_to_angular_nodes (map Dict recs) initial = (Ok [a], s)
    /\ represents (heap s) a nested_frames
    /\ length (heap s) = 2.
Proof.
  destruct nested_frames_convertible as (Hty & Hall & Hnd & Hroot).
  destruct (flatten_convert_round_trip nested_frames Hty Hall Hnd Hroot)
    as (recs & a & s & Hrecs & E & Hrep & Hlen & _).
  exists recs, a, s. auto.
Defined.

(* ===================================================================== *)
(** * The class names of the generator                                    *)
(* ===================================================================== *)

Lemma init_name (r : FigmaNode) (d : NodeData) :
  AngularNode_init r = Ok d -> node_name d = _clean_name (default [] (fn_name r)).
Proof.
  unfold AngularNode_init, mbind, result_bind.
  destruct (fn_rest r); [| discriminate]. intros [= <-]. reflexivity.
Qed.

Lemma analyze_keeps_name (cs : list NodeData) (n : NodeData) :
  node_name (snd (_analyze_node_layout cs n)) = node_name n.
Proof. exact (f_equal node_name (analyze_unanalyzed cs n)). Qed.

Lemma class_name_named (n : NodeData) :
  node_name n <> [] -> _get_class_name n = node_name n ++ cp "-element".
Proof. unfold _get_class_name. destruct (node_name n); [congruence | reflexivity]. Qed.

(** X22. The class name that [_get_class_name] gives a node built by
    [AngularNode] is the sanitized name followed by [-element]: the
    fallback to the type is not taken.  The layout analysis does not change
    it; it is a lower-case letter followed by characters of [[a-z0-9_-]];
    and two nodes have the same class name exactly when their names
    sanitize alike, whatever their identifiers. *)
Theorem class_name_of_node (r : FigmaNode) (d : NodeData) (children : list NodeData) :
  AngularNode_init r = Ok d ->
  let d' := snd (_analyze_node_layout children d) in
  let name := _clean_name (default [] (fn_name r)) in
  _get_class_name d = name ++ cp "-element"
  /\ _get_class_name d' = _get_class_name d
  /\ (exists c t, _get_class_name d = c :: t /\ is_lower c = true
                  /\ Forall (fun c => is_name_char c = true) (c :: t))
  /\ forall r2 d2, AngularNode_init r2 = Ok d2 ->
       (_get_class_name d2 = _get_class_name d
        <-> _clean_name (default [] (fn_name r2)) = name).
Proof.
  intros Hd d' name.
  assert (Hname : forall r0 d0, AngularNode_init r0 = Ok d0 ->
            _get_class_name d0 = _clean_name (default [] (fn_name r0)) ++ cp "-element").
  { intros r0 d0 H0. rewrite class_name_named.
    - now rewrite (init_name r0 d0 H0).
    - rewrite (init_name r0 d0 H0).
      destruct (clean_name_shape (default [] (fn_name r0))) as (c & t & -> & _).
      discriminate. }
  split; [now apply Hname |]. split.
  { assert (Hne : node_name d <> []).
    { rewrite (init_name r d Hd).
      destruct (clean_name_shape (default [] (fn_name r))) as (c & t & -> & _).
      discriminate. }
    unfold d'. rewrite !class_name_named; rewrite ?analyze_keeps_name; auto. }
  split.
  - rewrite (Hname r d Hd). fold name.
    destruct (clean_name_shape (default [] (fn_name r))) as (c & t & E & Hc & Hall).
    fold name in E. rewrite E. exists c, (t ++ cp "-element").
    split; [reflexivity |]. split; [exact Hc |].
    rewrite app_comm_cons. apply Forall_app. split; [exact Hall |].
    repeat (constructor; [reflexivity |]). constructor.
  - intros r2 d2 H2. rewrite (Hname r d Hd), (Hname r2 d2 H2). fold name. split.
    + apply app_inv_tail.
    + now intros ->.
Qed.

Lemma class_name_of_node_witness :
  result_map _get_class_name (AngularNode_init (plain_record "f" "FRAME" None))
  = Ok (cp "element-element").
Proof.
  destruct (class_name_of_node (plain_record "f" "FRAME" None) _ [] eq_refl)
    as (H1 & _).
  exact (f_equal Ok H1).
Defined.

(* ===================================================================== *)
(** * The validation of the inputs                                        *)
(* ===================================================================== *)

Lemma line_feed_no_key_char : is_key_char 10 = false.
Proof. reflexivity. Qed.

Lemma key_tail_spec (s : pystr) :
  key_tail s = true
  <-> exists w, Forall (fun c => is_key_char c = true) w /\ (s = w \/ s = w ++ [10%N]).
Proof.
  induction s as [| c s IH]; simpl.
  - split; [| reflexivity]. intros _. exists []. split; [constructor | now left].
  - destruct (is_key_char c) eqn:Hc.
    + rewrite IH. split.
      * intros (w & Hw & Hs). exists (c :: w). split; [now constructor |].
        destruct Hs as [-> | ->]; [now left | now right].
      * intros (w & Hw & Hs). destruct w as [| c' w].
        { destruct Hs as [Hs | Hs]; [discriminate |]. simpl in Hs.
          injection Hs as -> _. rewrite line_feed_no_key_char in Hc. discriminate. }
        apply Forall_cons in Hw as [_ Hw]. exists w. split; [exact Hw |].
        destruct Hs as [Hs | Hs]; simpl in Hs; injection Hs as _ ->; auto.
    + rewrite andb_true_iff, N.eqb_eq. split.
      * intros [-> Hs]. destruct s; [| discriminate]. exists []. split; [constructor |].
        now right.
      * intros (w & Hw & Hs). destruct w as [| c' w].
        { destruct Hs as [Hs | Hs]; [discriminate |]. simpl in Hs.
          now injection Hs as -> ->. }
        apply Forall_cons in Hw as [Hc' _].
        destruct Hs as [Hs | Hs]; simpl in Hs; injection Hs as -> _; congruence.
Qed.

Lemma re_match_key_spec (s : pystr) :
  re_match_key s = true
  <-> exists w, w <> [] /\ Forall (fun c => is_key_char c = true) w
                /\ (s = w \/ s = w ++ [10%N]).
Proof.
  destruct s as [| c s]; simpl.
  - split; [discriminate |]. intros (w & Hne & _ & [Hs | Hs]).
    + now subst.
    + destruct w; discriminate.
  - rewrite andb_true_iff, key_tail_spec. split.
    + intros (Hc & w & Hw & Hs). exists (c :: w). split; [discriminate |].
      split; [now constructor |]. destruct Hs as [-> | ->]; [now left | now right].
    + intros (w & Hne & Hw & Hs). destruct w as [| c' w]; [congruence |].
      apply Forall_cons in Hw as [Hc' Hw].
      destruct Hs as [Hs | Hs]; simpl in Hs; injection Hs as -> ->;
        (split; [exact Hc' |]); exists w; auto.
Qed.

(** X25. [validate_inputs] accepts exactly when the two tokens are not
    empty and the file key is one or more characters of [[a-zA-Z0-9_-]],
    alone or followed by one line feed: the [$] of the pattern lets a
    final line feed pass.  The message is empty exactly when the inputs
    are accepted. *)
Theorem validate_inputs_accepts (file_key access_token openai_api_key : pystr) :
  (fst (validate_inputs file_key access_token openai_api_key) = true
   <-> access_token <> [] /\ openai_api_key <> []
       /\ exists w, w <> [] /\ Forall (fun c => is_key_char c = true) w
                     /\ (file_key = w \/ file_key = w ++ [10%N]))
  /\ (fst (validate_inputs file_key access_token openai_api_key) = true
      <-> snd (validate_inputs file_key access_token openai_api_key) = ""%string).
Proof.
  pose proof (re_match_key_spec file_key) as Hre.
  unfold validate_inputs.
  destruct file_key as [| c k].
  { simpl. split; [| split; discriminate]. split; [discriminate |].
    intros (_ & _ & w & Hne & _ & [Hs | Hs]); [now subst | destruct w; discriminate]. }
  destruct access_token as [| c1 a].
  { simpl. split; [| split; discriminate]. split; [discriminate |]. now intros [H _]. }
  destruct openai_api_key as [| c2 o].
  { simpl. split; [| split; discriminate]. split; [discriminate |]. now intros (_ & H & _). }
  destruct (re_match_key (c :: k)) eqn:E; simpl.
  - split; [| split; reflexivity]. split; [| reflexivity]. intros _.
    split; [discriminate |]. split; [discriminate |]. now apply Hre.
  - split; [| split; discriminate]. split; [discriminate |].
    intros (_ & _ & H). apply Hre in H. discriminate.
Qed.

(* ===================================================================== *)
(** * The pipeline of [generate_enhanced_angular_code]                    *)
(* ===================================================================== *)

(** ** Subtrees of a document *)

Lemma subtree_nodes (t w u : FigmaTree) :
  w ∈ figma_tree_nodes t -> u ∈ figma_tree_nodes w -> u ∈ figma_tree_nodes t.
Proof.
  induction t as [fields children IH] using FigmaTree_induction.
  rewrite figma_tree_nodes_unfold. simpl tree_children. intros Hw Hu.
  apply elem_of_cons in Hw as [-> | Hw].
  - now rewrite figma_tree_nodes_unfold in Hu.
  - apply list_elem_of_further.
    apply list_elem_of_In, in_flat_map in Hw as (c & Hc & Hw).
    apply list_elem_of_In, in_flat_map. exists c. split; [exact Hc |].
    rewrite Forall_forall in IH.
    apply list_elem_of_In, IH; [now apply list_elem_of_In | now apply list_elem_of_In
                               | exact Hu].
Qed.

Lemma subtree_ids (t w : FigmaTree) (i : option string) :
  w ∈ figma_tree_nodes t -> i ∈ tree_ids w -> i ∈ tree_ids t.
Proof.
  intros Hw Hi. unfold tree_ids in *.
  apply list_elem_of_In, in_map_iff in Hi as (u & <- & Hu).
  apply list_elem_of_In, in_map_iff. exists u. split; [reflexivity |].
  apply list_elem_of_In. eapply subtree_nodes; [exact Hw | now apply list_elem_of_In].
Qed.

Lemma NoDup_flat_map_elem {A B} (f : A -> list B) (l : list A) (a : A) :
  NoDup (flat_map f l) -> a ∈ l -> NoDup (f a).
Proof.
  induction l as [| b l IH]; intros Hnd Ha; [inversion Ha |].
  simpl in Hnd. apply NoDup_app in Hnd as (H1 & _ & H2).
  apply elem_of_cons in Ha as [-> | Ha]; auto.
Qed.

Lemma subtree_nodup (t w : FigmaTree) :
  w ∈ figma_tree_nodes t -> NoDup (tree_ids t) -> NoDup (tree_ids w).
Proof.
  induction t as [fields children IH] using FigmaTree_induction.
  rewrite figma_tree_nodes_unfold. simpl tree_children. intros Hw Hnd.
  apply elem_of_cons in Hw as [-> | Hw]; [exact Hnd |].
  rewrite tree_ids_unfold in Hnd. simpl tree_children in Hnd.
  apply NoDup_cons in Hnd as [_ Hnd].
  apply list_elem_of_In, in_flat_map in Hw as (c & Hc & Hw).
  rewrite Forall_forall in IH.
  apply (IH c); [now apply list_elem_of_In | now apply list_elem_of_In |].
  apply (NoDup_flat_map_elem tree_ids _ c Hnd). now apply list_elem_of_In.
Qed.

Lemma node_of_id (t : FigmaTree) (i : option string) :
  i ∈ tree_ids t <-> exists u, u ∈ figma_tree_nodes t /\ fn_id (tree_fields u) = i.
Proof.
  unfold tree_ids. rewrite list_elem_of_In, in_map_iff. split.
  - intros (u & <- & Hu). exists u. split; [now apply list_elem_of_In | reflexivity].
  - intros (u & Hu & <-). exists u. split; [reflexivity | now apply list_elem_of_In].
Qed.

Lemma same_node (t u u' : FigmaTree) :
  NoDup (tree_ids t) -> u ∈ figma_tree_nodes t -> u' ∈ figma_tree_nodes t ->
  fn_id (tree_fields u) = fn_id (tree_fields u') -> u = u'.
Proof. apply (NoDup_map_elem (fun n => fn_id (tree_fields n))). Qed.

Lemma traverse_node_nodes (t w : FigmaTree) :
  w ∈ traverse_node t -> w ∈ figma_tree_nodes t.
Proof.
  induction t as [fields children IH] using FigmaTree_induction.
  rewrite traverse_node_unfold, figma_tree_nodes_unfold. simpl tree_children.
  simpl tree_fields. destruct (fn_type fields); [| intros H; inversion H].
  intros Hw. apply elem_of_cons in Hw as [-> | Hw]; [apply list_elem_of_here |].
  apply list_elem_of_further.
  apply list_elem_of_In, in_flat_map in Hw as (c & Hc & Hw).
  apply list_elem_of_In, in_flat_map. exists c. split; [exact Hc |].
  rewrite Forall_forall in IH.
  apply list_elem_of_In, IH; [now apply list_elem_of_In | now apply list_elem_of_In].
Qed.

(** ** The conversion of a list of elements built from a document *)

Section FlatList.
Variable t : FigmaTree.
Variable flat : list FlatNode.
Let recs := map typed_record flat.
Let s3 := after_passes (map Dict recs) initial.

Lemma flat_typed (n : FlatNode) :
  all_convert t -> Forall (flat_of t) flat -> n ∈ flat ->
  exists u d,
    u ∈ figma_tree_nodes t
    /\ flat_fields n = without_children (tree_fields u)
    /\ flat_record n = Some (typed_record n)
    /\ fn_id (typed_record n) = fn_id (tree_fields u)
    /\ fn_parent_id (typed_record n) = flat_parent n ≫= ref_id
    /\ AngularNode_init (without_children (tree_fields u)) = Ok d
    /\ built (typed_record n) = Some d.
Proof using Type.
  intros Hall Hflat Hn. unfold all_convert in Hall.
  rewrite Forall_forall in Hall. rewrite Forall_forall in Hflat.
  destruct (Hflat n Hn) as (u & Hu & Hf & Hp).
  destruct (Hall u Hu) as [_ Hok].
  destruct (AngularNode_init (without_children (tree_fields u))) as [d |] eqn:Hd;
    [| discriminate].
  exists u, d. split; [exact Hu |]. split; [exact Hf |].
  unfold typed_record, flat_record, built.
  destruct (flat_parent n) as [ref |].
  - destruct Hp as (m & Hm & ->). destruct (Hall m Hm) as [[p Hpid] _].
    simpl. rewrite Hpid. simpl. rewrite init_with_parent_id, Hf, Hd. auto 10.
  - simpl. rewrite Hf, Hd. simpl. auto 10.
Qed.

Lemma flat_recs_elem (r : FigmaNode) :
  r ∈ recs <-> exists n, n ∈ flat /\ r = typed_record n.
Proof using Type.
  unfold recs. rewrite list_elem_of_In, in_map_iff. split.
  - intros (n & <- & Hn). exists n. split; [now apply list_elem_of_In | reflexivity].
  - intros (n & Hn & ->). exists n. split; [reflexivity | now apply list_elem_of_In].
Qed.

Lemma flat_recs_ids :
  all_convert t -> Forall (flat_of t) flat -> Forall (fun r => is_Some (fn_id r)) recs.
Proof using Type.
  intros Hall Hflat. apply Forall_forall. intros r Hr.
  apply flat_recs_elem in Hr as (n & Hn & ->).
  destruct (flat_typed n Hall Hflat Hn) as (u & d & Hu & _ & _ & -> & _).
  unfold all_convert in Hall. rewrite Forall_forall in Hall. now apply Hall.
Qed.

Lemma flat_recs_built :
  all_convert t -> Forall (flat_of t) flat -> Forall (fun r => is_Some (built r)) recs.
Proof using Type.
  intros Hall Hflat. apply Forall_forall. intros r Hr.
  apply flat_recs_elem in Hr as (n & Hn & ->).
  destruct (flat_typed n Hall Hflat Hn) as (u & d & _ & _ & _ & _ & _ & _ & ->). eauto.
Qed.

Lemma flat_recs_valid :
  all_convert t -> Forall (flat_of t) flat -> valid_of (map Dict recs) = recs.
Proof using Type. intros Hall Hflat. now apply valid_of_dicts, flat_recs_ids. Qed.

Lemma flat_records :
  all_convert t -> Forall (flat_of t) flat -> map flat_record flat = map Some recs.
Proof using Type.
  intros Hall Hflat. unfold recs. rewrite map_map. apply map_ext_in. intros n Hn.
  apply list_elem_of_In in Hn.
  now destruct (flat_typed n Hall Hflat Hn) as (_ & _ & _ & _ & -> & _).
Qed.


Lemma flat_converted (j : nat) :
  all_convert t -> Forall (flat_of t) flat ->
  converted recs !! j = flat !! j ≫= (fun n => built (typed_record n)).
Proof using Type.
  intros Hall Hflat. rewrite (converted_lookup recs j (flat_recs_built Hall Hflat)).
  unfold recs. change (map typed_record flat) with (typed_record <$> flat).
  rewrite list_lookup_fmap. now destruct (flat !! j).
Qed.

Lemma flat_heap_length :
  all_convert t -> Forall (flat_of t) flat -> length (heap s3) = length flat.
Proof using Type.
  intros Hall Hflat.
  rewrite <- (length_map obj_data). unfold s3.
  rewrite passes_data, (flat_recs_valid Hall Hflat).
  transitivity (length recs); [| unfold recs; apply length_map].
  pose proof (flat_recs_built Hall Hflat) as Hb. unfold converted.
  induction Hb as [| r l [d Hd] _ IH]; [reflexivity |].
  rewrite omap_cons_app, Hd. simpl. now rewrite IH.
Qed.

(** The identifier of an element of the list is a key of [node_map]; the
    object registered holds the node of that identifier, and its children
    are the objects registered for the elements that refer to it, one per
    element, in order. *)
Lemma flat_registered (u : FigmaTree) (k : string) (n : FlatNode) :
  all_convert t -> NoDup (tree_ids t) -> Forall (flat_of t) flat ->
  u ∈ figma_tree_nodes t -> fn_id (tree_fields u) = Some k ->
  n ∈ flat -> fn_id (flat_fields n) = Some k ->
  exists a o,
    dict_get k (node_map s3) = Some a
    /\ heap s3 !! a = Some o
    /\ AngularNode_init (without_children (tree_fields u)) = Ok (obj_data o)
    /\ obj_children o
       = omap (fun n => fn_id (flat_fields n) ≫= (fun i => dict_get i (node_map s3)))
              (List.filter (refers_to k) flat).
Proof using Type.
  intros Hall Hnd Hflat Hu Hk Hn Hnk.
  destruct (flat_typed n Hall Hflat Hn) as (u0 & d0 & _ & Hf0 & _ & Hid0 & _ & _ & Hb0).
  assert (Hk0 : fn_id (typed_record n) = Some k).
  { rewrite Hid0, <- Hnk, Hf0. reflexivity. }
  destruct (last_index k (converted recs)) as [a |] eqn:Hlast.
  2:{ exfalso. apply (proj1 (last_index_None _ _) Hlast d0).
      - apply converted_elem. exists (typed_record n).
        split; [| exact Hb0]. apply flat_recs_elem. eauto.
      - rewrite (built_id _ _ Hb0), Hk0. reflexivity. }
  assert (Hget : dict_get k (node_map s3) = Some a).
  { unfold s3. rewrite passes_map, (flat_recs_valid Hall Hflat). exact Hlast. }
  destruct (passes_map_object (map Dict recs) k a Hget) as (o & Ho & Hok & Hdata).
  fold s3 in Ho. rewrite (flat_recs_valid Hall Hflat) in Hdata.
  exists a, o. split; [exact Hget |]. split; [exact Ho |]. split.
  - apply list_elem_of_lookup_2, converted_elem in Hdata as (r & Hr & Hb).
    apply flat_recs_elem in Hr as (n' & Hn' & ->).
    destruct (flat_typed n' Hall Hflat Hn')
      as (u' & d' & Hu' & _ & _ & Hid' & _ & Hd' & Hb').
    assert (u' = u).
    { apply (same_node t); [exact Hnd | exact Hu' | exact Hu |].
      rewrite Hk, <- Hid'. rewrite (built_id _ _ Hb), Hid' in Hok.
      unfold all_convert in Hall. rewrite Forall_forall in Hall.
      destruct (Hall u' Hu') as [[k' Hk'] _]. rewrite Hid', Hk'. rewrite Hk' in Hok.
      simpl in Hok. now subst. }
    subst u'. congruence.
  - destruct (passes_objects (map Dict recs) a o Ho) as (Hc & _ & _).
    rewrite Hc, (flat_recs_valid Hall Hflat).
    rewrite (children_by_reference (map Dict recs) k a Hget recs).
    fold s3. unfold recs. rewrite omap_map.
    rewrite (omap_ext_in _ (fun n => if refers_to k n
                                     then fn_id (flat_fields n)
                                          ≫= (fun i => dict_get i (node_map s3))
                                     else None)).
    2:{ intros n' Hn'.
        destruct (flat_typed n' Hall Hflat Hn')
          as (u' & d' & _ & Hf' & _ & Hid' & Hpar & _).
        rewrite Hpar, Hid', Hf'. reflexivity. }
    now rewrite omap_filter.
Qed.

(** An identifier that no element carries is no key of [node_map]. *)
Lemma flat_unregistered (k : string) :
  all_convert t -> Forall (flat_of t) flat ->
  (forall n, n ∈ flat -> fn_id (flat_fields n) <> Some k) ->
  dict_get k (node_map s3) = None.
Proof using Type.
  intros Hall Hflat Hnone. unfold s3.
  rewrite passes_map, (flat_recs_valid Hall Hflat). apply last_index_None.
  intros d Hd Hk. apply converted_elem in Hd as (r & Hr & Hb).
  apply flat_recs_elem in Hr as (n & Hn & ->).
  destruct (flat_typed n Hall Hflat Hn) as (u & d' & Hu & Hf & _ & Hid & _).
  apply (Hnone n Hn). rewrite (built_id _ _ Hb), Hid in Hk.
  rewrite Hf. simpl.
  unfold all_convert in Hall. rewrite Forall_forall in Hall.
  destruct (Hall u Hu) as [[k' Hk'] _]. rewrite Hk' in Hk |- *. simpl in Hk. now subst.
Qed.

(** The element at position [j] is registered at [j] when no later element
    has its identifier. *)
Lemma flat_address (j : nat) (n : FlatNode) (k : string) :
  all_convert t -> Forall (flat_of t) flat ->
  flat !! j = Some n -> fn_id (flat_fields n) = Some k ->
  (forall j' n', flat !! j' = Some n' -> fn_id (flat_fields n') = Some k -> j' <= j) ->
  dict_get k (node_map s3) = Some j.
Proof using Type.
  intros Hall Hflat Hj Hk Hlast. unfold s3.
  rewrite passes_map, (flat_recs_valid Hall Hflat).
  assert (Hid : forall j' n' d', flat !! j' = Some n' -> built (typed_record n') = Some d' ->
            fn_id (flat_fields n') = Some (node_id d')).
  { intros j' n' d' Hj' Hb'.
    destruct (flat_typed n' Hall Hflat (list_elem_of_lookup_2 _ _ _ Hj'))
      as (u & d & Hu & Hf & _ & Hid & _).
    rewrite (built_id _ _ Hb'), Hid, Hf. simpl.
    unfold all_convert in Hall. rewrite Forall_forall in Hall.
    destruct (Hall u Hu) as [[k' ->] _]. reflexivity. }
  destruct (flat_typed n Hall Hflat (list_elem_of_lookup_2 _ _ _ Hj))
    as (u & d & _ & _ & _ & _ & _ & _ & Hb).
  apply (last_index_complete k _ j d).
  - rewrite (flat_converted j Hall Hflat), Hj. exact Hb.
  - pose proof (Hid j n d Hj Hb) as E. congruence.
  - intros j' d' Hj' Hk'. rewrite (flat_converted j' Hall Hflat) in Hj'.
    destruct (flat !! j') as [n' |] eqn:Hn'; [| discriminate]. simpl in Hj'.
    apply (Hlast j' n' Hn'). rewrite (Hid j' n' d' Hn' Hj'). now rewrite Hk'.
Qed.

End FlatList.

(** ** The roots of the conversion *)

Lemma positions_app {A} (P : A -> bool) (l1 l2 : list A) :
  positions P (l1 ++ l2) = positions P l1 ++ map (plus (length l1)) (positions P l2).
Proof.
  induction l1 as [| a l1 IH]; simpl.
  - symmetry. apply map_id.
  - rewrite IH, map_app, map_map, <- app_assoc. reflexivity.
Qed.

Lemma positions_none {A} (P : A -> bool) (l : list A) :
  Forall (fun a => P a = false) l -> positions P l = [].
Proof.
  induction 1 as [| a l Ha _ IH]; simpl; [reflexivity |]. now rewrite Ha, IH.
Qed.

Lemma positions_length {A} (P : A -> bool) (l : list A) :
  length (positions P l) = length (List.filter P l).
Proof.
  induction l as [| a l IH]; simpl; [reflexivity |].
  rewrite length_app, length_map, IH. now destruct (P a).
Qed.

Lemma root_indices_positions (t : FigmaTree) (flat : list FlatNode) :
  all_convert t -> Forall (flat_of t) flat ->
  root_indices (map typed_record flat) = positions is_parentless flat.
Proof.
  intros Hall. induction 1 as [| n flat Hn Hflat IH]; [reflexivity |].
  assert (Hone : Forall (flat_of t) [n]) by (constructor; [exact Hn | constructor]).
  destruct (flat_typed t [n] n Hall Hone (list_elem_of_here _ _))
    as (u & d & _ & _ & Hrec & _ & Hpar & _ & Hb).
  simpl. rewrite Hb, IH. f_equal.
  unfold root_candidate, is_parentless. rewrite Hb, Hpar.
  destruct (flat_parent n) as [ref |] eqn:Hp; [| reflexivity].
  unfold flat_record in Hrec. rewrite Hp in Hrec. simpl.
  destruct (ref_id ref); [reflexivity | discriminate].
Qed.

Lemma process_node_flat_of (t w : FigmaTree) (parent : option ParentRef)
    (n : FlatNode) :
  w ∈ figma_tree_nodes t ->
  match parent with
  | None => fn_parent_id (tree_fields w) = None
  | Some ref => exists m, m ∈ figma_tree_nodes t /\ ref = parent_ref (tree_fields m)
  end ->
  n ∈ process_node parent w -> flat_of t n.
Proof.
  intros Hw Hparent Hn.
  destruct (process_node_elem parent w n Hn) as (u & Hu & Hf & Hp).
  destruct (flat_parent n) as [ref |] eqn:Hfp.
  - exists u. split; [eapply subtree_nodes; eauto |]. split; [exact Hf |].
    rewrite Hfp. destruct Hp as [<- | (m & Hm & Hpm)]; [exact Hparent |].
    injection Hpm as ->. exists m. split; [eapply subtree_nodes; eauto | reflexivity].
  - destruct Hp as [<- | (m & _ & Hpm)]; [| discriminate].
    exists w. split; [exact Hw |].
    rewrite (flattened_parentless w n Hn Hfp). split; [reflexivity |]. exact Hparent.
Qed.

(** ** The first leaf *)

Lemma process_node_nonempty (parent : option ParentRef) (t : FigmaTree) :
  process_node parent t <> [].
Proof.
  rewrite process_node_unfold. intros H. apply app_eq_nil in H as [_ H]. discriminate.
Qed.


(** ** The list cut at the limit *)



Section Truncated.
Variable t : FigmaTree.
Variable n : nat.
Let front := flat_map (process_node (Some (parent_ref (tree_fields t)))) (tree_children t).
Let flat := firstn n (process_node None t).








End Truncated.




(** ** The list that is not cut: one block per node of a root type *)

Lemma flatten_roots (nodes : list FigmaTree) :
  flatten_figma_tree nodes
  = flat_map (process_node None) (List.filter is_root_type nodes).
Proof.
  unfold flatten_figma_tree. induction nodes as [| a nodes IH]; [reflexivity |].
  simpl. destruct (is_root_type a); simpl; now rewrite IH.
Qed.

Lemma blocks_elem (ws : list FigmaTree) (n : FlatNode) :
  n ∈ flat_map (process_node None) ws
  <-> exists w, w ∈ ws /\ n ∈ process_node None w.
Proof.
  rewrite list_elem_of_In, in_flat_map. split.
  - intros (w & Hw & Hn). exists w. split; now apply list_elem_of_In.
  - intros (w & Hw & Hn). exists w. split; now apply list_elem_of_In.
Qed.

Lemma well_formed_convert (t : FigmaTree) : well_formed t -> all_convert t.
Proof.
  intros [H _]. unfold all_convert. eapply Forall_impl; [exact H |].
  intros u (H1 & _ & H3). auto.
Qed.

Lemma blocks_flat_of (t : FigmaTree) (ws : list FigmaTree) :
  well_formed t -> Forall (fun w => w ∈ figma_tree_nodes t) ws ->
  Forall (flat_of t) (flat_map (process_node None) ws).
Proof.
  intros [Hall _] Hws. apply Forall_forall. intros n Hn.
  apply blocks_elem in Hn as (w & Hw & Hn).
  rewrite Forall_forall in Hws. rewrite Forall_forall in Hall.
  apply (process_node_flat_of t w None n); [now apply Hws | | exact Hn].
  now destruct (Hall w (Hws w Hw)) as (_ & H & _).
Qed.

Lemma block_ids (t w : FigmaTree) (n : FlatNode) :
  w ∈ figma_tree_nodes t -> n ∈ process_node None w ->
  fn_id (flat_fields n) ∈ tree_ids w.
Proof.
  intros Hw Hn. destruct (process_node_elem None w n Hn) as (u & Hu & Hf & _).
  rewrite Hf. simpl. apply node_of_id. eauto.
Qed.

(** ** The elements that refer to a node *)

Lemma refers_block (t w u : FigmaTree) (k : string) :
  NoDup (tree_ids t) -> w ∈ figma_tree_nodes t -> u ∈ figma_tree_nodes t ->
  fn_id (tree_fields u) = Some k ->
  List.filter (refers_to k) (process_node None w)
  = if bool_decide (Some k ∈ tree_ids w)
    then map (flat_node (Some (parent_ref (tree_fields u)))) (tree_children u)
    else [].
Proof.
  intros Hnd Hw Hu Hk. destruct (decide (Some k ∈ tree_ids w)) as [Hin | Hout].
  - rewrite bool_decide_eq_true_2 by exact Hin.
    apply node_of_id in Hin as (u' & Hu' & Hk').
    assert (u' = u).
    { apply (same_node t); [exact Hnd | exact (subtree_nodes t w u' Hw Hu') | exact Hu
                           | congruence]. }
    subst u'.
    rewrite (process_node_refers k w u Hk None (subtree_nodup t w Hw Hnd) Hu').
    rewrite bool_decide_eq_false_2 by discriminate. apply app_nil_r.
  - rewrite bool_decide_eq_false_2 by exact Hout.
    rewrite (process_node_refers_outside k None w Hout).
    now rewrite bool_decide_eq_false_2 by discriminate.
Qed.

Lemma flat_map_cond {A B} (P : A -> bool) (X : list B) (l : list A) :
  flat_map (fun a => if P a then X else []) l
  = concat (replicate (length (List.filter P l)) X).
Proof.
  induction l as [| a l IH]; [reflexivity |]. simpl.
  destruct (P a); simpl; now rewrite IH.
Qed.

Lemma flat_map_ext_in {A B} (f g : A -> list B) (l : list A) :
  (forall a, a ∈ l -> f a = g a) -> flat_map f l = flat_map g l.
Proof.
  induction l as [| a l IH]; intros H; [reflexivity |]. simpl.
  rewrite (H a (list_elem_of_here _ _)), IH; [reflexivity |].
  intros a' Ha'. apply H. now right.
Qed.

Lemma refers_blocks (t u : FigmaTree) (ws : list FigmaTree) (k : string) :
  NoDup (tree_ids t) -> Forall (fun w => w ∈ figma_tree_nodes t) ws ->
  u ∈ figma_tree_nodes t -> fn_id (tree_fields u) = Some k ->
  List.filter (refers_to k) (flat_map (process_node None) ws)
  = concat (replicate
              (length (List.filter (fun w => bool_decide (Some k ∈ tree_ids w)) ws))
              (map (flat_node (Some (parent_ref (tree_fields u)))) (tree_children u))).
Proof.
  intros Hnd Hws Hu Hk. rewrite filter_over_flat_map, <- flat_map_cond.
  apply flat_map_ext_in. intros w Hw. rewrite Forall_forall in Hws.
  apply (refers_block t w u k Hnd (Hws w Hw) Hu Hk).
Qed.

Lemma omap_repeated {A B} (f : A -> option B) (m : nat) (X : list A) :
  omap f (concat (replicate m X)) = concat (replicate m (omap f X)).
Proof.
  induction m as [| m IH]; [reflexivity |]. simpl. now rewrite omap_app, IH.
Qed.

Lemma omap_total {A B} (f : A -> option B) (l : list A) :
  Forall (fun a => is_Some (f a)) l -> Forall2 (fun a b => f a = Some b) l (omap f l).
Proof.
  induction 1 as [| a l [b Hb] _ IH]; [constructor |].
  rewrite omap_cons_app, Hb. simpl. now constructor.
Qed.

(** ** Document order *)

Lemma StronglySorted_app_intro {A} (R : A -> A -> Prop) (l1 l2 : list A) :
  StronglySorted R l1 -> StronglySorted R l2 ->
  (forall a b, a ∈ l1 -> b ∈ l2 -> R a b) ->
  StronglySorted R (l1 ++ l2).
Proof.
  intros H1 H2 H. induction H1 as [| a l1 Hl1 IH Ha]; [exact H2 |].
  simpl. constructor.
  - apply IH. intros x y Hx Hy. apply H; [now right | exact Hy].
  - apply Forall_app. split; [exact Ha |].
    apply Forall_forall. intros b Hb. apply H; [apply list_elem_of_here | exact Hb].
Qed.

Lemma StronglySorted_filter {A} (R : A -> A -> Prop) (P : A -> bool) (l : list A) :
  StronglySorted R l -> StronglySorted R (List.filter P l).
Proof.
  induction 1 as [| a l Hl IH Ha]; [constructor |]. simpl.
  destruct (P a); [| exact IH]. constructor; [exact IH |].
  rewrite Forall_forall in Ha |- *. intros b Hb. apply Ha.
  apply list_elem_of_In, filter_In in Hb as [Hb _]. now apply list_elem_of_In.
Qed.

(** In the list of [extract_nodes] a node comes before the nodes below it
    and before those of the subtrees that follow: it is outside the subtree
    of every later node. *)
Lemma traverse_order (t : FigmaTree) :
  NoDup (tree_ids t) -> StronglySorted outside (traverse_node t).
Proof.
  induction t as [fields children IH] using FigmaTree_induction.
  rewrite traverse_node_unfold, tree_ids_unfold. simpl tree_children. simpl tree_fields.
  intros Hnd. destruct (fn_type fields); [| constructor].
  apply NoDup_cons in Hnd as [Hroot Hnd].
  assert (Hsub : forall c w i, c ∈ default [] children -> w ∈ traverse_node c ->
            i ∈ tree_ids w -> i ∈ flat_map tree_ids (default [] children)).
  { intros c w i Hc Hw Hi.
    apply (tree_ids_child (Tree fields children) c i Hc).
    apply (subtree_ids c w i (traverse_node_nodes c w Hw) Hi). }
  constructor.
  - clear Hroot. induction IH as [| c cs Hc _ IHcs]; [constructor |].
    simpl in Hnd |- *. apply NoDup_app in Hnd as (Hndc & Hdisj & Hndcs).
    apply StronglySorted_app_intro; [now apply Hc | |].
    + apply IHcs; [exact Hndcs |].
      intros c' w i Hc' Hw Hi.
      apply list_elem_of_In, in_flat_map. exists c'.
      split; [now apply list_elem_of_In |].
      apply list_elem_of_In, (subtree_ids c' w i (traverse_node_nodes c' w Hw) Hi).
    + intros a b Ha Hb Hin.
      apply list_elem_of_In, in_flat_map in Hb as (c' & Hc' & Hb).
      apply (Hdisj (fn_id (tree_fields a))).
      * apply node_of_id. exists a. split; [| reflexivity].
        now apply traverse_node_nodes.
      * apply list_elem_of_In, in_flat_map. exists c'. split; [exact Hc' |].
        apply list_elem_of_In.
        apply (subtree_ids c' b _ (traverse_node_nodes c' b (proj2 (list_elem_of_In _ _) Hb)) Hin).
  - apply Forall_forall. intros w Hw Hin. apply Hroot.
    apply list_elem_of_In, in_flat_map in Hw as (c & Hc & Hw).
    apply (Hsub c w _ (proj2 (list_elem_of_In _ _) Hc) (proj2 (list_elem_of_In _ _) Hw) Hin).
Qed.

Lemma StronglySorted_app_inv_suffix {A} (R : A -> A -> Prop) (l1 l2 : list A) :
  StronglySorted R (l1 ++ l2) -> StronglySorted R l2.
Proof.
  induction l1 as [| a l1 IH]; [auto |]. simpl. intros H.
  apply StronglySorted_inv in H as [H _]. auto.
Qed.

(** ** The blocks of the list *)

Lemma blocks_parentless (ws : list FigmaTree) :
  List.filter is_parentless (flat_map (process_node None) ws)
  = map (flat_node None) ws.
Proof.
  rewrite filter_over_flat_map. induction ws as [| w ws IH]; [reflexivity |].
  simpl. now rewrite process_node_parentless, IH.
Qed.

Lemma front_parents (w : FigmaTree) :
  Forall (fun m => is_parentless m = false)
    (flat_map (process_node (Some (parent_ref (tree_fields w)))) (tree_children w)).
Proof.
  apply Forall_forall. intros m Hm.
  apply list_elem_of_In, in_flat_map in Hm as (c & Hc & Hm).
  destruct (is_parentless m) eqn:E; [| reflexivity]. exfalso.
  assert (Hf : In m (List.filter is_parentless
                       (process_node (Some (parent_ref (tree_fields w))) c))).
  { apply filter_In. split; [exact Hm | exact E]. }
  rewrite process_node_parentless in Hf. inversion Hf.
Qed.

Section Pipeline.
Variable t : FigmaTree.
Let ws := List.filter is_root_type (traverse_node t).
Let flat := flat_map (process_node None) ws.
Let recs := map typed_record flat.
Let s3 := after_passes (map Dict recs) initial.

Lemma pipeline_roots_nodes : Forall (fun w => w ∈ figma_tree_nodes t) ws.
Proof using Type.
  apply Forall_forall. intros w Hw. unfold ws in Hw.
  apply list_elem_of_In, filter_In in Hw as [Hw _].
  now apply traverse_node_nodes, list_elem_of_In.
Qed.

Lemma pipeline_flat_of : well_formed t -> Forall (flat_of t) flat.
Proof using Type. intros Hwf. apply (blocks_flat_of t ws Hwf), pipeline_roots_nodes. Qed.

Lemma pipeline_order : NoDup (tree_ids t) -> StronglySorted outside ws.
Proof using Type. intros Hnd. now apply StronglySorted_filter, traverse_order. Qed.

(** The root of the [i]-th block is registered at its own address, the
    [i]-th position of an element without parent reference. *)
Lemma pipeline_root_address (i : nat) (w : FigmaTree) :
  well_formed t -> ws !! i = Some w ->
  exists a, positions is_parentless flat !! i = Some a
            /\ address_of (node_map s3) w = Some a.
Proof using Type.
  intros Hwf Hi. pose proof (well_formed_convert t Hwf) as Hall.
  pose proof (pipeline_flat_of Hwf) as Hflat. destruct Hwf as [Hfields Hnd].
  pose proof (take_drop_middle ws i w Hi) as Hsplit.
  set (ws1 := take i ws) in *. set (ws2 := drop (S i) ws) in *.
  set (F1 := flat_map (process_node None) ws1).
  set (F2 := flat_map (process_node None) ws2).
  set (front := flat_map (process_node (Some (parent_ref (tree_fields w))))
                         (tree_children w)).
  assert (E : flat = (F1 ++ front) ++ flat_node None w :: F2).
  { unfold flat. rewrite <- Hsplit, flat_map_app. simpl.
    rewrite process_node_unfold. fold front F1 F2.
    now rewrite <- !app_assoc. }
  assert (Hlen1 : length ws1 = i).
  { unfold ws1. rewrite length_take. apply lookup_lt_Some in Hi. lia. }
  exists (length (F1 ++ front)). split.
  - rewrite E, <- app_assoc, positions_app.
    rewrite (positions_app _ front).
    rewrite (positions_none _ front (front_parents w)). simpl.
    rewrite length_app.
    replace (length F1 + (length front + 0)) with (length F1 + length front) by lia.
    apply list_lookup_middle.
    rewrite positions_length. unfold F1. rewrite blocks_parentless, length_map.
    now symmetry.
  - pose proof pipeline_roots_nodes as Hws. rewrite Forall_forall in Hws.
    assert (Hw : w ∈ figma_tree_nodes t).
    { apply Hws. eapply list_elem_of_lookup_2, Hi. }
    rewrite Forall_forall in Hfields. destruct (Hfields w Hw) as ([k Hk] & _).
    unfold address_of. rewrite Hk. simpl.
    apply (flat_address t flat _ (flat_node None w) k Hall Hflat).
    + rewrite E. now apply list_lookup_middle.
    + exact Hk.
    + intros j' n' Hj' Hk'.
      destruct (decide (j' <= length (F1 ++ front))) as [Hle | Hgt]; [exact Hle |].
      exfalso. rewrite E in Hj'.
      rewrite lookup_app_r in Hj' by lia.
      destruct (j' - length (F1 ++ front)) as [| j2] eqn:Ej; [lia |].
      simpl in Hj'. apply list_elem_of_lookup_2 in Hj'.
      apply blocks_elem in Hj' as (w' & Hw' & Hn').
      assert (Hin' : w' ∈ ws).
      { rewrite <- Hsplit. apply elem_of_app. right. now right. }
      pose proof (block_ids t w' n' (Hws w' Hin') Hn') as Hid. rewrite Hk' in Hid.
      pose proof (pipeline_order Hnd) as Hord. rewrite <- Hsplit in Hord.
      apply StronglySorted_app_inv_suffix, StronglySorted_inv in Hord as [_ Hord].
      rewrite Forall_forall in Hord. apply (Hord w' Hw'). unfold outside.
      now rewrite Hk.
Qed.

Lemma pipeline_roots :
  well_formed t ->
  Forall2 (fun w a => address_of (node_map s3) w = Some a)
    ws (positions is_parentless flat).
Proof using Type.
  intros Hwf. apply Forall2_same_length_lookup_2.
  - rewrite positions_length. unfold flat. now rewrite blocks_parentless, length_map.
  - intros i w a Hw Ha.
    destruct (pipeline_root_address i w Hwf Hw) as (a' & Ha' & Haddr). congruence.
Qed.

(** The object registered for a node that some block holds. *)
Lemma pipeline_object (u : FigmaTree) (k : string) :
  well_formed t -> u ∈ figma_tree_nodes t -> fn_id (tree_fields u) = Some k ->
  0 < enclosing_roots t k ->
  exists a o,
    dict_get k (node_map s3) = Some a
    /\ heap s3 !! a = Some o
    /\ AngularNode_init (without_children (tree_fields u)) = Ok (obj_data o)
    /\ Forall (fun c => is_Some (address_of (node_map s3) c)) (tree_children u)
    /\ obj_children o
       = concat (replicate (enclosing_roots t k)
                   (omap (address_of (node_map s3)) (tree_children u))).
Proof using Type.
  intros Hwf Hu Hk Hpos. pose proof (well_formed_convert t Hwf) as Hall.
  pose proof (pipeline_flat_of Hwf) as Hflat.
  pose proof pipeline_roots_nodes as Hws.
  assert (Hnd : NoDup (tree_ids t)) by apply Hwf.
  assert (Hfields := proj1 Hwf). rewrite Forall_forall in Hfields.
  (* some block holds the node *)
  unfold enclosing_roots, extract_nodes in Hpos. fold ws in Hpos.
  destruct (List.filter (fun w => bool_decide (Some k ∈ tree_ids w)) ws)
    as [| w l] eqn:Hfilter; [simpl in Hpos; lia |].
  assert (Hw : In w (List.filter (fun w => bool_decide (Some k ∈ tree_ids w)) ws))
    by (rewrite Hfilter; now left).
  apply filter_In in Hw as [Hw Hin]. apply list_elem_of_In in Hw.
  apply bool_decide_eq_true in Hin.
  rewrite Forall_forall in Hws.
  assert (Huw : u ∈ figma_tree_nodes w).
  { apply node_of_id in Hin as (u' & Hu' & Hk').
    assert (u' = u); [| now subst].
    apply (same_node t); [exact Hnd | exact (subtree_nodes t w u' (Hws w Hw) Hu')
                         | exact Hu | congruence]. }
  assert (Hcover : forall c, c ∈ figma_tree_nodes w ->
            exists n, n ∈ flat /\ flat_fields n = without_children (tree_fields c)).
  { intros c Hc. destruct (process_node_covers None w c Hc) as (p & Hp).
    exists (flat_node p c). split; [| reflexivity].
    apply blocks_elem. eauto. }
  destruct (Hcover u Huw) as (n & Hn & Hf).
  destruct (flat_registered t flat u k n Hall Hnd Hflat Hu Hk Hn)
    as (a & o & Hget & Ho & Hinit & Hchildren); [now rewrite Hf |].
  fold recs s3 in Hget, Ho, Hchildren.
  exists a, o. split; [exact Hget |]. split; [exact Ho |]. split; [exact Hinit |].
  split.
  - apply Forall_forall. intros c Hc.
    assert (Hcw : c ∈ figma_tree_nodes w) by exact (nodes_children_closed w u c Huw Hc).
    assert (Hct : c ∈ figma_tree_nodes t) by exact (subtree_nodes t w c (Hws w Hw) Hcw).
    destruct (Hfields c Hct) as ([kc Hkc] & _).
    destruct (Hcover c Hcw) as (nc & Hnc & Hfc).
    destruct (flat_registered t flat c kc nc Hall Hnd Hflat Hct Hkc Hnc)
      as (ac & _ & Hgetc & _); [now rewrite Hfc |].
    fold recs s3 in Hgetc. unfold address_of. rewrite Hkc. simpl. eauto.
  - rewrite Hchildren. unfold flat.
    rewrite (refers_blocks t u ws k Hnd pipeline_roots_nodes Hu Hk).
    rewrite omap_repeated, omap_map.
    unfold enclosing_roots, extract_nodes. fold ws. reflexivity.
Qed.

Lemma pipeline_unregistered (k : string) :
  well_formed t -> enclosing_roots t k = 0 -> dict_get k (node_map s3) = None.
Proof using Type.
  intros Hwf Hzero. pose proof (well_formed_convert t Hwf) as Hall.
  apply (flat_unregistered t flat k Hall (pipeline_flat_of Hwf)).
  intros n Hn Hk. apply blocks_elem in Hn as (w & Hw & Hn).
  pose proof pipeline_roots_nodes as Hws. rewrite Forall_forall in Hws.
  pose proof (block_ids t w n (Hws w Hw) Hn) as Hid. rewrite Hk in Hid.
  unfold enclosing_roots, extract_nodes in Hzero. fold ws in Hzero.
  assert (Hin : In w (List.filter (fun w => bool_decide (Some k ∈ tree_ids w)) ws)).
  { apply filter_In. split; [now apply list_elem_of_In | now apply bool_decide_eq_true]. }
  destruct (List.filter _ ws); [inversion Hin | discriminate].
Qed.

End Pipeline.

(** X24. Extraction, flattening and conversion of a document whose nodes
    have distinct identifiers, have no ["parent_id"] and convert.  The
    conversion returns one root per node of a root type that
    [extract_nodes] lists, in the order of that list, each root being the
    object registered under the identifier of its node: a frame inside a
    frame is a root and a child.  The object registered for a node lists
    the objects of the children of the node, in order, once for every node
    of a root type whose subtree holds the node: with [m] such nodes the
    list of children is repeated [m] times.  The identifier of a node that
    no node of a root type holds is no key of [node_map]. *)
Theorem pipeline_repeats_children (document : FigmaTree) :
  well_formed document ->
  let nodes := extract_nodes (Some document) in
  exists recs roots s,
    map flat_record (flatten_figma_tree nodes) = map Some recs
    /\ convert_to_angular_nodes (map Dict recs) initial = (Ok roots, s)
    /\ Forall2 (fun w a => address_of (node_map s) w = Some a)
         (List.filter is_root_type nodes) roots
    /\ forall u k, u ∈ figma_tree_nodes document -> fn_id (tree_fields u) = Some k ->
         match enclosing_roots document k with
         | O => dict_get k (node_map s) = None
         | S _ =>
             exists a o addrs,
               dict_get k (node_map s) = Some a /\ heap s !! a = Some o
               /\ AngularNode_init (without_children (tree_fields u)) = Ok (obj_data o)
               /\ Forall2 (fun c b => address_of (node_map s) c = Some b)
                    (tree_children u) addrs
               /\ obj_children o
                  = concat (replicate (enclosing_roots document k) addrs)
         end.
Proof.
  intros Hwf nodes. pose proof (well_formed_convert document Hwf) as Hall.
  set (ws := List.filter is_root_type (traverse_node document)).
  set (flat := flat_map (process_node None) ws).
  set (recs := map typed_record flat).
  pose proof (pipeline_flat_of document Hwf) as Hflat. fold ws flat in Hflat.
  destruct (convert_state (map Dict recs)) as (roots & s & E & Hheap & Hmap & Hroots).
  exists recs, roots, s. split.
  { unfold nodes, extract_nodes. rewrite flatten_roots. fold ws flat.
    apply (flat_records document flat Hall Hflat). }
  split; [exact E |]. rewrite Hheap, Hmap. split.
  - pose proof (pipeline_roots document Hwf) as Hr. fold ws flat recs in Hr.
    unfold nodes, extract_nodes. fold ws.
    assert (Hidx : root_nodes (after_passes (map Dict recs) initial)
                   = positions is_parentless flat).
    { rewrite passes_roots_exact. unfold recs at 1.
      rewrite (flat_recs_valid document flat Hall Hflat).
      apply (root_indices_positions document flat Hall Hflat). }
    destruct ws as [| w ws'] eqn:Hws.
    + assert (roots = []); [| subst; constructor].
      unfold recs, flat in E. simpl in E. now injection E as <- _.
    + destruct Hroots as [-> _]; [| now rewrite Hidx].
      rewrite Hidx. intros Hnil. rewrite Hnil in Hr. inversion Hr.
  - intros u k Hu Hk.
    destruct (enclosing_roots document k) as [| m] eqn:Hm.
    + apply (pipeline_unregistered document k Hwf Hm).
    + destruct (pipeline_object document u k Hwf Hu Hk) as (a & o & H1 & H2 & H3 & H4 & H5);
        [lia |].
      fold ws flat recs in H1, H2, H4, H5.
      exists a, o, (omap (address_of (node_map (after_passes (map Dict recs) initial)))
                         (tree_children u)).
      split; [exact H1 |]. split; [exact H2 |]. split; [exact H3 |].
      split; [now apply omap_total |]. now rewrite <- Hm.
Qed.

Lemma sample_document_well_formed : well_formed sample_document.
Proof.
  split.
  - repeat constructor; simpl; eauto.
  - apply (bool_decide_unpack _). vm_compute. exact I.
Qed.

Lemma pipeline_repeats_children_witness :
  exists recs roots s a o b,
    map flat_record (flatten_figma_tree (extract_nodes (Some sample_document)))
    = map Some recs
    /\ convert_to_angular_nodes (map Dict recs) initial = (Ok roots, s)
    /\ length roots = 2
    /\ dict_get "f" (node_map s) = Some a /\ heap s !! a = Some o
    /\ obj_children o = [b; b].
Proof.
  destruct (pipeline_repeats_children sample_document sample_document_well_formed)
    as (recs & roots & s & H1 & H2 & H3 & H4).
  assert (Hin : sample_frame ∈ figma_tree_nodes sample_document).
  { simpl. do 2 apply list_elem_of_further. apply list_elem_of_here. }
  specialize (H4 sample_frame "f"%string Hin eq_refl).
  assert (Hm : enclosing_roots sample_document "f" = 2) by (vm_compute; reflexivity).
  rewrite Hm in H4. destruct H4 as (a & o & addrs & G1 & G2 & _ & G4 & G5).
  apply Forall2_cons_inv_l in G4 as (b & rest & _ & Hrest & ->).
  apply Forall2_nil_inv_l in Hrest as ->.
  exists recs, roots, s, a, o, b.
  split; [exact H1 |]. split; [exact H2 |].
  split; [apply Forall2_length in H3; now rewrite <- H3 |].
  split; [exact G1 |]. split; [exact G2 | exact G5].
Defined.
